(** * Dynamic count labelling: a shallow embedding of [road_network.cpp]

    The development follows the C++ sources of the repository
    ([src/road_network.cpp], [src/util.h], [src/index.cpp]):

    - machine integers are [Z] with the wrap-around written out;
    - [std::vector] is a list read through stdpp's lookup; an access out of
      range is undefined behaviour in C++ and is reported as a fault;
    - the header [road_network.h] is not part of the sources at hand, so the
      compile-time switches and constants it defines are the fields of a
      [BuildConfig] that every function takes as a parameter;
    - a [double] is a primitive binary64 float. *)

From Stdlib Require Import ZArith Lia Bool Ascii String.
From Stdlib Require PrimFloat Uint63.
From stdpp Require Import base decidable option list numbers strings sorting relations.

Local Open Scope Z_scope.

(** ** Machine arithmetic *)

Abbreviation NodeID := nat (only parsing).
Abbreviation distance_t := Z (only parsing).

Definition wrap16 (x : Z) : Z := x mod 65536.
Definition wrap32 (x : Z) : Z := x mod 4294967296.
Definition add32 (a b : Z) : Z := wrap32 (a + b).
Definition sub32 (a b : Z) : Z := wrap32 (a - b).
Definition mul32 (a b : Z) : Z := wrap32 (a * b).
Definition add16 (a b : Z) : Z := wrap16 (a + b).
Definition sub16 (a b : Z) : Z := wrap16 (a - b).
Definition mul16 (a b : Z) : Z := wrap16 (a * b).

Definition UINT32_MAX : Z := 4294967295.
Definition NO_NODE : NodeID := 0%nat.
Definition NO_SUBGRAPH : Z := 0.
Definition MAX_CUT_LEVEL : Z := 58.

(** ** Build configuration

    [road_network.h] decides which branches of the [#ifdef]s are compiled and
    what [infinity] is.  They are parameters here. *)

Record BuildConfig := {
  NDEBUG : bool;                  (* assertions compiled out *)
  NO_SHORTCUTS : bool;
  PRUNING : bool;
  MULTI_THREAD_DISTANCES : bool;
  infinity : distance_t;
  chnode_dist_index : Z           (* dist_index of a freshly resized CHNode *)
}.

(** The configuration the specification describes: [infinity = UINT32_MAX],
    labels queried over the whole prefix. *)
Definition spec_config : BuildConfig :=
  {| NDEBUG := true; NO_SHORTCUTS := true; PRUNING := false;
     MULTI_THREAD_DISTANCES := true; infinity := UINT32_MAX;
     chnode_dist_index := 0 |}.

(** ** Outcomes of a run *)

Inductive fault :=
| AssertionFailed     (* [assert] fails: the process aborts *)
| UndefinedBehaviour  (* out-of-range access, missing return value *)
| OutOfFuel           (* the loop did not finish within the given bound *)
| OutsideModel.       (* a heap block whose layout the abstraction does not cover *)

Inductive result (A : Type) :=
| Ok (a : A)
| Fail (f : fault).
Arguments Ok {A} a.
Arguments Fail {A} f.

Global Instance result_ret : MRet result := λ A a, Ok a.
Global Instance result_bind : MBind result := λ A B k m,
  match m with
  | Ok a => k a
  | Fail f => Fail f
  end.

Definition check (cfg : BuildConfig) (b : bool) : result unit :=
  if NDEBUG cfg then Ok tt else if b then Ok tt else Fail AssertionFailed.

Definition at_ {A} (l : list A) (i : nat) : result A :=
  match l !! i with
  | Some x => Ok x
  | None => Fail UndefinedBehaviour
  end.

Definition set_at {A} (l : list A) (i : nat) (x : A) : result (list A) :=
  if decide (i < length l)%nat then Ok (<[i := x]> l) else Fail UndefinedBehaviour.

(** ** Graph store *)

Record Neighbor := mkNeighbor {
  node : NodeID;
  distance : distance_t;
  path_count : Z
}.

(** [Neighbor(node, distance)] leaves [path_count] unset; it is never read
    for graph edges and is 0 here. *)
Definition Neighbor2 (n : NodeID) (d : distance_t) : Neighbor := mkNeighbor n d 0.

Record Node := mkNode {
  subgraph_id : Z;
  neighbors : list Neighbor
}.

Record Graph := mkGraph {
  node_data : list Node;
  nodes : list NodeID;
  g_subgraph_id : Z
}.

Definition set_neighbors (g : Graph) (v : NodeID) (ns : list Neighbor) : Graph :=
  mkGraph (alter (λ nd, mkNode (subgraph_id nd) ns) v (node_data g)) (nodes g) (g_subgraph_id g).

Definition set_subgraph (g : Graph) (v : NodeID) (id : Z) : Graph :=
  mkGraph (alter (λ nd, mkNode id (neighbors nd)) v (node_data g)) (nodes g) (g_subgraph_id g).

Definition contains (g : Graph) (v : NodeID) : result bool :=
  nd ← at_ (node_data g) v; Ok (subgraph_id nd =? g_subgraph_id g).

(** [Graph::resize]: vertices are numbered from 1, two extra slots hold s and t. *)
Definition resize (cfg : BuildConfig) (g : Graph) (node_count : nat) : result Graph :=
  _ ← check cfg (bool_decide (nodes g = []));
  let nd := replicate (node_count + 3) (mkNode (g_subgraph_id g) []) in
  let nd := alter (λ n, mkNode NO_SUBGRAPH (neighbors n)) 0%nat nd in
  let nd := alter (λ n, mkNode NO_SUBGRAPH (neighbors n)) (node_count + 1)%nat nd in
  let nd := alter (λ n, mkNode NO_SUBGRAPH (neighbors n)) (node_count + 2)%nat nd in
  Ok (mkGraph nd (nodes g ++ seq 1 node_count) (g_subgraph_id g)).

(** [Graph::Graph(size_t node_count)] *)
Definition Graph_new (cfg : BuildConfig) (node_count : nat) : result Graph :=
  resize cfg (mkGraph [] [] 1) node_count.

(** The search loop of [add_edge]: the first entry for [w] takes the smaller
    weight; [None] when there is no such entry. *)
Fixpoint relax_existing (w : NodeID) (d : distance_t) (ns : list Neighbor)
  : option (list Neighbor) :=
  match ns with
  | [] => None
  | n :: ns' =>
      if decide (node n = w)
      then Some (mkNeighbor (node n) (Z.min (distance n) d) (path_count n) :: ns')
      else cons n <$> relax_existing w d ns'
  end.

Definition add_edge1 (cfg : BuildConfig) (g : Graph) (v w : NodeID) (d : distance_t)
  : result Graph :=
  _ ← check cfg (bool_decide (v < length (node_data g))%nat);
  _ ← check cfg (bool_decide (w < length (node_data g))%nat);
  _ ← check cfg (bool_decide (0 < d));
  nd ← at_ (node_data g) v;
  match relax_existing w d (neighbors nd) with
  | Some ns => Ok (set_neighbors g v ns)
  | None => Ok (set_neighbors g v (neighbors nd ++ [Neighbor2 w d]))
  end.

(** [Graph::add_edge(v, w, distance, add_reverse)] *)
Definition add_edge (cfg : BuildConfig) (g : Graph) (v w : NodeID) (d : distance_t)
  (add_reverse : bool) : result Graph :=
  g' ← add_edge1 cfg g v w d;
  if add_reverse then add_edge1 cfg g' w v d else Ok g'.

(** [Graph::degree]: neighbours inside the current subgraph. *)
Fixpoint count_contained (g : Graph) (ns : list Neighbor) : result nat :=
  match ns with
  | [] => Ok 0%nat
  | n :: ns' =>
      c ← contains g (node n);
      k ← count_contained g ns';
      Ok (if c : bool then S k else k)
  end.

Definition degree (cfg : BuildConfig) (g : Graph) (v : NodeID) : result nat :=
  c ← contains g v;
  _ ← check cfg c;
  nd ← at_ (node_data g) v;
  count_contained g (neighbors nd).

(** [Graph::remove_isolated]: the loop un-stamps each vertex of degree 0 at
    once, then [erase_if] drops them from [nodes]. *)
Fixpoint mark_isolated (cfg : BuildConfig) (g : Graph) (todo : list NodeID)
  : result (Graph * list NodeID) :=
  match todo with
  | [] => Ok (g, [])
  | v :: todo' =>
      deg ← degree cfg g v;
      if decide (deg = 0%nat)
      then '(g', iso) ← mark_isolated cfg (set_subgraph g v NO_SUBGRAPH) todo';
           Ok (g', v :: iso)
      else mark_isolated cfg g todo'
  end.

Definition remove_isolated (cfg : BuildConfig) (g : Graph) : result Graph :=
  '(g', isolated) ← mark_isolated cfg g (nodes g);
  Ok (mkGraph (node_data g')
        (filter (λ v, v ∉ isolated) (nodes g'))
        (g_subgraph_id g')).

(** [Graph::update_edge] *)
Fixpoint set_first_distance (w : NodeID) (d : distance_t) (ns : list Neighbor) : list Neighbor :=
  match ns with
  | [] => []
  | n :: ns' =>
      if decide (node n = w)
      then mkNeighbor (node n) d (path_count n) :: ns'
      else n :: set_first_distance w d ns'
  end.

Definition update_edge (g : Graph) (v w : NodeID) (d : distance_t) : result Graph :=
  nd ← at_ (node_data g) v;
  Ok (set_neighbors g v (set_first_distance w d (neighbors nd))).

(** ** Reading a graph

    [std::istream] as far as [read_graph] uses it: the characters still to be
    read and the two state bits.  A number is an optional sign followed by a
    run of decimal digits, as [std::num_get] reads an unsigned value. *)

Record istream := mkStream {
  chars : list ascii;
  failbit : bool;
  eofbit : bool
}.

Definition good (s : istream) : bool := negb (failbit s) && negb (eofbit s).

Definition isspace (c : ascii) : bool :=
  let n := nat_of_ascii c in
  ((n =? 32) || ((9 <=? n) && (n <=? 13)))%nat.

Definition isdigit (c : ascii) : bool :=
  let n := nat_of_ascii c in
  ((48 <=? n) && (n <=? 57))%nat.

Fixpoint skipws (cs : list ascii) : list ascii :=
  match cs with
  | c :: cs' => if isspace c then skipws cs' else cs
  | [] => []
  end.

(** [in >> c] for a [char] *)
Definition get_char (s : istream) : istream * option ascii :=
  if good s then
    match skipws (chars s) with
    | [] => (mkStream [] true true, None)
    | c :: cs => (mkStream cs false false, Some c)
    end
  else (mkStream (chars s) true (eofbit s), None).

(** The digits at the head of the input: their value and the rest. *)
Fixpoint read_digits (acc : Z) (cs : list ascii) : Z * list ascii :=
  match cs with
  | c :: cs' =>
      if isdigit c
      then read_digits (10 * acc + Z.of_nat (nat_of_ascii c - 48)) cs'
      else (acc, cs)
  | [] => (acc, [])
  end.

(** [in >> x] for a [uint32_t].  When the stream is not good, or holds
    nothing but white space, the extraction fails before a value is parsed
    and the variable keeps what it held.  Otherwise a sign may come first;
    without a digit after it 0 is stored, a magnitude above [UINT32_MAX]
    stores [UINT32_MAX], and both set [failbit]; a magnitude that fits is
    stored, negated modulo 2^32 after a minus sign. *)
Definition get_u32 (s : istream) (x : option Z) : istream * option Z :=
  if good s then
    match skipws (chars s) with
    | [] => (mkStream [] true true, x)
    | c :: cs =>
        let negative := bool_decide (c = "-"%char) in
        let body := if negative || bool_decide (c = "+"%char) then cs else c :: cs in
        match body with
        | [] => (mkStream [] true true, Some 0)
        | c' :: _ =>
            if isdigit c' then
              let '(v, rest) := read_digits 0 body in
              let at_end := bool_decide (rest = []) in
              if v <=? UINT32_MAX
              then (mkStream rest false at_end, Some (if negative then wrap32 (- v) else v))
              else (mkStream rest true at_end, Some UINT32_MAX)
            else (mkStream body true false, Some 0)
        end
    end
  else (mkStream (chars s) true (eofbit s), x).

(** [in.ignore(n)] and [in.ignore(n, delim)] *)
Fixpoint discard (n : nat) (delim : option ascii) (cs : list ascii) : list ascii * bool :=
  match n with
  | O => (cs, false)
  | S n' =>
      match cs with
      | [] => ([], true)
      | c :: cs' =>
          if bool_decide (delim = Some c) then (cs', false) else discard n' delim cs'
      end
  end.

Definition ignore (s : istream) (n : nat) (delim : option ascii) : istream :=
  if good s then
    let '(rest, hit_eof) := discard n delim (chars s) in
    mkStream rest false hit_eof
  else mkStream (chars s) true (eofbit s).

Definition newline : ascii := ascii_of_nat 10.

(** A local [uint32_t] that was never assigned has no value to pass on. *)
Definition initialised (x : option Z) : result Z :=
  match x with
  | Some v => Ok v
  | None => Fail UndefinedBehaviour
  end.

(** [in >> v >> w >> d] *)
Definition get_edge (s : istream) (v w d : option Z)
  : istream * option Z * option Z * option Z :=
  let '(s2, v') := get_u32 s v in
  let '(s3, w') := get_u32 s2 w in
  let '(s4, d') := get_u32 s3 d in
  (s4, v', w', d').

(** [g.add_edge(v, w, d, true)] on the three locals *)
Definition add_parsed_edge (cfg : BuildConfig) (g : Graph) (v w d : option Z) : result Graph :=
  a ← initialised v;
  b ← initialised w;
  x ← initialised d;
  add_edge cfg g (Z.to_nat a) (Z.to_nat b) x true.

(** The [while (in >> line_id)] loop of [read_graph]; [v], [w], [d] are the
    three locals, unassigned at first. *)
Fixpoint read_lines (cfg : BuildConfig) (fuel : nat) (s : istream)
    (v w d : option Z) (g : Graph) : result Graph :=
  match fuel with
  | O => Fail OutOfFuel
  | S fuel' =>
      match get_char s with
      | (_, None) => Ok g
      | (s1, Some line_id) =>
          if bool_decide (line_id = "p"%char) then
            let s2 := ignore s1 3 None in
            let '(s3, v') := get_u32 s2 v in
            let s4 := ignore s3 1000 (Some newline) in
            n ← initialised v';
            g' ← resize cfg g (Z.to_nat n);
            read_lines cfg fuel' s4 v' w d g'
          else if bool_decide (line_id = "a"%char) then
            let '(s4, v', w', d') := get_edge s1 v w d in
            g' ← add_parsed_edge cfg g v' w' d';
            read_lines cfg fuel' s4 v' w' d' g'
          else
            read_lines cfg fuel' (ignore s1 1000 (Some newline)) v w d g
      end
  end.

(** [read_graph(g, in)] *)
Definition read_graph (cfg : BuildConfig) (g : Graph) (input : string) : result Graph :=
  let cs := list_ascii_of_string input in
  g' ← read_lines cfg (S (length cs)) (mkStream cs false false) None None None g;
  remove_isolated cfg g'.

(** ** Partition bitvectors *)

Module PBV.

Definition wrap64 (x : Z) : Z := x mod 18446744073709551616.

(** [PBV::from(bits, length)] *)
Definition from (bits : Z) (length : Z) : Z :=
  if length =? 0 then 0
  else Z.lor (Z.shiftr (wrap64 (Z.shiftl bits (64 - length))) (58 - length)) length.

(** [PBV::partition]: the cut level is stored in the lowest 6 bits. *)
Definition partition (bv : Z) : Z := Z.shiftr bv 6.

(** [PBV::cut_level] *)
Definition cut_level (bv : Z) : Z := Z.land bv 63.

Fixpoint ctz_pos (p : positive) : Z :=
  match p with
  | xO p' => 1 + ctz_pos p'
  | _ => 0
  end.

(** [__builtin_ctzll]: only called on a non-zero argument. *)
Definition ctzll (x : Z) : Z :=
  match x with
  | Zpos p => ctz_pos p
  | _ => 0
  end.

(** [PBV::lca_level]: the lowest level at which the partitions differ. *)
Definition lca_level (bv1 bv2 : Z) : Z :=
  let lca_level := Z.min (cut_level bv1) (cut_level bv2) in
  let p1 := partition bv1 in
  let p2 := partition bv2 in
  if p1 =? p2 then lca_level
  else
    let diff_level := ctzll (Z.lxor p1 p2) in
    if diff_level <? lca_level then diff_level else lca_level.

End PBV.

(** ** Cut index (build side) *)

Module CutIndex.

Record t := mk {
  partition : Z;
  cut_level : Z;
  dist_index : list Z;
  distances : list distance_t;
  paths : list Z
}.

(** [CutIndex::CutIndex()] *)
Definition empty_index : t := mk 0 0 [] [] [].

Fixpoint is_sorted (l : list Z) : bool :=
  match l with
  | x :: (y :: _) as l' => (x <=? y) && is_sorted l'
  | _ => true
  end.

(** [CutIndex::is_consistent(partial)] *)
Definition is_consistent (c : t) (partial : bool) : bool :=
  if MAX_CUT_LEVEL <? cut_level c then false
  else if negb partial && (Z.shiftl 1 (cut_level c) <=? partition c) then false
  else if negb partial && negb (Z.of_nat (length (dist_index c)) =? cut_level c + 1) then false
  else is_sorted (dist_index c).

End CutIndex.

(** [get_offset(dist_index, cut_level)] *)
Definition get_offset (dist_index : list Z) (cut_level : Z) : result Z :=
  if cut_level =? 0 then Ok 0
  else
    match dist_index !! Z.to_nat (cut_level - 1) with
    | Some x => Ok x
    | None => Fail OutsideModel
    end.

(** ** Flat cut index (query side)

    A [FlatCutIndex] is a pointer to one heap block
    [[PBV][dist_index][padding][distances][paths]].  The bytes are abstracted:
    a block is its four parts, and reading a part past its end is outside
    the model. *)

Record Block := mkBlock {
  partition_bitvector : Z;
  b_dist_index : list Z;
  b_distances : list distance_t;
  b_paths : list Z
}.

Definition FlatCutIndex := option nat.   (* [data]; [None] is [nullptr] *)
Definition Heap := list Block.

(** [FlatCutIndex::empty] *)
Definition fci_empty (p : FlatCutIndex) : bool := bool_decide (p = None).

Definition deref (h : Heap) (p : FlatCutIndex) : result Block :=
  match p with
  | None => Fail UndefinedBehaviour
  | Some a => at_ h a
  end.

Definition rd (l : list Z) (i : nat) : result Z :=
  match l !! i with
  | Some x => Ok x
  | None => Fail OutsideModel
  end.

(** [len] cells of [l] from [off] on *)
Definition slice (l : list Z) (off len : Z) : result (list Z) :=
  if (0 <=? len) && (off + len <=? Z.of_nat (length l))
  then Ok (take (Z.to_nat len) (drop (Z.to_nat off) l))
  else Fail OutsideModel.

(** [FlatCutIndex::cut_level] *)
Definition b_cut_level (b : Block) : Z := PBV.cut_level (partition_bitvector b).

(** [FlatCutIndex::label_count] *)
Definition label_count (b : Block) : result Z :=
  rd (b_dist_index b) (Z.to_nat (b_cut_level b)).

(** [FlatCutIndex::FlatCutIndex(const CutIndex&)]: the block laid out from
    [ci]; the parts line up when [dist_index] has [cut_level + 1] entries and
    there are [dist_index[cut_level]] labels of each kind. *)
Definition layout_ok (c : CutIndex.t) : bool :=
  (0 <=? CutIndex.cut_level c) && (CutIndex.cut_level c <=? MAX_CUT_LEVEL)
  && (Z.of_nat (length (CutIndex.dist_index c)) =? CutIndex.cut_level c + 1)
  && bool_decide (CutIndex.dist_index c !! Z.to_nat (CutIndex.cut_level c)
                  = Some (Z.of_nat (length (CutIndex.distances c))))
  && (length (CutIndex.paths c) =? length (CutIndex.distances c))%nat.

Definition flatten (cfg : BuildConfig) (c : CutIndex.t) : result Block :=
  _ ← check cfg (CutIndex.is_consistent c false);
  if layout_ok c
  then Ok (mkBlock (PBV.from (CutIndex.partition c) (CutIndex.cut_level c))
             (CutIndex.dist_index c) (CutIndex.distances c) (CutIndex.paths c))
  else Fail OutsideModel.

(** The scan [while (a_ptr != a_end)] over two parallel runs of distances. *)
Fixpoint min_2hop (min_dist : distance_t) (xs ys : list distance_t) : distance_t :=
  match xs, ys with
  | x :: xs', y :: ys' =>
      let dist := add32 x y in
      min_2hop (if dist <? min_dist then dist else min_dist) xs' ys'
  | _, _ => min_dist
  end.

(** [ContractionIndex::get_cut_level_distance(a, b, cut_level)] *)
Definition get_cut_level_distance (cfg : BuildConfig) (a b : Block) (cut_level : Z)
  : result distance_t :=
  a_offset ← get_offset (b_dist_index a) cut_level;
  b_offset ← get_offset (b_dist_index b) cut_level;
  a_end ← rd (b_dist_index a) (Z.to_nat cut_level);
  b_end ← rd (b_dist_index b) (Z.to_nat cut_level);
  let len := Z.min (a_end - a_offset) (b_end - b_offset) in
  xs ← slice (b_distances a) a_offset len;
  ys ← slice (b_distances b) b_offset len;
  Ok (min_2hop (infinity cfg) xs ys).

(** The [PRUNING] loop [for (cl = 0; cl <= cut_level; cl++)]. *)
Fixpoint min_over_levels (cfg : BuildConfig) (a b : Block) (min_dist : distance_t)
    (cl : Z) (todo : nat) : result distance_t :=
  match todo with
  | O => Ok min_dist
  | S todo' =>
      d ← get_cut_level_distance cfg a b cl;
      min_over_levels cfg a b (Z.min min_dist d) (cl + 1) todo'
  end.

(** [ContractionIndex::get_distance(FlatCutIndex a, FlatCutIndex b)], on the
    two blocks *)
Definition get_distance_blocks (cfg : BuildConfig) (a b : Block) : result distance_t :=
  let cut_level := PBV.lca_level (partition_bitvector a) (partition_bitvector b) in
  if NO_SHORTCUTS cfg then
    if PRUNING cfg then
      min_over_levels cfg a b (infinity cfg) 0 (Z.to_nat (cut_level + 1))
    else
      a_end ← rd (b_dist_index a) (Z.to_nat cut_level);
      b_end ← rd (b_dist_index b) (Z.to_nat cut_level);
      let len := Z.min a_end b_end in
      xs ← slice (b_distances a) 0 len;
      ys ← slice (b_distances b) 0 len;
      Ok (min_2hop (infinity cfg) xs ys)
  else get_cut_level_distance cfg a b cut_level.

Definition get_distance_fci (cfg : BuildConfig) (h : Heap) (a b : FlatCutIndex)
  : result distance_t :=
  _ ← check cfg (negb (fci_empty a));
  ba ← deref h a;
  _ ← check cfg (negb (fci_empty b));
  bb ← deref h b;
  get_distance_blocks cfg ba bb.

(** The scan of [get_paths]: distance and count of the best 2-hop so far. *)
Fixpoint count_2hop (min_dist : distance_t) (spc : Z)
    (xs ys : list distance_t) (ps qs : list Z) : Z :=
  match xs, ys, ps, qs with
  | x :: xs', y :: ys', p :: ps', q :: qs' =>
      let d := add32 x y in
      let c := mul16 p q in
      if d <? min_dist then count_2hop d c xs' ys' ps' qs'
      else if d =? min_dist then count_2hop min_dist (add16 spc c) xs' ys' ps' qs'
      else count_2hop min_dist spc xs' ys' ps' qs'
  | _, _, _, _ => spc
  end.

(** [ContractionIndex::get_paths(FlatCutIndex a, FlatCutIndex b)], on the two
    blocks *)
Definition get_paths_blocks (cfg : BuildConfig) (a b : Block) : result Z :=
  let cut_level := PBV.lca_level (partition_bitvector a) (partition_bitvector b) in
  a_end ← rd (b_dist_index a) (Z.to_nat cut_level);
  b_end ← rd (b_dist_index b) (Z.to_nat cut_level);
  let len := Z.min a_end b_end in
  xs ← slice (b_distances a) 0 len;
  ys ← slice (b_distances b) 0 len;
  ps ← slice (b_paths a) 0 len;
  qs ← slice (b_paths b) 0 len;
  Ok (count_2hop (infinity cfg) 0 xs ys ps qs).

Definition get_paths (cfg : BuildConfig) (h : Heap) (a b : FlatCutIndex) : result Z :=
  _ ← check cfg (negb (fci_empty a));
  ba ← deref h a;
  _ ← check cfg (negb (fci_empty b));
  bb ← deref h b;
  get_paths_blocks cfg ba bb.

(** ** Contraction index *)

Record ContractionLabel := mkLabel {
  cut_index : FlatCutIndex;
  distance_offset : distance_t;
  parent : NodeID
}.

(** [ContractionLabel::ContractionLabel()] *)
Definition ContractionLabel_default : ContractionLabel := mkLabel None 0 NO_NODE.

Record ContractionIndex := mkIndex {
  labels : list ContractionLabel;
  heap : Heap
}.

(** [ContractionIndex::get_contraction_label] *)
Definition get_contraction_label (ci : ContractionIndex) (v : NodeID) : result ContractionLabel :=
  at_ (labels ci) v.

(** [ContractionIndex::is_contracted] *)
Definition is_contracted (ci : ContractionIndex) (v : NodeID) : result bool :=
  l ← at_ (labels ci) v; Ok (negb (bool_decide (parent l = NO_NODE))).

(** [ContractionIndex::update_distance_offset] *)
Definition update_distance_offset (ci : ContractionIndex) (n : NodeID) (d : distance_t)
  : result ContractionIndex :=
  l ← at_ (labels ci) n;
  Ok (mkIndex (<[n := mkLabel (cut_index l) d (parent l)]> (labels ci)) (heap ci)).

(** The walk [while (v_anc != w_anc)] of [get_distance] towards the lowest
    common ancestor; it yields the label [cv_anc] it stops at. *)
Fixpoint lca_walk (ls : list ContractionLabel) (fuel : nat)
    (v_anc w_anc : NodeID) (cv_anc cw_anc : ContractionLabel) : result ContractionLabel :=
  if decide (v_anc = w_anc) then Ok cv_anc
  else
    match fuel with
    | O => Fail OutOfFuel
    | S fuel' =>
        if distance_offset cv_anc <? distance_offset cw_anc then
          cw' ← at_ ls (parent cw_anc);
          lca_walk ls fuel' v_anc (parent cw_anc) cv_anc cw'
        else if distance_offset cw_anc <? distance_offset cv_anc then
          cv' ← at_ ls (parent cv_anc);
          lca_walk ls fuel' (parent cv_anc) w_anc cv' cw_anc
        else
          cv' ← at_ ls (parent cv_anc);
          cw' ← at_ ls (parent cw_anc);
          lca_walk ls fuel' (parent cv_anc) (parent cw_anc) cv' cw'
    end.

(** [ContractionIndex::get_distance(NodeID v, NodeID w)]; [fuel] bounds the
    iterations of the ancestor walk. *)
Definition get_distance (cfg : BuildConfig) (ci : ContractionIndex) (fuel : nat)
    (v w : NodeID) : result distance_t :=
  cv ← at_ (labels ci) v;
  cw ← at_ (labels ci) w;
  _ ← check cfg (negb (fci_empty (cut_index cv)) && negb (fci_empty (cut_index cw)));
  if decide (cut_index cv = cut_index cw) then
    if decide (v = w) then Ok 0
    else if distance_offset cv =? 0 then Ok (distance_offset cw)
    else if distance_offset cw =? 0 then Ok (distance_offset cv)
    else if decide (parent cv = w) then Ok (sub32 (distance_offset cv) (distance_offset cw))
    else if decide (parent cw = v) then Ok (sub32 (distance_offset cw) (distance_offset cv))
    else
      anc ← lca_walk (labels ci) fuel v w cv cw;
      Ok (sub32 (add32 (distance_offset cv) (distance_offset cw))
                (mul32 2 (distance_offset anc)))
  else
    d ← get_distance_fci cfg (heap ci) (cut_index cv) (cut_index cw);
    Ok (add32 (add32 (distance_offset cv) (distance_offset cw)) d).

(** [ContractionIndex::get_spc(NodeID v, NodeID w)] *)
Definition get_spc (cfg : BuildConfig) (ci : ContractionIndex) (v w : NodeID) : result Z :=
  cv ← at_ (labels ci) v;
  cw ← at_ (labels ci) w;
  _ ← check cfg (negb (fci_empty (cut_index cv)) && negb (fci_empty (cut_index cw)));
  if decide (cut_index cv = cut_index cw) then Ok 1
  else get_paths cfg (heap ci) (cut_index cv) (cut_index cw).

(** [ContractionIndex::ContractionIndex(ci, closest)]

    The root search [while (closest[root].node != root)]; a chain longer
    than [closest] has a cycle, on which the C++ loop never ends. *)
Fixpoint find_root (closest : list Neighbor) (fuel : nat) (root : NodeID)
    (root_dist : distance_t) : result (NodeID * distance_t) :=
  c ← at_ closest root;
  if decide (node c = root) then Ok (root, root_dist)
  else
    match fuel with
    | O => Fail OutOfFuel
    | S fuel' => find_root closest fuel' (node c) (add32 root_dist (distance c))
    end.

(** First loop: core vertices get a block of their own. *)
Fixpoint index_core (cfg : BuildConfig) (ci : list CutIndex.t) (closest : list Neighbor)
    (todo : list NodeID) (idx : ContractionIndex) : result ContractionIndex :=
  match todo with
  | [] => Ok idx
  | v :: todo' =>
      c ← at_ closest v;
      cix ← at_ ci v;
      idx' ← (if decide (node c = v) then
                _ ← check cfg (distance c =? 0);
                blk ← flatten cfg cix;
                l ← at_ (labels idx) v;
                Ok (mkIndex
                      (<[v := mkLabel (Some (length (heap idx))) (distance_offset l) (parent l)]>
                         (labels idx))
                      (heap idx ++ [blk]))
              else Ok idx);
      index_core cfg ci closest todo' idx'
  end.

(** Second loop: contracted vertices refer to the block of their root. *)
Fixpoint index_periphery (cfg : BuildConfig) (closest : list Neighbor)
    (todo : list NodeID) (idx : ContractionIndex) : result ContractionIndex :=
  match todo with
  | [] => Ok idx
  | v :: todo' =>
      n ← at_ closest v;
      idx' ← (if decide (node n ≠ v ∧ node n ≠ NO_NODE) then
                _ ← check cfg (0 <? distance n);
                '(root, root_dist) ← find_root closest (length closest) (node n) (distance n);
                lr ← at_ (labels idx) root;
                _ ← check cfg (negb (fci_empty (cut_index lr)));
                _ ← at_ (labels idx) v;
                Ok (mkIndex (<[v := mkLabel (cut_index lr) root_dist (node n)]> (labels idx))
                      (heap idx))
              else Ok idx);
      index_periphery cfg closest todo' idx'
  end.

Definition ContractionIndex_build (cfg : BuildConfig) (ci : list CutIndex.t)
    (closest : list Neighbor) : result ContractionIndex :=
  _ ← check cfg (length ci =? length closest)%nat;
  let todo := seq 1 (length closest - 1) in
  idx ← index_core cfg ci closest todo
          (mkIndex (replicate (length ci) ContractionLabel_default) []);
  index_periphery cfg closest todo idx.

(** ** Utilities ([util.h]) *)

Module util.

(** [std::sort(first, last, comp)].  The order of elements that compare
    equal is not fixed by the standard; this one keeps their order. *)
Fixpoint insert_by {A} (lt : A → A → bool) (x : A) (l : list A) : list A :=
  match l with
  | [] => [x]
  | y :: l' => if lt y x then y :: insert_by lt x l' else x :: l
  end.

Definition sort_by {A} (lt : A → A → bool) (l : list A) : list A :=
  foldr (insert_by lt) [] l.

(** The compaction loop of [make_set(v, comp)]: an element is kept when its
    [node] differs from the last one kept. *)
Fixpoint distinct_after (last : Neighbor) (l : list Neighbor) : list Neighbor :=
  match l with
  | [] => []
  | x :: l' =>
      if decide (node x = node last) then distinct_after last l'
      else x :: distinct_after x l'
  end.

(** [util::make_set(v, comp)] *)
Definition make_set (comp : Neighbor → Neighbor → bool) (v : list Neighbor) : list Neighbor :=
  if (length v <? 2)%nat then v
  else
    match sort_by comp v with
    | [] => []
    | x :: l => x :: distinct_after x l
    end.

(** [util::min_bucket_queue<T>] *)
Record min_bucket_queue (T : Type) := mkQueue {
  buckets : list (list T);
  min_bucket : nat
}.
Arguments mkQueue {T} _ _.
Arguments buckets {T} _.
Arguments min_bucket {T} _.

Definition queue_new {T} : min_bucket_queue T := mkQueue [] 0.

Definition empty {T} (q : min_bucket_queue T) : bool :=
  (length (buckets q) <=? min_bucket q)%nat.

Definition push {T} (q : min_bucket_queue T) (value : T) (bucket : nat) : min_bucket_queue T :=
  let mb := if empty q || (bucket <? min_bucket q)%nat then bucket else min_bucket q in
  let bs := buckets q ++ replicate (S bucket - length (buckets q)) [] in
  mkQueue (alter (λ b, b ++ [value]) bucket bs) mb.

(** The loop [while (min_bucket < buckets.size() && buckets[min_bucket].empty())] *)
Fixpoint skip_empty {T} (bs : list (list T)) (k : nat) : nat :=
  match bs with
  | [] :: bs' => skip_empty bs' (S k)
  | _ => k
  end.

(** [pop]: the last element of the lowest non-empty bucket. *)
Definition pop {T} (cfg : BuildConfig) (q : min_bucket_queue T)
  : result (T * min_bucket_queue T) :=
  match buckets q !! min_bucket q with
  | None => if NDEBUG cfg then Fail UndefinedBehaviour else Fail AssertionFailed
  | Some b =>
      match last b with
      | None => if NDEBUG cfg then Fail UndefinedBehaviour else Fail AssertionFailed
      | Some top =>
          let bs := <[min_bucket q := removelast b]> (buckets q) in
          Ok (top, mkQueue bs (skip_empty (drop (min_bucket q) bs) (min_bucket q)))
      end
  end.

End util.

(** ** Shortcut graph *)

Module CHNode.

Record t := mk {
  dist_index : Z;
  up_neighbors : list Neighbor;
  down_neighbors : list NodeID
}.

End CHNode.

(** [ContractionHierarchy]: the vector [nodes]. *)
Abbreviation ContractionHierarchy := (list CHNode.t) (only parsing).

Definition CONTRACTED : Z := 65535.

Definition set_dist_index (ch : ContractionHierarchy) (v : NodeID) (di : Z) : ContractionHierarchy :=
  alter (λ n, CHNode.mk di (CHNode.up_neighbors n) (CHNode.down_neighbors n)) v ch.

Definition set_up (ch : ContractionHierarchy) (v : NodeID) (up : list Neighbor) : ContractionHierarchy :=
  alter (λ n, CHNode.mk (CHNode.dist_index n) up (CHNode.down_neighbors n)) v ch.

Definition set_down (ch : ContractionHierarchy) (v : NodeID) (down : list NodeID) : ContractionHierarchy :=
  alter (λ n, CHNode.mk (CHNode.dist_index n) (CHNode.up_neighbors n) down) v ch.

(** [std::vector::resize(n, x)] *)
Definition vresize {A} (l : list A) (n : nat) (x : A) : list A :=
  take n l ++ replicate (n - length l) x.

Definition set_labels (ci : list CutIndex.t) (v : NodeID) (ds : list distance_t) (ps : list Z)
  : list CutIndex.t :=
  alter (λ c, CutIndex.mk (CutIndex.partition c) (CutIndex.cut_level c)
                (CutIndex.dist_index c) ds ps) v ci.

(** [ci[v].distances[i] = d; ci[v].paths[i] = p;] *)
Definition store_label (ci : list CutIndex.t) (v : NodeID) (i : nat) (d : distance_t) (p : Z)
  : result (list CutIndex.t) :=
  c ← at_ ci v;
  ds ← set_at (CutIndex.distances c) i d;
  ps ← set_at (CutIndex.paths c) i p;
  Ok (set_labels ci v ds ps).

Definition dist_index_of (ch : ContractionHierarchy) (v : NodeID) : result Z :=
  n ← at_ ch v; Ok (CHNode.dist_index n).

(** *** [Graph::create_sc_graph(ch, ci, closest)] *)

(** First loop: the position of each core vertex in its own label array
    decides the direction of the edges; contracted vertices get 65535. *)
Fixpoint sc_init (cfg : BuildConfig) (closest : list Neighbor) (todo : list NodeID)
    (ch : ContractionHierarchy) (ci : list CutIndex.t) (bottom_up : list NodeID)
  : result (ContractionHierarchy * list CutIndex.t * list NodeID) :=
  match todo with
  | [] => Ok (ch, ci, bottom_up)
  | v :: todo' =>
      c ← at_ closest v;
      _ ← at_ ch v;
      if decide (node c = v) then
        cix ← at_ ci v;
        last ← at_ (CutIndex.dist_index cix) (Z.to_nat (CutIndex.cut_level cix));
        let di := sub16 last 1 in
        let ds := vresize (CutIndex.distances cix) (Z.to_nat di) (infinity cfg) in
        let ps := vresize (CutIndex.paths cix) (Z.to_nat di) 0 in
        sc_init cfg closest todo' (set_dist_index ch v di) (set_labels ci v ds ps)
          (bottom_up ++ [v])
      else
        sc_init cfg closest todo' (set_dist_index ch v CONTRACTED) ci bottom_up
  end.

(** Second loop, for one vertex: its graph edges towards smaller [dist_index]. *)
Fixpoint sc_up_edges (closest : list Neighbor) (v : NodeID) (ns : list Neighbor)
    (ch : ContractionHierarchy) (ci : list CutIndex.t)
  : result (ContractionHierarchy * list CutIndex.t) :=
  match ns with
  | [] => Ok (ch, ci)
  | n :: ns' =>
      c ← at_ closest (node n);
      if decide (node c = node n) then
        dn ← dist_index_of ch (node n);
        chv ← at_ ch v;
        if dn <? CHNode.dist_index chv then
          let ch' := set_up ch v (CHNode.up_neighbors chv ++ [mkNeighbor (node n) (distance n) 1]) in
          ci' ← store_label ci v (Z.to_nat dn) (distance n) 1;
          sc_up_edges closest v ns' ch' ci'
        else sc_up_edges closest v ns' ch ci
      else sc_up_edges closest v ns' ch ci
  end.

Fixpoint sc_graph_edges (g : Graph) (closest : list Neighbor) (todo : list NodeID)
    (ch : ContractionHierarchy) (ci : list CutIndex.t)
  : result (ContractionHierarchy * list CutIndex.t) :=
  match todo with
  | [] => Ok (ch, ci)
  | v :: todo' =>
      nd ← at_ (node_data g) v;
      '(ch', ci') ← sc_up_edges closest v (neighbors nd) ch ci;
      sc_graph_edges g closest todo' ch' ci'
  end.

(** The lambdas [di_order] and [di_order1]; a vertex outside [ch] counts as 0
    (the comparators are only applied to vertices already looked up). *)
Definition di (ch : ContractionHierarchy) (v : NodeID) : Z :=
  match ch !! v with
  | Some n => CHNode.dist_index n
  | None => 0
  end.

Definition di_order (ch : ContractionHierarchy) (a b : NodeID) : bool :=
  di ch b <? di ch a.

Definition di_order1 (ch : ContractionHierarchy) (a b : Neighbor) : bool :=
  if di ch (node b) <? di ch (node a) then true
  else if (di ch (node a) =? di ch (node b)) && (distance a <? distance b) then true
  else if (di ch (node a) =? di ch (node b)) && (distance a =? distance b)
          && (path_count b <? path_count a) then true
  else false.

(** The body of the pair loop for [up[i]] and [up[j]], [i < j].  The new edge
    is appended to the list of [up[i].node]; should that be the list being
    traversed ([up[i].node = v]) the run is outside the model. *)
Definition sc_shortcut (v : NodeID) (ui uj : Neighbor)
    (ch : ContractionHierarchy) (ci : list CutIndex.t)
  : result (ContractionHierarchy * list CutIndex.t) :=
  let weight := add32 (distance ui) (distance uj) in
  let pc := mul16 (path_count ui) (path_count uj) in
  dj ← dist_index_of ch (node uj);
  c ← at_ ci (node ui);
  cur ← at_ (CutIndex.distances c) (Z.to_nat dj);
  if weight <? cur then
    if decide (node ui = v) then Fail OutsideModel
    else
      chi ← at_ ch (node ui);
      let ch' := set_up ch (node ui)
                   (CHNode.up_neighbors chi ++ [mkNeighbor (node uj) weight pc]) in
      ci' ← store_label ci (node ui) (Z.to_nat dj) weight pc;
      Ok (ch', ci')
  else if weight =? cur then
    p ← at_ (CutIndex.paths c) (Z.to_nat dj);
    let total := add16 p pc in
    ci' ← store_label ci (node ui) (Z.to_nat dj) cur total;
    if decide (node ui = v) then Fail OutsideModel
    else
      chi ← at_ ch (node ui);
      Ok (set_up ch (node ui)
            (CHNode.up_neighbors chi ++ [mkNeighbor (node uj) weight total]), ci')
  else Ok (ch, ci).

(** [for (j = i + 1; j < up.size(); j++)] *)
Fixpoint sc_pairs_from (v : NodeID) (ui : Neighbor) (rest : list Neighbor)
    (ch : ContractionHierarchy) (ci : list CutIndex.t)
  : result (ContractionHierarchy * list CutIndex.t) :=
  match rest with
  | [] => Ok (ch, ci)
  | uj :: rest' =>
      '(ch', ci') ← sc_shortcut v ui uj ch ci;
      sc_pairs_from v ui rest' ch' ci'
  end.

(** [for (i = 0; i + 1 < up.size(); i++)] *)
Fixpoint sc_pairs (v : NodeID) (up : list Neighbor)
    (ch : ContractionHierarchy) (ci : list CutIndex.t)
  : result (ContractionHierarchy * list CutIndex.t) :=
  match up with
  | [] => Ok (ch, ci)
  | ui :: rest =>
      '(ch', ci') ← sc_pairs_from v ui rest ch ci;
      sc_pairs v rest ch' ci'
  end.

(** [for (Neighbor upn : up) ch.nodes[upn.node].down_neighbors.push_back(node)] *)
Fixpoint sc_down (v : NodeID) (up : list Neighbor) (ch : ContractionHierarchy)
  : result ContractionHierarchy :=
  match up with
  | [] => Ok ch
  | upn :: up' =>
      n ← at_ ch (node upn);
      sc_down v up' (set_down ch (node upn) (CHNode.down_neighbors n ++ [v]))
  end.

(** Third loop: shortcuts, bottom-up. *)
Fixpoint sc_bottom_up (todo : list NodeID)
    (ch : ContractionHierarchy) (ci : list CutIndex.t)
  : result (ContractionHierarchy * list CutIndex.t) :=
  match todo with
  | [] => Ok (ch, ci)
  | v :: todo' =>
      chv ← at_ ch v;
      let up := util.make_set (di_order1 ch) (CHNode.up_neighbors chv) in
      let ch1 := set_up ch v up in
      '(ch2, ci2) ← sc_pairs v up ch1 ci;
      ch3 ← sc_down v up ch2;
      sc_bottom_up todo' ch3 ci2
  end.

(** One step of the label scan: [(dist, path_count)] meets the stored label. *)
Definition relax_label (ci : list CutIndex.t) (x : NodeID) (anc : nat)
    (dist : distance_t) (pc : Z) : result (list CutIndex.t) :=
  c ← at_ ci x;
  cur ← at_ (CutIndex.distances c) anc;
  if dist <? cur then store_label ci x anc dist pc
  else if dist =? cur then
    p ← at_ (CutIndex.paths c) anc;
    store_label ci x anc cur (add16 p pc)
  else Ok ci.

(** [for (anc = 0; anc < ch.nodes[n.node].dist_index; anc++)] *)
Fixpoint sc_label_ancestors (x : NodeID) (n : Neighbor) (ancs : list nat)
    (ci : list CutIndex.t) : result (list CutIndex.t) :=
  match ancs with
  | [] => Ok ci
  | anc :: ancs' =>
      cn ← at_ ci (node n);
      d ← at_ (CutIndex.distances cn) anc;
      p ← at_ (CutIndex.paths cn) anc;
      ci' ← relax_label ci x anc (add32 (distance n) d) (mul16 (path_count n) p);
      sc_label_ancestors x n ancs' ci'
  end.

Fixpoint sc_label_up (ch : ContractionHierarchy) (x : NodeID) (up : list Neighbor)
    (ci : list CutIndex.t) : result (list CutIndex.t) :=
  match up with
  | [] => Ok ci
  | n :: up' =>
      dn ← dist_index_of ch (node n);
      ci' ← sc_label_ancestors x n (seq 0 (Z.to_nat dn)) ci;
      sc_label_up ch x up' ci'
  end.

(** Fourth loop: labels, top-down.  Without [MULTI_THREAD_DISTANCES] the
    down-neighbours of each vertex are sorted on the way. *)
Fixpoint sc_labels (cfg : BuildConfig) (todo : list NodeID)
    (ch : ContractionHierarchy) (ci : list CutIndex.t)
  : result (ContractionHierarchy * list CutIndex.t) :=
  match todo with
  | [] => Ok (ch, ci)
  | x :: todo' =>
      chx ← at_ ch x;
      let ch' := if MULTI_THREAD_DISTANCES cfg then ch
                 else set_down ch x (util.sort_by Nat.ltb (CHNode.down_neighbors chx)) in
      ci1 ← sc_label_up ch' x (CHNode.up_neighbors chx) ci;
      c ← at_ ci1 x;
      let ci2 := set_labels ci1 x (CutIndex.distances c ++ [0]) (CutIndex.paths c ++ [1]) in
      sc_labels cfg todo' ch' ci2
  end.

(** The order of the fourth loop.  With [MULTI_THREAD_DISTANCES] the worker
    threads take the buckets of a [par_max_bucket_list] by increasing
    [dist_index], each vertex once; the threads of one bucket write disjoint
    label arrays and are modelled by one thread that takes the bucket in the
    order it was filled. *)
Definition sc_label_order (cfg : BuildConfig) (ch : ContractionHierarchy)
    (bottom_up : list NodeID) : result (list NodeID) :=
  if MULTI_THREAD_DISTANCES cfg then
    _ ← at_ bottom_up 0%nat;
    Ok (util.sort_by (λ a b, di ch a <? di ch b) bottom_up)
  else Ok (rev bottom_up).

Definition create_sc_graph (cfg : BuildConfig) (g : Graph) (ch : ContractionHierarchy)
    (ci : list CutIndex.t) (closest : list Neighbor)
  : result (ContractionHierarchy * list CutIndex.t) :=
  let ch0 := vresize ch (length (nodes g) + 1)
               (CHNode.mk (chnode_dist_index cfg) [] []) in
  '(ch1, ci1, bottom_up) ← sc_init cfg closest (nodes g) ch0 ci [];
  '(ch2, ci2) ← sc_graph_edges g closest bottom_up ch1 ci1;
  let bottom_up_nodes := util.sort_by (di_order ch2) bottom_up in
  '(ch3, ci3) ← sc_bottom_up bottom_up_nodes ch2 ci2;
  order ← sc_label_order cfg ch3 bottom_up_nodes;
  sc_labels cfg order ch3 ci3.

(** *** [Graph::create_sc_graph(ch, ci)]

    The overload without [closest]: every vertex of the graph is a core
    vertex.  The third and fourth loops are those of the overload above. *)
Fixpoint sc_init_all (cfg : BuildConfig) (todo : list NodeID)
    (ch : ContractionHierarchy) (ci : list CutIndex.t)
  : result (ContractionHierarchy * list CutIndex.t) :=
  match todo with
  | [] => Ok (ch, ci)
  | v :: todo' =>
      _ ← at_ ch v;
      cix ← at_ ci v;
      last ← at_ (CutIndex.dist_index cix) (Z.to_nat (CutIndex.cut_level cix));
      let di := sub16 last 1 in
      let ds := vresize (CutIndex.distances cix) (Z.to_nat di) (infinity cfg) in
      let ps := vresize (CutIndex.paths cix) (Z.to_nat di) 0 in
      sc_init_all cfg todo' (set_dist_index ch v di) (set_labels ci v ds ps)
  end.

Fixpoint sc_up_edges_all (v : NodeID) (ns : list Neighbor)
    (ch : ContractionHierarchy) (ci : list CutIndex.t)
  : result (ContractionHierarchy * list CutIndex.t) :=
  match ns with
  | [] => Ok (ch, ci)
  | n :: ns' =>
      dn ← dist_index_of ch (node n);
      chv ← at_ ch v;
      if dn <? CHNode.dist_index chv then
        let ch' := set_up ch v (CHNode.up_neighbors chv ++ [mkNeighbor (node n) (distance n) 1]) in
        ci' ← store_label ci v (Z.to_nat dn) (distance n) 1;
        sc_up_edges_all v ns' ch' ci'
      else sc_up_edges_all v ns' ch ci
  end.

Fixpoint sc_graph_edges_all (g : Graph) (todo : list NodeID)
    (ch : ContractionHierarchy) (ci : list CutIndex.t)
  : result (ContractionHierarchy * list CutIndex.t) :=
  match todo with
  | [] => Ok (ch, ci)
  | v :: todo' =>
      nd ← at_ (node_data g) v;
      '(ch', ci') ← sc_up_edges_all v (neighbors nd) ch ci;
      sc_graph_edges_all g todo' ch' ci'
  end.

Definition create_sc_graph_all (cfg : BuildConfig) (g : Graph) (ch : ContractionHierarchy)
    (ci : list CutIndex.t) : result (ContractionHierarchy * list CutIndex.t) :=
  let ch0 := vresize ch (length (nodes g) + 1)
               (CHNode.mk (chnode_dist_index cfg) [] []) in
  '(ch1, ci1) ← sc_init_all cfg (nodes g) ch0 ci;
  '(ch2, ci2) ← sc_graph_edges_all g (nodes g) ch1 ci1;
  let bottom_up_nodes := util.sort_by (di_order ch2) (nodes g) in
  '(ch3, ci3) ← sc_bottom_up bottom_up_nodes ch2 ci2;
  order ← sc_label_order cfg ch3 bottom_up_nodes;
  sc_labels cfg order ch3 ci3.

(** ** Maintenance of the shortcut graph *)

(** [Graph::UpNeighbor(ch, v, w)]: the first up-neighbour of [v] whose node is
    [w], with its position; the C++ function returns nothing when there is
    none. *)
Fixpoint find_neighbor (w : NodeID) (l : list Neighbor) (k : nat) : option (nat * Neighbor) :=
  match l with
  | [] => None
  | n :: l' => if decide (node n = w) then Some (k, n) else find_neighbor w l' (S k)
  end.

Definition UpNeighbor (ch : ContractionHierarchy) (v w : NodeID) : result (nat * Neighbor) :=
  n ← at_ ch v;
  match find_neighbor w (CHNode.up_neighbors n) 0 with
  | Some r => Ok r
  | None => Fail UndefinedBehaviour
  end.

(** Assignment through the reference returned by [UpNeighbor]. *)
Definition assign_up (ch : ContractionHierarchy) (v : NodeID) (k : nat)
    (d : distance_t) (pc : Z) : ContractionHierarchy :=
  alter (λ n, CHNode.mk (CHNode.dist_index n)
                (alter (λ x, mkNeighbor (node x) d pc) k (CHNode.up_neighbors n))
                (CHNode.down_neighbors n)) v ch.

Record DCHSearchNode := mkDCH {
  s_dist_index : Z;
  s_v : NodeID;
  s_w : NodeID;
  s_distance : distance_t;
  s_path_count : Z
}.

(** [std::priority_queue<DCHSearchNode>]: the top is an entry of largest
    [dist_index]; among several the standard fixes none, the first pushed
    is taken here. *)
Definition priority_queue := list DCHSearchNode.

Fixpoint pq_max (q : priority_queue) : Z :=
  match q with
  | [] => 0
  | x :: q' => Z.max (s_dist_index x) (pq_max q')
  end.

Fixpoint pq_take (m : Z) (q : priority_queue) : option (DCHSearchNode * priority_queue) :=
  match q with
  | [] => None
  | x :: q' =>
      if s_dist_index x =? m then Some (x, q')
      else '(y, r) ← pq_take m q'; Some (y, x :: r)
  end.

Definition pq_pop (q : priority_queue) : option (DCHSearchNode * priority_queue) :=
  pq_take (pq_max q) q.

Definition update_t : Type := (distance_t * distance_t) * (NodeID * NodeID).
Definition edge_t : Type := NodeID * NodeID.
Definition edata_t : Type := distance_t * Z.

(** [if (ch.nodes[a].dist_index < ch.nodes[b].dist_index) swap(a, b)] *)
Definition higher_first (ch : ContractionHierarchy) (a b : NodeID) : result (NodeID * NodeID) :=
  da ← dist_index_of ch a;
  db ← dist_index_of ch b;
  Ok (if da <? db then (b, a) else (a, b)).

(** Lexicographic [operator<] of [pair<edge_t, edata_t>]. *)
Definition edge_lt (x y : edge_t * edata_t) : bool :=
  let '((a1, b1), (d1, c1)) := x in
  let '((a2, b2), (d2, c2)) := y in
  if (a1 <? a2)%nat then true else if (a2 <? a1)%nat then false
  else if (b1 <? b2)%nat then true else if (b2 <? b1)%nat then false
  else if d1 <? d2 then true else if d2 <? d1 then false
  else c1 <? c2.

Fixpoint merge_after (last : edge_t * edata_t) (l : list (edge_t * edata_t))
  : list (edge_t * edata_t) :=
  match l with
  | [] => [last]
  | x :: l' =>
      if decide (x.1 = last.1) then
        if x.2.1 <? last.2.1 then merge_after (last.1, x.2) l'
        else if x.2.1 =? last.2.1 then merge_after (last.1, (last.2.1, add16 last.2.2 x.2.2)) l'
        else merge_after last l'
      else last :: merge_after x l'
  end.

(** [Graph::merge_edges] *)
Definition merge_edges (v : list (edge_t * edata_t)) : list (edge_t * edata_t) :=
  if (length v <? 2)%nat then v
  else
    match util.sort_by edge_lt v with
    | [] => []
    | x :: l => merge_after x l
    end.

(** *** [Graph::GS_Dec] *)

Fixpoint GS_Dec_seed (ch : ContractionHierarchy) (updates : list update_t)
    (q : priority_queue) : result priority_queue :=
  match updates with
  | [] => Ok q
  | (_, new, (a0, b0)) :: updates' =>
      '(a, b) ← higher_first ch a0 b0;
      '(_, x) ← UpNeighbor ch a b;
      da ← dist_index_of ch a;
      GS_Dec_seed ch updates' (if new <=? distance x then q ++ [mkDCH da a b new 1] else q)
  end.

(** [for (Neighbor n : ch.nodes[next.v].up_neighbors)] of [GS_Dec] *)
Fixpoint GS_Dec_relax (ch : ContractionHierarchy) (next : DCHSearchNode)
    (ns : list Neighbor) (q : priority_queue) : result priority_queue :=
  match ns with
  | [] => Ok q
  | n :: ns' =>
      if decide (node n ≠ s_w next) then
        let dist := add32 (s_distance next) (distance n) in
        let pc := mul16 (s_path_count next) (path_count n) in
        '(a, b) ← higher_first ch (s_w next) (node n);
        '(_, x) ← UpNeighbor ch a b;
        da ← dist_index_of ch a;
        GS_Dec_relax ch next ns' (if dist <=? distance x then q ++ [mkDCH da a b dist pc] else q)
      else GS_Dec_relax ch next ns' q
  end.

Fixpoint GS_Dec_loop (fuel : nat) (ch : ContractionHierarchy) (q : priority_queue)
    (C : list (edge_t * edata_t)) : result (ContractionHierarchy * list (edge_t * edata_t)) :=
  match pq_pop q with
  | None => Ok (ch, C)
  | Some (next, q') =>
      match fuel with
      | O => Fail OutOfFuel
      | S fuel' =>
          '(k, x) ← UpNeighbor ch (s_v next) (s_w next);
          if (s_distance next <? distance x) || (s_distance next =? distance x) then
            let pc := if s_distance next <? distance x then s_path_count next
                      else add16 (path_count x) (s_path_count next) in
            let ch' := assign_up ch (s_v next) k (s_distance next) pc in
            n ← at_ ch' (s_v next);
            q'' ← GS_Dec_relax ch' next (CHNode.up_neighbors n) q';
            GS_Dec_loop fuel' ch' q''
              (C ++ [((s_v next, s_w next), (s_distance next, s_path_count next))])
          else GS_Dec_loop fuel' ch q' C
      end
  end.

Definition GS_Dec (fuel : nat) (ch : ContractionHierarchy) (updates : list update_t)
    (C : list (edge_t * edata_t)) : result (ContractionHierarchy * list (edge_t * edata_t)) :=
  q ← GS_Dec_seed ch updates [];
  '(ch', C') ← GS_Dec_loop fuel ch q C;
  Ok (ch', merge_edges C').

(** *** [Graph::GS_Inc] *)

Fixpoint GS_Inc_seed (ch : ContractionHierarchy) (updates : list update_t)
    (q : priority_queue) : result priority_queue :=
  match updates with
  | [] => Ok q
  | (old, _, (a0, b0)) :: updates' =>
      '(a, b) ← higher_first ch a0 b0;
      '(_, x) ← UpNeighbor ch a b;
      da ← dist_index_of ch a;
      GS_Inc_seed ch updates' (if distance x =? old then q ++ [mkDCH da a b old 1] else q)
  end.

Fixpoint GS_Inc_relax (ch : ContractionHierarchy) (next : DCHSearchNode)
    (ns : list Neighbor) (q : priority_queue) : result priority_queue :=
  match ns with
  | [] => Ok q
  | n :: ns' =>
      if decide (node n ≠ s_w next) then
        let dist := add32 (s_distance next) (distance n) in
        let pc := mul16 (s_path_count next) (path_count n) in
        '(a, b) ← higher_first ch (s_w next) (node n);
        '(_, x) ← UpNeighbor ch a b;
        da ← dist_index_of ch a;
        GS_Inc_relax ch next ns' (if distance x =? dist then q ++ [mkDCH da a b dist pc] else q)
      else GS_Inc_relax ch next ns' q
  end.

(** The weight of the graph edge [v]-[w], if there is one:
    [for (Neighbor &n : node_data[v].neighbors) if (n.node == w) ... break]. *)
Fixpoint graph_weight (w : NodeID) (ns : list Neighbor) : option distance_t :=
  match ns with
  | [] => None
  | n :: ns' => if decide (node n = w) then Some (distance n) else graph_weight w ns'
  end.

(** The two-pointer walk over the down-neighbours of [v] and [w]; [x], the
    edge being recomputed, is entry [k] of [v] and is written through. *)
Fixpoint GS_Inc_common (fuel : nat) (v w : NodeID) (k : nat)
    (dv dw : list NodeID) (ch : ContractionHierarchy) : result ContractionHierarchy :=
  match fuel, dv, dw with
  | S fuel', a :: dv', b :: dw' =>
      if (a <? b)%nat then GS_Inc_common fuel' v w k dv' dw ch
      else if (b <? a)%nat then GS_Inc_common fuel' v w k dv dw' ch
      else
        '(_, av) ← UpNeighbor ch a v;
        '(_, aw) ← UpNeighbor ch a w;
        let dist := add32 (distance av) (distance aw) in
        let pc := mul16 (path_count av) (path_count aw) in
        n ← at_ ch v;
        x ← at_ (CHNode.up_neighbors n) k;
        let ch' := if dist <? distance x then assign_up ch v k dist pc
                   else if dist =? distance x
                        then assign_up ch v k (distance x) (add16 (path_count x) pc)
                        else ch in
        GS_Inc_common fuel' v w k dv' dw' ch'
  | _, _, _ => Ok ch
  end.

Fixpoint GS_Inc_loop (cfg : BuildConfig) (g : Graph) (fuel : nat)
    (ch : ContractionHierarchy) (q : priority_queue) (C : list (edge_t * edata_t))
  : result (ContractionHierarchy * list (edge_t * edata_t)) :=
  match pq_pop q with
  | None => Ok (ch, C)
  | Some (next, q') =>
      match fuel with
      | O => Fail OutOfFuel
      | S fuel' =>
          nv ← at_ ch (s_v next);
          q'' ← GS_Inc_relax ch next (CHNode.up_neighbors nv) q';
          '(k, x) ← UpNeighbor ch (s_v next) (s_w next);
          ch' ← (if s_path_count next <? path_count x then
                   Ok (assign_up ch (s_v next) k (distance x)
                         (sub16 (path_count x) (s_path_count next)))
                 else
                   nd ← at_ (node_data g) (s_v next);
                   let d0 := match graph_weight (s_w next) (neighbors nd) with
                             | Some d => d
                             | None => infinity cfg
                             end in
                   let ch1 := assign_up ch (s_v next) k d0 1 in
                   nw ← at_ ch1 (s_w next);
                   let dv := CHNode.down_neighbors nv in
                   let dw := CHNode.down_neighbors nw in
                   GS_Inc_common (length dv + length dw) (s_v next) (s_w next) k dv dw ch1);
          GS_Inc_loop cfg g fuel' ch' q''
            (C ++ [((s_v next, s_w next), (s_distance next, s_path_count next))])
      end
  end.

Definition GS_Inc (cfg : BuildConfig) (g : Graph) (fuel : nat) (ch : ContractionHierarchy)
    (updates : list update_t) (C : list (edge_t * edata_t))
  : result (ContractionHierarchy * list (edge_t * edata_t)) :=
  q ← GS_Inc_seed ch updates [];
  '(ch', C') ← GS_Inc_loop cfg g fuel ch q C;
  Ok (ch', merge_edges C').

(** ** Maintenance of the labels *)

Record ICHSearchNode := mkICH {
  i_v : NodeID;
  i_i : nat;
  i_distance : distance_t;
  i_path_count : Z
}.

(** [ci.get_contraction_label(v).cut_index] with the block it points to *)
Definition label_block (ci : ContractionIndex) (v : NodeID) : result (nat * Block) :=
  l ← at_ (labels ci) v;
  match cut_index l with
  | None => Fail UndefinedBehaviour
  | Some a => b ← at_ (heap ci) a; Ok (a, b)
  end.

Definition wr (l : list Z) (i : nat) (x : Z) : result (list Z) :=
  if decide (i < length l)%nat then Ok (<[i := x]> l) else Fail OutsideModel.

(** [cv.distances()[i] = d; cv.paths()[i] = p;] on the block at address [a] *)
Definition write_label (ci : ContractionIndex) (a : nat) (i : nat) (d : distance_t) (p : Z)
  : result ContractionIndex :=
  b ← at_ (heap ci) a;
  ds ← wr (b_distances b) i d;
  ps ← wr (b_paths b) i p;
  Ok (mkIndex (labels ci)
        (<[a := mkBlock (partition_bitvector b) (b_dist_index b) ds ps]> (heap ci))).

(** *** [Graph::DCL_Dec] *)

(** [for (i = 0; i <= ch.nodes[w].dist_index; i++)] of the first loop *)
Fixpoint DCL_Dec_slots (v : NodeID) (dv : nat) (d : distance_t) (c : Z) (a b : Block)
    (slots : list nat) (q : util.min_bucket_queue ICHSearchNode)
  : result (util.min_bucket_queue ICHSearchNode) :=
  match slots with
  | [] => Ok q
  | i :: slots' =>
      bd ← rd (b_distances b) i;
      let dist := add32 d bd in
      ad ← rd (b_distances a) i;
      if dist <=? ad then
        bp ← rd (b_paths b) i;
        DCL_Dec_slots v dv d c a b slots' (util.push q (mkICH v i dist (mul16 c bp)) dv)
      else DCL_Dec_slots v dv d c a b slots' q
  end.

(** First loop: the changed shortcuts seed the queue. *)
Fixpoint DCL_Dec_seed (ch : ContractionHierarchy) (ci : ContractionIndex)
    (C : list (edge_t * edata_t)) (q : util.min_bucket_queue ICHSearchNode)
  : result (util.min_bucket_queue ICHSearchNode) :=
  match C with
  | [] => Ok q
  | ((v, w), (d, c)) :: C' =>
      '(_, a) ← label_block ci v;
      dw ← dist_index_of ch w;
      cur ← rd (b_distances a) (Z.to_nat dw);
      if d <=? cur then
        '(_, b) ← label_block ci w;
        dv ← dist_index_of ch v;
        q' ← DCL_Dec_slots v (Z.to_nat dv) d c a b (seq 0 (S (Z.to_nat dw))) q;
        DCL_Dec_seed ch ci C' q'
      else DCL_Dec_seed ch ci C' q
  end.

(** [for (NodeID u : ch.nodes[next.v].down_neighbors)] of the second loop *)
Fixpoint DCL_Dec_down (ch : ContractionHierarchy) (ci : ContractionIndex)
    (next : ICHSearchNode) (down : list NodeID) (q : util.min_bucket_queue ICHSearchNode)
  : result (util.min_bucket_queue ICHSearchNode) :=
  match down with
  | [] => Ok q
  | u :: down' =>
      '(_, x) ← UpNeighbor ch u (i_v next);
      let dist := add32 (distance x) (i_distance next) in
      '(_, cu) ← label_block ci u;
      ud ← rd (b_distances cu) (i_i next);
      if dist <=? ud then
        du ← dist_index_of ch u;
        DCL_Dec_down ch ci next down'
          (util.push q (mkICH u (i_i next) dist (mul16 (path_count x) (i_path_count next)))
             (Z.to_nat du))
      else DCL_Dec_down ch ci next down' q
  end.

(** Second loop; every dequeued entry is recorded with its bucket in [trace]
    (a ghost of the model: the program keeps no such list).  The loop stops
    after [fuel] dequeues at the latest. *)
Fixpoint DCL_Dec_drain (cfg : BuildConfig) (ch : ContractionHierarchy) (fuel : nat)
    (ci : ContractionIndex) (q : util.min_bucket_queue ICHSearchNode) (trace : list (nat * ICHSearchNode))
  : result (ContractionIndex * util.min_bucket_queue ICHSearchNode
            * list (nat * ICHSearchNode)) :=
  match fuel with
  | O => Ok (ci, q, trace)
  | S fuel' =>
      if util.empty q then Ok (ci, q, trace)
      else
        let key := util.min_bucket q in
        '(next, q') ← util.pop cfg q;
        '(a, cv) ← label_block ci (i_v next);
        cur ← rd (b_distances cv) (i_i next);
        if (i_distance next <? cur) || (cur =? i_distance next) then
          p ← rd (b_paths cv) (i_i next);
          let pc := if i_distance next <? cur then i_path_count next
                    else add16 p (i_path_count next) in
          ci' ← write_label ci a (i_i next) (i_distance next) pc;
          n ← at_ ch (i_v next);
          q'' ← DCL_Dec_down ch ci' next (CHNode.down_neighbors n) q';
          DCL_Dec_drain cfg ch fuel' ci' q'' (trace ++ [(key, next)])
        else DCL_Dec_drain cfg ch fuel' ci q' (trace ++ [(key, next)])
  end.

Definition DCL_Dec (cfg : BuildConfig) (fuel : nat) (ch : ContractionHierarchy)
    (ci : ContractionIndex) (updates : list update_t)
  : result (ContractionHierarchy * ContractionIndex * list (nat * ICHSearchNode)) :=
  '(ch', C) ← GS_Dec fuel ch updates [];
  q ← DCL_Dec_seed ch' ci C util.queue_new;
  '(ci', q', trace) ← DCL_Dec_drain cfg ch' fuel ci q [];
  if util.empty q' then Ok (ch', ci', trace) else Fail OutOfFuel.

(** *** [Graph::DCL_Inc] *)

Fixpoint DCL_Inc_slots (v : NodeID) (dv : nat) (d : distance_t) (c : Z) (a b : Block)
    (slots : list nat) (q : util.min_bucket_queue ICHSearchNode)
  : result (util.min_bucket_queue ICHSearchNode) :=
  match slots with
  | [] => Ok q
  | i :: slots' =>
      bd ← rd (b_distances b) i;
      let dist := add32 d bd in
      bp ← rd (b_paths b) i;
      ad ← rd (b_distances a) i;
      if dist =? ad then
        DCL_Inc_slots v dv d c a b slots' (util.push q (mkICH v i dist (mul16 c bp)) dv)
      else DCL_Inc_slots v dv d c a b slots' q
  end.

Fixpoint DCL_Inc_seed (ch : ContractionHierarchy) (ci : ContractionIndex)
    (C : list (edge_t * edata_t)) (q : util.min_bucket_queue ICHSearchNode)
  : result (util.min_bucket_queue ICHSearchNode) :=
  match C with
  | [] => Ok q
  | ((v, w), (d, c)) :: C' =>
      '(_, a) ← label_block ci v;
      dw ← dist_index_of ch w;
      cur ← rd (b_distances a) (Z.to_nat dw);
      if d =? cur then
        '(_, b) ← label_block ci w;
        dv ← dist_index_of ch v;
        q' ← DCL_Inc_slots v (Z.to_nat dv) d c a b (seq 0 (S (Z.to_nat dw))) q;
        DCL_Inc_seed ch ci C' q'
      else DCL_Inc_seed ch ci C' q
  end.

Fixpoint DCL_Inc_down (ch : ContractionHierarchy) (ci : ContractionIndex)
    (next : ICHSearchNode) (cv : Block) (down : list NodeID)
    (q : util.min_bucket_queue ICHSearchNode)
  : result (util.min_bucket_queue ICHSearchNode) :=
  match down with
  | [] => Ok q
  | u :: down' =>
      '(_, x) ← UpNeighbor ch u (i_v next);
      '(_, cu) ← label_block ci u;
      vd ← rd (b_distances cv) (i_i next);
      let dist := add32 (distance x) vd in
      let pc := mul16 (path_count x) (i_path_count next) in
      ud ← rd (b_distances cu) (i_i next);
      if dist =? ud then
        du ← dist_index_of ch u;
        DCL_Inc_down ch ci next cv down' (util.push q (mkICH u (i_i next) dist pc) (Z.to_nat du))
      else DCL_Inc_down ch ci next cv down' q
  end.

(** The recomputation of slot [i] of [v] from its up-neighbours; the slot is
    written through at every step. *)
Fixpoint DCL_Inc_recompute (ch : ContractionHierarchy) (v : NodeID) (a : nat) (i : nat)
    (up : list Neighbor) (ci : ContractionIndex) : result ContractionIndex :=
  match up with
  | [] => Ok ci
  | u :: up' =>
      du ← dist_index_of ch (node u);
      if Z.of_nat i <=? du then
        '(_, x) ← UpNeighbor ch v (node u);
        '(_, cu) ← label_block ci (node u);
        ud ← rd (b_distances cu) i;
        let dist := add32 (distance x) ud in
        up_ ← rd (b_paths cu) i;
        let pc := mul16 (path_count x) up_ in
        cv ← at_ (heap ci) a;
        cur ← rd (b_distances cv) i;
        ci' ← (if dist <? cur then write_label ci a i dist pc
               else if dist =? cur then
                      p ← rd (b_paths cv) i;
                      write_label ci a i cur (add16 p pc)
                    else Ok ci);
        DCL_Inc_recompute ch v a i up' ci'
      else DCL_Inc_recompute ch v a i up' ci
  end.

Fixpoint DCL_Inc_drain (cfg : BuildConfig) (ch : ContractionHierarchy) (fuel : nat)
    (ci : ContractionIndex) (q : util.min_bucket_queue ICHSearchNode) (trace : list (nat * ICHSearchNode))
  : result (ContractionIndex * util.min_bucket_queue ICHSearchNode
            * list (nat * ICHSearchNode)) :=
  match fuel with
  | O => Ok (ci, q, trace)
  | S fuel' =>
      if util.empty q then Ok (ci, q, trace)
      else
        let key := util.min_bucket q in
        '(next, q') ← util.pop cfg q;
        '(a, cv) ← label_block ci (i_v next);
        n ← at_ ch (i_v next);
        q'' ← DCL_Inc_down ch ci next cv (CHNode.down_neighbors n) q';
        p ← rd (b_paths cv) (i_i next);
        ci' ← (if i_path_count next <? p then
                 dcur ← rd (b_distances cv) (i_i next);
                 write_label ci a (i_i next) dcur (sub16 p (i_path_count next))
               else
                 ci1 ← write_label ci a (i_i next) (infinity cfg) p;
                 DCL_Inc_recompute ch (i_v next) a (i_i next) (CHNode.up_neighbors n) ci1);
        DCL_Inc_drain cfg ch fuel' ci' q'' (trace ++ [(key, next)])
  end.

Definition DCL_Inc (cfg : BuildConfig) (g : Graph) (fuel : nat) (ch : ContractionHierarchy)
    (ci : ContractionIndex) (updates : list update_t)
  : result (ContractionHierarchy * ContractionIndex * list (nat * ICHSearchNode)) :=
  '(ch', C) ← GS_Inc cfg g fuel ch updates [];
  q ← DCL_Inc_seed ch' ci C util.queue_new;
  '(ci', q', trace) ← DCL_Inc_drain cfg ch' fuel ci q [];
  if util.empty q' then Ok (ch', ci', trace) else Fail OutOfFuel.

(** ** Specification-level notions

    The definitions below are not taken from the sources; they state what
    the properties proved further down are about. *)

(** A run of [add_edge(u, v, d, true)] calls. *)
Fixpoint add_edges (cfg : BuildConfig) (g : Graph) (calls : list (NodeID * NodeID * distance_t))
  : result Graph :=
  match calls with
  | [] => Ok g
  | (u, v, d) :: calls' => g' ← add_edge cfg g u v d true; add_edges cfg g' calls'
  end.

(** The smallest weight among the calls for the unordered pair [{u, v}]. *)
Fixpoint min_weight (u v : NodeID) (calls : list (NodeID * NodeID * distance_t)) : option distance_t :=
  match calls with
  | [] => None
  | (a, b, d) :: calls' =>
      if decide ((a = u ∧ b = v) ∨ (a = v ∧ b = u)) then
        Some (match min_weight u v calls' with Some m => Z.min d m | None => d end)
      else min_weight u v calls'
  end.

(** The weights stored at [u] for the neighbour [v], one per entry. *)
Definition stored_weights (g : Graph) (u v : NodeID) : list distance_t :=
  match node_data g !! u with
  | Some nd => distance <$> filter (λ n, node n = v) (neighbors nd)
  | None => []
  end.

(** [m] is the smallest weight passed for the pair [{u, v}] in [calls]. *)
Definition is_min_weight (u v : NodeID) (calls : list (NodeID * NodeID * distance_t)) (m : distance_t)
  : Prop :=
  (∃ a b, (a, b, m) ∈ calls ∧ ((a = u ∧ b = v) ∨ (a = v ∧ b = u)))
  ∧ ∀ a b d, (a, b, d) ∈ calls → (a = u ∧ b = v) ∨ (a = v ∧ b = u) → m <= d.

Definition call_ok (n : nat) (c : NodeID * NodeID * distance_t) : Prop :=
  (c.1.1 < n + 3)%nat ∧ (c.1.2 < n + 3)%nat ∧ 0 < c.2.

Definition weights_in (ns : list Neighbor) (x : NodeID) : list distance_t :=
  distance <$> filter (λ n, node n = x) ns.

Definition weights_of (o : option distance_t) : list distance_t :=
  match o with Some m => [m] | None => [] end.

(** The state after the calls in [hist]: every list holds, per neighbour, one
    entry with the smallest weight called for. *)
Definition edges_invariant (N : nat) (hist : list (NodeID * NodeID * distance_t)) (g : Graph) : Prop :=
  length (node_data g) = N
  ∧ ∀ u x, stored_weights g u x = weights_of (min_weight u x hist).

(** The number of steps the chain of [closest] takes from [root] to a vertex
    that is its own closest vertex. *)
Fixpoint chain_len (closest : list Neighbor) (fuel : nat) (root : NodeID) : option nat :=
  match closest !! root with
  | None => None
  | Some c =>
      if decide (node c = root) then Some 0%nat
      else
        match fuel with
        | O => None
        | S fuel' => S <$> chain_len closest fuel' (node c)
        end
  end.

(** What the constructor leaves in the labels: vertex 0 has no parent, and a
    parent is the closest vertex, from which the chain of [closest] ends. *)
Definition tree_labels (closest : list Neighbor) (ls : list ContractionLabel) : Prop :=
  (∀ l, ls !! 0%nat = Some l → parent l = 0%nat ∧ distance_offset l = 0)
  ∧ ∀ v l, ls !! v = Some l → parent l ≠ 0%nat →
      ∃ c k, closest !! v = Some c ∧ node c = parent l ∧ node c ≠ v
           ∧ chain_len closest (length closest) (node c) = Some k.

(** Height of a vertex in the contraction forest (0 for the null vertex). *)
Definition rank (closest : list Neighbor) (v : NodeID) : nat :=
  if decide (v = 0%nat) then 0%nat
  else S (default 0%nat (chain_len closest (2 * length closest) v)).





(** The edge direction invariant of the shortcut graph: every up-neighbour
    is a vertex of the graph with a strictly smaller [dist_index]. *)
Definition up_ordered (ch : ContractionHierarchy) : Prop :=
  ∀ v n x, ch !! v = Some n → x ∈ CHNode.up_neighbors n →
    (node x < length ch)%nat ∧ di ch (node x) < CHNode.dist_index n.

(** [u] is an up-neighbour of [v]. *)
Definition up_edge (ch : ContractionHierarchy) (v u : NodeID) : Prop :=
  ∃ n x, ch !! v = Some n ∧ x ∈ CHNode.up_neighbors n ∧ node x = u.

(** No vertex reaches itself along up-edges. *)
Definition acyclic (ch : ContractionHierarchy) : Prop :=
  ∀ v, ¬ tc (up_edge ch) v v.

(** Two shortcut graphs with the same vertices, positions and edges; only
    the weights and counts on the edges may differ. *)
Definition same_shape (ch ch' : ContractionHierarchy) : Prop :=
  Forall2 (λ n n',
    CHNode.dist_index n = CHNode.dist_index n'
    ∧ node <$> CHNode.up_neighbors n = node <$> CHNode.up_neighbors n'
    ∧ CHNode.down_neighbors n = CHNode.down_neighbors n') ch ch'.

(** The same for the reverse lists: every down-neighbour has a strictly
    larger [dist_index]. *)
Definition down_ordered (ch : ContractionHierarchy) : Prop :=
  ∀ v n u, ch !! v = Some n → u ∈ CHNode.down_neighbors n → di ch v < di ch u.

(** Same positions and same down-neighbours. *)
Definition down_frame (ch ch' : ContractionHierarchy) : Prop :=
  Forall2 (λ n n',
    CHNode.dist_index n = CHNode.dist_index n'
    ∧ CHNode.down_neighbors n = CHNode.down_neighbors n') ch ch'.

(** A hierarchy before [create_sc_graph]: no edges yet. *)
Definition no_edges (ch : ContractionHierarchy) : Prop :=
  Forall (λ n, CHNode.up_neighbors n = [] ∧ CHNode.down_neighbors n = []) ch.

(** One maintenance operation takes the shortcut graph [ch] to [ch']. *)
Inductive maintenance_step (cfg : BuildConfig) (ch ch' : ContractionHierarchy) : Prop :=
  | step_GS_Dec fuel updates C C' :
      GS_Dec fuel ch updates C = Ok (ch', C') → maintenance_step cfg ch ch'
  | step_GS_Inc g fuel updates C C' :
      GS_Inc cfg g fuel ch updates C = Ok (ch', C') → maintenance_step cfg ch ch'
  | step_DCL_Dec fuel ci updates ci' trace :
      DCL_Dec cfg fuel ch ci updates = Ok (ch', ci', trace) → maintenance_step cfg ch ch'
  | step_DCL_Inc g fuel ci updates ci' trace :
      DCL_Inc cfg g fuel ch ci updates = Ok (ch', ci', trace) → maintenance_step cfg ch ch'.

(** The label arrays are no longer than the position of their vertex: the
    state between the first and the last loop of [create_sc_graph]. *)
Definition labels_within (ch : ContractionHierarchy) (ci : list CutIndex.t) : Prop :=
  ∀ x c, ci !! x = Some c →
    Z.of_nat (length (CutIndex.distances c)) <= Z.max 0 (di ch x)
    ∧ Z.of_nat (length (CutIndex.distances c)) <= 65535.

(** Every entry of the queue lies in the bucket of its vertex's position:
    [q.push(ICHSearchNode(v, ...), ch.nodes[v].dist_index)]. *)
Definition queue_keyed (ch : ContractionHierarchy)
    (q : util.min_bucket_queue ICHSearchNode) : Prop :=
  ∀ k b e, util.buckets q !! k = Some b → e ∈ b → k = Z.to_nat (di ch (i_v e)).

(** The same for the entries already dequeued. *)
Definition trace_keyed (ch : ContractionHierarchy) (trace : list (nat * ICHSearchNode)) : Prop :=
  Forall (λ p, p.1 = Z.to_nat (di ch (i_v p.2))) trace.

(** ** Example data *)

Definition example_calls : list (nat * nat * Z) :=
  [(1%nat, 2%nat, 5); (2%nat, 1%nat, 3); (2%nat, 3%nat, 7); (1%nat, 2%nat, 4)].


Definition unwrap {A} (d : A) (r : result A) : A :=
  match r with
  | Ok a => a
  | Fail _ => d
  end.

(** A square 1-2-3-4 of unit edges with a tail 2-5-6 (weights 3 and 2). *)
Definition example_edges : list (nat * nat * Z) :=
  [(1%nat, 2%nat, 1); (2%nat, 3%nat, 1); (3%nat, 4%nat, 1); (4%nat, 1%nat, 1);
   (2%nat, 5%nat, 3); (5%nat, 6%nat, 2)].

Definition example_graph : Graph :=
  Eval vm_compute in
    unwrap (mkGraph [] [] 0)
      (g0 ← Graph_new spec_config 6; add_edges spec_config g0 example_edges).

(** The tail is contracted: 5 hangs off 2, and 6 off 5. *)
Definition example_closest : list Neighbor :=
  [Neighbor2 0 0; Neighbor2 1 0; Neighbor2 2 0; Neighbor2 3 0; Neighbor2 4 0;
   Neighbor2 2 3; Neighbor2 5 2].

(** A cut hierarchy for the square: the separator [1; 3] at level 0 leaves 2
    on the left and 4 on the right, each alone at level 1.  (The partitioner
    itself is not modelled; this is the layout [extend_cut_index] writes for
    that separator.) *)
Definition example_cut_index : list CutIndex.t :=
  [CutIndex.empty_index;
   CutIndex.mk 0 0 [1] [] [];
   CutIndex.mk 0 1 [2; 3] [] [];
   CutIndex.mk 0 0 [2] [] [];
   CutIndex.mk 1 1 [2; 3] [] [];
   CutIndex.empty_index;
   CutIndex.empty_index].

Definition example_sc : ContractionHierarchy * list CutIndex.t :=
  Eval vm_compute in
    unwrap ([], [])
      (create_sc_graph spec_config example_graph [] example_cut_index example_closest).

Definition example_index : ContractionIndex :=
  Eval vm_compute in
    unwrap (mkIndex [] [])
      (ContractionIndex_build spec_config example_sc.2 example_closest).

(** The same graph with weight 2 on the square, and its index. *)
Definition weighted_edges : list (nat * nat * Z) :=
  [(1%nat, 2%nat, 2); (2%nat, 3%nat, 2); (3%nat, 4%nat, 2); (4%nat, 1%nat, 2);
   (2%nat, 5%nat, 3); (5%nat, 6%nat, 2)].

Definition weighted_graph : Graph :=
  Eval vm_compute in
    unwrap (mkGraph [] [] 0)
      (g0 ← Graph_new spec_config 6; add_edges spec_config g0 weighted_edges).

Definition weighted_sc : ContractionHierarchy * list CutIndex.t :=
  Eval vm_compute in
    unwrap ([], [])
      (create_sc_graph spec_config weighted_graph [] example_cut_index example_closest).

Definition weighted_index : ContractionIndex :=
  Eval vm_compute in
    unwrap (mkIndex [] [])
      (ContractionIndex_build spec_config weighted_sc.2 example_closest).

(** The edge 3-2 goes from weight 2 to weight 1. *)
Definition decrease_3_2 : list update_t := [((2, 1), (3%nat, 2%nat))].

(** The shortcut graph and the labels after [DCL_Dec] of [decrease_3_2] *)
Definition decreased : ContractionHierarchy * ContractionIndex * list (nat * ICHSearchNode) :=
  Eval vm_compute in
    unwrap ([], mkIndex [] [], [])
      (DCL_Dec spec_config 100 weighted_sc.1 weighted_index decrease_3_2).

(** A triangle 1-2-3 with a fourth vertex on 1 and 3, and a cut hierarchy
    written by hand for it: the separator [1; 2] first, then 3, then 4
    (not the one [create_cut_index] finds for this graph). *)
Definition kite_edges : list (nat * nat * Z) :=
  [(1%nat, 2%nat, 4); (2%nat, 3%nat, 2); (1%nat, 3%nat, 3); (1%nat, 4%nat, 2);
   (3%nat, 4%nat, 2)].

Definition kite_graph : Graph :=
  Eval vm_compute in
    unwrap (mkGraph [] [] 0)
      (g0 ← Graph_new spec_config 4; add_edges spec_config g0 kite_edges).

Definition kite_closest : list Neighbor :=
  [Neighbor2 0 0; Neighbor2 1 0; Neighbor2 2 0; Neighbor2 3 0; Neighbor2 4 0].

Definition kite_cut_index : list CutIndex.t :=
  [CutIndex.empty_index;
   CutIndex.mk 0 0 [1] [] [];
   CutIndex.mk 0 0 [2] [] [];
   CutIndex.mk 1 1 [2; 3] [] [];
   CutIndex.mk 1 2 [2; 3; 4] [] []].

(** A build without [MULTI_THREAD_DISTANCES]: the fourth loop of
    [create_sc_graph] sorts the down-neighbours. *)
Definition single_thread_config : BuildConfig :=
  {| NDEBUG := true; NO_SHORTCUTS := true; PRUNING := false;
     MULTI_THREAD_DISTANCES := false; infinity := UINT32_MAX;
     chnode_dist_index := 0 |}.

Definition kite_sc : ContractionHierarchy * list CutIndex.t :=
  Eval vm_compute in
    unwrap ([], [])
      (create_sc_graph spec_config kite_graph [] kite_cut_index kite_closest).

(** A build with the assertions compiled in. *)
Definition debug_config : BuildConfig :=
  {| NDEBUG := false; NO_SHORTCUTS := true; PRUNING := false;
     MULTI_THREAD_DISTANCES := true; infinity := UINT32_MAX;
     chnode_dist_index := 0 |}.

(** [Graph g;] before [read_graph(g, ifs)]: no vertices yet. *)
Definition empty_graph : Graph :=
  Eval vm_compute in unwrap (mkGraph [] [] 0) (Graph_new debug_config 0).

Definition nl : string := String newline EmptyString.

(** The third line has a letter where the second vertex should be. *)
Definition bad_input : string :=
  ("p sp 3 3" ++ nl ++ "a 1 2 5" ++ nl ++ "a 2 x 6" ++ nl ++ "a 2 3 7" ++ nl)%string.


(** * Further parts of the sources *)

(** ** [PBV], the rest *)

(** [PBV::lca(bv1, bv2)] *)
Definition PBV_lca (bv1 bv2 : Z) : Z :=
  let cut_level := PBV.lca_level bv1 bv2 in
  if cut_level =? 0 then 0
  else Z.lor (Z.shiftr (PBV.wrap64 (Z.shiftl (Z.shiftr bv1 6) (64 - cut_level)))
                (58 - cut_level)) cut_level.

(** [PBV::is_ancestor(bv_ancestor, bv_descendant)] *)
Definition PBV_is_ancestor (bv_ancestor bv_descendant : Z) : bool :=
  let cla := PBV.cut_level bv_ancestor in
  let cld := PBV.cut_level bv_descendant in
  (cla =? 0)
  || ((cla <=? cld)
      && (PBV.wrap64 (Z.shiftl (Z.shiftr (Z.lxor bv_ancestor bv_descendant) 6) (64 - cla))
          =? 0)).

(** ** [util::min_bucket_queue], as its users build it *)

(** The queues reached from the empty one by [push] and [pop]. *)
Inductive queue_built {T : Type} : util.min_bucket_queue T → Prop :=
  | built_new : queue_built util.queue_new
  | built_push q value bucket : queue_built q → queue_built (util.push q value bucket)
  | built_pop cfg q top q' :
      queue_built q → util.pop cfg q = Ok (top, q') → queue_built q'.

(** No entry lies below [min_bucket], and the bucket [min_bucket], when there
    is one, is not empty. *)
Definition queue_wf {T : Type} (q : util.min_bucket_queue T) : Prop :=
  (∀ k b, (k < util.min_bucket q)%nat → util.buckets q !! k = Some b → b = [])
  ∧ (∀ b, util.buckets q !! util.min_bucket q = Some b → b ≠ []).

(** ** The shortcut graph, further invariants *)

(** Every down-neighbour [u] of [v] has [v] among its up-neighbours, so
    that [UpNeighbor(ch, u, v)] returns an entry. *)
Definition down_has_up (ch : ContractionHierarchy) : Prop :=
  ∀ v n u, ch !! v = Some n → u ∈ CHNode.down_neighbors n →
    ∃ k e, UpNeighbor ch u v = Ok (k, e) ∧ node e = v.

(** The same on the lists themselves. *)
Definition down_in_up (ch : ContractionHierarchy) : Prop :=
  ∀ v n u, ch !! v = Some n → u ∈ CHNode.down_neighbors n →
    ∃ m, ch !! u = Some m ∧ v ∈ node <$> CHNode.up_neighbors m.

(** Same down-neighbours, and no up-neighbour lost. *)
Definition up_grows (ch ch' : ContractionHierarchy) : Prop :=
  Forall2 (λ n n',
    CHNode.down_neighbors n = CHNode.down_neighbors n'
    ∧ ∀ w, w ∈ node <$> CHNode.up_neighbors n → w ∈ node <$> CHNode.up_neighbors n') ch ch'.

(** The labels keep their place and their size: same label table, and in
    every block the same partition word, the same [dist_index] and as many
    distances and counts as before. *)
Definition same_layout (idx idx' : ContractionIndex) : Prop :=
  labels idx' = labels idx
  ∧ Forall2 (λ b b',
      partition_bitvector b' = partition_bitvector b
      ∧ b_dist_index b' = b_dist_index b
      ∧ length (b_distances b') = length (b_distances b)
      ∧ length (b_paths b') = length (b_paths b)) (heap idx) (heap idx').

(** The edge 3-2 of [weighted_graph] goes from weight 2 to weight 3. *)
Definition increase_3_2 : list update_t := [((2, 3), (3%nat, 2%nat))].

Definition weighted_graph_increased : Graph :=
  Eval vm_compute in
    unwrap (mkGraph [] [] 0)
      (g1 ← update_edge weighted_graph 3 2 3; update_edge g1 2 3 3).

Definition increased : ContractionHierarchy * ContractionIndex * list (nat * ICHSearchNode) :=
  Eval vm_compute in
    unwrap ([], mkIndex [] [], [])
      (DCL_Inc spec_config weighted_graph_increased 100 weighted_sc.1 weighted_index
         increase_3_2).

(** ** The graph store, the rest *)

(** [Graph::single_neighbor]: the loop returns as soon as a second member of
    the subgraph is met. *)
Fixpoint single_neighbor_scan (g : Graph) (ns : list Neighbor) (neighbor : Neighbor)
  : result Neighbor :=
  match ns with
  | [] => Ok neighbor
  | n :: ns' =>
      c ← contains g (node n);
      if c : bool then
        if decide (node neighbor = NO_NODE) then single_neighbor_scan g ns' n
        else Ok (Neighbor2 NO_NODE 0)
      else single_neighbor_scan g ns' neighbor
  end.

Definition single_neighbor (cfg : BuildConfig) (g : Graph) (v : NodeID) : result Neighbor :=
  c ← contains g v;
  _ ← check cfg c;
  nd ← at_ (node_data g) v;
  single_neighbor_scan g (neighbors nd) (Neighbor2 NO_NODE 0).

(** [Graph::is_undirected] *)
Definition has_reverse (v : NodeID) (d : distance_t) (ns : list Neighbor) : bool :=
  existsb (λ nn, bool_decide (node nn = v) && (distance nn =? d)) ns.

Fixpoint is_undirected_at (g : Graph) (v : NodeID) (ns : list Neighbor) : result bool :=
  match ns with
  | [] => Ok true
  | n :: ns' =>
      nd ← at_ (node_data g) (node n);
      if has_reverse v (distance n) (neighbors nd) then is_undirected_at g v ns'
      else Ok false
  end.

Fixpoint is_undirected_from (g : Graph) (todo : list NodeID) : result bool :=
  match todo with
  | [] => Ok true
  | v :: todo' =>
      nd ← at_ (node_data g) v;
      b ← is_undirected_at g v (neighbors nd);
      if b : bool then is_undirected_from g todo' else Ok false
  end.

Definition is_undirected (g : Graph) : result bool := is_undirected_from g (nodes g).

(** The neighbours of a list that are members of the subgraph. *)
Definition is_member (g : Graph) (n : Neighbor) : bool :=
  match contains g (node n) with
  | Ok true => true
  | _ => false
  end.

Definition members (g : Graph) (ns : list Neighbor) : list Neighbor :=
  filter (λ n, is_member g n) ns.

(** Every edge is stored at both ends. *)
Definition symmetric_adjacency (g : Graph) : Prop :=
  ∀ u v nu, node_data g !! u = Some nu → v ∈ node <$> neighbors nu →
    ∃ nv, node_data g !! v = Some nv ∧ u ∈ node <$> neighbors nv.

Definition listed_contained (g : Graph) : Prop :=
  ∀ v, v ∈ nodes g → contains g v = Ok true.

(** [v] has no neighbour inside the subgraph. *)
Definition isolated_in (g : Graph) (v : NodeID) : Prop :=
  ∃ nd, node_data g !! v = Some nd ∧ members g (neighbors nd) = [].

(** The state inside the loop of [remove_isolated], seen from the graph [g]
    it started on: some isolated vertices have lost their stamp. *)
Definition unstamped (g gt : Graph) : Prop :=
  g_subgraph_id gt = g_subgraph_id g
  ∧ length (node_data gt) = length (node_data g)
  ∧ ∀ v nd, node_data g !! v = Some nd →
      ∃ nd', node_data gt !! v = Some nd' ∧ neighbors nd' = neighbors nd
        ∧ (subgraph_id nd' = subgraph_id nd
           ∨ (subgraph_id nd' = NO_SUBGRAPH ∧ isolated_in g v)).

Definition symmetric_weights (g : Graph) : Prop :=
  ∀ u x, stored_weights g u x = stored_weights g x u.

(** An input with a comment line, a repeated edge and a loop. *)
Definition sample_input : string :=
  ("p sp 3 2" ++ nl ++ "a 1 2 7" ++ nl ++ "a 2 1 4" ++ nl ++ "c note" ++ nl
   ++ "a 2 3 6" ++ nl ++ "a 3 3 5" ++ nl)%string.

(** A graph with two vertices that have no edge, and what [remove_isolated]
    leaves of it. *)
Definition sparse_edges : list (nat * nat * Z) := [(1%nat, 2%nat, 5)].

Definition sparse_graph : Graph :=
  Eval vm_compute in
    unwrap (mkGraph [] [] 0)
      (g0 ← Graph_new debug_config 4; add_edges debug_config g0 sparse_edges).

Definition sparse_graph_trimmed : Graph :=
  Eval vm_compute in unwrap (mkGraph [] [] 0) (remove_isolated debug_config sparse_graph).

Definition sample_input_graph : Graph :=
  Eval vm_compute in unwrap (mkGraph [] [] 0) (read_graph spec_config empty_graph sample_input).

(** [weighted_graph] after [update_edge(3, 2, 3)]. *)
Definition updated_3_2 : Graph :=
  Eval vm_compute in
    match update_edge weighted_graph 3 2 3 with
    | Ok g => g
    | Fail _ => weighted_graph
    end.

(** ** Decrease updates *)

(** Same up-neighbours, none with a larger weight. *)
Definition weights_below (ch ch' : ContractionHierarchy) : Prop :=
  Forall2 (λ n n',
    Forall2 (λ e e', node e' = node e ∧ distance e' <= distance e)
      (CHNode.up_neighbors n) (CHNode.up_neighbors n')) ch ch'.

(** Same label slots, none with a larger distance. *)
Definition labels_below (idx idx' : ContractionIndex) : Prop :=
  Forall2 (λ b b', Forall2 (λ d d', d' <= d) (b_distances b) (b_distances b'))
    (heap idx) (heap idx').

(** The shortcut between [a] and [b], stored at the one with the larger
    [dist_index], weighs at most [d]. *)
Definition shortcut_at_most (ch : ContractionHierarchy) (a b : NodeID) (d : distance_t) : Prop :=
  ∃ v w k x, higher_first ch a b = Ok (v, w) ∧ UpNeighbor ch v w = Ok (k, x) ∧ distance x <= d.

(** [dist_index] is a [uint16_t]. *)
Definition unsigned_positions (ch : ContractionHierarchy) : Prop :=
  ∀ v n, ch !! v = Some n → 0 <= CHNode.dist_index n.

(** ** [merge_edges] *)

(** The order of [edge_t] under [operator<] of [std::pair]. *)
Definition edge_key_lt (k1 k2 : edge_t) : Prop :=
  (k1.1 < k2.1)%nat ∨ (k1.1 = k2.1 ∧ (k1.2 < k2.2)%nat).

Definition edge_key_le (k1 k2 : edge_t) : Prop := k1 = k2 ∨ edge_key_lt k1 k2.

(** The counts of the entries of [v] for edge [k] with distance [d], added up. *)
Fixpoint count_sum (k : edge_t) (d : distance_t) (v : list (edge_t * edata_t)) : Z :=
  match v with
  | [] => 0
  | x :: v' =>
      if decide (x.1 = k ∧ x.2.1 = d) then x.2.2 + count_sum k d v' else count_sum k d v'
  end.

Arguments count_sum : simpl never.

(** ** Shortest-path search *)

(** [Graph::is_consistent] *)
Fixpoint all_stamped (g : Graph) (todo : list NodeID) : result bool :=
  match todo with
  | [] => Ok true
  | v :: todo' =>
      nd ← at_ (node_data g) v;
      if subgraph_id nd =? g_subgraph_id g then all_stamped g todo' else Ok false
  end.

Definition Graph_is_consistent (g : Graph) : result bool :=
  b ← all_stamped g (nodes g);
  if b : bool then
    let count := length (filter (λ nd, subgraph_id nd = g_subgraph_id g) (node_data g)) in
    Ok (bool_decide (count = length (nodes g)))
  else Ok false.

(** [CHECK_CONSISTENT] is a macro of [road_network.h]; it is read as
    [assert(is_consistent())]. *)
Definition CHECK_CONSISTENT (cfg : BuildConfig) (g : Graph) : result unit :=
  if NDEBUG cfg then Ok tt
  else b ← Graph_is_consistent g; if b : bool then Ok tt else Fail AssertionFailed.

(** The fields [distance] and [path_count] of [Node], which the searches
    write.  They are kept in a table beside [node_data], indexed the same
    way; [path_count] is declared in [road_network.h] and is taken as a
    [uint16_t] like the other path counts. *)
Record SearchData := mkSearch {
  sd_distance : distance_t;
  sd_path_count : Z
}.

Record SearchNode := mkSearchNode {
  sn_distance : distance_t;
  sn_node : NodeID
}.

(** [std::priority_queue<SearchNode>]: the top is an entry of smallest
    distance; among several the standard fixes none, the first pushed is
    taken here. *)
Fixpoint sq_min (m : distance_t) (q : list SearchNode) : distance_t :=
  match q with
  | [] => m
  | x :: q' => sq_min (Z.min m (sn_distance x)) q'
  end.

Fixpoint sq_take (m : distance_t) (q : list SearchNode) : option (SearchNode * list SearchNode) :=
  match q with
  | [] => None
  | x :: q' =>
      if sn_distance x =? m then Some (x, q')
      else '(y, r) ← sq_take m q'; Some (y, x :: r)
  end.

Definition sq_pop (q : list SearchNode) : option (SearchNode * list SearchNode) :=
  match q with
  | [] => None
  | x :: q' => sq_take (sq_min (sn_distance x) q') q
  end.

(** [for (NodeID node : nodes) { node_data[node].distance = infinity; ... }] *)
Fixpoint dijkstra_init (cfg : BuildConfig) (todo : list NodeID) (tbl : list SearchData)
  : result (list SearchData) :=
  match todo with
  | [] => Ok tbl
  | u :: todo' =>
      tbl' ← set_at tbl u (mkSearch (infinity cfg) 0);
      dijkstra_init cfg todo' tbl'
  end.

(** [for (Neighbor n : node_data[next.node].neighbors)] *)
Fixpoint dijkstra_relax (g : Graph) (next : SearchNode) (ns : list Neighbor)
    (tbl : list SearchData) (q : list SearchNode)
  : result (list SearchData * list SearchNode) :=
  match ns with
  | [] => Ok (tbl, q)
  | n :: ns' =>
      c ← contains g (node n);
      if c : bool then
        let new_dist := add32 (sn_distance next) (distance n) in
        cur ← at_ tbl (node n);
        if new_dist <? sd_distance cur then
          src ← at_ tbl (sn_node next);
          tbl' ← set_at tbl (node n) (mkSearch new_dist (sd_path_count src));
          dijkstra_relax g next ns' tbl' (q ++ [mkSearchNode new_dist (node n)])
        else if new_dist =? sd_distance cur then
          src ← at_ tbl (sn_node next);
          tbl' ← set_at tbl (node n)
                   (mkSearch (sd_distance cur) (add16 (sd_path_count cur) (sd_path_count src)));
          dijkstra_relax g next ns' tbl' q
        else dijkstra_relax g next ns' tbl q
      else dijkstra_relax g next ns' tbl q
  end.

(** [while (!q.empty())], at most [fuel] rounds *)
Fixpoint dijkstra_loop (g : Graph) (fuel : nat) (tbl : list SearchData) (q : list SearchNode)
  : result (list SearchData) :=
  match sq_pop q with
  | None => Ok tbl
  | Some (next, q') =>
      match fuel with
      | O => Fail OutOfFuel
      | S fuel' =>
          nd ← at_ (node_data g) (sn_node next);
          '(tbl', q'') ← dijkstra_relax g next (neighbors nd) tbl q';
          dijkstra_loop g fuel' tbl' q''
      end
  end.

(** [Graph::run_dijkstra(v)] on the table [tbl] *)
Definition run_dijkstra (cfg : BuildConfig) (fuel : nat) (g : Graph) (tbl : list SearchData)
    (v : NodeID) : result (list SearchData) :=
  _ ← CHECK_CONSISTENT cfg g;
  c ← contains g v;
  _ ← check cfg c;
  tbl1 ← dijkstra_init cfg (nodes g) tbl;
  tbl2 ← set_at tbl1 v (mkSearch 0 1);
  dijkstra_loop g fuel tbl2 [mkSearchNode 0 v].

(** A walk inside the subgraph from [v], with its length. *)
Inductive walk (g : Graph) (v : NodeID) : NodeID → Z → Prop :=
| walk_here : walk g v v 0
| walk_step u nd n L :
    walk g v u L → node_data g !! u = Some nd → n ∈ neighbors nd →
    contains g (node n) = Ok true → walk g v (node n) (L + distance n).

(** [d] is the length of a shortest walk from [v] to [u], or [infinity]
    when every walk is at least that long. *)
Definition shortest_distance (cfg : BuildConfig) (g : Graph) (v u : NodeID) (d : distance_t)
  : Prop :=
  d <= infinity cfg
  ∧ (d < infinity cfg → walk g v u d)
  ∧ ∀ L, walk g v u L → d <= L.

(** What the search relies on: every member of the subgraph is listed in
    [nodes] and lies inside [node_data], so do its neighbours, and the edges
    inside the subgraph have positive weights that [infinity] can take
    without wrapping around. *)
Definition search_ready (cfg : BuildConfig) (g : Graph) : Prop :=
  0 < infinity cfg
  ∧ (∀ u, contains g u = Ok true → u ∈ nodes g)
  ∧ (∀ u, u ∈ nodes g → (u < length (node_data g))%nat)
  ∧ ∀ u nd n, contains g u = Ok true → node_data g !! u = Some nd → n ∈ neighbors nd →
      (node n < length (node_data g))%nat
      ∧ (contains g (node n) = Ok true →
           0 < distance n ∧ infinity cfg + distance n <= 4294967296).

Definition dist_of (tbl : list SearchData) (u : NodeID) : distance_t :=
  match tbl !! u with
  | Some s => sd_distance s
  | None => 0
  end.

(** The distances in the table and in the queue are lengths of walks. *)
Definition search_sound (cfg : BuildConfig) (g : Graph) (v : NodeID)
    (tbl : list SearchData) (q : list SearchNode) : Prop :=
  length tbl = length (node_data g)
  ∧ dist_of tbl v = 0
  ∧ (∀ u, contains g u = Ok true →
       0 <= dist_of tbl u <= infinity cfg
       ∧ (dist_of tbl u < infinity cfg → walk g v u (dist_of tbl u)))
  ∧ ∀ e, e ∈ q →
      contains g (sn_node e) = Ok true ∧ 0 <= sn_distance e < infinity cfg
      ∧ walk g v (sn_node e) (sn_distance e).

(** Every edge out of a reached vertex is relaxed, unless the vertex is
    still queued with its distance or the edge is [pending]. *)
Definition search_closed (cfg : BuildConfig) (g : Graph)
    (tbl : list SearchData) (q : list SearchNode)
    (pending : NodeID → distance_t → Neighbor → Prop) : Prop :=
  ∀ u nd n, contains g u = Ok true → dist_of tbl u < infinity cfg →
    node_data g !! u = Some nd → n ∈ neighbors nd → contains g (node n) = Ok true →
    dist_of tbl (node n) <= dist_of tbl u + distance n
    ∨ mkSearchNode (dist_of tbl u) u ∈ q
    ∨ pending u (dist_of tbl u) n.

Definition table_weight (tbl : list SearchData) : Z :=
  foldr (λ s acc, Z.max 0 (sd_distance s) + acc) 0 tbl.

(** A build with [infinity] at half the range of [distance_t], and the
    search table of [kite_graph] before any search. *)
Definition search_config : BuildConfig :=
  {| NDEBUG := false; NO_SHORTCUTS := true; PRUNING := false;
     MULTI_THREAD_DISTANCES := true; infinity := 2147483647;
     chnode_dist_index := 0 |}.

Definition kite_table : list SearchData := replicate 7 (mkSearch 0 0).

(** ** Contraction of degree-one vertices *)

(** [std::is_sorted] on vertex numbers *)
Fixpoint nodes_sorted (l : list NodeID) : bool :=
  match l with
  | x :: (y :: _) as l' => (x <=? y)%nat && nodes_sorted l'
  | _ => true
  end.

(** [util::remove_set(v, set)]; [std::binary_search] is defined on a sorted
    range only, where it is membership. *)
Definition remove_set (cfg : BuildConfig) (v set : list NodeID) : result (list NodeID) :=
  _ ← check cfg (nodes_sorted set);
  if bool_decide (v = []) || bool_decide (set = []) then Ok v
  else if nodes_sorted set then Ok (filter (λ x, x ∉ set) v)
  else Fail UndefinedBehaviour.

(** [for (NodeID node : node_set) node_data[node].subgraph_id = NO_NODE;] *)
Fixpoint unstamp (g : Graph) (node_set : list NodeID) : result Graph :=
  match node_set with
  | [] => Ok g
  | x :: node_set' =>
      _ ← at_ (node_data g) x;
      unstamp (set_subgraph g x NO_SUBGRAPH) node_set'
  end.

(** [Graph::remove_nodes] *)
Definition remove_nodes (cfg : BuildConfig) (g : Graph) (node_set : list NodeID) : result Graph :=
  nodes' ← remove_set cfg (nodes g) node_set;
  unstamp (mkGraph (node_data g) nodes' (g_subgraph_id g)) node_set.

(** The lambda [find_degree_one] of [Graph::contract]; [degree_one] and
    [neighbors] are empty when it starts. *)
Fixpoint find_degree_one (cfg : BuildConfig) (g : Graph) (todo : list NodeID)
    (closest : list Neighbor) (degree_one neighbors : list NodeID)
  : result (list Neighbor * list NodeID * list NodeID) :=
  match todo with
  | [] => Ok (closest, degree_one, neighbors)
  | x :: todo' =>
      neighbor ← single_neighbor cfg g x;
      if decide (node neighbor ≠ NO_NODE) then
        n2 ← single_neighbor cfg g (node neighbor);
        if decide (node n2 = NO_NODE) then
          closest' ← set_at closest x neighbor;
          find_degree_one cfg g todo' closest' (degree_one ++ [x]) (neighbors ++ [node neighbor])
        else find_degree_one cfg g todo' closest degree_one neighbors
      else find_degree_one cfg g todo' closest degree_one neighbors
  end.

(** [for (NodeID node : nodes) closest[node] = Neighbor(node, 0);] *)
Fixpoint closest_init (todo : list NodeID) (closest : list Neighbor) : result (list Neighbor) :=
  match todo with
  | [] => Ok closest
  | x :: todo' => closest' ← set_at closest x (Neighbor2 x 0); closest_init todo' closest'
  end.

(** [while (!degree_one.empty())], at most [fuel] rounds *)
Fixpoint contract_loop (cfg : BuildConfig) (fuel : nat) (g : Graph) (closest : list Neighbor)
    (degree_one neighbors : list NodeID) : result (Graph * list Neighbor) :=
  match degree_one with
  | [] => Ok (g, closest)
  | _ :: _ =>
      match fuel with
      | O => Fail OutOfFuel
      | S fuel' =>
          g' ← remove_nodes cfg g (util.sort_by Nat.ltb degree_one);
          '(closest', degree_one', neighbors') ← find_degree_one cfg g' neighbors closest [] [];
          contract_loop cfg fuel' g' closest' degree_one' neighbors'
      end
  end.

(** [Graph::contract(closest)]; with fewer than two entries in [node_data]
    the size passed to [resize] wraps around. *)
Definition contract (cfg : BuildConfig) (fuel : nat) (g : Graph) (closest : list Neighbor)
  : result (Graph * list Neighbor) :=
  if (length (node_data g) <? 2)%nat then Fail OutsideModel
  else
    let closest0 := vresize closest (length (node_data g) - 2) (Neighbor2 NO_NODE 0) in
    closest1 ← closest_init (nodes g) closest0;
    '(closest2, degree_one, neighbors) ← find_degree_one cfg g (nodes g) closest1 [] [];
    contract_loop cfg fuel g closest2 degree_one neighbors.

(** [node_data] holds vertex 0 and the two extra vertices; the members of
    the subgraph are the listed vertices, none of them is vertex 0 or one of
    the two extra vertices, and edges stay inside [node_data]. *)
Definition contract_ready (g : Graph) : Prop :=
  g_subgraph_id g ≠ NO_SUBGRAPH
  ∧ (3 ≤ length (node_data g))%nat
  ∧ listed_contained g
  ∧ (∀ u, contains g u = Ok true → u ∈ nodes g)
  ∧ (∀ u, contains g u = Ok true → (0 < u ∧ u + 2 < length (node_data g))%nat)
  ∧ ∀ u nd n, node_data g !! u = Some nd → n ∈ neighbors nd →
      (node n < length (node_data g))%nat.

(** [x] is contracted onto the entry [n]: it has [n] as its only neighbour
    in the subgraph, and the vertex of [n] has not exactly one. *)
Definition contracts_onto (cfg : BuildConfig) (g : Graph) (x : NodeID) (n : Neighbor) : Prop :=
  single_neighbor cfg g x = Ok n ∧ node n ≠ NO_NODE
  ∧ ∃ n2, single_neighbor cfg g (node n) = Ok n2 ∧ node n2 = NO_NODE.

Definition self_closest (closest : list Neighbor) (x : NodeID) : Prop :=
  ∃ c, closest !! x = Some c ∧ node c = x.

(** The number of members of the subgraph. *)
Definition member_count (g : Graph) : nat :=
  length (filter (λ nd, subgraph_id nd = g_subgraph_id g) (node_data g)).

(** [g'] is [g] with some members un-stamped and unlisted. *)
Definition shrunk (g g' : Graph) : Prop :=
  g_subgraph_id g' = g_subgraph_id g
  ∧ length (node_data g') = length (node_data g)
  ∧ (∀ x, neighbors <$> node_data g' !! x = neighbors <$> node_data g !! x)
  ∧ (∀ x, contains g' x = Ok true → contains g x = Ok true)
  ∧ (∀ x, x ∈ nodes g' ↔ x ∈ nodes g ∧ contains g' x = Ok true).

(** What a pass of [find_degree_one] leaves: the vertices of [D] hang on a
    member that is not in [D], the others keep their entry. *)
Definition pass_result (g : Graph) (closest closest' : list Neighbor) (D W : list NodeID)
  : Prop :=
  length closest' = length closest
  ∧ (∀ x, x ∉ D → closest' !! x = closest !! x)
  ∧ (∀ x, x ∈ D → contains g x = Ok true
       ∧ ∃ n nd, closest' !! x = Some n ∧ node n ≠ x ∧ contains g (node n) = Ok true
           ∧ (node n ∉ D) ∧ node_data g !! x = Some nd ∧ n ∈ neighbors nd)
  ∧ (∀ w, w ∈ W → contains g w = Ok true ∧ w ∉ D).

(** The state at the head of the loop of [contract] after [r] passes, on the
    graph [g0] it started from. *)
Definition round_inv (g0 : Graph) (r : nat) (g : Graph) (closest : list Neighbor)
    (D W : list NodeID) : Prop :=
  shrunk g0 g
  ∧ length closest = (length (node_data g0) - 2)%nat
  ∧ (∀ x, contains g0 x ≠ Ok true → (x < length closest)%nat →
       closest !! x = Some (Neighbor2 NO_NODE 0))
  ∧ (∀ x, contains g x = Ok true → x ∉ D → closest !! x = Some (Neighbor2 x 0))
  ∧ (∀ x, x ∈ D → contains g x = Ok true
       ∧ ∃ n, closest !! x = Some n ∧ node n ≠ x ∧ contains g (node n) = Ok true
           ∧ node n ∉ D)
  ∧ (∀ x, contains g0 x = Ok true → (contains g x ≠ Ok true ∨ x ∈ D) →
       ∃ c nd, closest !! x = Some c ∧ node c ≠ x
         ∧ node_data g0 !! x = Some nd ∧ c ∈ neighbors nd)
  ∧ (∀ v, (v < length closest)%nat → ∃ j, (j ≤ r)%nat ∧ chain_len closest j v = Some j)
  ∧ (∀ w, w ∈ W → contains g w = Ok true ∧ w ∉ D)
  ∧ (r + member_count g ≤ member_count g0 + 1)%nat.

(** What a pass of [find_degree_one] needs of the graph it runs on. *)
Definition pass_ready (g : Graph) : Prop :=
  contains g NO_NODE = Ok false
  ∧ ∀ u nd n, node_data g !! u = Some nd → n ∈ neighbors nd →
      (node n < length (node_data g))%nat.

(** ** The shortcut graph on file *)

(** The object representation of an unsigned integer of [w] bytes, lowest
    byte first (x86-64), and the value of such a run of bytes. *)
Fixpoint le_bytes (w : nat) (x : Z) : list Z :=
  match w with
  | O => []
  | S w' => x mod 256 :: le_bytes w' (x / 256)
  end.

Fixpoint le_value (bs : list Z) : Z :=
  match bs with
  | [] => 0
  | b :: bs' => b + 256 * le_value bs'
  end.

(** A [std::istream] read with [read]: the bytes left and [failbit]. *)
Record bstream := mkB {
  b_bytes : list Z;
  b_fail : bool
}.

(** [is.read] of [k] bytes into a variable holding [old] ([None] while it is
    uninitialised).  A stream that has failed stores nothing; a stream that
    runs out stores the bytes it has and fails. *)
Definition bread (s : bstream) (k : nat) (old : option Z) : bstream * option Z :=
  if b_fail s then (s, old)
  else if (k <=? length (b_bytes s))%nat
       then (mkB (drop k (b_bytes s)) false, Some (le_value (take k (b_bytes s))))
       else (mkB [] true,
             (λ v, le_value (b_bytes s ++ drop (length (b_bytes s)) (le_bytes k v))) <$> old).

(** [for (j = 0; j < count; j++) { Neighbor n(NO_NODE, 0, 0); is.read(...); ... }] *)
Fixpoint read_up (s : bstream) (count : nat) (up : list Neighbor)
  : result (bstream * list Neighbor) :=
  match count with
  | O => Ok (s, up)
  | S count' =>
      let '(s1, a) := bread s 4 (Some 0) in
      let '(s2, d) := bread s1 4 (Some 0) in
      let '(s3, p) := bread s2 2 (Some 0) in
      a ← initialised a;
      d ← initialised d;
      p ← initialised p;
      read_up s3 count' (up ++ [mkNeighbor (Z.to_nat a) d p])
  end.

(** [for (j = 0; j < count; j++) { NodeID n; is.read(...); ... }] *)
Fixpoint read_down (s : bstream) (count : nat) (down : list NodeID)
  : result (bstream * list NodeID) :=
  match count with
  | O => Ok (s, down)
  | S count' =>
      let '(s1, n) := bread s 4 None in
      n ← initialised n;
      read_down s1 count' (down ++ [Z.to_nat n])
  end.

(** [for (NodeID i = 1; i < node_count; i++)]; [count] is the local of that
    name, which keeps its value from one round to the next. *)
Fixpoint read_nodes (s : bstream) (todo : list NodeID) (count : option Z)
    (nodes : list CHNode.t) : result (list CHNode.t) :=
  match todo with
  | [] => Ok nodes
  | i :: todo' =>
      n ← at_ nodes i;
      let '(s1, di) := bread s 2 (Some (CHNode.dist_index n)) in
      di ← initialised di;
      let nodes1 := set_dist_index nodes i di in
      if di =? 65535 then read_nodes s1 todo' count nodes1
      else
        let '(s2, c1) := bread s1 8 count in
        c1 ← initialised c1;
        '(s3, up) ← read_up s2 (Z.to_nat c1) (CHNode.up_neighbors n);
        let '(s4, c2) := bread s3 8 (Some c1) in
        c2 ← initialised c2;
        '(s5, down) ← read_down s4 (Z.to_nat c2) (CHNode.down_neighbors n);
        read_nodes s5 todo' (Some c2) (set_down (set_up nodes1 i up) i down)
  end.

(** [ContractionHierarchy::ContractionHierarchy(istream&)]; [i] is a
    [NodeID], so a count of 2^32 or more is not followed. *)
Definition CH_read (cfg : BuildConfig) (bytes : list Z) : result (list CHNode.t) :=
  let '(s1, nc) := bread (mkB bytes false) 8 None in
  node_count ← initialised nc;
  if 4294967296 <=? node_count then Fail OutsideModel
  else
    let nodes := vresize [] (Z.to_nat node_count) (CHNode.mk (chnode_dist_index cfg) [] []) in
    read_nodes s1 (seq 1 (Z.to_nat node_count - 1)) None nodes.

(** [ContractionHierarchy::write] *)
Definition write_up (n : Neighbor) : list Z :=
  le_bytes 4 (Z.of_nat (node n)) ++ le_bytes 4 (distance n) ++ le_bytes 2 (path_count n).

Definition write_node (n : CHNode.t) : list Z :=
  le_bytes 2 (CHNode.dist_index n)
  ++ (if CHNode.dist_index n =? 65535 then []
      else le_bytes 8 (Z.of_nat (length (CHNode.up_neighbors n)))
           ++ flat_map write_up (CHNode.up_neighbors n)
           ++ le_bytes 8 (Z.of_nat (length (CHNode.down_neighbors n)))
           ++ flat_map (λ u, le_bytes 4 (Z.of_nat u)) (CHNode.down_neighbors n)).

Definition CH_write (ch : ContractionHierarchy) : list Z :=
  le_bytes 8 (Z.of_nat (length ch)) ++ flat_map write_node (drop 1 ch).

(** The values fit their types. *)
Definition up_fits (n : Neighbor) : Prop :=
  Z.of_nat (node n) < 4294967296 ∧ 0 <= distance n < 4294967296 ∧ 0 <= path_count n < 65536.

Definition node_fits (n : CHNode.t) : Prop :=
  0 <= CHNode.dist_index n < 65536
  ∧ Z.of_nat (length (CHNode.up_neighbors n)) < 18446744073709551616
  ∧ Z.of_nat (length (CHNode.down_neighbors n)) < 18446744073709551616
  ∧ Forall up_fits (CHNode.up_neighbors n)
  ∧ Forall (λ u, Z.of_nat u < 4294967296) (CHNode.down_neighbors n).

Definition CH_fits (ch : ContractionHierarchy) : Prop :=
  Z.of_nat (length ch) < 4294967296 ∧ Forall node_fits (drop 1 ch).

(** What comes back: vertex 0 is not written, and neither are the lists of
    a contracted vertex. *)
Definition CH_stored (cfg : BuildConfig) (ch : ContractionHierarchy) : ContractionHierarchy :=
  match ch with
  | [] => []
  | _ :: tl =>
      CHNode.mk (chnode_dist_index cfg) [] []
      :: ((λ n, if CHNode.dist_index n =? 65535 then CHNode.mk 65535 [] [] else n) <$> tl)
  end.

(** ** Printing a graph *)

Definition Edge : Type := NodeID * NodeID * distance_t.

(** [Edge::operator<] *)
Definition Edge_lt (x y : Edge) : bool :=
  let '(a, b, d) := x in
  let '(a', b', d') := y in
  (a <? a')%nat
  || ((a =? a')%nat && (b <? b')%nat)
  || ((a =? a')%nat && (b =? b')%nat && (d <? d')).

(** [std::sort(edges.begin(), edges.end())]: the order compares every field,
    so there is one ordered arrangement; insertion finds it. *)
Fixpoint sort_insert (e : Edge) (l : list Edge) : list Edge :=
  match l with
  | [] => [e]
  | x :: l' => if Edge_lt e x then e :: l else x :: sort_insert e l'
  end.

Definition sort_edges (l : list Edge) : list Edge := foldr sort_insert [] l.

(** The inner loop of [Graph::get_edges] *)
Fixpoint get_edges_at (g : Graph) (a : NodeID) (ns : list Neighbor) (edges : list Edge)
  : result (list Edge) :=
  match ns with
  | [] => Ok edges
  | n :: ns' =>
      if (a <? node n)%nat then
        c ← contains g (node n);
        get_edges_at g a ns' (if c : bool then edges ++ [(a, node n, distance n)] else edges)
      else get_edges_at g a ns' edges
  end.

Fixpoint get_edges_from (g : Graph) (todo : list NodeID) (edges : list Edge)
  : result (list Edge) :=
  match todo with
  | [] => Ok edges
  | a :: todo' =>
      nd ← at_ (node_data g) a;
      edges' ← get_edges_at g a (neighbors nd) edges;
      get_edges_from g todo' edges'
  end.

(** [Graph::get_edges] *)
Definition get_edges (g : Graph) : result (list Edge) := get_edges_from g (nodes g) [].

(** [Graph::super_node_count], a [size_t] *)
Definition super_node_count (g : Graph) : Z :=
  (Z.of_nat (length (node_data g)) - 3) mod 18446744073709551616.

(** [os << x] for an unsigned integer: its decimal digits. *)
Definition digit_char (d : Z) : ascii := ascii_of_nat (48 + Z.to_nat d).

Fixpoint dec_digits (fuel : nat) (x : Z) (acc : list ascii) : list ascii :=
  match fuel with
  | O => acc
  | S fuel' =>
      let acc' := digit_char (x mod 10) :: acc in
      if x <? 10 then acc' else dec_digits fuel' (x / 10) acc'
  end.

Definition print_dec (x : Z) : list ascii := dec_digits (S (Z.to_nat (Z.log2 x))) x [].

(** [os << "a " << e.a << ' ' << e.b << ' ' << e.d << endl] *)
Definition print_edge (e : Edge) : list ascii :=
  let '(a, b, d) := e in
  ["a"%char; " "%char] ++ print_dec (Z.of_nat a) ++ [" "%char] ++ print_dec (Z.of_nat b)
  ++ [" "%char] ++ print_dec d ++ [newline].

(** [print_graph(g, os)]: what is written to [os]. *)
Definition print_graph (g : Graph) : result string :=
  edges ← get_edges g;
  let edges := sort_edges edges in
  Ok (string_of_list_ascii
        (["p"%char; " "%char; "s"%char; "p"%char; " "%char]
         ++ print_dec (super_node_count g) ++ [" "%char]
         ++ print_dec (Z.of_nat (length edges)) ++ [newline]
         ++ flat_map print_edge edges)).

(** [print_graph] writes a line for [u], [v] with weight [d]. *)
Definition printed (g : Graph) (u v : NodeID) (d : distance_t) : Prop :=
  u ∈ nodes g ∧ (u < v)%nat ∧ contains g v = Ok true
  ∧ ∃ nd n, node_data g !! u = Some nd ∧ n ∈ neighbors nd ∧ node n = v ∧ distance n = d.

Definition weights_fit (g : Graph) : Prop :=
  ∀ u nd n, node_data g !! u = Some nd → n ∈ neighbors nd → 0 < distance n <= UINT32_MAX.

(** The lines [print_graph] writes for the example graph. *)
Definition example_printed : list Edge :=
  Eval vm_compute in unwrap [] (get_edges example_graph).

(** ** The half-matrix index *)

(** [hmi(a, b)], in [size_t] arithmetic *)
Definition hmi (cfg : BuildConfig) (a b : Z) : result Z :=
  _ ← check cfg (negb (a =? b));
  Ok (if a <? b
      then PBV.wrap64 (Z.shiftr (PBV.wrap64 (b * PBV.wrap64 (b - 1))) 1 + a)
      else PBV.wrap64 (Z.shiftr (PBV.wrap64 (a * PBV.wrap64 (a - 1))) 1 + b)).

(** The pairs that the loops of [add_shortcuts] visit, in their order:
    [for (i = 1; i < n; i++) for (j = 0; j < i; j++)]. *)
Definition pair_loop (n : nat) : list (Z * Z) :=
  flat_map (λ i, (λ j, (Z.of_nat i, Z.of_nat j)) <$> seq 0 i) (seq 1 (n - 1)).

(** ** [util::make_set] on the vector itself *)

(** The loop [for (next = 1; next < v_size; next++)] of both overloads:
    [v[next]] is compared with [v[last_distinct]], and an element that
    differs is swapped to the place after it. *)
Fixpoint compact {A} (differ : A → A → bool) (v : list A) (todo : list nat)
    (last_distinct : nat) : result (list A * nat) :=
  match todo with
  | [] => Ok (v, last_distinct)
  | next :: todo' =>
      x ← at_ v next;
      y ← at_ v last_distinct;
      if differ x y then
        let last_distinct := S last_distinct in
        z ← at_ v last_distinct;
        compact differ (<[next := z]> (<[last_distinct := x]> v)) todo' last_distinct
      else compact differ v todo' last_distinct
  end.

(** [util::make_set(v)] for a vector of vertices *)
Definition make_set1 (v : list NodeID) : result (list NodeID) :=
  if (length v =? 0)%nat then Ok v
  else
    let v1 := util.sort_by Nat.ltb v in
    '(v2, last_distinct) ← compact (λ x y, negb (x =? y)%nat) v1 (seq 1 (length v1 - 1)) 0;
    Ok (vresize v2 (last_distinct + 1) 0%nat).

(** [util::make_set(v, comp)], with its loop run on the vector *)
Definition make_set2 (comp : Neighbor → Neighbor → bool) (v : list Neighbor)
  : result (list Neighbor) :=
  if (length v <? 2)%nat then Ok v
  else
    let v1 := util.sort_by comp v in
    '(v2, last_distinct) ←
      compact (λ x y, negb (node x =? node y)%nat) v1 (seq 1 (length v1 - 1)) 0;
    Ok (take (last_distinct + 1) v2).

(** The elements the loop keeps: those that differ from the last one kept. *)
Fixpoint kept_after {A} (differ : A → A → bool) (last : A) (l : list A) : list A :=
  match l with
  | [] => []
  | x :: l' => if differ x last then x :: kept_after differ x l' else kept_after differ last l'
  end.

(** ** Connected components *)

(** [Graph::assign_nodes] *)
Fixpoint assign_nodes_from (g : Graph) (todo : list NodeID) : result Graph :=
  match todo with
  | [] => Ok g
  | v :: todo' =>
      _ ← at_ (node_data g) v;
      assign_nodes_from (set_subgraph g v (g_subgraph_id g)) todo'
  end.

Definition assign_nodes (g : Graph) : result Graph := assign_nodes_from g (nodes g).

(** [util::size_sum], a [size_t] *)
Definition size_sum {A} (v : list (list A)) : Z :=
  foldl (λ sum x, PBV.wrap64 (sum + Z.of_nat (length x))) 0 v.

(** The loop over the neighbours of the vertex taken from the stack; the
    head of [stack] is the back of the vector. *)
Fixpoint cc_push (g : Graph) (ns : list Neighbor) (stack : list NodeID)
  : result (Graph * list NodeID) :=
  match ns with
  | [] => Ok (g, stack)
  | n :: ns' =>
      c ← contains g (node n);
      if c : bool
      then cc_push (set_subgraph g (node n) NO_SUBGRAPH) ns' (node n :: stack)
      else cc_push g ns' stack
  end.

(** [while (!stack.empty())] *)
Fixpoint cc_search (fuel : nat) (g : Graph) (stack cc : list NodeID)
  : result (Graph * list NodeID) :=
  match fuel with
  | O => Fail OutOfFuel
  | S fuel' =>
      match stack with
      | [] => Ok (g, cc)
      | v :: stack' =>
          nd ← at_ (node_data g) v;
          '(g', stack'') ← cc_push g (neighbors nd) stack';
          cc_search fuel' g' stack'' (cc ++ [v])
      end
  end.

(** [for (NodeID start_node : nodes)] *)
Fixpoint cc_loop (fuel : nat) (g : Graph) (todo : list NodeID)
    (components : list (list NodeID)) : result (Graph * list (list NodeID)) :=
  match todo with
  | [] => Ok (g, components)
  | start_node :: todo' =>
      c ← contains g start_node;
      if negb c then cc_loop fuel g todo' components
      else
        '(g', cc) ← cc_search fuel (set_subgraph g start_node NO_SUBGRAPH) [start_node] [];
        cc_loop fuel g' todo' (components ++ [cc])
  end.

(** [Graph::get_connected_components]: the graph it leaves and the
    components. *)
Definition get_connected_components (cfg : BuildConfig) (fuel : nat) (g : Graph)
  : result (Graph * list (list NodeID)) :=
  _ ← CHECK_CONSISTENT cfg g;
  '(g1, components) ← cc_loop fuel g (nodes g) [];
  g2 ← assign_nodes g1;
  _ ← check cfg (size_sum components =? Z.of_nat (length (nodes g)));
  Ok (g2, components).

(** [u] has an entry for [w], and [w] is in the subgraph. *)
Definition edge_in (g : Graph) (u w : NodeID) : Prop :=
  contains g w = Ok true
  ∧ ∃ nd n, node_data g !! u = Some nd ∧ n ∈ neighbors nd ∧ node n = w.

(** What [get_connected_components] needs of the subgraph. *)
Definition cc_ready (g : Graph) : Prop :=
  g_subgraph_id g ≠ NO_SUBGRAPH
  ∧ Z.of_nat (length (node_data g)) <= 4294967296
  ∧ NoDup (nodes g)
  ∧ listed_contained g
  ∧ (∀ u, contains g u = Ok true → u ∈ nodes g)
  ∧ ∀ u nd n, node_data g !! u = Some nd → n ∈ neighbors nd →
      (node n < length (node_data g))%nat.

(** The state inside [get_connected_components], seen from the graph [g] it
    started on: some vertices of the subgraph have lost their stamp. *)
Definition dimmed (g gt : Graph) : Prop :=
  g_subgraph_id gt = g_subgraph_id g
  ∧ nodes gt = nodes g
  ∧ length (node_data gt) = length (node_data g)
  ∧ ∀ v nd, node_data g !! v = Some nd →
      ∃ nd', node_data gt !! v = Some nd' ∧ neighbors nd' = neighbors nd
        ∧ (subgraph_id nd' = subgraph_id nd
           ∨ (subgraph_id nd' = NO_SUBGRAPH ∧ subgraph_id nd = g_subgraph_id g)).

(** The state of one search from [s], started on [g0]: the vertices on the
    stack and in the component are those that lost their stamp, each is
    reached from [s], and the edges of the component end in the two. *)
Definition cc_inv (g g0 : Graph) (s : NodeID) (gt : Graph) (stack cc : list NodeID) : Prop :=
  dimmed g0 gt
  ∧ NoDup (cc ++ stack)
  ∧ head (cc ++ stack) = Some s
  ∧ (∀ v, contains g0 v = Ok true → (contains gt v = Ok true ↔ v ∉ cc ++ stack))
  ∧ (∀ v, v ∈ cc ++ stack → contains g0 v = Ok true ∧ rtc (edge_in g) s v)
  ∧ ∀ u w, u ∈ cc → edge_in g u w → contains g0 w = Ok true → w ∈ cc ++ stack.

(** Every component starts with a vertex from which all its vertices are
    reached, and its edges end in it or in an earlier component. *)
Definition components_of (g : Graph) (comps : list (list NodeID)) : Prop :=
  ∀ i cc, comps !! i = Some cc →
    ∃ s, head cc = Some s ∧ (∀ v, v ∈ cc → rtc (edge_in g) s v)
      ∧ ∀ u w, u ∈ cc → edge_in g u w →
          ∃ j cc', (j ≤ i)%nat ∧ comps !! j = Some cc' ∧ w ∈ cc'.

(** The state between two searches. *)
Definition cc_outer (g gt : Graph) (comps : list (list NodeID)) : Prop :=
  dimmed g gt
  ∧ NoDup (concat comps)
  ∧ (∀ v, contains g v = Ok true → (contains gt v = Ok true ↔ v ∉ concat comps))
  ∧ (∀ v, v ∈ concat comps → contains g v = Ok true)
  ∧ components_of g comps.

(** A graph in two parts: 1 - 2 and 3 - 4 - 5. *)
Definition two_parts : Graph :=
  Eval vm_compute in
    unwrap empty_graph
      (g0 ← Graph_new debug_config 5; add_edges debug_config g0
         [(1%nat, 2%nat, 1); (3%nat, 4%nat, 1); (4%nat, 5%nat, 2)]).

(** ** Breadth-first search *)

(** [for (NodeID node : nodes) node_data[node].distance = infinity;] *)
Fixpoint bfs_init (cfg : BuildConfig) (todo : list NodeID) (tbl : list SearchData)
  : result (list SearchData) :=
  match todo with
  | [] => Ok tbl
  | u :: todo' =>
      cur ← at_ tbl u;
      tbl' ← set_at tbl u (mkSearch (infinity cfg) (sd_path_count cur));
      bfs_init cfg todo' tbl'
  end.

(** [for (Neighbor n : node_data[next].neighbors)] *)
Fixpoint bfs_visit (cfg : BuildConfig) (g : Graph) (new_dist : distance_t)
    (ns : list Neighbor) (tbl : list SearchData) (q : list NodeID)
  : result (list SearchData * list NodeID) :=
  match ns with
  | [] => Ok (tbl, q)
  | n :: ns' =>
      c ← contains g (node n);
      if c : bool then
        cur ← at_ tbl (node n);
        if sd_distance cur =? infinity cfg then
          tbl' ← set_at tbl (node n) (mkSearch new_dist (sd_path_count cur));
          bfs_visit cfg g new_dist ns' tbl' (q ++ [node n])
        else bfs_visit cfg g new_dist ns' tbl q
      else bfs_visit cfg g new_dist ns' tbl q
  end.

(** [while (!q.empty())], at most [fuel] rounds; the head of [q] is the
    front of the queue. *)
Fixpoint bfs_loop (cfg : BuildConfig) (g : Graph) (fuel : nat) (tbl : list SearchData)
    (q : list NodeID) : result (list SearchData) :=
  match q with
  | [] => Ok tbl
  | next :: q' =>
      match fuel with
      | O => Fail OutOfFuel
      | S fuel' =>
          cur ← at_ tbl next;
          let new_dist := add32 (sd_distance cur) 1 in
          nd ← at_ (node_data g) next;
          '(tbl', q'') ← bfs_visit cfg g new_dist (neighbors nd) tbl q';
          bfs_loop cfg g fuel' tbl' q''
      end
  end.

(** [Graph::run_bfs(v)] on the table [tbl] *)
Definition run_bfs (cfg : BuildConfig) (fuel : nat) (g : Graph) (tbl : list SearchData)
    (v : NodeID) : result (list SearchData) :=
  _ ← CHECK_CONSISTENT cfg g;
  c ← contains g v;
  _ ← check cfg c;
  tbl1 ← bfs_init cfg (nodes g) tbl;
  cur ← at_ tbl1 v;
  tbl2 ← set_at tbl1 v (mkSearch 0 (sd_path_count cur));
  bfs_loop cfg g fuel tbl2 [v].

(** A walk of [k] edges inside the subgraph from [v]. *)
Inductive hops (g : Graph) (v : NodeID) : NodeID → Z → Prop :=
| hops_here : hops g v v 0
| hops_step u w k : hops g v u k → edge_in g u w → hops g v w (k + 1).

(** [d] is the smallest number of edges of a walk from [v] to [u], or
    [infinity] when there is no walk. *)
Definition fewest_hops (cfg : BuildConfig) (g : Graph) (v u : NodeID) (d : distance_t) : Prop :=
  (d = infinity cfg ∧ ∀ k, ¬ hops g v u k)
  ∨ (d < infinity cfg ∧ hops g v u d ∧ ∀ k, hops g v u k → d <= k).

(** What the search relies on: every member of the subgraph is listed in
    [nodes], the listed vertices and the neighbours lie inside [node_data],
    and [infinity] is a [uint32_t] above the number of slots. *)
Definition bfs_ready (cfg : BuildConfig) (g : Graph) : Prop :=
  Z.of_nat (length (node_data g)) < infinity cfg
  ∧ infinity cfg < 4294967296
  ∧ (∀ u, contains g u = Ok true → u ∈ nodes g)
  ∧ (∀ u, u ∈ nodes g → (u < length (node_data g))%nat)
  ∧ ∀ u nd n, node_data g !! u = Some nd → n ∈ neighbors nd →
      (node n < length (node_data g))%nat.

(** The state of the search: [done] are the vertices taken from the queue. *)
Definition bfs_inv (cfg : BuildConfig) (g : Graph) (v : NodeID) (tbl : list SearchData)
    (q done : list NodeID) : Prop :=
  length tbl = length (node_data g)
  ∧ NoDup (done ++ q)
  ∧ (v ∈ done ++ q ∧ dist_of tbl v = 0)
  ∧ (∀ u, contains g u = Ok true → (dist_of tbl u ≠ infinity cfg ↔ u ∈ done ++ q))
  ∧ (∀ u, u ∈ done ++ q →
       contains g u = Ok true ∧ 0 <= dist_of tbl u <= Z.of_nat (length done)
       ∧ hops g v u (dist_of tbl u))
  ∧ (∀ i j a b, (i ≤ j)%nat → q !! i = Some a → q !! j = Some b →
       dist_of tbl a <= dist_of tbl b)
  ∧ (∀ x y, head q = Some x → y ∈ done ++ q → dist_of tbl y <= dist_of tbl x + 1)
  ∧ (∀ x y, head q = Some x → y ∈ done → dist_of tbl y <= dist_of tbl x)
  ∧ ∀ u w, u ∈ done → edge_in g u w →
      w ∈ done ++ q ∧ dist_of tbl w <= dist_of tbl u + 1.

(** ** Distances inside a contraction tree *)

(** One step towards the root: [v] has a non-zero offset and [p] is its
    parent. *)
Definition up_step (ls : list ContractionLabel) (v p : NodeID) : Prop :=
  ∃ l, ls !! v = Some l ∧ distance_offset l ≠ 0 ∧ parent l = p.

Definition offset_of (ls : list ContractionLabel) (v : NodeID) : Z :=
  match ls !! v with
  | Some l => distance_offset l
  | None => 0
  end.

(** Offsets are [distance_t] values that grow away from the root. *)
Definition label_forest (ls : list ContractionLabel) : Prop :=
  ∀ v l, ls !! v = Some l →
    0 <= distance_offset l < 4294967296
    ∧ (distance_offset l ≠ 0 →
       ∃ lp, ls !! parent l = Some lp ∧ distance_offset lp < distance_offset l).

Definition lowest_common_ancestor (ls : list ContractionLabel) (v w a : NodeID) : Prop :=
  rtc (up_step ls) v a ∧ rtc (up_step ls) w a
  ∧ ∀ c, rtc (up_step ls) v c → rtc (up_step ls) w c → rtc (up_step ls) a c.

(** The kite with three more vertices hanging off vertex 1: 5 at distance
    3, and 6 and 7 off 5 at distances 2 and 1. *)
Definition pendant_closest : list Neighbor :=
  kite_closest ++ [Neighbor2 1 3; Neighbor2 5 2; Neighbor2 5 1].

Definition pendant_index : ContractionIndex :=
  Eval vm_compute in
    unwrap (mkIndex [] [])
      (ContractionIndex_build spec_config
         (kite_sc.2 ++ replicate 3 CutIndex.empty_index) pendant_closest).

(** ** The labels the constructor writes *)

(** The sum of the distances along the chain of [closest] from [v] to the
    vertex that is its own closest vertex. *)
Fixpoint chain_dist (closest : list Neighbor) (fuel : nat) (v : NodeID) : option Z :=
  match closest !! v with
  | None => None
  | Some c =>
      if decide (node c = v) then Some 0
      else
        match fuel with
        | O => None
        | S fuel' => (λ s, distance c + s) <$> chain_dist closest fuel' (node c)
        end
  end.

(** The labels after the first loop of the constructor: no offsets and no
    parents, and a block only at vertices that are their own closest vertex,
    one block each. *)
Definition core_labels (closest : list Neighbor) (idx : ContractionIndex) : Prop :=
  (∀ v l, labels idx !! v = Some l →
     distance_offset l = 0 ∧ parent l = 0%nat
     ∧ ∀ a, cut_index l = Some a →
         (a < length (heap idx))%nat ∧ v ≠ 0%nat ∧ ∃ c, closest !! v = Some c ∧ node c = v)
  ∧ ∀ v w lv lw a, labels idx !! v = Some lv → labels idx !! w = Some lw →
      cut_index lv = Some a → cut_index lw = Some a → v = w.

(** The second loop writes the label of [v]. *)
Definition hangs (closest : list Neighbor) (v : NodeID) : Prop :=
  ∃ c, closest !! v = Some c ∧ node c ≠ v ∧ node c ≠ NO_NODE.

(** ** Updates below a contracted vertex *)

(** An entry of [contracted_updates]: the old offset, the new one and the
    vertex. *)
Definition offset_update : Type := distance_t * distance_t * NodeID.

(** [operator<] of [pair<pair<distance_t, distance_t>, NodeID>] *)
Definition offset_update_lt (x y : offset_update) : bool :=
  let '(a, b, v) := x in
  let '(a', b', v') := y in
  (a <? a') || ((a =? a') && ((b <? b') || ((b =? b') && (v <? v')%nat))).

(** [for (Neighbor n : node_data[next.node].neighbors)]; the head of
    [stack] is the back of the vector. *)
Fixpoint cs_push (ci : ContractionIndex) (next : SearchNode) (ns : list Neighbor)
    (stack : list SearchNode) : result (list SearchNode) :=
  match ns with
  | [] => Ok stack
  | n :: ns' =>
      l ← get_contraction_label ci (node n);
      if decide (parent l = sn_node next)
      then cs_push ci next ns'
             (mkSearchNode (add32 (sn_distance next) (distance n)) (node n) :: stack)
      else cs_push ci next ns' stack
  end.

(** [while (!stack.empty())], at most [fuel] rounds *)
Fixpoint cs_search (g : Graph) (fuel : nat) (ci : ContractionIndex) (stack : list SearchNode)
  : result ContractionIndex :=
  match stack with
  | [] => Ok ci
  | next :: stack' =>
      match fuel with
      | O => Fail OutOfFuel
      | S fuel' =>
          ci' ← update_distance_offset ci (sn_node next) (sn_distance next);
          nd ← at_ (node_data g) (sn_node next);
          stack'' ← cs_push ci' next (neighbors nd) stack';
          cs_search g fuel' ci' stack''
      end
  end.

(** [for (auto& it: contracted_updates)] *)
Fixpoint cs_loop (g : Graph) (fuel : nat) (ci : ContractionIndex) (updates : list offset_update)
  : result ContractionIndex :=
  match updates with
  | [] => Ok ci
  | (d_old, d_new, x) :: rest =>
      l ← get_contraction_label ci x;
      if negb (d_old =? distance_offset l) then cs_loop g fuel ci rest
      else
        ci' ← cs_search g fuel ci [mkSearchNode d_new x];
        cs_loop g fuel ci' rest
  end.

(** [Graph::contract_seq] *)
Definition contract_seq (g : Graph) (fuel : nat) (ci : ContractionIndex)
    (contracted_updates : list offset_update) : result ContractionIndex :=
  cs_loop g fuel ci (util.sort_by offset_update_lt contracted_updates).

(** [y] lies below [x] in the tree of parents, along edges of the graph of
    total weight [w]. *)
Inductive below (g : Graph) (ls : list ContractionLabel) (x : NodeID) : NodeID → Z → Prop :=
| below_here : below g ls x x 0
| below_step u nd n l w :
    below g ls x u w → node_data g !! u = Some nd → n ∈ neighbors nd →
    ls !! node n = Some l → parent l = u → below g ls x (node n) (w + distance n).

(** What the search relies on: edges end inside the labels, no list names
    a vertex twice, and a vertex whose parent is [u] has a larger offset
    than [u]. *)
Definition offsets_ranked (g : Graph) (ls : list ContractionLabel) : Prop :=
  (length ls ≤ length (node_data g))%nat
  ∧ (∀ u nd, node_data g !! u = Some nd → NoDup (node <$> neighbors nd))
  ∧ ∀ u nd n, node_data g !! u = Some nd → n ∈ neighbors nd →
      ∃ l, ls !! node n = Some l ∧ (parent l = u → offset_of ls u < offset_of ls (node n)).

(** The entries pushed for the neighbours of [next]. *)
Definition children (ls : list ContractionLabel) (next : SearchNode) (ns : list Neighbor)
  : list SearchNode :=
  (λ n, mkSearchNode (add32 (sn_distance next) (distance n)) (node n))
    <$> filter (λ n, (parent <$> ls !! node n) = Some (sn_node next)) ns.

(** The state of the search below [x]: [done] are the entries taken from
    the stack, [ls0] the labels it started on. *)
Definition cs_inv (g : Graph) (ls0 : list ContractionLabel) (x : NodeID) (d_new : Z)
    (ci : ContractionIndex) (stack done : list SearchNode) : Prop :=
  NoDup (sn_node <$> (stack ++ done))
  ∧ mkSearchNode d_new x ∈ stack ++ done
  ∧ (∀ e, e ∈ stack ++ done →
       is_Some (ls0 !! sn_node e)
       ∧ ∃ w, below g ls0 x (sn_node e) w ∧ sn_distance e = wrap32 (d_new + w))
  ∧ (∀ e, e ∈ stack ++ done →
       sn_node e = x ∨ ∃ l, ls0 !! sn_node e = Some l ∧ parent l ∈ sn_node <$> done)
  ∧ (∀ e nd n l, e ∈ done → node_data g !! sn_node e = Some nd → n ∈ neighbors nd →
       ls0 !! node n = Some l → parent l = sn_node e →
       mkSearchNode (add32 (sn_distance e) (distance n)) (node n) ∈ stack ++ done)
  ∧ length (labels ci) = length ls0
  ∧ ∀ y l, ls0 !! y = Some l →
      ∃ l', labels ci !! y = Some l' ∧ cut_index l' = cut_index l ∧ parent l' = parent l
        ∧ (∀ e, e ∈ done → sn_node e = y → distance_offset l' = sn_distance e)
        ∧ (y ∉ sn_node <$> done → distance_offset l' = distance_offset l).

(** The kite with the three vertices of [pendant_closest] attached. *)
Definition pendant_graph : Graph :=
  Eval vm_compute in
    unwrap empty_graph
      (g0 ← Graph_new spec_config 7;
       add_edges spec_config g0
         (kite_edges ++ [(1%nat, 5%nat, 3); (5%nat, 6%nat, 2); (5%nat, 7%nat, 1)])).

(** * The cut hierarchy

    [Graph::create_cut_index] and what it calls.  [node_data] is a static
    member: every [Graph] object is a view on it, a list of vertices and a
    subgraph id, and the views of one run share the store below. *)

(** What the partitioner takes from outside the sources at hand: the values
    the C library's [rand()] returns, and the element that
    [extend_cut_index] reads before the first one of an empty [dist_index]
    at level 0 (an access outside the vector; [None] when the run is to stop
    there). *)
Record PartitionConfig := {
  rand : nat → Z;                  (* the value of the k-th call of [rand()] *)
  below_dist_index : option Z
}.

(** The switches at the head of [road_network.cpp]; [CUT_REPEAT] is not
    defined there and [MULTI_CUT] is. *)
Definition weighted_furthest : bool := false.
Definition weighted_diff : bool := false.

(** The fields [outcopy_distance], [inflow] and [outflow] of [Node]. *)
Record FlowData := mkFlow {
  outcopy_distance : distance_t;
  inflow : NodeID;
  outflow : NodeID
}.

Record Store := mkStore {
  st_nodes : list Node;            (* [subgraph_id] and [neighbors] *)
  st_search : list SearchData;     (* [distance] and [path_count] *)
  st_flow : list FlowData;
  st_landmark : list Z;            (* [landmark_level] *)
  st_next_id : Z;                  (* the counter of [next_subgraph_id] *)
  st_rand : nat                    (* calls of [rand()] so far *)
}.

(** A [Graph] object: its [nodes] and its [subgraph_id]. *)
Record Subgraph := mkSub {
  sub_nodes : list NodeID;
  sub_id : Z
}.

(** State and faults threaded through the build. *)
Definition Build (A : Type) : Type := Store → result (A * Store).

Global Instance Build_ret : MRet Build := λ A a st, Ok (a, st).
Global Instance Build_bind : MBind Build := λ A B k m st,
  match m st with
  | Ok (a, st') => k a st'
  | Fail f => Fail f
  end.

Definition lift {A} (r : result A) : Build A := λ st,
  match r with
  | Ok a => Ok (a, st)
  | Fail f => Fail f
  end.

Definition fail {A} (f : fault) : Build A := λ _, Fail f.

Definition get_store : Build Store := λ st, Ok (st, st).

Definition assert_ (cfg : BuildConfig) (b : bool) : Build unit := lift (check cfg b).

(** [for (x : l) body(x)] *)
Fixpoint for_each {A} (l : list A) (body : A → Build unit) : Build unit :=
  match l with
  | [] => mret tt
  | x :: l' => body x;; for_each l' body
  end.

(** [Graph::s] and [Graph::t], set by [resize] *)
Definition vertex_s : Build NodeID := λ st, Ok ((length (st_nodes st) - 2)%nat, st).
Definition vertex_t : Build NodeID := λ st, Ok ((length (st_nodes st) - 1)%nat, st).

(** Reading and writing one field of [node_data[v]] *)
Definition node_at (v : NodeID) : Build Node := λ st, lift (at_ (st_nodes st) v) st.

Definition set_node (v : NodeID) (nd : Node) : Build unit := λ st,
  match set_at (st_nodes st) v nd with
  | Ok l => Ok (tt, mkStore l (st_search st) (st_flow st) (st_landmark st)
                      (st_next_id st) (st_rand st))
  | Fail f => Fail f
  end.

Definition search_at (v : NodeID) : Build SearchData := λ st, lift (at_ (st_search st) v) st.

Definition set_search (v : NodeID) (x : SearchData) : Build unit := λ st,
  match set_at (st_search st) v x with
  | Ok l => Ok (tt, mkStore (st_nodes st) l (st_flow st) (st_landmark st)
                      (st_next_id st) (st_rand st))
  | Fail f => Fail f
  end.

Definition flow_at (v : NodeID) : Build FlowData := λ st, lift (at_ (st_flow st) v) st.

Definition set_flow (v : NodeID) (x : FlowData) : Build unit := λ st,
  match set_at (st_flow st) v x with
  | Ok l => Ok (tt, mkStore (st_nodes st) (st_search st) l (st_landmark st)
                      (st_next_id st) (st_rand st))
  | Fail f => Fail f
  end.

Definition landmark_at (v : NodeID) : Build Z := λ st, lift (at_ (st_landmark st) v) st.

Definition set_landmark (v : NodeID) (x : Z) : Build unit := λ st,
  match set_at (st_landmark st) v x with
  | Ok l => Ok (tt, mkStore (st_nodes st) (st_search st) (st_flow st) l
                      (st_next_id st) (st_rand st))
  | Fail f => Fail f
  end.

Definition get_distance_field (v : NodeID) : Build distance_t :=
  x ← search_at v; mret (sd_distance x).

Definition set_distance_field (v : NodeID) (d : distance_t) : Build unit :=
  x ← search_at v; set_search v (mkSearch d (sd_path_count x)).

Definition get_outcopy (v : NodeID) : Build distance_t :=
  x ← flow_at v; mret (outcopy_distance x).

Definition set_outcopy (v : NodeID) (d : distance_t) : Build unit :=
  x ← flow_at v; set_flow v (mkFlow d (inflow x) (outflow x)).

Definition get_inflow (v : NodeID) : Build NodeID := x ← flow_at v; mret (inflow x).

Definition set_inflow (v : NodeID) (u : NodeID) : Build unit :=
  x ← flow_at v; set_flow v (mkFlow (outcopy_distance x) u (outflow x)).

Definition get_outflow (v : NodeID) : Build NodeID := x ← flow_at v; mret (outflow x).

Definition set_outflow (v : NodeID) (u : NodeID) : Build unit :=
  x ← flow_at v; set_flow v (mkFlow (outcopy_distance x) (inflow x) u).

Definition neighbors_of (v : NodeID) : Build (list Neighbor) :=
  nd ← node_at v; mret (neighbors nd).

Definition set_neighbors_of (v : NodeID) (ns : list Neighbor) : Build unit :=
  nd ← node_at v; set_node v (mkNode (subgraph_id nd) ns).

Definition stamp (v : NodeID) (id : Z) : Build unit :=
  nd ← node_at v; set_node v (mkNode id (neighbors nd)).

(** [h.contains(v)] *)
Definition contains_in (h : Subgraph) (v : NodeID) : Build bool :=
  nd ← node_at v; mret (subgraph_id nd =? sub_id h).

(** A method of the [Graph] model run on the view [h] of the store. *)
Definition on_graph {A} (h : Subgraph) (f : Graph → result (Graph * A)) : Build (Subgraph * A) :=
  λ st,
  match f (mkGraph (st_nodes st) (sub_nodes h) (sub_id h)) with
  | Ok (g, a) =>
      Ok ((mkSub (nodes g) (g_subgraph_id g), a),
          mkStore (node_data g) (st_search st) (st_flow st) (st_landmark st)
            (st_next_id st) (st_rand st))
  | Fail f => Fail f
  end.

Definition check_consistent (cfg : BuildConfig) (h : Subgraph) : Build unit := λ st,
  lift (CHECK_CONSISTENT cfg (mkGraph (st_nodes st) (sub_nodes h) (sub_id h))) st.

(** [next_subgraph_id(false)] *)
Definition next_subgraph_id : Build Z := λ st,
  Ok (st_next_id st,
      mkStore (st_nodes st) (st_search st) (st_flow st) (st_landmark st)
        (wrap32 (st_next_id st + 1)) (st_rand st)).

(** Modelled from the spec: the constructor [Graph(begin, end)] is a
    template of [road_network.h].  A subgraph is a view with a fresh id,
    stamped onto each of its vertices. *)
Definition subgraph_of (ns : list NodeID) : Build Subgraph :=
  id ← next_subgraph_id;
  for_each ns (λ v, stamp v id);;
  mret (mkSub ns id).

(** [Graph::add_node] *)
Definition add_node (cfg : BuildConfig) (h : Subgraph) (v : NodeID) : Build Subgraph :=
  st ← get_store;
  assert_ cfg (bool_decide (v < length (st_nodes st))%nat);;
  stamp v (sub_id h);;
  mret (mkSub (sub_nodes h ++ [v]) (sub_id h)).

Fixpoint add_nodes (cfg : BuildConfig) (h : Subgraph) (vs : list NodeID) : Build Subgraph :=
  match vs with
  | [] => mret h
  | v :: vs' => h' ← add_node cfg h v; add_nodes cfg h' vs'
  end.

(** [Graph::remove_nodes], [Graph::assign_nodes] on a view *)
Definition remove_nodes_in (cfg : BuildConfig) (h : Subgraph) (node_set : list NodeID)
  : Build Subgraph :=
  '(h', _) ← on_graph h (λ g, g' ← remove_nodes cfg g node_set; Ok (g', tt));
  mret h'.

Definition assign_nodes_in (h : Subgraph) : Build unit :=
  for_each (sub_nodes h) (λ v, stamp v (sub_id h)).

(** [weighted ? run_dijkstra(v) : run_bfs(v)] *)
Definition run_search (cfg : BuildConfig) (fuel : nat) (h : Subgraph) (weighted : bool)
    (v : NodeID) : Build unit := λ st,
  let g := mkGraph (st_nodes st) (sub_nodes h) (sub_id h) in
  match (if weighted then run_dijkstra cfg fuel g (st_search st) v
         else run_bfs cfg fuel g (st_search st) v) with
  | Ok tbl => Ok (tt, mkStore (st_nodes st) tbl (st_flow st) (st_landmark st)
                        (st_next_id st) (st_rand st))
  | Fail f => Fail f
  end.

(** [Graph::get_furthest] *)
Fixpoint furthest_scan (todo : list NodeID) (furthest : NodeID) : Build NodeID :=
  match todo with
  | [] => mret furthest
  | v :: todo' =>
      dv ← get_distance_field v;
      df ← get_distance_field furthest;
      furthest_scan todo' (if df <? dv then v else furthest)
  end.

Definition get_furthest (cfg : BuildConfig) (fuel : nat) (h : Subgraph) (v : NodeID)
    (weighted : bool) : Build (NodeID * distance_t) :=
  run_search cfg fuel h weighted v;;
  furthest ← furthest_scan (sub_nodes h) v;
  d ← get_distance_field furthest;
  mret (furthest, d).

(** [Graph::random_node]: [nodes[rand() % nodes.size()]] *)
Definition random_node (pc : PartitionConfig) (h : Subgraph) : Build NodeID := λ st,
  if bool_decide (sub_nodes h = []) then Fail UndefinedBehaviour
  else
    let r := rand pc (st_rand st) in
    match sub_nodes h !! Z.to_nat (r mod Z.of_nat (length (sub_nodes h))) with
    | Some v => Ok (v, mkStore (st_nodes st) (st_search st) (st_flow st) (st_landmark st)
                         (st_next_id st) (S (st_rand st)))
    | None => Fail UndefinedBehaviour
    end.

(** [DiffData] *)
Record DiffData := mkDiff {
  dd_node : NodeID;
  dist_a : distance_t;
  dist_b : distance_t
}.

Definition to_int32 (x : Z) : Z := if x <? 2147483648 then x else x - 4294967296.

(** [DiffData::diff]: a difference of two [int32_t] *)
Definition dd_diff (x : DiffData) : Z := to_int32 (dist_a x) - to_int32 (dist_b x).

(** the difference fits an [int32_t] *)
Definition dd_diff_fits (x : DiffData) : bool :=
  (-2147483648 <=? dd_diff x) && (dd_diff x <=? 2147483647).

Definition dd_min (x : DiffData) : distance_t := Z.min (dist_a x) (dist_b x).

Definition cmp_diff (x y : DiffData) : bool := dd_diff x <? dd_diff y.

(** [std::sort] where elements may compare equal: up to 16 elements the
    library (libstdc++) runs an insertion sort, which keeps their order;
    longer ranges are not covered. *)
Definition std_sort {A} (lt : A → A → bool) (l : list A) : result (list A) :=
  if (length l <=? 16)%nat then Ok (util.sort_by lt l) else Fail OutsideModel.

(** [Graph::get_diff_data] *)
Fixpoint diff_init (todo : list NodeID) : Build (list DiffData) :=
  match todo with
  | [] => mret []
  | v :: todo' =>
      d ← get_distance_field v;
      rest ← diff_init todo';
      mret (mkDiff v d 0 :: rest)
  end.

Fixpoint diff_fill (diff : list DiffData) : Build (list DiffData) :=
  match diff with
  | [] => mret []
  | dd :: diff' =>
      d ← get_distance_field (dd_node dd);
      rest ← diff_fill diff';
      mret (mkDiff (dd_node dd) (dist_a dd) d :: rest)
  end.

Definition get_diff_data (cfg : BuildConfig) (fuel : nat) (h : Subgraph) (a b : NodeID)
    (weighted pre_computed : bool) : Build (list DiffData) :=
  check_consistent cfg h;;
  (if NDEBUG cfg then mret tt
   else da ← get_distance_field a; assert_ cfg (negb pre_computed || (da =? 0)));;
  (if pre_computed then mret tt else run_search cfg fuel h weighted a);;
  diff ← diff_init (sub_nodes h);
  run_search cfg fuel h weighted b;;
  diff_fill diff.

(** [Partition] *)
Record Partition := mkPartition {
  p_left : list NodeID;
  p_cut : list NodeID;
  p_right : list NodeID
}.

Definition Partition_empty : Partition := mkPartition [] [] [].

Definition partition_is_empty (p : Partition) : bool :=
  bool_decide (p_left p = []) && bool_decide (p_cut p = []) && bool_decide (p_right p = []).

Definition double_of_size (n : nat) : PrimFloat.float :=
  PrimFloat.of_uint63 (Uint63.of_Z (Z.of_nat n)).

(** [Partition::rating] *)
Definition rating (p : Partition) : PrimFloat.float :=
  let l := length (p_left p) in
  let r := length (p_right p) in
  let c := length (p_cut p) in
  PrimFloat.div (double_of_size (Nat.min l r))
    (PrimFloat.add (double_of_size (c * c)) (double_of_size 1)).

(** [static_cast<size_t>(ceil(x))] for [0 <= x <= bound] *)
Fixpoint ceil_from (x : PrimFloat.float) (k : nat) (fuel : nat) : result nat :=
  if PrimFloat.leb x (double_of_size k) then Ok k
  else
    match fuel with
    | O => Fail OutsideModel
    | S fuel' => ceil_from x (S k) fuel'
    end.

Definition ceil_size (x : PrimFloat.float) (bound : nat) : result nat :=
  if PrimFloat.leb (double_of_size 0) x then ceil_from x 0 bound else Fail OutsideModel.

(** [cmp_size_desc] *)
Definition cmp_size_desc (a b : list NodeID) : bool := (length b <? length a)%nat.

(** [add_to_smaller] *)
Definition add_to_smaller (p : Partition) (cc : list NodeID) : Partition :=
  if (length (p_left p) <=? length (p_right p))%nat
  then mkPartition (cc ++ p_left p) (p_cut p) (p_right p)
  else mkPartition (p_left p) (p_cut p) (cc ++ p_right p).

Definition distribute (p : Partition) (ccs : list (list NodeID)) : Partition :=
  foldl add_to_smaller p ccs.

(** [Graph::get_connected_components] on a view *)
Definition connected_components (cfg : BuildConfig) (fuel : nat) (h : Subgraph)
  : Build (list (list NodeID)) :=
  '(_, cc) ← on_graph h (get_connected_components cfg fuel);
  mret cc.

(** The bottleneck loop of [get_rough_partition] *)
Fixpoint bottlenecks_of (center_diff_value : Z) (diff : list DiffData)
    (min_dist : distance_t) (bottlenecks : list NodeID) : list NodeID :=
  match diff with
  | [] => bottlenecks
  | dd :: diff' =>
      if dd_diff dd =? center_diff_value then
        let '(min_dist, bottlenecks) :=
          if dd_min dd <? min_dist then (dd_min dd, []) else (min_dist, bottlenecks) in
        if dd_min dd =? min_dist
        then bottlenecks_of center_diff_value diff' min_dist (bottlenecks ++ [dd_node dd])
        else bottlenecks_of center_diff_value diff' min_dist bottlenecks
      else bottlenecks_of center_diff_value diff' min_dist bottlenecks
  end.

(** [while (diff[max_left - 1].diff() == diff[max_left].diff()) max_left++;] *)
Fixpoint grow_left (fuel : nat) (diff : list DiffData) (max_left : nat) : result nat :=
  match fuel with
  | O => Fail OutOfFuel
  | S fuel' =>
      if (max_left =? 0)%nat then Fail UndefinedBehaviour
      else
        x ← at_ diff (max_left - 1)%nat;
        y ← at_ diff max_left;
        if dd_diff x =? dd_diff y then grow_left fuel' diff (S max_left) else Ok max_left
  end.

(** [while (diff[min_right - 1].diff() == diff[min_right].diff()) min_right--;] *)
Fixpoint shrink_right (fuel : nat) (diff : list DiffData) (min_right : nat) : result nat :=
  match fuel with
  | O => Fail OutOfFuel
  | S fuel' =>
      if (min_right =? 0)%nat then Fail UndefinedBehaviour
      else
        x ← at_ diff (min_right - 1)%nat;
        y ← at_ diff min_right;
        if dd_diff x =? dd_diff y then shrink_right fuel' diff (min_right - 1)%nat
        else Ok min_right
  end.

(** [Graph::get_rough_partition(p, balance, disconnected)] on the view [h];
    [p] goes in and out. *)
Fixpoint get_rough_partition (cfg : BuildConfig) (pc : PartitionConfig) (fuel : nat)
    (balance : PrimFloat.float) (h : Subgraph) (p : Partition) (disconnected : bool)
  : Build (Subgraph * Partition * bool) :=
  match fuel with
  | O => fail OutOfFuel
  | S fuel' =>
      check_consistent cfg h;;
      assert_ cfg (partition_is_empty p);;
      split ← (if disconnected then
                 cc ← connected_components cfg fuel h;
                 if (1 <? length cc)%nat then
                   cc ← lift (std_sort cmp_size_desc cc);
                   cc0 ← lift (at_ cc 0%nat);
                   if PrimFloat.ltb (double_of_size (length cc0))
                        (PrimFloat.mul (double_of_size (length (sub_nodes h)))
                           (PrimFloat.sub (double_of_size 1)
                              (PrimFloat.div balance (double_of_size 2))))
                   then mret (Some (h, distribute p cc, true))
                   else
                     main_cc ← subgraph_of cc0;
                     '(main_cc', p', is_fine) ←
                       get_rough_partition cfg pc fuel' balance main_cc p false;
                     for_each (sub_nodes main_cc') (λ v, stamp v (sub_id h));;
                     mret (Some (h, (if is_fine : bool then distribute p' (tail cc) else p'),
                                 is_fine))
                 else mret None
               else mret None);
      match split with
      | Some r => mret r
      | None =>
          start ← (if NDEBUG cfg then random_node pc h else lift (at_ (sub_nodes h) 0%nat));
          '(a, _) ← get_furthest cfg fuel h start weighted_furthest;
          '(b, _) ← get_furthest cfg fuel h a weighted_furthest;
          diff ← get_diff_data cfg fuel h a b weighted_diff weighted_furthest;
          _ ← (if forallb dd_diff_fits diff then mret tt else fail UndefinedBehaviour);
          diff ← lift (std_sort cmp_diff diff);
          let n := length (sub_nodes h) in
          c ← lift (ceil_size (PrimFloat.mul (double_of_size n) balance) n);
          let max_left := Nat.min (n / 2) c in
          let min_right := (n - max_left)%nat in
          assert_ cfg (max_left <=? min_right)%nat;;
          _ ← (if (max_left =? 0)%nat then fail UndefinedBehaviour else mret tt);
          dl ← lift (at_ diff (max_left - 1)%nat);
          dr ← lift (at_ diff min_right);
          if dd_diff dl =? dd_diff dr then
            let bottlenecks :=
              util.sort_by Nat.ltb (bottlenecks_of (dd_diff dr) diff (infinity cfg) []) in
            h1 ← remove_nodes_in cfg h bottlenecks;
            '(h2, p', is_fine) ← get_rough_partition cfg pc fuel' balance h1 p true;
            h3 ← add_nodes cfg h2 bottlenecks;
            let p'' := mkPartition (p_left p') (p_cut p' ++ bottlenecks) (p_right p') in
            mret (h3, p'',
                  is_fine && (length (p_cut p'') =? length bottlenecks)%nat)
          else
            max_left ← lift (grow_left (S n) diff max_left);
            min_right ← lift (shrink_right (S n) diff min_right);
            let ids := dd_node <$> diff in
            mret (h,
                  mkPartition (p_left p ++ take max_left ids)
                    (p_cut p ++ take (min_right - max_left) (drop max_left ids))
                    (p_right p ++ drop (Nat.max max_left min_right) ids),
                  false)
      end
  end.

(** *** Maximum flow *)

Definition FlowNode : Type := NodeID * bool.   (* vertex, [outcopy] *)

(** [update_distance] on [node_data[v].distance] and on
    [node_data[v].outcopy_distance] *)
Definition update_distance_in (v : NodeID) (d_new : distance_t) : Build bool :=
  d ← get_distance_field v;
  if d_new <? d then set_distance_field v d_new;; mret true else mret false.

Definition update_distance_out (v : NodeID) (d_new : distance_t) : Build bool :=
  d ← get_outcopy v;
  if d_new <? d then set_outcopy v d_new;; mret true else mret false.

Definition fn_distance (fn : FlowNode) : Build distance_t :=
  if fn.2 then get_outcopy fn.1 else get_distance_field fn.1.

(** The initialisation both flow searches share, as written in the
    source: every vertex at [infinity], the fields of [t] at 0. *)
Definition flow_bfs_init (cfg : BuildConfig) (h : Subgraph) : Build unit :=
  for_each (sub_nodes h) (λ v,
    set_distance_field v (infinity cfg);; set_outcopy v (infinity cfg));;
  t ← vertex_t;
  set_distance_field t 0;; set_outcopy t 0.

(** [Graph::run_flow_bfs_from_t] *)
Fixpoint flow_t_seed (cfg : BuildConfig) (h : Subgraph) (t : NodeID) (ns : list Neighbor)
    (q : list FlowNode) : Build (list FlowNode) :=
  match ns with
  | [] => mret q
  | n :: ns' =>
      c ← contains_in h (node n);
      if c : bool then
        o ← get_outflow (node n);
        if decide (o ≠ t) then
          assert_ cfg (bool_decide (o = NO_NODE));;
          set_outcopy (node n) 1;;
          set_distance_field (node n) 1;;
          flow_t_seed cfg h t ns' (q ++ [(node n, true)])
        else flow_t_seed cfg h t ns' q
      else flow_t_seed cfg h t ns' q
  end.

Fixpoint flow_t_visit (h : Subgraph) (outflow_ : NodeID) (d : distance_t) (ns : list Neighbor)
    (q : list FlowNode) : Build (list FlowNode) :=
  match ns with
  | [] => mret q
  | n :: ns' =>
      c ← contains_in h (node n);
      if negb c then flow_t_visit h outflow_ d ns' q
      else if decide (node n = outflow_) then
        b ← update_distance_in (node n) d;
        if b : bool then
          _ ← update_distance_out (node n) d;
          flow_t_visit h outflow_ d ns' (q ++ [(node n, false)])
        else flow_t_visit h outflow_ d ns' q
      else
        b ← update_distance_out (node n) d;
        if b : bool then
          o ← get_outflow (node n);
          _ ← (if decide (o = NO_NODE) then update_distance_in (node n) d else mret false);
          flow_t_visit h outflow_ d ns' (q ++ [(node n, true)])
        else flow_t_visit h outflow_ d ns' q
  end.

Fixpoint flow_t_loop (fuel : nat) (h : Subgraph) (q : list FlowNode) : Build unit :=
  match q with
  | [] => mret tt
  | fn :: q' =>
      match fuel with
      | O => fail OutOfFuel
      | S fuel' =>
          fn_dist ← fn_distance fn;
          o ← get_outflow fn.1;
          if bool_decide (o ≠ NO_NODE) && fn.2 then
            b ← update_distance_in o (add32 fn_dist 1);
            if b : bool then
              _ ← update_distance_out o (add32 fn_dist 1);
              flow_t_loop fuel' h (q' ++ [(o, false)])
            else flow_t_loop fuel' h q'
          else
            ns ← neighbors_of fn.1;
            q'' ← flow_t_visit h o (add32 fn_dist 1) ns q';
            flow_t_loop fuel' h q''
      end
  end.

Definition run_flow_bfs_from_t (cfg : BuildConfig) (fuel : nat) (h : Subgraph) : Build unit :=
  check_consistent cfg h;;
  s ← vertex_s; t ← vertex_t;
  (if NDEBUG cfg then mret tt
   else cs ← contains_in h s; ct ← contains_in h t; assert_ cfg (cs && ct));;
  flow_bfs_init cfg h;;
  ns ← neighbors_of t;
  q ← flow_t_seed cfg h t ns [];
  flow_t_loop fuel h q.

(** [Graph::run_flow_bfs_from_s] *)
Fixpoint flow_s_seed (cfg : BuildConfig) (h : Subgraph) (s : NodeID) (ns : list Neighbor)
    (q : list FlowNode) : Build (list FlowNode) :=
  match ns with
  | [] => mret q
  | n :: ns' =>
      c ← contains_in h (node n);
      if c : bool then
        i ← get_inflow (node n);
        if decide (i ≠ s) then
          assert_ cfg (bool_decide (i = NO_NODE));;
          set_distance_field (node n) 1;;
          set_outcopy (node n) 1;;
          flow_s_seed cfg h s ns' (q ++ [(node n, false)])
        else flow_s_seed cfg h s ns' q
      else flow_s_seed cfg h s ns' q
  end.

Fixpoint flow_s_visit (h : Subgraph) (inflow_ : NodeID) (d : distance_t) (ns : list Neighbor)
    (q : list FlowNode) : Build (list FlowNode) :=
  match ns with
  | [] => mret q
  | n :: ns' =>
      c ← contains_in h (node n);
      if negb c then flow_s_visit h inflow_ d ns' q
      else if decide (node n = inflow_) then
        b ← update_distance_out (node n) d;
        if b : bool then
          _ ← update_distance_in (node n) d;
          flow_s_visit h inflow_ d ns' (q ++ [(node n, true)])
        else flow_s_visit h inflow_ d ns' q
      else
        b ← update_distance_in (node n) d;
        if b : bool then
          i ← get_inflow (node n);
          _ ← (if decide (i = NO_NODE) then update_distance_out (node n) d else mret false);
          flow_s_visit h inflow_ d ns' (q ++ [(node n, false)])
        else flow_s_visit h inflow_ d ns' q
  end.

Fixpoint flow_s_loop (fuel : nat) (h : Subgraph) (q : list FlowNode) : Build unit :=
  match q with
  | [] => mret tt
  | fn :: q' =>
      match fuel with
      | O => fail OutOfFuel
      | S fuel' =>
          fn_dist ← fn_distance fn;
          i ← get_inflow fn.1;
          if bool_decide (i ≠ NO_NODE) && negb fn.2 then
            b ← update_distance_out i (add32 fn_dist 1);
            if b : bool then
              _ ← update_distance_in i (add32 fn_dist 1);
              flow_s_loop fuel' h (q' ++ [(i, true)])
            else flow_s_loop fuel' h q'
          else
            ns ← neighbors_of fn.1;
            q'' ← flow_s_visit h i (add32 fn_dist 1) ns q';
            flow_s_loop fuel' h q''
      end
  end.

Definition run_flow_bfs_from_s (cfg : BuildConfig) (fuel : nat) (h : Subgraph) : Build unit :=
  check_consistent cfg h;;
  s ← vertex_s; t ← vertex_t;
  (if NDEBUG cfg then mret tt
   else cs ← contains_in h s; ct ← contains_in h t; assert_ cfg (cs && ct));;
  flow_bfs_init cfg h;;
  ns ← neighbors_of s;
  q ← flow_s_seed cfg h s ns [];
  flow_s_loop fuel h q.

(** The loop over [path] that commits a new s-t path; [pos] counts from 1. *)
Fixpoint commit_path (path : list NodeID) : Build unit :=
  match path with
  | from :: (to :: _) as path' =>
      o ← get_outflow to;
      (if decide (o = from) then
         set_outflow to NO_NODE;;
         i ← get_inflow from;
         if decide (i = to) then set_inflow from NO_NODE else mret tt
       else
         set_outflow from to;; set_inflow to from);;
      commit_path path'
  | _ => mret tt
  end.

(** The neighbours pushed when the search goes on from [fn]. *)
Fixpoint dfs_push (h : Subgraph) (inflow_ : NodeID) (next_distance : distance_t)
    (ns : list Neighbor) (stack : list FlowNode) : Build (list FlowNode) :=
  match ns with
  | [] => mret stack
  | n :: ns' =>
      c ← contains_in h (node n);
      if negb c then dfs_push h inflow_ next_distance ns' stack
      else if decide (node n = inflow_) then
        d ← get_outcopy inflow_;
        dfs_push h inflow_ next_distance ns'
          (if d =? next_distance then (inflow_, true) :: stack else stack)
      else
        d ← get_distance_field (node n);
        dfs_push h inflow_ next_distance ns'
          (if d =? next_distance then (node n, false) :: stack else stack)
  end.

(** [while (!stack.empty())]: the head of [stack] is the back of the
    vector; the result says whether an s-t path was committed, and gives
    [path] as the loop leaves it. *)
Fixpoint dfs_loop (cfg : BuildConfig) (fuel : nat) (h : Subgraph) (s t : NodeID)
    (s_distance : distance_t) (stack : list FlowNode) (path : list NodeID)
  : Build (list NodeID) :=
  match stack with
  | [] => mret path
  | fn :: stack' =>
      match fuel with
      | O => fail OutOfFuel
      | S fuel' =>
          fn_dist ← fn_distance fn;
          if fn_dist =? infinity cfg then dfs_loop cfg fuel' h s t s_distance stack' path
          else
            let len := sub32 (sub32 s_distance fn_dist) 1 in
            assert_ cfg ((fn_dist <? s_distance) && (len <=? Z.of_nat (length path)));;
            _ ← (if len <? 65536 then mret tt else fail OutsideModel);
            let path := vresize path (Z.to_nat len) NO_NODE in
            if decide (fn.1 = t) then
              first ← lift (at_ path 0%nat);
              i ← get_inflow first;
              assert_ cfg (bool_decide (i = NO_NODE));;
              set_inflow first s;;
              commit_path path;;
              last ← lift (at_ path (length path - 1)%nat);
              o ← get_outflow last;
              assert_ cfg (bool_decide (o = NO_NODE));;
              set_outflow last t;;
              mret []
            else
              (if fn.2 then set_outcopy fn.1 (infinity cfg)
               else set_distance_field fn.1 (infinity cfg));;
              let path := path ++ [fn.1] in
              let next_distance := sub32 fn_dist 1 in
              i ← get_inflow fn.1;
              stack'' ←
                (if bool_decide (i ≠ NO_NODE) && negb fn.2 then
                   d ← get_outcopy i;
                   mret (if d =? next_distance then (i, true) :: stack' else stack')
                 else
                   ns ← neighbors_of fn.1;
                   dfs_push h i next_distance ns stack');
              dfs_loop cfg fuel' h s t s_distance stack'' path
      end
  end.

(** [for (Neighbor sn : node_data[s].neighbors)] of one phase *)
Fixpoint dfs_from_s (cfg : BuildConfig) (fuel : nat) (h : Subgraph) (s t : NodeID)
    (s_distance : distance_t) (ns : list Neighbor) (path : list NodeID) : Build unit :=
  match ns with
  | [] => mret tt
  | sn :: ns' =>
      c ← contains_in h (node sn);
      d ← (if c : bool then get_distance_field (node sn) else mret 0);
      if negb c || negb (d =? sub32 s_distance 1) then
        dfs_from_s cfg fuel h s t s_distance ns' path
      else
        i ← get_inflow (node sn);
        if decide (i ≠ NO_NODE) then
          assert_ cfg (bool_decide (i = s));;
          dfs_from_s cfg fuel h s t s_distance ns' path
        else
          path' ← dfs_loop cfg fuel h s t s_distance [(node sn, false)] path;
          dfs_from_s cfg fuel h s t s_distance ns' path'
  end.

(** [while (true)]: the phases of Dinitz' algorithm *)
Fixpoint flow_phases (cfg : BuildConfig) (fuel : nat) (rounds : nat) (h : Subgraph)
    (s t : NodeID) (last_s_distance : distance_t) : Build unit :=
  match rounds with
  | O => fail OutOfFuel
  | S rounds' =>
      run_flow_bfs_from_t cfg fuel h;;
      s_distance ← get_outcopy s;
      if s_distance =? infinity cfg then mret tt
      else
        assert_ cfg (last_s_distance <? s_distance);;
        ns ← neighbors_of s;
        dfs_from_s cfg fuel h s t s_distance ns [];;
        flow_phases cfg fuel rounds' h s t s_distance
  end.

(** The cut on the side of [t] and the cut on the side of [s] *)
Fixpoint cut_at_t (cfg : BuildConfig) (t : NodeID) (todo : list NodeID) : Build (list NodeID) :=
  match todo with
  | [] => mret []
  | v :: todo' =>
      o ← get_outflow v;
      keep ←
        (if decide (o ≠ NO_NODE) then
           i ← get_inflow v;
           assert_ cfg (bool_decide (i ≠ NO_NODE));;
           dout ← get_outcopy v;
           if dout <? infinity cfg then
             din ← get_distance_field v;
             mret (din =? infinity cfg)
           else mret (bool_decide (o = t))
         else mret false);
      rest ← cut_at_t cfg t todo';
      mret (if keep : bool then v :: rest else rest)
  end.

Fixpoint cut_at_s (cfg : BuildConfig) (s : NodeID) (todo : list NodeID) : Build (list NodeID) :=
  match todo with
  | [] => mret []
  | v :: todo' =>
      i ← get_inflow v;
      keep ←
        (if decide (i ≠ NO_NODE) then
           o ← get_outflow v;
           assert_ cfg (bool_decide (o ≠ NO_NODE));;
           din ← get_distance_field v;
           if din <? infinity cfg then
             dout ← get_outcopy v;
             mret (dout =? infinity cfg)
           else mret (bool_decide (i = s))
         else mret false);
      rest ← cut_at_s cfg s todo';
      mret (if keep : bool then v :: rest else rest)
  end.

(** [Graph::min_vertex_cuts]; [MULTI_CUT] is defined in [road_network.cpp]. *)
Definition min_vertex_cuts (cfg : BuildConfig) (fuel : nat) (h : Subgraph)
  : Build (list (list NodeID)) :=
  check_consistent cfg h;;
  s ← vertex_s; t ← vertex_t;
  (if NDEBUG cfg then mret tt
   else cs ← contains_in h s; ct ← contains_in h t; assert_ cfg (cs && ct));;
  for_each (sub_nodes h) (λ v, set_inflow v NO_NODE;; set_outflow v NO_NODE);;
  flow_phases cfg fuel fuel h s t 1;;
  cut0 ← cut_at_t cfg t (sub_nodes h);
  run_flow_bfs_from_s cfg fuel h;;
  cut1 ← cut_at_s cfg s (sub_nodes h);
  mret (if bool_decide (cut0 = cut1) then [cut0] else [cut0; cut1]).

(** *** From a rough partition to a cut *)

(** [for (NodeID node : left.nodes) for (Neighbor n : ...) if (right.contains(n.node))] *)
Fixpoint crossing_at (right : Subgraph) (v : NodeID) (ns : list Neighbor)
    (s_neighbors t_neighbors : list NodeID) : Build (list NodeID * list NodeID) :=
  match ns with
  | [] => mret (s_neighbors, t_neighbors)
  | n :: ns' =>
      c ← contains_in right (node n);
      if c : bool
      then crossing_at right v ns' (s_neighbors ++ [v]) (t_neighbors ++ [node n])
      else crossing_at right v ns' s_neighbors t_neighbors
  end.

Fixpoint crossing (right : Subgraph) (todo : list NodeID)
    (s_neighbors t_neighbors : list NodeID) : Build (list NodeID * list NodeID) :=
  match todo with
  | [] => mret (s_neighbors, t_neighbors)
  | v :: todo' =>
      ns ← neighbors_of v;
      '(s', t') ← crossing_at right v ns s_neighbors t_neighbors;
      crossing right todo' s' t'
  end.

(** [for (NodeID node : side.nodes) for (Neighbor n : ...) if (center.contains(n.node))] *)
Fixpoint border_at (center : Subgraph) (ns : list Neighbor) (acc : list NodeID)
  : Build (list NodeID) :=
  match ns with
  | [] => mret acc
  | n :: ns' =>
      c ← contains_in center (node n);
      border_at center ns' (if c : bool then acc ++ [node n] else acc)
  end.

Fixpoint border (center : Subgraph) (todo : list NodeID) (acc : list NodeID)
  : Build (list NodeID) :=
  match todo with
  | [] => mret acc
  | v :: todo' =>
      ns ← neighbors_of v;
      acc' ← border_at center ns acc;
      border center todo' acc'
  end.

(** [center.add_edge(x, node, 1, true)] for each [node] *)
Fixpoint attach (cfg : BuildConfig) (center : Subgraph) (x : NodeID) (todo : list NodeID)
  : Build unit :=
  match todo with
  | [] => mret tt
  | v :: todo' =>
      _ ← on_graph center (λ g, g' ← add_edge cfg g x v 1 true; Ok (g', tt));
      attach cfg center x todo'
  end.

(** [assert(neighbors.back().node == x); neighbors.pop_back();] for each [node] *)
Fixpoint detach (cfg : BuildConfig) (x : NodeID) (todo : list NodeID) : Build unit :=
  match todo with
  | [] => mret tt
  | v :: todo' =>
      ns ← neighbors_of v;
      match reverse ns with
      | [] => fail UndefinedBehaviour
      | n :: rest =>
          assert_ cfg (bool_decide (node n = x));;
          set_neighbors_of v (reverse rest);;
          detach cfg x todo'
      end
  end.

(** [Graph::rough_partition_to_cuts] *)
Definition rough_partition_to_cuts (cfg : BuildConfig) (fuel : nat) (h : Subgraph)
    (p : Partition) : Build (list (list NodeID)) :=
  left ← subgraph_of (p_left p);
  center ← subgraph_of (p_cut p);
  right ← subgraph_of (p_right p);
  s ← vertex_s; t ← vertex_t;
  center ← add_node cfg center s;
  center ← add_node cfg center t;
  '(s_neighbors, t_neighbors) ← crossing right (sub_nodes left) [] [];
  s_neighbors ← lift (make_set1 s_neighbors);
  t_neighbors ← lift (make_set1 t_neighbors);
  left ← remove_nodes_in cfg left s_neighbors;
  center ← add_nodes cfg center s_neighbors;
  right ← remove_nodes_in cfg right t_neighbors;
  center ← add_nodes cfg center t_neighbors;
  s_neighbors ← border center (sub_nodes left) s_neighbors;
  t_neighbors ← border center (sub_nodes right) t_neighbors;
  s_neighbors ← lift (make_set1 s_neighbors);
  t_neighbors ← lift (make_set1 t_neighbors);
  attach cfg center s s_neighbors;;
  attach cfg center t t_neighbors;;
  cuts ← min_vertex_cuts cfg fuel center;
  detach cfg t t_neighbors;;
  set_neighbors_of t [];;
  detach cfg s s_neighbors;;
  set_neighbors_of s [];;
  assign_nodes_in h;;
  mret cuts.

(** [Graph::complete_partition] *)
Definition complete_partition (cfg : BuildConfig) (fuel : nat) (h : Subgraph) (p : Partition)
  : Build (Subgraph * Partition) :=
  check_consistent cfg h;;
  cut ← lift (make_set1 (p_cut p));
  h1 ← remove_nodes_in cfg h cut;
  components ← connected_components cfg fuel h1;
  components ← lift (std_sort cmp_size_desc components);
  let p' := distribute (mkPartition [] cut []) components in
  h2 ← add_nodes cfg h1 cut;
  assert_ cfg (length (p_left p') + length (p_right p') + length (p_cut p')
               =? length (sub_nodes h2))%nat;;
  mret (h2, p').

(** The loop over the further cuts of [create_partition] *)
Fixpoint best_partition (cfg : BuildConfig) (fuel : nat) (h : Subgraph) (p : Partition)
    (cuts : list (list NodeID)) : Build (Subgraph * Partition) :=
  match cuts with
  | [] => mret (h, p)
  | cut :: cuts' =>
      '(h', p_alt) ← complete_partition cfg fuel h (mkPartition [] cut []);
      best_partition cfg fuel h'
        (if PrimFloat.ltb (rating p) (rating p_alt) then p_alt else p) cuts'
  end.

(** [Graph::create_partition] *)
Definition create_partition (cfg : BuildConfig) (pc : PartitionConfig) (fuel : nat)
    (balance : PrimFloat.float) (h : Subgraph) (p : Partition)
  : Build (Subgraph * Partition) :=
  check_consistent cfg h;;
  assert_ cfg (1 <? length (sub_nodes h))%nat;;
  '(h1, p1, is_fine) ← get_rough_partition cfg pc fuel balance h p (NO_SHORTCUTS cfg);
  if is_fine : bool then mret (h1, p1)
  else
    cuts ← rough_partition_to_cuts cfg fuel h1 p1;
    assert_ cfg (0 <? length cuts)%nat;;
    cut0 ← lift (at_ cuts 0%nat);
    '(h2, p2) ← complete_partition cfg fuel h1
                  (mkPartition (p_left p1) cut0 (p_right p1));
    best_partition cfg fuel h2 p2 (tail cuts).

(** *** The recursion *)

Definition set_cut_index (ci : list CutIndex.t) (v : NodeID) (c : CutIndex.t)
  : result (list CutIndex.t) := set_at ci v c.

(** [node_data[p.cut[c]].landmark_level = p.cut.size() - c] *)
Fixpoint mark_landmarks (size : nat) (cut : list NodeID) (c : nat) : Build unit :=
  match cut with
  | [] => mret tt
  | v :: cut' => set_landmark v (Z.of_nat (size - c));; mark_landmarks size cut' (S c)
  end.

(** The loop that extends [dist_index]; the elements are [uint16_t]. *)
Fixpoint push_dist_index (cfg : BuildConfig) (pc : PartitionConfig) (cut_level : Z)
    (cut_size : Z) (todo : list NodeID) (ci : list CutIndex.t) : Build (list CutIndex.t) :=
  match todo with
  | [] => mret ci
  | v :: todo' =>
      c ← lift (at_ ci v);
      assert_ cfg (Z.of_nat (length (CutIndex.dist_index c)) =? cut_level);;
      prev ← (if cut_level =? 0 then
                match below_dist_index pc with
                | Some x => mret x
                | None => fail UndefinedBehaviour
                end
              else lift (at_ (CutIndex.dist_index c) (Z.to_nat (cut_level - 1))));
      l ← landmark_at v;
      let x := if l =? 0 then add16 prev cut_size
               else add16 prev (cut_size - l + 1) in
      ci' ← lift (set_cut_index ci v
                    (CutIndex.mk (CutIndex.partition c) (CutIndex.cut_level c)
                       (CutIndex.dist_index c ++ [x]) (CutIndex.distances c)
                       (CutIndex.paths c)));
      push_dist_index cfg pc cut_level cut_size todo' ci'
  end.

Fixpoint set_cut_levels (cfg : BuildConfig) (cut_level : Z) (cut : list NodeID)
    (ci : list CutIndex.t) : result (list CutIndex.t) :=
  match cut with
  | [] => Ok ci
  | v :: cut' =>
      c ← at_ ci v;
      let c' := CutIndex.mk (CutIndex.partition c) cut_level (CutIndex.dist_index c)
                  (CutIndex.distances c) (CutIndex.paths c) in
      _ ← check cfg (CutIndex.is_consistent c' false);
      ci' ← set_cut_index ci v c';
      set_cut_levels cfg cut_level cut' ci'
  end.

Fixpoint set_partition_bits (cut_level : Z) (right : list NodeID) (ci : list CutIndex.t)
  : result (list CutIndex.t) :=
  match right with
  | [] => Ok ci
  | v :: right' =>
      c ← at_ ci v;
      ci' ← set_cut_index ci v
              (CutIndex.mk (Z.lor (CutIndex.partition c) (PBV.wrap64 (Z.shiftl 1 cut_level)))
                 (CutIndex.cut_level c) (CutIndex.dist_index c) (CutIndex.distances c)
                 (CutIndex.paths c));
      set_partition_bits cut_level right' ci'
  end.

(** [Graph::extend_cut_index] with [Graph::extend_on_partition] unfolded into
    it ([on_part]); [cut_level] is a [uint8_t].  Subgraphs above the thread
    threshold (at least 1000 vertices) and builds with shortcuts are not
    covered. *)
Fixpoint extend_cut_index (cfg : BuildConfig) (pc : PartitionConfig) (fuel : nat)
    (balance : PrimFloat.float) (h : Subgraph) (ci : list CutIndex.t) (cut_level : Z)
  : Build (list CutIndex.t) :=
  match fuel with
  | O => fail OutOfFuel
  | S fuel' =>
      check_consistent cfg h;;
      assert_ cfg (cut_level <=? MAX_CUT_LEVEL);;
      if (length (sub_nodes h) <? 2)%nat then
        assert_ cfg (cut_level =? 0);;
        lift (foldl (λ r v,
                ci ← r;
                c ← at_ ci v;
                set_cut_index ci v
                  (CutIndex.mk (CutIndex.partition c) 0 (CutIndex.dist_index c ++ [0])
                     (CutIndex.distances c) (CutIndex.paths c)))
              (Ok ci) (sub_nodes h))
      else
        '(h1, p) ←
          (if cut_level <? MAX_CUT_LEVEL then
             create_partition cfg pc fuel balance h Partition_empty
           else mret (h, mkPartition [] (sub_nodes h) []));
        _ ← (if (255 <? length (p_cut p))%nat then fail OutsideModel else mret tt);
        mark_landmarks (length (p_cut p)) (p_cut p) 0;;
        ci1 ← push_dist_index cfg pc cut_level (Z.of_nat (length (p_cut p))) (sub_nodes h1) ci;
        ci2 ← lift (set_cut_levels cfg cut_level (p_cut p) ci1);
        ci3 ← lift (set_partition_bits cut_level (p_right p) ci2);
        for_each (p_cut p) (λ v, set_landmark v 0);;
        _ ← (if (1000 <? length (sub_nodes h1))%nat then fail OutsideModel else mret tt);
        let on_part (part : list NodeID) (ci : list CutIndex.t) : Build (list CutIndex.t) :=
          if (1 <? length part)%nat then
            g ← subgraph_of part;
            _ ← (if NO_SHORTCUTS cfg then mret tt else fail OutsideModel);
            extend_cut_index cfg pc fuel' balance g ci (Z.land (cut_level + 1) 255)
          else
            match part with
            | [v] =>
                c ← lift (at_ ci v);
                prev ← lift (at_ (CutIndex.dist_index c) (Z.to_nat cut_level));
                let c' := CutIndex.mk (CutIndex.partition c) (Z.land (cut_level + 1) 255)
                            (CutIndex.dist_index c ++ [add16 prev 1])
                            (CutIndex.distances c) (CutIndex.paths c) in
                assert_ cfg (CutIndex.is_consistent c' false);;
                lift (set_cut_index ci v c')
            | _ => mret ci
            end in
        ci4 ← on_part (p_left p) ci3;
        on_part (p_right p) ci4
  end.

(** [for (NodeID node : nodes) sort(neighbors.begin(), neighbors.end())],
    by [Neighbor::operator<] *)
Definition sort_neighbors (todo : list NodeID) : Build unit :=
  for_each todo (λ v,
    ns ← neighbors_of v;
    ns' ← lift (std_sort (λ a b, (node a <? node b)%nat) ns);
    set_neighbors_of v ns').

(** A store for the graph [g]: the fields of every [Node] as its constructor
    leaves them, the counter past the id of [g]. *)
Definition store_of (g : Graph) : Store :=
  let n := length (node_data g) in
  mkStore (node_data g) (replicate n (mkSearch 0 0)) (replicate n (mkFlow 0 NO_NODE NO_NODE))
    (replicate n 0) (g_subgraph_id g + 1) 0.

(** [Graph::create_cut_index(ci, balance)]: the graph it leaves and [ci] *)
Definition create_cut_index (cfg : BuildConfig) (pc : PartitionConfig) (fuel : nat)
    (g : Graph) (balance : PrimFloat.float) : result (Graph * list CutIndex.t) :=
  _ ← (if NDEBUG cfg then Ok tt else u ← is_undirected g; check cfg u);
  if (length (node_data g) <? 2)%nat then Fail OutsideModel
  else
    let h := mkSub (nodes g) (g_subgraph_id g) in
    let run : Build (list CutIndex.t) :=
      (if NDEBUG cfg then mret tt else sort_neighbors (nodes g));;
      extend_cut_index cfg pc fuel balance h
        (replicate (length (node_data g) - 2) CutIndex.empty_index) 0 in
    match run (store_of g) with
    | Ok (ci, st) => Ok (mkGraph (st_nodes st) (nodes g) (g_subgraph_id g), ci)
    | Fail f => Fail f
    end.

(** [Graph::reset] *)
Fixpoint reset_from (id : Z) (nd : list Node) (v : NodeID) : list Node * list NodeID :=
  match nd with
  | [] => ([], [])
  | x :: nd' =>
      let '(rest, ns) := reset_from id nd' (S v) in
      if bool_decide (neighbors x = []) then (x :: rest, ns)
      else (mkNode id (neighbors x) :: rest, v :: ns)
  end.

Definition reset (g : Graph) : result Graph :=
  let n := length (node_data g) in
  if (n <? 3)%nat then Fail OutsideModel
  else
    let '(core, ns) := reset_from (g_subgraph_id g) (take (n - 3) (drop 1 (node_data g))) 1 in
    let st := (λ x, mkNode NO_SUBGRAPH (neighbors x)) <$> drop (n - 2) (node_data g) in
    Ok (mkGraph (take 1 (node_data g) ++ core ++ st) ns (g_subgraph_id g)).

(** ** The programs

    [index.cpp] and [update.cpp].  The file of the labels is taken as the
    sequence of its records, a block by its four parts (its bytes are
    abstract); the file of the shortcut graph is the bytes of [CH_write]. *)

Inductive label_record :=
| core_record (b : Block)                           (* offset 0, the size, the block *)
| contracted_record (offset : distance_t) (p : NodeID).

(** [ContractionIndex::write]: [cl.cut_index.size()] reads the block, also
    where [cut_index] is a null pointer. *)
Fixpoint write_labels (h : Heap) (ls : list ContractionLabel) : result (list label_record) :=
  match ls with
  | [] => Ok []
  | cl :: ls' =>
      r ← (if distance_offset cl =? 0 then
             b ← deref h (cut_index cl);
             _ ← label_count b;
             Ok (core_record b)
           else Ok (contracted_record (distance_offset cl) (parent cl)));
      rest ← write_labels h ls';
      Ok (r :: rest)
  end.

Definition ContractionIndex_write (ci : ContractionIndex) : result (list label_record) :=
  if bool_decide (labels ci = []) then Fail OutsideModel
  else write_labels (heap ci) (drop 1 (labels ci)).

(** [ContractionIndex::ContractionIndex(istream&)]: the records are read
    into [labels[1]], [labels[2]], ... *)
Fixpoint read_labels (rs : list label_record) (ls : list ContractionLabel) (h : Heap)
  : list ContractionLabel * Heap :=
  match rs with
  | [] => (ls, h)
  | core_record b :: rs' => read_labels rs' (ls ++ [mkLabel (Some (length h)) 0 NO_NODE]) (h ++ [b])
  | contracted_record offset p :: rs' => read_labels rs' (ls ++ [mkLabel None offset p]) h
  end.

(** [while (labels[root].distance_offset != 0) root = labels[root].parent;] *)
Fixpoint root_of (ls : list ContractionLabel) (fuel : nat) (root : NodeID) : result NodeID :=
  l ← at_ ls root;
  if distance_offset l =? 0 then Ok root
  else
    match fuel with
    | O => Fail OutOfFuel
    | S fuel' => root_of ls fuel' (parent l)
    end.

(** The second loop: a contracted vertex takes the block of its root. *)
Fixpoint fix_references (todo : list NodeID) (ls : list ContractionLabel)
  : result (list ContractionLabel) :=
  match todo with
  | [] => Ok ls
  | v :: todo' =>
      cl ← at_ ls v;
      if distance_offset cl =? 0 then fix_references todo' ls
      else
        root ← root_of ls (length ls) (parent cl);
        lr ← at_ ls root;
        fix_references todo' (<[v := mkLabel (cut_index lr) (distance_offset cl) (parent cl)]> ls)
  end.

Definition ContractionIndex_read (rs : list label_record) : result ContractionIndex :=
  let '(ls, h) := read_labels rs [ContractionLabel_default] [] in
  ls' ← fix_references (seq 1 (length ls - 1)) ls;
  Ok (mkIndex ls' h).

(** [0.2], the balance [main] passes *)
Definition balance_of_main : PrimFloat.float := Eval vm_compute in
  PrimFloat.div (double_of_size 1) (double_of_size 5).

(** [main] of [index.cpp] on the text of the graph file: the two files it
    writes before it returns 0. *)
Definition index_main (cfg : BuildConfig) (pc : PartitionConfig) (fuel : nat) (input : string)
  : result (list label_record * list Z) :=
  g ← read_graph cfg empty_graph input;
  '(g1, closest) ← contract cfg fuel g [];
  '(g2, ci) ← create_cut_index cfg pc fuel g1 balance_of_main;
  g3 ← reset g2;
  '(ch, ci') ← create_sc_graph cfg g3 [] ci closest;
  con_index ← ContractionIndex_build cfg ci' closest;
  cl_file ← ContractionIndex_write con_index;
  Ok (cl_file, CH_write ch).

(** [new_weight = weight * 0.5] and [new_weight = weight * 1.5]: a product
    of doubles converted back to [distance_t]; the variable is not set for
    another mode. *)
Definition scaled_weight (mode : ascii) (weight : distance_t) : result distance_t :=
  if bool_decide (mode = "d"%char) then Ok (weight / 2)
  else if bool_decide (mode = "i"%char) then
    if 3 * weight / 2 <=? UINT32_MAX then Ok (3 * weight / 2) else Fail UndefinedBehaviour
  else Fail UndefinedBehaviour.

(** [while (ifs >> a >> b >> weight)] of [update.cpp] *)
Fixpoint update_lines (fuel : nat) (mode : ascii) (s : istream) (a b weight : option Z)
    (g : Graph) (con_index : ContractionIndex)
    (contracted_updates : list offset_update) (updates : list update_t)
  : result (Graph * list offset_update * list update_t) :=
  match fuel with
  | O => Fail OutOfFuel
  | S fuel' =>
      let '(s', a', b', weight') := get_edge s a b weight in
      if failbit s' then Ok (g, contracted_updates, updates)
      else
        va ← initialised a';
        vb ← initialised b';
        w ← initialised weight';
        new_weight ← scaled_weight mode w;
        g1 ← update_edge g (Z.to_nat va) (Z.to_nat vb) new_weight;
        g2 ← update_edge g1 (Z.to_nat vb) (Z.to_nat va) new_weight;
        x ← get_contraction_label con_index (Z.to_nat va);
        y ← get_contraction_label con_index (Z.to_nat vb);
        ca ← is_contracted con_index (Z.to_nat va);
        cb ← (if ca : bool then Ok true else is_contracted con_index (Z.to_nat vb));
        if cb : bool then
          let contracted_updates' :=
            if distance_offset y <? distance_offset x then
              contracted_updates
              ++ [(distance_offset x, add32 (distance_offset y) new_weight, Z.to_nat va)]
            else if distance_offset x <? distance_offset y then
              contracted_updates
              ++ [(distance_offset y, add32 (distance_offset x) new_weight, Z.to_nat vb)]
            else contracted_updates in
          update_lines fuel' mode s' a' b' weight' g2 con_index contracted_updates' updates
        else
          update_lines fuel' mode s' a' b' weight' g2 con_index contracted_updates
            (updates ++ [((w, new_weight), (Z.to_nat va, Z.to_nat vb))])
  end.

(** [main] of [update.cpp]: the graph file, the two files of the index, the
    file of updates and the mode; the result is what the run leaves in [g],
    [ch] and [con_index] when it returns 0. *)
Definition update_main (cfg : BuildConfig) (fuel : nat) (graph_file : string)
    (cl_file : list label_record) (gs_file : list Z) (updates_file : string) (mode : ascii)
  : result (Graph * ContractionHierarchy * ContractionIndex) :=
  g ← read_graph cfg empty_graph graph_file;
  con_index ← ContractionIndex_read cl_file;
  ch ← CH_read cfg gs_file;
  let cs := list_ascii_of_string updates_file in
  '(g', contracted_updates, updates) ←
    update_lines (S (length cs)) mode (mkStream cs false false) None None None g con_index [] [];
  '(ch', con_index') ←
    (if bool_decide (mode = "d"%char) then
       '(ch', ci', _) ← DCL_Dec cfg fuel ch con_index updates; Ok (ch', ci')
     else if bool_decide (mode = "i"%char) then
       '(ch', ci', _) ← DCL_Inc cfg g' fuel ch con_index updates; Ok (ch', ci')
     else Ok (ch, con_index));
  con_index'' ← contract_seq g' fuel con_index' contracted_updates;
  Ok (g', ch', con_index'').

(** What the answers of the index are compared with: [run_dijkstra] from
    [v] on the graph, read at [w]. *)
Definition dijkstra_distance (cfg : BuildConfig) (fuel : nat) (g : Graph) (v w : NodeID)
  : result distance_t :=
  tbl ← run_dijkstra cfg fuel g (replicate (length (node_data g)) (mkSearch 0 0)) v;
  x ← at_ tbl w;
  Ok (sd_distance x).

(** Both programs in a row: the index of [graph_file], the updates of
    [updates_file] in mode [mode], then the query [(v, w)]; beside the
    answer, the distance [run_dijkstra] finds on the graph as the update run
    leaves it. *)
Definition answer_after (cfg : BuildConfig) (pc : PartitionConfig) (graph_file : string)
    (updates_file : string) (mode : ascii) (v w : NodeID) : result (distance_t * distance_t) :=
  '(cl_file, gs_file) ← index_main cfg pc 100 graph_file;
  '(g', ch', con_index') ← update_main cfg 100 graph_file cl_file gs_file updates_file mode;
  d ← get_distance cfg con_index' 100 v w;
  e ← dijkstra_distance cfg 100 g' v w;
  Ok (d, e).

(** The answer is the distance of the search. *)
Definition agrees (r : result (distance_t * distance_t)) : Prop :=
  match r with
  | Ok (d, e) => d = e
  | Fail _ => False
  end.

(** The down-neighbour lists the index program writes. *)
Definition down_neighbors_built (cfg : BuildConfig) (pc : PartitionConfig)
    (graph_file : string) : result (list (list NodeID)) :=
  '(_, gs_file) ← index_main cfg pc 100 graph_file;
  ch ← CH_read cfg gs_file;
  Ok (map CHNode.down_neighbors ch).


(** What [rand()] returns in a program that never calls [srand], as these
    do, with the GNU C library: its first values. *)
Definition rand_unseeded (k : nat) : Z :=
  nth k [1804289383; 846930886; 1681692777; 1714636915; 1957747793; 424238335] 0.

(** A run in which the read before an empty [dist_index] yields 0 (two
    bytes of the allocator's size field in front of the 64 bytes that
    [reserve(32)] asked for). *)
Definition unseeded_build : PartitionConfig :=
  {| rand := rand_unseeded; below_dist_index := Some 0 |}.

(** The same with [infinity] at half the range of [distance_t]. *)
Definition half_range_config : BuildConfig :=
  {| NDEBUG := true; NO_SHORTCUTS := true; PRUNING := false;
     MULTI_THREAD_DISTANCES := true; infinity := 2147483647;
     chnode_dist_index := 0 |}.

(** A cycle 1-2-3-4-5 with every edge of weight 2. *)
Definition pentagon_file : string :=
  ("p sp 5 5" ++ nl ++ "a 1 2 2" ++ nl ++ "a 2 3 2" ++ nl ++ "a 3 4 2" ++ nl
   ++ "a 4 5 2" ++ nl ++ "a 5 1 2" ++ nl)%string.

(** An updates file without a line. *)
Definition no_updates : string := EmptyString.

Definition pentagon_pairs : list (NodeID * NodeID) :=
  Eval vm_compute in list_prod (seq 1 5) (seq 1 5).


(** * Properties *)

(** ** Outcome monad *)

Lemma bind_Ok_inv {A B} (m : result A) (k : A → result B) b :
  m ≫= k = Ok b → ∃ a, m = Ok a ∧ k a = Ok b.
Proof. destruct m as [a|f]; simpl; [eauto | discriminate]. Qed.

Lemma at_Ok {A} (l : list A) i x : at_ l i = Ok x ↔ l !! i = Some x.
Proof. unfold at_. destruct (l !! i); split; congruence. Qed.

Lemma set_at_Ok {A} (l : list A) i x l' :
  set_at l i x = Ok l' ↔ (i < length l)%nat ∧ l' = <[i := x]> l.
Proof. unfold set_at. case_decide; split; intros; destruct_and?; try congruence; try lia.
  split; congruence. Qed.

Ltac inv_bind H :=
  repeat match type of H with
  | _ ≫= _ = Ok _ =>
      let a := fresh "a" in let H1 := fresh "H" in
      apply bind_Ok_inv in H as (a & H1 & H)
  end.

(** Invert every successful bind among the hypotheses and turn the reads
    into lookups. *)
Ltac inv_res :=
  repeat match goal with
  | H : _ ≫= _ = Ok _ |- _ =>
      let a := fresh "a" in let H1 := fresh "H" in
      apply bind_Ok_inv in H as (a & H1 & H)
  | H : at_ _ _ = Ok _ |- _ => apply at_Ok in H
  | H : Ok _ = Ok _ |- _ => injection H as H; try subst
  | H : Fail _ = Ok _ |- _ => discriminate H
  | H : (let '(_, _) := ?p in _) = Ok _ |- _ => destruct p
  end.

Lemma check_true cfg b : b = true → check cfg b = Ok tt.
Proof. intros ->. unfold check. by destruct (NDEBUG cfg). Qed.

(** ** [add_edge] *)

Section add_edge.

Implicit Types (g : Graph) (ns : list Neighbor) (u v w x : NodeID) (d m : distance_t).

Lemma relax_existing_None w d ns :
  relax_existing w d ns = None → weights_in ns w = [].
Proof.
  induction ns as [|n ns IH]; simpl; [done|].
  case_decide as Hn.
  - discriminate.
  - destruct (relax_existing w d ns); simpl; [discriminate|].
    intros _. unfold weights_in in *. rewrite filter_cons_False; auto.
Qed.

Lemma relax_existing_Some w d ns ns' :
  relax_existing w d ns = Some ns' →
  (∃ m r, weights_in ns w = m :: r ∧ weights_in ns' w = Z.min m d :: r)
  ∧ ∀ x, x ≠ w → weights_in ns' x = weights_in ns x.
Proof.
  revert ns'. induction ns as [|n ns IH]; simpl; intros ns'; [done|].
  case_decide as Hn.
  - intros [= <-]. split.
    + exists (distance n), (weights_in ns w). unfold weights_in.
      rewrite !filter_cons_True; auto.
    + intros x Hx. unfold weights_in.
      rewrite !filter_cons_False; simpl; auto; congruence.
  - destruct (relax_existing w d ns) as [l|] eqn:E; simpl; [|discriminate].
    intros [= <-]. destruct (IH l eq_refl) as [(m & r & H1 & H2) H3]. split.
    + exists m, r. unfold weights_in in *. rewrite !filter_cons_False; auto.
    + intros x Hx. unfold weights_in in *.
      destruct (decide (node n = x)).
      * rewrite !filter_cons_True; auto. simpl. f_equal. by apply H3.
      * rewrite !filter_cons_False; auto.
Qed.

Lemma weights_in_app ns n x :
  weights_in (ns ++ [n]) x = weights_in ns x ++ (if decide (node n = x) then [distance n] else []).
Proof.
  unfold weights_in. rewrite filter_app, fmap_app. f_equal.
  case_decide; [rewrite filter_cons_True | rewrite filter_cons_False]; auto.
Qed.

Lemma stored_weights_set_neighbors g v ns u x :
  (v < length (node_data g))%nat →
  stored_weights (set_neighbors g v ns) u x =
  if decide (u = v) then weights_in ns x else stored_weights g u x.
Proof.
  intros Hv. unfold stored_weights, set_neighbors. simpl.
  case_decide as Huv.
  - subst u. destruct (lookup_lt_is_Some_2 _ _ Hv) as [nd Hnd].
    by rewrite list_lookup_alter_eq, Hnd.
  - by rewrite list_lookup_alter_ne.
Qed.

(** One directed insertion: only the weights of [w] at [v] change. *)
Lemma add_edge1_spec cfg g v w d :
  (v < length (node_data g))%nat → (w < length (node_data g))%nat → 0 < d →
  ∃ g', add_edge1 cfg g v w d = Ok g'
    ∧ length (node_data g') = length (node_data g)
    ∧ ∀ u x, stored_weights g' u x =
        if decide (u = v ∧ x = w) then
          match stored_weights g v w with
          | [] => [d]
          | m :: r => Z.min m d :: r
          end
        else stored_weights g u x.
Proof.
  intros Hv Hw Hd. unfold add_edge1.
  rewrite !check_true by (apply bool_decide_eq_true; first [done|lia]). simpl.
  destruct (lookup_lt_is_Some_2 _ _ Hv) as [nd Hnd].
  unfold at_. rewrite Hnd. simpl.
  assert (Hsw : ∀ x, stored_weights g v x = weights_in (neighbors nd) x).
  { intros x. unfold stored_weights. by rewrite Hnd. }
  destruct (relax_existing w d (neighbors nd)) as [ns|] eqn:E.
  - eexists. split; [done|]. split.
    { unfold set_neighbors. simpl. by rewrite length_alter. }
    intros u x. rewrite stored_weights_set_neighbors by done.
    destruct (relax_existing_Some _ _ _ _ E) as [(m & r & H1 & H2) H3].
    rewrite Hsw, H1.
    destruct (decide (u = v)) as [->|Hu].
    + destruct (decide (x = w)) as [->|Hx].
      * by rewrite decide_True.
      * rewrite decide_False by naive_solver. by rewrite H3, Hsw.
    + by rewrite decide_False by naive_solver.
  - eexists. split; [done|]. split.
    { unfold set_neighbors. simpl. by rewrite length_alter. }
    intros u x. rewrite stored_weights_set_neighbors by done.
    rewrite Hsw, (relax_existing_None _ _ _ E).
    rewrite weights_in_app. simpl.
    destruct (decide (u = v)) as [->|Hu].
    + destruct (decide (x = w)) as [->|Hx].
      * rewrite decide_True by done. rewrite decide_True by done.
        by rewrite (relax_existing_None _ _ _ E).
      * rewrite decide_False by naive_solver. rewrite decide_False by naive_solver.
        by rewrite Hsw, app_nil_r.
    + by rewrite decide_False by naive_solver.
Qed.

Lemma min_weight_snoc u v hist a b d :
  min_weight u v (hist ++ [(a, b, d)]) =
  if decide ((a = u ∧ b = v) ∨ (a = v ∧ b = u)) then
    Some (match min_weight u v hist with Some m => Z.min m d | None => d end)
  else min_weight u v hist.
Proof.
  induction hist as [|[[a' b'] d'] hist IH]; simpl.
  - by case_decide.
  - rewrite IH. repeat case_decide; try done.
    destruct (min_weight u v hist); f_equal; lia.
Qed.

Lemma min_weight_sym u v hist : min_weight u v hist = min_weight v u hist.
Proof.
  induction hist as [|[[a b] d] hist IH]; simpl; [done|].
  rewrite IH. repeat case_decide; try done; naive_solver.
Qed.

Lemma add_edge_invariant cfg N hist g u v d :
  edges_invariant N hist g → (u < N)%nat → (v < N)%nat → 0 < d →
  ∃ g', add_edge cfg g u v d true = Ok g' ∧ edges_invariant N (hist ++ [(u, v, d)]) g'.
Proof.
  intros [Hlen Hinv] Hu Hv Hd. unfold add_edge.
  destruct (add_edge1_spec cfg g u v d) as (g1 & -> & Hl1 & H1); [lia..|]. simpl.
  destruct (add_edge1_spec cfg g1 v u d) as (g2 & -> & Hl2 & H2); [lia..|].
  exists g2. split; [done|]. split; [lia|].
  intros a x. rewrite H2, !H1, !Hinv, min_weight_snoc.
  rewrite (min_weight_sym v u).
  destruct (decide (a = v ∧ x = u)) as [[-> ->]|Hn1].
  - rewrite (decide_True (P := (u = v ∧ v = u) ∨ _)) by tauto.
    destruct (decide (v = u ∧ u = v)) as [[-> _]|Hn2].
    + unfold weights_of. destruct (min_weight u u hist);
        apply (f_equal (λ y, [y])); lia.
    + rewrite (min_weight_sym v u). unfold weights_of. destruct (min_weight u v hist);
        apply (f_equal (λ y, [y])); lia.
  - destruct (decide (a = u ∧ x = v)) as [[-> ->]|Hn2].
    + rewrite decide_True by tauto. by destruct (min_weight u v hist).
    + by rewrite decide_False by (intros [[-> ->]|[-> ->]]; tauto).
Qed.

Lemma add_edges_invariant cfg N calls : ∀ hist g,
  edges_invariant N hist g →
  (∀ u v d, (u, v, d) ∈ calls → (u < N)%nat ∧ (v < N)%nat ∧ 0 < d) →
  ∃ g', add_edges cfg g calls = Ok g' ∧ edges_invariant N (hist ++ calls) g'.
Proof.
  induction calls as [|[[u v] d] calls IH]; intros hist g Hinv Hc; simpl.
  - exists g. by rewrite app_nil_r.
  - destruct (Hc u v d) as (Hu & Hv & Hd); [left|].
    destruct (add_edge_invariant cfg N hist g u v d) as (g1 & -> & H1); [done..|]. simpl.
    destruct (IH (hist ++ [(u, v, d)]) g1 H1) as (g' & Hg' & H').
    { intros. apply Hc. by right. }
    exists g'. split; [done|]. by rewrite <- app_assoc in H'.
Qed.

Lemma Graph_new_invariant cfg n :
  ∃ g, Graph_new cfg n = Ok g ∧ edges_invariant (n + 3) [] g.
Proof.
  unfold Graph_new, resize. cbn [nodes g_subgraph_id]. rewrite check_true by done.
  eexists. split; [reflexivity|]. split.
  - cbn [node_data]. by rewrite !length_alter, length_replicate.
  - intros u x. unfold stored_weights. cbn [node_data min_weight weights_of].
    match goal with |- context [?l !! u] =>
      assert (Hall : Forall (λ nd, neighbors nd = []) l) end.
    { repeat (apply Forall_alter; [|done]). by apply Forall_replicate. }
    destruct (_ !! u) as [nd|] eqn:E; [|done].
    by rewrite (proj1 (Forall_lookup _ _) Hall _ _ E).
Qed.

Lemma min_weight_elem u v d calls :
  (u, v, d) ∈ calls → ∃ m, min_weight u v calls = Some m.
Proof.
  induction calls as [|[[a b] d'] calls IH]; intros Hin.
  - by apply not_elem_of_nil in Hin.
  - simpl. case_decide as Hd; [eauto|].
    apply elem_of_cons in Hin as [[= -> -> ->]|Hin]; [naive_solver|by apply IH].
Qed.

End add_edge.

Lemma min_weight_elem_pair u v calls a b d :
  (a, b, d) ∈ calls → (a = u ∧ b = v) ∨ (a = v ∧ b = u) →
  ∃ m, min_weight u v calls = Some m.
Proof.
  induction calls as [|[[a' b'] d'] calls IH]; intros Hin Hp.
  - by apply not_elem_of_nil in Hin.
  - simpl. case_decide as Hd; [eauto|].
    apply elem_of_cons in Hin as [[= -> -> ->]|Hin]; [done|by apply IH].
Qed.

Lemma min_weight_is_min u v calls m :
  min_weight u v calls = Some m → is_min_weight u v calls m.
Proof.
  revert m. induction calls as [|[[a b] d] calls IH]; intros m; simpl; [done|].
  case_decide as Hp.
  - intros [= <-]. destruct (min_weight u v calls) as [m'|] eqn:E.
    + destruct (IH m' eq_refl) as [(a' & b' & Hin & Hp') Hle].
      destruct (Z.min_spec d m') as [[Hlt ->]|[Hge ->]].
      * split; [exists a, b; split; [left|done]|].
        intros a0 b0 d0 [[= -> -> ->]|Hin0]%elem_of_cons Hp0; [lia|].
        specialize (Hle _ _ _ Hin0 Hp0). lia.
      * split; [exists a', b'; split; [by right|done]|].
        intros a0 b0 d0 [[= -> -> ->]|Hin0]%elem_of_cons Hp0; [lia|].
        by apply (Hle _ _ _ Hin0 Hp0).
    + split; [exists a, b; split; [left|done]|].
      intros a0 b0 d0 [[= -> -> ->]|Hin0]%elem_of_cons Hp0; [lia|].
      destruct (min_weight_elem_pair u v calls a0 b0 d0 Hin0 Hp0) as [? ?]. congruence.
  - intros Hm. destruct (IH m Hm) as [(a' & b' & Hin & Hp') Hle].
    split; [exists a', b'; split; [by right|done]|].
    intros a0 b0 d0 [[= -> -> ->]|Hin0]%elem_of_cons Hp0; [done|].
    by apply (Hle _ _ _ Hin0 Hp0).
Qed.

(** C8.  After any run of [add_edge(u, v, d, true)] calls with vertices in
    range and positive weights, started on a fresh graph, the run succeeds
    and for every pair [u], [v] that was passed the list of [u] holds exactly
    one entry for [v], the list of [v] exactly one for [u], and both carry
    the smallest weight passed for the pair. *)
Theorem add_edge_symmetric_min cfg n calls :
  Forall (call_ok n) calls →
  ∃ g, (g0 ← Graph_new cfg n; add_edges cfg g0 calls) = Ok g
     ∧ ∀ u v d, (u, v, d) ∈ calls →
         ∃ m, stored_weights g u v = [m] ∧ stored_weights g v u = [m]
            ∧ is_min_weight u v calls m.
Proof.
  intros Hok.
  destruct (Graph_new_invariant cfg n) as (g0 & -> & Hinv0). simpl.
  destruct (add_edges_invariant cfg (n + 3) calls [] g0 Hinv0) as (g & Hg & _ & Hinv).
  { intros u v d Hin. apply (proj1 (Forall_forall _ _) Hok _ Hin). }
  exists g. split; [done|]. intros u v d Hin. simpl in Hinv.
  destruct (min_weight_elem u v d calls Hin) as [m Hm].
  exists m. rewrite !Hinv, (min_weight_sym v u), Hm.
  repeat split; try done; by apply min_weight_is_min.
Qed.

Lemma add_edge_symmetric_min_witness :
  ∃ g, (g0 ← Graph_new spec_config 3; add_edges spec_config g0 example_calls) = Ok g
     ∧ ∀ u v d, (u, v, d) ∈ example_calls →
         ∃ m, stored_weights g u v = [m] ∧ stored_weights g v u = [m]
            ∧ is_min_weight u v example_calls m.
Proof.
  apply (add_edge_symmetric_min spec_config 3 example_calls).
  repeat constructor; simpl; lia.
Defined.

(** ** Queries on the contraction index *)

Lemma at_cases {A} (l : list A) i :
  (∃ x, l !! i = Some x ∧ at_ l i = Ok x) ∨ at_ l i = Fail UndefinedBehaviour.
Proof. unfold at_. destruct (l !! i); eauto. Qed.

Lemma at_lookup {A} (l : list A) i x : l !! i = Some x → at_ l i = Ok x.
Proof. unfold at_. by intros ->. Qed.

Lemma rd_cases l i : (∃ x, rd l i = Ok x) ∨ rd l i = Fail OutsideModel.
Proof. unfold rd. destruct (l !! i); eauto. Qed.

Lemma slice_cases l off len : (∃ x, slice l off len = Ok x) ∨ slice l off len = Fail OutsideModel.
Proof. unfold slice. destruct (_ && _); eauto. Qed.

Lemma get_offset_cases l cl : (∃ x, get_offset l cl = Ok x) ∨ get_offset l cl = Fail OutsideModel.
Proof. unfold get_offset. destruct (cl =? 0); [eauto|]. destruct (l !! _); eauto. Qed.

Lemma deref_cases h p : (∃ x, deref h p = Ok x) ∨ deref h p = Fail UndefinedBehaviour.
Proof. destruct p as [a|]; simpl; [|eauto]. destruct (at_cases h a) as [(x & _ & ->)| ->]; eauto. Qed.

Ltac case_reads :=
  repeat match goal with
  | |- context [rd ?l ?i] =>
      let x := fresh "x" in let E := fresh "E" in
      destruct (rd_cases l i) as [[x E]|E]; rewrite !E; simpl
  | |- context [get_offset ?l ?i] =>
      let x := fresh "x" in let E := fresh "E" in
      destruct (get_offset_cases l i) as [[x E]|E]; rewrite !E; simpl
  end.

Ltac case_slices :=
  repeat match goal with
  | |- context [slice ?l ?o ?n] =>
      let x := fresh "x" in let E := fresh "E" in
      destruct (slice_cases l o n) as [[x E]|E]; rewrite !E; simpl
  end.

Lemma add32_comm a b : add32 a b = add32 b a.
Proof. unfold add32. by rewrite Z.add_comm. Qed.

Lemma mul16_comm a b : mul16 a b = mul16 b a.
Proof. unfold mul16. by rewrite Z.mul_comm. Qed.

Lemma lca_level_sym a b : PBV.lca_level a b = PBV.lca_level b a.
Proof.
  unfold PBV.lca_level. rewrite (Z.min_comm (PBV.cut_level b)), (Z.eqb_sym (PBV.partition b)).
  by rewrite (Z.lxor_comm (PBV.partition b)).
Qed.

Lemma min_2hop_sym m xs ys : min_2hop m xs ys = min_2hop m ys xs.
Proof.
  revert m ys. induction xs as [|x xs IH]; intros m [|y ys]; simpl; try done.
  by rewrite (add32_comm y x), IH.
Qed.

Lemma count_2hop_sym m s xs ys ps qs :
  count_2hop m s xs ys ps qs = count_2hop m s ys xs qs ps.
Proof.
  revert m s ys ps qs. induction xs as [|x xs IH]; intros m s [|y ys] [|p ps] [|q qs];
    simpl; try done.
  rewrite (add32_comm y x), (mul16_comm q p). by rewrite !IH.
Qed.

Lemma get_cut_level_distance_sym cfg a b cl :
  get_cut_level_distance cfg a b cl = get_cut_level_distance cfg b a cl.
Proof.
  unfold get_cut_level_distance. case_reads; try done.
  rewrite (Z.min_comm (_ - _)). case_slices; try done.
  by rewrite min_2hop_sym.
Qed.

Lemma min_over_levels_sym cfg a b m cl n :
  min_over_levels cfg a b m cl n = min_over_levels cfg b a m cl n.
Proof.
  revert m cl. induction n as [|n IH]; intros m cl; simpl; [done|].
  rewrite (get_cut_level_distance_sym cfg b a).
  destruct (get_cut_level_distance cfg a b cl); simpl; [apply IH|done].
Qed.

Lemma get_distance_blocks_sym cfg a b :
  get_distance_blocks cfg a b = get_distance_blocks cfg b a.
Proof.
  unfold get_distance_blocks. rewrite (lca_level_sym (partition_bitvector b)).
  destruct (NO_SHORTCUTS cfg); [|apply get_cut_level_distance_sym].
  destruct (PRUNING cfg); [apply min_over_levels_sym|].
  case_reads; try done. rewrite (Z.min_comm x0). case_slices; try done.
  by rewrite min_2hop_sym.
Qed.

Lemma get_paths_blocks_sym cfg a b :
  get_paths_blocks cfg a b = get_paths_blocks cfg b a.
Proof.
  unfold get_paths_blocks. rewrite (lca_level_sym (partition_bitvector b)).
  case_reads; try done. rewrite (Z.min_comm x0). case_slices; try done.
  by rewrite count_2hop_sym.
Qed.

(** Once the assertion of the caller has been passed the two pointer
    versions may take their arguments in either order. *)
Lemma check_nonempty_both cfg a b :
  check cfg (negb (fci_empty a) && negb (fci_empty b)) = Ok tt →
  check cfg (negb (fci_empty a)) = Ok tt ∧ check cfg (negb (fci_empty b)) = Ok tt.
Proof.
  unfold check. destruct (NDEBUG cfg); [done|].
  destruct (fci_empty a), (fci_empty b); simpl; done.
Qed.

Lemma get_distance_fci_sym cfg h a b :
  check cfg (negb (fci_empty a) && negb (fci_empty b)) = Ok tt →
  get_distance_fci cfg h a b = get_distance_fci cfg h b a.
Proof.
  intros [Ha Hb]%check_nonempty_both. unfold get_distance_fci. rewrite Ha, Hb. simpl.
  destruct (deref_cases h a) as [[x ->]| ->], (deref_cases h b) as [[y ->]| ->]; simpl;
    try done.
  apply get_distance_blocks_sym.
Qed.

Lemma get_paths_sym cfg h a b :
  check cfg (negb (fci_empty a) && negb (fci_empty b)) = Ok tt →
  get_paths cfg h a b = get_paths cfg h b a.
Proof.
  intros [Ha Hb]%check_nonempty_both. unfold get_paths. rewrite Ha, Hb. simpl.
  destruct (deref_cases h a) as [[x ->]| ->], (deref_cases h b) as [[y ->]| ->]; simpl;
    try done.
  apply get_paths_blocks_sym.
Qed.

Lemma check_cases cfg b : check cfg b = Ok tt ∨ check cfg b = Fail AssertionFailed.
Proof. unfold check. destruct (NDEBUG cfg), b; eauto. Qed.

Lemma get_spc_sym cfg ci v w : get_spc cfg ci v w = get_spc cfg ci w v.
Proof.
  unfold get_spc.
  destruct (at_cases (labels ci) v) as [(cv & _ & ->)| ->],
           (at_cases (labels ci) w) as [(cw & _ & ->)| ->]; simpl; try done.
  rewrite (andb_comm (negb (fci_empty (cut_index cw)))).
  destruct (check_cases cfg (negb (fci_empty (cut_index cv)) && negb (fci_empty (cut_index cw))))
    as [Hc|Hc]; rewrite Hc; simpl; [|done].
  destruct (decide (cut_index cv = cut_index cw)) as [He|Hne].
  - by rewrite decide_True.
  - rewrite decide_False by congruence. by apply get_paths_sym.
Qed.

Lemma lca_walk_sym ls fuel : ∀ v w cv cw,
  ls !! v = Some cv → ls !! w = Some cw →
  lca_walk ls fuel v w cv cw = lca_walk ls fuel w v cw cv.
Proof.
  induction fuel as [|fuel IH]; intros v w cv cw Hv Hw; simpl.
  - destruct (decide (v = w)) as [->|Hne].
    + rewrite decide_True by done. congruence.
    + by rewrite decide_False by congruence.
  - destruct (decide (v = w)) as [->|Hne].
    + rewrite decide_True by done. congruence.
    + rewrite decide_False by congruence.
      destruct (distance_offset cv <? distance_offset cw) eqn:E1.
      * assert ((distance_offset cw <? distance_offset cv) = false) as -> by lia.
        destruct (at_cases ls (parent cw)) as [(c' & Hc' & ->)| ->]; simpl; [|done].
        by apply IH.
      * destruct (distance_offset cw <? distance_offset cv) eqn:E2.
        -- destruct (at_cases ls (parent cv)) as [(c' & Hc' & ->)| ->]; simpl; [|done].
           by apply IH.
        -- destruct (at_cases ls (parent cv)) as [(c1 & Hc1 & ->)| ->],
                    (at_cases ls (parent cw)) as [(c2 & Hc2 & ->)| ->]; simpl; try done.
           by apply IH.
Qed.

(** *** The labels of a built index form a forest *)

Lemma chain_len_mono closest fuel : ∀ fuel' r k,
  chain_len closest fuel r = Some k → (fuel ≤ fuel')%nat → chain_len closest fuel' r = Some k.
Proof.
  induction fuel as [|fuel IH]; intros fuel' r k; simpl.
  - destruct fuel'; simpl; destruct (closest !! r) as [c|]; try done;
      case_decide; done.
  - intros Hk Hle. destruct fuel' as [|fuel']; [lia|]. simpl in *.
    destruct (closest !! r) as [c|]; [|done]. case_decide; [done|].
    destruct (chain_len closest fuel (node c)) as [k'|] eqn:E; [|done].
    rewrite (IH fuel' _ k' E) by lia. done.
Qed.

Lemma chain_len_le closest fuel : ∀ r k,
  chain_len closest fuel r = Some k → (k ≤ fuel)%nat.
Proof.
  induction fuel as [|fuel IH]; intros r k; simpl;
    destruct (closest !! r) as [c|]; try done; case_decide; try done.
  - intros [= <-]. lia.
  - intros [= <-]. lia.
  - destruct (chain_len closest fuel (node c)) as [k'|] eqn:E; [|done].
    intros [= <-]. apply IH in E. lia.
Qed.

Lemma find_root_chain_len closest fuel : ∀ r d x,
  find_root closest fuel r d = Ok x → ∃ k, chain_len closest fuel r = Some k.
Proof.
  induction fuel as [|fuel IH]; intros r d x; simpl;
    destruct (at_cases closest r) as [(c & Hc & ->)| ->]; simpl; try done;
    rewrite Hc; case_decide; eauto; try done.
  intros [k ->]%IH. eauto.
Qed.

Lemma find_root_nonneg closest fuel : ∀ r d x,
  find_root closest fuel r d = Ok x → 0 <= d → 0 <= x.2.
Proof.
  induction fuel as [|fuel IH]; intros r d x; simpl;
    destruct (at_cases closest r) as [(c & Hc & ->)| ->]; simpl; try done;
    case_decide; try done; try (intros [= <-]; done).
  intros Hf _. apply IH in Hf; [done|]. unfold add32, wrap32.
  apply Z.mod_pos_bound. lia.
Qed.

Lemma rank_parent closest ls v l :
  tree_labels closest ls → ls !! v = Some l → v ≠ 0%nat →
  (rank closest (parent l) < rank closest v)%nat.
Proof.
  intros [H0 Ht] Hl Hv. unfold rank at 2. rewrite decide_False by done.
  destruct (decide (parent l = 0%nat)) as [Hp|Hp].
  - rewrite Hp. unfold rank. rewrite decide_True by done. lia.
  - destruct (Ht v l Hl Hp) as (c & k & Hc & Hnode & Hne & Hk).
    assert (length closest ≠ 0)%nat as HN.
    { apply lookup_lt_Some in Hc. lia. }
    unfold rank. rewrite decide_False by done. rewrite <- Hnode.
    rewrite (chain_len_mono _ _ (2 * length closest) _ _ Hk) by lia.
    destruct (2 * length closest)%nat as [|f] eqn:Ef; [lia|].
    simpl. rewrite Hc. rewrite decide_False by done.
    rewrite (chain_len_mono _ _ f _ _ Hk) by lia. simpl. lia.
Qed.

Lemma rank_bound closest v : (rank closest v ≤ 2 * length closest + 1)%nat.
Proof.
  unfold rank. case_decide; [lia|].
  destruct (chain_len _ _ _) as [k|] eqn:E; simpl; [|lia].
  apply chain_len_le in E. lia.
Qed.

Lemma tree_labels_no_2cycle closest ls v w cv cw :
  tree_labels closest ls → ls !! v = Some cv → ls !! w = Some cw → v ≠ w →
  parent cv = w → parent cw = v → False.
Proof.
  intros Ht Hv Hw Hne Hp1 Hp2.
  destruct (decide (v = 0%nat)) as [->|Hv0].
  { destruct Ht as [H0 _]. destruct (H0 _ Hv) as [Hp _]. congruence. }
  destruct (decide (w = 0%nat)) as [->|Hw0].
  { destruct Ht as [H0 _]. destruct (H0 _ Hw) as [Hp _]. congruence. }
  pose proof (rank_parent _ _ _ _ Ht Hv Hv0) as R1.
  pose proof (rank_parent _ _ _ _ Ht Hw Hw0) as R2.
  rewrite Hp1 in R1. rewrite Hp2 in R2. lia.
Qed.

(** The first loop of the constructor leaves parents and offsets alone. *)
Lemma index_core_parents cfg ci closest todo : ∀ idx idx',
  index_core cfg ci closest todo idx = Ok idx' →
  Forall (λ l, parent l = 0%nat ∧ distance_offset l = 0) (labels idx) →
  Forall (λ l, parent l = 0%nat ∧ distance_offset l = 0) (labels idx').
Proof.
  induction todo as [|v todo IH]; intros idx idx'; simpl.
  - by intros [= <-].
  - intros H Hall. inv_bind H. apply (IH _ _ H). clear IH H.
    case_decide; inv_res; [|done]. simpl.
    apply Forall_insert; [done|].
    match goal with Hl : labels idx !! _ = Some _ |- _ =>
      by apply (proj1 (Forall_lookup _ _) Hall _ _ Hl) end.
Qed.

Lemma index_periphery_tree cfg closest todo : ∀ idx idx',
  index_periphery cfg closest todo idx = Ok idx' →
  Forall (λ v, v ≠ 0%nat) todo →
  tree_labels closest (labels idx) → tree_labels closest (labels idx').
Proof.
  induction todo as [|v todo IH]; intros idx idx'; simpl.
  - by intros [= <-].
  - intros H Htodo Ht. inv_bind H. apply Forall_cons in Htodo as [Hv Htodo].
    apply (IH _ _ H Htodo). clear IH H.
    case_decide as Hcond; inv_res; [|done]. simpl.
    destruct Hcond as [Hn1 Hn2].
    match goal with Hf : find_root _ _ _ _ = Ok _ |- _ =>
      destruct (find_root_chain_len _ _ _ _ _ Hf) as [k Hk] end.
    destruct Ht as [H0' Ht]. split.
    + intros l. rewrite list_lookup_insert_ne by done. apply H0'.
    + intros u l. rewrite list_lookup_insert_Some.
      intros [(-> & <- & Hlt)|[Hne Hl]]; simpl.
      * intros _. eauto 10.
      * by apply Ht.
Qed.

Lemma index_periphery_nonneg cfg closest todo : ∀ idx idx',
  index_periphery cfg closest todo idx = Ok idx' →
  Forall (λ n, 0 <= distance n) closest →
  Forall (λ l, 0 <= distance_offset l) (labels idx) →
  Forall (λ l, 0 <= distance_offset l) (labels idx').
Proof.
  induction todo as [|v todo IH]; intros idx idx'; simpl.
  - by intros [= <-].
  - intros H Hc Hall. inv_bind H. apply (IH _ _ H Hc). clear IH H.
    case_decide as Hcond; inv_res; [|done]. simpl.
    apply Forall_insert; [done|]. simpl.
    match goal with Hf : find_root _ _ _ _ = Ok (_, ?d) |- _ =>
      change (0 <= (a2, d).2); apply (find_root_nonneg _ _ _ _ _ Hf) end.
    match goal with Hl : closest !! _ = Some _ |- _ =>
      by apply (proj1 (Forall_lookup _ _) Hc _ _ Hl) end.
Qed.

Lemma build_tree_labels cfg ci closest idx :
  ContractionIndex_build cfg ci closest = Ok idx → tree_labels closest (labels idx).
Proof.
  unfold ContractionIndex_build. intros H. inv_bind H.
  apply (index_periphery_tree _ _ _ _ _ H).
  { apply Forall_forall. intros v Hv%elem_of_seq. lia. }
  pose proof (index_core_parents _ _ _ _ _ _ H1) as Hall. simpl in Hall.
  specialize (Hall ltac:(by apply Forall_replicate)).
  split.
  - intros l Hl. by apply (proj1 (Forall_lookup _ _) Hall _ _ Hl).
  - intros v l Hl Hp. by destruct (proj1 (Forall_lookup _ _) Hall _ _ Hl).
Qed.

Lemma build_nonneg cfg ci closest idx :
  ContractionIndex_build cfg ci closest = Ok idx →
  Forall (λ n, 0 <= distance n) closest →
  Forall (λ l, 0 <= distance_offset l) (labels idx).
Proof.
  unfold ContractionIndex_build. intros H Hc. inv_bind H.
  apply (index_periphery_nonneg _ _ _ _ _ H Hc).
  pose proof (index_core_parents _ _ _ _ _ _ H1) as Hall. simpl in Hall.
  specialize (Hall ltac:(by apply Forall_replicate)).
  eapply Forall_impl; [done|]. simpl. intros l [_ ->]. done.
Qed.

(** *** No query runs out of fuel on a built index *)

Lemma get_cut_level_distance_fault cfg a b cl f :
  get_cut_level_distance cfg a b cl = Fail f → f = OutsideModel.
Proof.
  unfold get_cut_level_distance. case_reads; try congruence.
  case_slices; congruence.
Qed.

Lemma min_over_levels_fault cfg a b n : ∀ m cl f,
  min_over_levels cfg a b m cl n = Fail f → f = OutsideModel.
Proof.
  induction n as [|n IH]; intros m cl f; simpl; [done|].
  destruct (get_cut_level_distance cfg a b cl) eqn:E; simpl.
  - apply IH.
  - intros [= <-]. by apply get_cut_level_distance_fault in E.
Qed.

Lemma get_distance_blocks_fault cfg a b f :
  get_distance_blocks cfg a b = Fail f → f = OutsideModel.
Proof.
  unfold get_distance_blocks.
  destruct (NO_SHORTCUTS cfg); [|apply get_cut_level_distance_fault].
  destruct (PRUNING cfg); [apply min_over_levels_fault|].
  case_reads; try congruence. case_slices; congruence.
Qed.

Lemma get_distance_fci_fault cfg h a b f :
  get_distance_fci cfg h a b = Fail f → f ≠ OutOfFuel.
Proof.
  unfold get_distance_fci.
  destruct (check_cases cfg (negb (fci_empty a))) as [-> | ->]; simpl; [|congruence].
  destruct (deref_cases h a) as [[x ->]| ->]; simpl; [|congruence].
  destruct (check_cases cfg (negb (fci_empty b))) as [-> | ->]; simpl; [|congruence].
  destruct (deref_cases h b) as [[y ->]| ->]; simpl; [|congruence].
  intros ->%get_distance_blocks_fault. done.
Qed.

Lemma lca_walk_terminates closest ls :
  tree_labels closest ls → Forall (λ l, 0 <= distance_offset l) ls →
  ∀ fuel v w cv cw, ls !! v = Some cv → ls !! w = Some cw →
    (rank closest v + rank closest w < fuel)%nat →
    lca_walk ls fuel v w cv cw ≠ Fail OutOfFuel.
Proof.
  intros Ht Hnn. induction fuel as [|fuel IH]; intros v w cv cw Hv Hw Hr; [lia|].
  simpl. case_decide as Hvw; [done|].
  assert (Hzero : ∀ u cu, ls !! u = Some cu → u = 0%nat → distance_offset cu = 0).
  { intros u cu Hu ->. by destruct (proj1 Ht _ Hu). }
  assert (Hpos : ∀ u cu, ls !! u = Some cu → 0 <= distance_offset cu).
  { intros u cu Hu. by apply (proj1 (Forall_lookup _ _) Hnn _ _ Hu). }
  assert (Hstep : ∀ u cu, ls !! u = Some cu →
            (rank closest (parent cu) ≤ rank closest u)%nat).
  { intros u cu Hu. destruct (decide (u = 0%nat)) as [->|Hu0].
    - destruct (proj1 Ht _ Hu) as [-> _]. done.
    - pose proof (rank_parent _ _ _ _ Ht Hu Hu0). lia. }
  pose proof (Hpos _ _ Hv) as Pv. pose proof (Hpos _ _ Hw) as Pw.
  destruct (distance_offset cv <? distance_offset cw) eqn:E1.
  - destruct (at_cases ls (parent cw)) as [(c' & Hc' & ->)| ->]; simpl; [|done].
    apply IH; [done..|].
    assert (w ≠ 0%nat) as Hw0. { intros ->. rewrite (Hzero _ _ Hw eq_refl) in E1. lia. }
    pose proof (rank_parent _ _ _ _ Ht Hw Hw0). lia.
  - destruct (distance_offset cw <? distance_offset cv) eqn:E2.
    + destruct (at_cases ls (parent cv)) as [(c' & Hc' & ->)| ->]; simpl; [|done].
      apply IH; [done..|].
      assert (v ≠ 0%nat) as Hv0. { intros ->. rewrite (Hzero _ _ Hv eq_refl) in E2. lia. }
      pose proof (rank_parent _ _ _ _ Ht Hv Hv0). lia.
    + destruct (at_cases ls (parent cv)) as [(c1 & Hc1 & ->)| ->]; simpl; [|done].
      destruct (at_cases ls (parent cw)) as [(c2 & Hc2 & ->)| ->]; simpl; [|done].
      apply IH; [done..|].
      pose proof (Hstep _ _ Hv). pose proof (Hstep _ _ Hw).
      destruct (decide (v = 0%nat)) as [->|Hv0].
      * assert (w ≠ 0%nat) as Hw0 by congruence.
        pose proof (rank_parent _ _ _ _ Ht Hw Hw0). lia.
      * pose proof (rank_parent _ _ _ _ Ht Hv Hv0). lia.
Qed.

Lemma get_distance_sym_tree cfg closest ci fuel v w :
  tree_labels closest (labels ci) →
  get_distance cfg ci fuel v w = get_distance cfg ci fuel w v.
Proof.
  intros Ht. unfold get_distance.
  destruct (at_cases (labels ci) v) as [(cv & Hv & ->)| ->],
           (at_cases (labels ci) w) as [(cw & Hw & ->)| ->]; simpl; try done.
  rewrite (andb_comm (negb (fci_empty (cut_index cw)))).
  destruct (check_cases cfg (negb (fci_empty (cut_index cv)) && negb (fci_empty (cut_index cw))))
    as [Hc|Hc]; rewrite Hc; simpl; [|done].
  destruct (decide (cut_index cv = cut_index cw)) as [He|Hne].
  - rewrite (decide_True (P := cut_index cw = cut_index cv)) by done.
    destruct (decide (v = w)) as [->|Hvw].
    { by rewrite decide_True. }
    rewrite (decide_False (P := w = v)) by congruence.
    destruct (distance_offset cv =? 0) eqn:Ev, (distance_offset cw =? 0) eqn:Ew;
      try done.
    { f_equal. lia. }
    destruct (decide (parent cv = w)) as [Hp1|Hp1], (decide (parent cw = v)) as [Hp2|Hp2];
      try done.
    { destruct (tree_labels_no_2cycle _ _ _ _ _ _ Ht Hv Hw Hvw Hp1 Hp2). }
    rewrite (lca_walk_sym _ _ _ _ _ _ Hv Hw).
    by rewrite (add32_comm (distance_offset cw)).
  - rewrite (decide_False (P := cut_index cw = cut_index cv)) by congruence.
    rewrite (get_distance_fci_sym _ _ _ _ Hc).
    by rewrite (add32_comm (distance_offset cw)).
Qed.

Lemma get_distance_terminates cfg closest ci fuel v w :
  tree_labels closest (labels ci) → Forall (λ l, 0 <= distance_offset l) (labels ci) →
  (4 * length closest + 2 < fuel)%nat →
  get_distance cfg ci fuel v w ≠ Fail OutOfFuel.
Proof.
  intros Ht Hnn Hf. unfold get_distance.
  destruct (at_cases (labels ci) v) as [(cv & Hv & ->)| ->]; simpl; [|done].
  destruct (at_cases (labels ci) w) as [(cw & Hw & ->)| ->]; simpl; [|done].
  destruct (check_cases cfg (negb (fci_empty (cut_index cv)) && negb (fci_empty (cut_index cw))))
    as [Hc|Hc]; rewrite Hc; simpl; [|done].
  repeat case_decide; try done; repeat (destruct (_ =? _); try done).
  - pose proof (lca_walk_terminates _ _ Ht Hnn fuel v w cv cw Hv Hw) as Hl.
    pose proof (rank_bound closest v). pose proof (rank_bound closest w).
    destruct (lca_walk _ _ _ _ _ _) as [x|f]; simpl; [done|].
    intros [= ->]. apply Hl; [lia|done].
  - destruct (get_distance_fci _ _ _ _) as [x|f] eqn:E; simpl; [done|].
    apply get_distance_fci_fault in E. congruence.
Qed.

(** C7.  On every index the constructor returns, [get_distance] and [get_spc]
    give the same outcome for [(v, w)] and for [(w, v)], contracted vertices
    included; and when the offsets in [closest] are not negative the ancestor
    walk of [get_distance] ends within [4 * |closest| + 3] steps. *)
Theorem queries_symmetric cfg ci closest idx v w :
  ContractionIndex_build cfg ci closest = Ok idx →
  (∀ fuel, get_distance cfg idx fuel v w = get_distance cfg idx fuel w v)
  ∧ get_spc cfg idx v w = get_spc cfg idx w v
  ∧ (Forall (λ n, 0 <= distance n) closest →
     ∀ fuel, (4 * length closest + 2 < fuel)%nat →
       get_distance cfg idx fuel v w ≠ Fail OutOfFuel).
Proof.
  intros Hb. pose proof (build_tree_labels _ _ _ _ Hb) as Ht.
  split; [|split].
  - intros fuel. by apply (get_distance_sym_tree _ closest).
  - apply get_spc_sym.
  - intros Hc fuel Hf. apply (get_distance_terminates _ closest); [done| |done].
    by apply (build_nonneg _ _ _ _ Hb).
Qed.

Lemma queries_symmetric_witness :
  (∀ fuel, get_distance spec_config example_index fuel 6 4
           = get_distance spec_config example_index fuel 4 6)
  ∧ get_spc spec_config example_index 6 4 = get_spc spec_config example_index 4 6
  ∧ (Forall (λ n, 0 <= distance n) example_closest →
     ∀ fuel, (4 * length example_closest + 2 < fuel)%nat →
       get_distance spec_config example_index fuel 6 4 ≠ Fail OutOfFuel).
Proof.
  apply (queries_symmetric spec_config example_sc.2 example_closest example_index 6 4).
  vm_compute. reflexivity.
Defined.

(** C10.  Two vertices whose labels point to the same block get the count 1
    from [get_spc], whatever the heap holds and whatever their offsets and
    parents are. *)
Theorem get_spc_same_block cfg ci v w cv cw a :
  labels ci !! v = Some cv → labels ci !! w = Some cw →
  cut_index cv = Some a → cut_index cw = Some a →
  get_spc cfg ci v w = Ok 1.
Proof.
  intros Hv Hw Ha Hb. unfold get_spc.
  rewrite (at_lookup _ _ _ Hv), (at_lookup _ _ _ Hw). simpl.
  rewrite Ha, Hb. rewrite check_true by done. simpl.
  by rewrite decide_True.
Qed.

Lemma get_spc_same_block_witness : get_spc spec_config example_index 6 2 = Ok 1.
Proof.
  apply (get_spc_same_block spec_config example_index 6 2
           (mkLabel (Some 1%nat) 5 5) (mkLabel (Some 1%nat) 0 0) 1);
    reflexivity.
Defined.

(** ** The label query scans the whole common prefix *)

Lemma ctz_pos_spec p :
  0 <= PBV.ctz_pos p
  ∧ Z.testbit (Zpos p) (PBV.ctz_pos p) = true
  ∧ ∀ j, 0 <= j < PBV.ctz_pos p → Z.testbit (Zpos p) j = false.
Proof.
  induction p as [p IH|p IH|]; simpl PBV.ctz_pos.
  - split; [lia|]. split; [done|]. intros j Hj. lia.
  - destruct IH as (Hc & Ht & Hl). split; [lia|]. split.
    + rewrite Pos2Z.inj_xO. replace (1 + PBV.ctz_pos p) with (Z.succ (PBV.ctz_pos p)) by lia.
      by rewrite Z.testbit_even_succ.
    + intros j Hj. rewrite Pos2Z.inj_xO.
      destruct (decide (j = 0)) as [->|Hj0]; [apply Z.testbit_even_0|].
      replace j with (Z.succ (j - 1)) by lia.
      rewrite Z.testbit_even_succ by lia. apply Hl. lia.
  - split; [lia|]. split; [done|]. intros j Hj. lia.
Qed.










(** ** Reading a graph *)

Lemma get_char_failed s : good s = false → (get_char s).2 = None.
Proof. unfold get_char. by intros ->. Qed.

Lemma get_u32_failbit s x : failbit s = true → failbit (get_u32 s x).1 = true.
Proof. unfold get_u32, good. by intros ->. Qed.


Lemma skipws_length cs : (length (skipws cs) ≤ length cs)%nat.
Proof. induction cs as [|c cs IH]; simpl; [done|]. destruct (isspace c); simpl; lia. Qed.

Lemma read_digits_length cs : ∀ acc, (length (read_digits acc cs).2 ≤ length cs)%nat.
Proof.
  induction cs as [|c cs IH]; intros acc; simpl; [done|].
  destruct (isdigit c); simpl; [|lia]. specialize (IH (10 * acc + Z.of_nat (nat_of_ascii c - 48))). lia.
Qed.

Lemma discard_length n delim : ∀ cs, (length (discard n delim cs).1 ≤ length cs)%nat.
Proof.
  induction n as [|n IH]; intros [|c cs]; simpl; try lia.
  case_bool_decide; simpl; [lia|]. specialize (IH cs). lia.
Qed.

Lemma get_char_length s s1 c :
  get_char s = (s1, Some c) → (length (chars s1) < length (chars s))%nat.
Proof.
  unfold get_char. destruct (good s); [|done].
  pose proof (skipws_length (chars s)).
  destruct (skipws (chars s)) as [|c' cs]; [done|].
  intros [= <- <-]. simpl in *. lia.
Qed.

Lemma get_u32_length s x : (length (chars (get_u32 s x).1) ≤ length (chars s))%nat.
Proof.
  unfold get_u32. destruct (good s); [|done].
  pose proof (skipws_length (chars s)).
  destruct (skipws (chars s)) as [|c cs] eqn:E; simpl; [lia|].
  set (body := if bool_decide (c = "-"%char) || bool_decide (c = "+"%char)
               then cs else c :: cs).
  assert (length body ≤ S (length cs))%nat as Hlen.
  { unfold body. destruct (_ || _); simpl; lia. }
  clearbody body. destruct body as [|c' body']; simpl in *; [lia|].
  destruct (isdigit c') eqn:Ed; simpl; [|lia].
  pose proof (read_digits_length body' (10 * 0 + Z.of_nat (nat_of_ascii c' - 48))).
  destruct (read_digits _ body') as [v rest]. simpl in *.
  destruct (v <=? UINT32_MAX); simpl; lia.
Qed.

Lemma ignore_length s n delim : (length (chars (ignore s n delim)) ≤ length (chars s))%nat.
Proof.
  unfold ignore. destruct (good s); [|done].
  pose proof (discard_length n delim (chars s)).
  destruct (discard n delim (chars s)). simpl in *. lia.
Qed.

Lemma get_edge_length s v w d : (length (chars (get_edge s v w d).1.1.1) ≤ length (chars s))%nat.
Proof.
  unfold get_edge.
  pose proof (get_u32_length s v). destruct (get_u32 s v) as [s2 v'].
  pose proof (get_u32_length s2 w). destruct (get_u32 s2 w) as [s3 w'].
  pose proof (get_u32_length s3 d). destruct (get_u32 s3 d) as [s4 d'].
  simpl in *. lia.
Qed.

(** The bound [read_graph] gives the loop is never reached: every line read
    consumes at least its line id. *)
Lemma read_lines_fuel cfg fuel : ∀ s v w d g,
  (length (chars s) < fuel)%nat → read_lines cfg fuel s v w d g ≠ Fail OutOfFuel.
Proof.
  induction fuel as [|fuel IH]; intros s v w d g Hlen; [lia|]. simpl.
  destruct (get_char s) as [s1 [c|]] eqn:Ec; [|done].
  apply get_char_length in Ec.
  case_bool_decide.
  - pose proof (ignore_length s1 3 None) as L1.
    pose proof (get_u32_length (ignore s1 3 None) v) as L2.
    destruct (get_u32 (ignore s1 3 None) v) as [s3 v'].
    pose proof (ignore_length s3 1000 (Some newline)) as L3. simpl in *.
    destruct (initialised v') as [n|f] eqn:Ei; simpl.
    2:{ destruct v'; simpl in Ei; congruence. }
    destruct (resize cfg g (Z.to_nat n)) as [g'|f] eqn:Er; simpl.
    + apply IH. lia.
    + unfold resize in Er. destruct (check_cases cfg (bool_decide (nodes g = []))) as [Hc|Hc];
        rewrite Hc in Er; simpl in Er; congruence.
  - case_bool_decide.
    + pose proof (get_edge_length s1 v w d) as L.
      destruct (get_edge s1 v w d) as [[[s4 v'] w'] d']. simpl in L.
      destruct (add_parsed_edge cfg g v' w' d') as [g'|f] eqn:Ea; simpl.
      * apply IH. lia.
      * intros [= ->]. revert Ea. unfold add_parsed_edge, initialised, add_edge, add_edge1.
        destruct v', w', d'; simpl; try done.
        repeat match goal with
        | |- context [check cfg ?b] =>
            destruct (check_cases cfg b) as [Hc|Hc]; rewrite Hc; simpl; [|done]; clear Hc
        | |- context [at_ ?l ?i] =>
            destruct (at_cases l i) as [(? & _ & Hc)|Hc]; rewrite Hc; simpl; [|done];
            clear Hc
        | |- context [relax_existing ?a ?b ?c] => destruct (relax_existing a b c); simpl
        end; done.
    + apply IH. pose proof (ignore_length s1 1000 (Some newline)). lia.
Qed.

Lemma discard_line n : ∀ l rest,
  (length l < n)%nat → newline ∉ l →
  discard n (Some newline) (l ++ newline :: rest) = (rest, false).
Proof.
  induction n as [|n IH]; intros l rest Hlen Hnl; [lia|].
  destruct l as [|c l]; cbn [app discard].
  - by rewrite bool_decide_eq_true_2.
  - apply not_elem_of_cons in Hnl as [Hc Hnl].
    rewrite bool_decide_eq_false_2 by congruence. apply IH; [simpl in Hlen; lia|done].
Qed.






(** ** The shortcut graph *)

Section shape.

Implicit Types (ch : ContractionHierarchy) (ci : list CutIndex.t) (v u : nat).

Lemma di_lookup ch v n : ch !! v = Some n → di ch v = CHNode.dist_index n.
Proof. unfold di. by intros ->. Qed.

Lemma dist_index_of_Ok ch v d :
  dist_index_of ch v = Ok d → (v < length ch)%nat ∧ di ch v = d.
Proof.
  unfold dist_index_of. intros H. inv_res.
  split; [by eapply lookup_lt_Some|]. by apply di_lookup.
Qed.

Lemma di_set_up ch v up u : di (set_up ch v up) u = di ch u.
Proof.
  unfold di, set_up. rewrite list_lookup_alter. case_decide; [subst|done].
  by destruct (ch !! u).
Qed.

Lemma di_set_down ch v down u : di (set_down ch v down) u = di ch u.
Proof.
  unfold di, set_down. rewrite list_lookup_alter. case_decide; [subst|done].
  by destruct (ch !! u).
Qed.

Lemma length_set_up ch v up : length (set_up ch v up) = length ch.
Proof. apply length_alter. Qed.

Lemma length_set_down ch v down : length (set_down ch v down) = length ch.
Proof. apply length_alter. Qed.

Lemma lookup_set_up ch v up u n :
  set_up ch v up !! u = Some n →
  ∃ m, ch !! u = Some m ∧ CHNode.dist_index n = CHNode.dist_index m
     ∧ CHNode.down_neighbors n = CHNode.down_neighbors m
     ∧ CHNode.up_neighbors n = (if decide (v = u) then up else CHNode.up_neighbors m).
Proof.
  unfold set_up. rewrite list_lookup_alter. case_decide; [subst|].
  - destruct (ch !! u) as [m|]; simpl; [|done]. intros [= <-]. eauto.
  - intros ->. eauto.
Qed.

Lemma lookup_set_down ch v down u n :
  set_down ch v down !! u = Some n →
  ∃ m, ch !! u = Some m ∧ CHNode.dist_index n = CHNode.dist_index m
     ∧ CHNode.up_neighbors n = CHNode.up_neighbors m.
Proof.
  unfold set_down. rewrite list_lookup_alter. case_decide; [subst|].
  - destruct (ch !! u) as [m|]; simpl; [|done]. intros [= <-]. eauto.
  - intros ->. eauto.
Qed.

(** Replacing the list of [v] by entries that all point upwards. *)
Lemma up_ordered_set_up ch v up n :
  up_ordered ch → ch !! v = Some n →
  (∀ x, x ∈ up → (node x < length ch)%nat ∧ di ch (node x) < CHNode.dist_index n) →
  up_ordered (set_up ch v up).
Proof.
  intros Ho Hv Hup u m x Hm Hx.
  rewrite length_set_up, di_set_up.
  destruct (lookup_set_up _ _ _ _ _ Hm) as (m' & Hm' & -> & _ & Hupm).
  rewrite Hupm in Hx. case_decide; [subst|].
  - assert (m' = n) as -> by congruence. by apply Hup.
  - by apply (Ho u m').
Qed.

Lemma up_ordered_set_down ch v down : up_ordered ch → up_ordered (set_down ch v down).
Proof.
  intros Ho u m x Hm Hx. rewrite length_set_down, di_set_down.
  destruct (lookup_set_down _ _ _ _ _ Hm) as (m' & Hm' & -> & Hupm).
  rewrite Hupm in Hx. by apply (Ho u m').
Qed.

Lemma same_shape_refl ch : same_shape ch ch.
Proof. apply Forall2_same_length_lookup. split; [done|]. intros i x y ? ?. by simplify_eq. Qed.

Lemma same_shape_trans ch1 ch2 ch3 :
  same_shape ch1 ch2 → same_shape ch2 ch3 → same_shape ch1 ch3.
Proof.
  unfold same_shape. intros H1 H2. eapply Forall2_trans; [|done..].
  simpl. intros x y z (-> & -> & ->) (-> & -> & ->). done.
Qed.

Lemma same_shape_assign_up ch v k d pc : same_shape ch (assign_up ch v k d pc).
Proof.
  apply Forall2_same_length_lookup. split.
  { unfold assign_up. by rewrite length_alter. }
  intros i x y Hx. unfold assign_up. rewrite list_lookup_alter.
  case_decide; [subst; rewrite Hx|rewrite Hx]; intros [= <-]; simpl; [|done].
  split; [done|]. split; [|done].
  apply list_eq. intros j. rewrite !list_lookup_fmap, list_lookup_alter.
  case_decide; [subst|done]. by destruct (_ !! j).
Qed.

Lemma same_shape_di ch ch' v : same_shape ch ch' → di ch v = di ch' v.
Proof.
  intros Hs. unfold di.
  destruct (ch !! v) as [n|] eqn:E.
  - destruct (Forall2_lookup_l _ _ _ _ _ Hs E) as (n' & -> & Hd & _). done.
  - apply lookup_ge_None in E. rewrite (Forall2_length _ _ _ Hs) in E.
    apply lookup_ge_None in E. by rewrite E.
Qed.

Lemma up_ordered_same_shape ch ch' : same_shape ch ch' → up_ordered ch → up_ordered ch'.
Proof.
  intros Hs Ho v n' x Hv Hx.
  destruct (Forall2_lookup_r _ _ _ _ _ Hs Hv) as (n & Hn & Hd & Hup & _).
  assert (node x ∈ node <$> CHNode.up_neighbors n') as Hin.
  { apply list_elem_of_fmap. eauto. }
  rewrite <- Hup in Hin. apply list_elem_of_fmap in Hin as (y & Hy & Hyin).
  destruct (Ho v n y Hn Hyin) as [Hl Hlt].
  rewrite <- (Forall2_length _ _ _ Hs), <- (same_shape_di _ _ _ Hs), Hy, <- Hd. done.
Qed.

(** Positions decrease along a path of up-edges, so no path closes. *)
Lemma up_ordered_tc ch v u :
  up_ordered ch → tc (up_edge ch) v u → di ch u < di ch v.
Proof.
  intros Ho. induction 1 as [v u (n & x & Hv & Hx & <-)|v w u (n & x & Hv & Hx & <-) _ IH].
  - rewrite (di_lookup _ _ _ Hv). by apply (Ho v n x).
  - pose proof (proj2 (Ho v n x Hv Hx)) as Hlt. rewrite (di_lookup _ _ _ Hv). lia.
Qed.

Lemma up_ordered_acyclic ch : up_ordered ch → acyclic ch.
Proof. intros Ho v Hc. pose proof (up_ordered_tc _ _ _ Ho Hc). lia. Qed.

(** *** [create_sc_graph] *)

Lemma length_vresize {A} (l : list A) n x : length (vresize l n x) = n.
Proof. unfold vresize. rewrite length_app, length_take, length_replicate. lia. Qed.

Lemma wrap16_range x : 0 <= wrap16 x < 65536.
Proof. unfold wrap16. apply Z.mod_pos_bound. lia. Qed.

Lemma lookup_set_labels ci v ds ps x c :
  set_labels ci v ds ps !! x = Some c →
  (x = v ∧ CutIndex.distances c = ds) ∨ (x ≠ v ∧ ci !! x = Some c).
Proof.
  unfold set_labels. rewrite list_lookup_alter. case_decide; [subst|by right].
  destruct (ci !! x); simpl; [|done]. intros [= <-]. by left.
Qed.

Lemma di_set_dist_index ch v d u :
  (v < length ch)%nat →
  di (set_dist_index ch v d) u = if decide (v = u) then d else di ch u.
Proof.
  intros Hv. unfold di, set_dist_index. rewrite list_lookup_alter.
  case_decide; [subst|done].
  destruct (lookup_lt_is_Some_2 _ _ Hv) as [n ->]. done.
Qed.

Lemma store_label_within ch ci v i d p ci' :
  store_label ci v i d p = Ok ci' → labels_within ch ci → labels_within ch ci'.
Proof.
  unfold store_label. intros H Hw x c Hx. inv_res.
  match goal with Hs : set_at (CutIndex.distances _) _ _ = Ok _ |- _ =>
    apply set_at_Ok in Hs as [Hlt ->] end.
  match goal with Hs : set_at (CutIndex.paths _) _ _ = Ok _ |- _ =>
    apply set_at_Ok in Hs as [_ ->] end.
  apply lookup_set_labels in Hx as [[-> Hd]|[_ Hx]]; [|by apply Hw].
  rewrite Hd, length_insert. by eapply Hw.
Qed.

Lemma labels_within_di ch ch' ci :
  (∀ x, di ch' x = di ch x) → labels_within ch ci → labels_within ch' ci.
Proof. intros Hd Hw x c Hx. rewrite Hd. by apply Hw. Qed.

(** After the first loop there are still no edges and the label arrays of
    the core vertices have the length of their position. *)
Lemma no_edges_set_dist_index ch v d : no_edges ch → no_edges (set_dist_index ch v d).
Proof. intros He. unfold set_dist_index. apply Forall_alter; [done|]. by intros y Hy Hup. Qed.

Lemma sc_init_core_within ch ci v last ds :
  (v < length ch)%nat → labels_within ch ci → length ds = Z.to_nat (sub16 last 1) →
  ∀ ps, labels_within (set_dist_index ch v (sub16 last 1)) (set_labels ci v ds ps).
Proof.
  intros Hlt Hw Hds ps x c' Hx. rewrite di_set_dist_index by done.
  pose proof (wrap16_range (last - 1)) as Hr. fold (sub16 last 1) in Hr.
  apply lookup_set_labels in Hx as [[-> Hd]|[Hne Hx]].
  - rewrite decide_True by done. rewrite Hd, Hds. lia.
  - rewrite decide_False by done. by apply Hw.
Qed.

Lemma sc_init_inv cfg closest todo : ∀ ch ci bu ch1 ci1 bu1,
  sc_init cfg closest todo ch ci bu = Ok (ch1, ci1, bu1) →
  no_edges ch → labels_within ch ci →
  no_edges ch1 ∧ labels_within ch1 ci1.
Proof.
  induction todo as [|v todo IH]; simpl; intros ch ci bu ch1 ci1 bu1 H He Hw.
  { by inv_res. }
  apply bind_Ok_inv in H as (c & Hc & H). apply bind_Ok_inv in H as (n & Hn & H).
  apply at_Ok in Hn. pose proof (lookup_lt_Some _ _ _ Hn) as Hlt.
  case_decide.
  - apply bind_Ok_inv in H as (cix & Hcix & H). apply bind_Ok_inv in H as (last & Hlast & H).
    apply IH in H; [done|by apply no_edges_set_dist_index|].
    apply sc_init_core_within; [done..|apply length_vresize].
  - apply IH in H; [done|by apply no_edges_set_dist_index|].
    intros x c' Hx. rewrite di_set_dist_index by done.
    destruct (Hw x c' Hx) as [H1 H2]. case_decide; [|done].
    unfold CONTRACTED. lia.
Qed.

Lemma sc_init_all_inv cfg todo : ∀ ch ci ch1 ci1,
  sc_init_all cfg todo ch ci = Ok (ch1, ci1) →
  no_edges ch → labels_within ch ci →
  no_edges ch1 ∧ labels_within ch1 ci1.
Proof.
  induction todo as [|v todo IH]; simpl; intros ch ci ch1 ci1 H He Hw.
  { by inv_res. }
  apply bind_Ok_inv in H as (n & Hn & H).
  apply at_Ok in Hn. pose proof (lookup_lt_Some _ _ _ Hn) as Hlt.
  apply bind_Ok_inv in H as (cix & Hcix & H). apply bind_Ok_inv in H as (last & Hlast & H).
  apply IH in H; [done|by apply no_edges_set_dist_index|].
  apply sc_init_core_within; [done..|apply length_vresize].
Qed.

(** The second loop adds an edge only towards a smaller position. *)
Lemma sc_up_edges_inv closest v ns : ∀ ch ci ch' ci',
  sc_up_edges closest v ns ch ci = Ok (ch', ci') →
  up_ordered ch → labels_within ch ci →
  up_ordered ch' ∧ labels_within ch' ci'.
Proof.
  induction ns as [|n ns IH]; simpl; intros ch ci ch' ci' H Ho Hw.
  { by inv_res. }
  apply bind_Ok_inv in H as (c & Hc & H).
  case_decide; [|by eapply IH].
  apply bind_Ok_inv in H as (dn & Hdn & H). apply bind_Ok_inv in H as (chv & Hv & H).
  apply at_Ok in Hv. apply dist_index_of_Ok in Hdn as [Hlt Hdn].
  destruct (dn <? CHNode.dist_index chv) eqn:Hcmp; [|by eapply IH].
  apply Z.ltb_lt in Hcmp.
  apply bind_Ok_inv in H as (ci1 & Hst & H).
  eapply IH in H; [done| |].
  - eapply up_ordered_set_up; [done..|]. intros x Hx.
    apply elem_of_app in Hx as [Hx|Hx]; [by apply (Ho v chv)|].
    apply list_elem_of_singleton in Hx as ->. simpl. by rewrite Hdn.
  - eapply labels_within_di; [apply di_set_up|]. by eapply store_label_within.
Qed.

Lemma sc_graph_edges_inv g closest todo : ∀ ch ci ch' ci',
  sc_graph_edges g closest todo ch ci = Ok (ch', ci') →
  up_ordered ch → labels_within ch ci →
  up_ordered ch' ∧ labels_within ch' ci'.
Proof.
  induction todo as [|v todo IH]; simpl; intros ch ci ch' ci' H Ho Hw.
  { by inv_res. }
  apply bind_Ok_inv in H as (nd & Hnd & H).
  apply bind_Ok_inv in H as ([ch1 ci1] & H1 & H).
  apply sc_up_edges_inv in H1 as [??]; [|done..]. by eapply IH.
Qed.

Lemma sc_up_edges_all_inv v ns : ∀ ch ci ch' ci',
  sc_up_edges_all v ns ch ci = Ok (ch', ci') →
  up_ordered ch → labels_within ch ci →
  up_ordered ch' ∧ labels_within ch' ci'.
Proof.
  induction ns as [|n ns IH]; simpl; intros ch ci ch' ci' H Ho Hw.
  { by inv_res. }
  apply bind_Ok_inv in H as (dn & Hdn & H). apply bind_Ok_inv in H as (chv & Hv & H).
  apply at_Ok in Hv. apply dist_index_of_Ok in Hdn as [Hlt Hdn].
  destruct (dn <? CHNode.dist_index chv) eqn:Hcmp; [|by eapply IH].
  apply Z.ltb_lt in Hcmp.
  apply bind_Ok_inv in H as (ci1 & Hst & H).
  eapply IH in H; [done| |].
  - eapply up_ordered_set_up; [done..|]. intros x Hx.
    apply elem_of_app in Hx as [Hx|Hx]; [by apply (Ho v chv)|].
    apply list_elem_of_singleton in Hx as ->. simpl. by rewrite Hdn.
  - eapply labels_within_di; [apply di_set_up|]. by eapply store_label_within.
Qed.

Lemma sc_graph_edges_all_inv g todo : ∀ ch ci ch' ci',
  sc_graph_edges_all g todo ch ci = Ok (ch', ci') →
  up_ordered ch → labels_within ch ci →
  up_ordered ch' ∧ labels_within ch' ci'.
Proof.
  induction todo as [|v todo IH]; simpl; intros ch ci ch' ci' H Ho Hw.
  { by inv_res. }
  apply bind_Ok_inv in H as (nd & Hnd & H).
  apply bind_Ok_inv in H as ([ch1 ci1] & H1 & H).
  apply sc_up_edges_all_inv in H1 as [??]; [|done..]. by eapply IH.
Qed.

Lemma elem_of_insert_by {A} (lt : A → A → bool) x y l :
  y ∈ util.insert_by lt x l → y = x ∨ y ∈ l.
Proof.
  induction l as [|z l IH]; simpl.
  - intros ->%list_elem_of_singleton. by left.
  - destruct (lt z x).
    + intros [->|Hy]%elem_of_cons; [right; left|].
      destruct (IH Hy) as [->|?]; [by left|right; by right].
    + intros [->|Hy]%elem_of_cons; [by left|by right].
Qed.

Lemma elem_of_sort_by {A} (lt : A → A → bool) y l : y ∈ util.sort_by lt l → y ∈ l.
Proof.
  unfold util.sort_by. induction l as [|x l IH]; simpl; [done|].
  intros [->|?]%elem_of_insert_by; [left|right; auto].
Qed.

Lemma elem_of_distinct_after y l : ∀ last, y ∈ util.distinct_after last l → y ∈ l.
Proof.
  induction l as [|x l IH]; simpl; intros last; [done|].
  case_decide.
  - intros ?%IH. by right.
  - intros [->|?%IH]%elem_of_cons; [left|by right].
Qed.

Lemma elem_of_make_set comp y l : y ∈ util.make_set comp l → y ∈ l.
Proof.
  unfold util.make_set. destruct (length l <? 2)%nat; [done|].
  destruct (util.sort_by comp l) as [|x l'] eqn:E; [by intros ?%elem_of_nil|].
  intros Hy. apply (elem_of_sort_by comp). rewrite E.
  apply elem_of_cons in Hy as [->|Hy%elem_of_distinct_after]; [left|by right].
Qed.

(** A shortcut is added after a read of [ci[up[i].node].distances] at the
    position of [up[j].node]; the read is inside the array only when that
    position is smaller than the one of [up[i].node]. *)
Lemma sc_shortcut_inv v ui uj ch ci ch' ci' :
  sc_shortcut v ui uj ch ci = Ok (ch', ci') →
  up_ordered ch → labels_within ch ci →
  up_ordered ch' ∧ labels_within ch' ci'.
Proof.
  unfold sc_shortcut. intros H Ho Hw.
  apply bind_Ok_inv in H as (dj & Hdj & H). apply dist_index_of_Ok in Hdj as [Hlt Hdj].
  apply bind_Ok_inv in H as (c & Hc & H). apply at_Ok in Hc.
  apply bind_Ok_inv in H as (cur & Hcur & H). apply at_Ok in Hcur.
  apply lookup_lt_Some in Hcur. destruct (Hw _ _ Hc) as [Hlen _].
  assert (dj < di ch (node ui)) as Hdi by lia.
  assert (∀ chi w pc ci1, ch !! node ui = Some chi → labels_within ch ci1 →
    up_ordered (set_up ch (node ui) (CHNode.up_neighbors chi ++ [mkNeighbor (node uj) w pc]))
    ∧ labels_within (set_up ch (node ui)
        (CHNode.up_neighbors chi ++ [mkNeighbor (node uj) w pc])) ci1) as Hpush.
  { intros chi w pc ci1 Hchi Hw1. split.
    - eapply up_ordered_set_up; [done..|]. intros x Hx.
      apply elem_of_app in Hx as [Hx|Hx]; [by apply (Ho (node ui) chi)|].
      apply list_elem_of_singleton in Hx as ->. simpl.
      rewrite <- (di_lookup _ _ _ Hchi), Hdj. done.
    - eapply labels_within_di; [apply di_set_up|done]. }
  destruct (_ <? cur).
  - case_decide; [done|].
    apply bind_Ok_inv in H as (chi & Hchi & H). apply at_Ok in Hchi.
    apply bind_Ok_inv in H as (ci1 & Hst & H). injection H as <- <-.
    apply Hpush; [done|]. by eapply store_label_within.
  - destruct (_ =? cur); [|injection H as <- <-; done].
    apply bind_Ok_inv in H as (p & Hp & H).
    apply bind_Ok_inv in H as (ci1 & Hst & H).
    case_decide; [done|].
    apply bind_Ok_inv in H as (chi & Hchi & H). apply at_Ok in Hchi.
    injection H as <- <-.
    apply Hpush; [done|]. by eapply store_label_within.
Qed.

Lemma sc_pairs_from_inv v ui rest : ∀ ch ci ch' ci',
  sc_pairs_from v ui rest ch ci = Ok (ch', ci') →
  up_ordered ch → labels_within ch ci →
  up_ordered ch' ∧ labels_within ch' ci'.
Proof.
  induction rest as [|uj rest IH]; simpl; intros ch ci ch' ci' H Ho Hw.
  { by inv_res. }
  apply bind_Ok_inv in H as ([ch1 ci1] & H1 & H).
  apply sc_shortcut_inv in H1 as [??]; [|done..]. by eapply IH.
Qed.

Lemma sc_pairs_inv v up : ∀ ch ci ch' ci',
  sc_pairs v up ch ci = Ok (ch', ci') →
  up_ordered ch → labels_within ch ci →
  up_ordered ch' ∧ labels_within ch' ci'.
Proof.
  induction up as [|ui rest IH]; simpl; intros ch ci ch' ci' H Ho Hw.
  { by inv_res. }
  apply bind_Ok_inv in H as ([ch1 ci1] & H1 & H).
  apply sc_pairs_from_inv in H1 as [??]; [|done..]. by eapply IH.
Qed.

Lemma sc_down_inv v up : ∀ ch ch' ci,
  sc_down v up ch = Ok ch' →
  up_ordered ch → labels_within ch ci →
  up_ordered ch' ∧ labels_within ch' ci.
Proof.
  induction up as [|upn up IH]; simpl; intros ch ch' ci H Ho Hw.
  { by inv_res. }
  apply bind_Ok_inv in H as (n & Hn & H).
  eapply IH in H; [done|by apply up_ordered_set_down|].
  eapply labels_within_di; [apply di_set_down|done].
Qed.

Lemma sc_bottom_up_inv todo : ∀ ch ci ch' ci',
  sc_bottom_up todo ch ci = Ok (ch', ci') →
  up_ordered ch → labels_within ch ci →
  up_ordered ch' ∧ labels_within ch' ci'.
Proof.
  induction todo as [|v todo IH]; simpl; intros ch ci ch' ci' H Ho Hw.
  { by inv_res. }
  apply bind_Ok_inv in H as (chv & Hv & H). apply at_Ok in Hv.
  apply bind_Ok_inv in H as ([ch2 ci2] & H2 & H).
  apply bind_Ok_inv in H as (ch3 & H3 & H).
  apply sc_pairs_inv in H2 as [Ho2 Hw2].
  - eapply sc_down_inv in H3 as [??]; [|done..]. by eapply IH.
  - eapply up_ordered_set_up; [done..|]. intros x Hx%elem_of_make_set.
    by apply (Ho v chv).
  - eapply labels_within_di; [apply di_set_up|done].
Qed.

Lemma sc_labels_inv cfg todo : ∀ ch ci ch' ci',
  sc_labels cfg todo ch ci = Ok (ch', ci') → up_ordered ch → up_ordered ch'.
Proof.
  induction todo as [|x todo IH]; simpl; intros ch ci ch' ci' H Ho.
  { by inv_res. }
  apply bind_Ok_inv in H as (chx & Hx & H).
  apply bind_Ok_inv in H as (ci1 & H1 & H).
  apply bind_Ok_inv in H as (c & Hc & H).
  eapply IH in H; [done|]. destruct (MULTI_THREAD_DISTANCES cfg); [done|].
  by apply up_ordered_set_down.
Qed.

Lemma no_edges_vresize cfg ch n :
  no_edges ch → no_edges (vresize ch n (CHNode.mk (chnode_dist_index cfg) [] [])).
Proof.
  intros He. unfold vresize. apply Forall_app. split; [by apply Forall_take|].
  by apply Forall_replicate.
Qed.

Lemma no_edges_up_ordered ch : no_edges ch → up_ordered ch.
Proof.
  intros He v n x Hn Hx. destruct (Forall_lookup_1 _ _ _ _ He Hn) as [Hup _].
  rewrite Hup in Hx. by apply elem_of_nil in Hx.
Qed.

Lemma empty_labels_within ch ci :
  Forall (λ c, CutIndex.distances c = []) ci → labels_within ch ci.
Proof. intros Hci x c Hx. rewrite (Forall_lookup_1 _ _ _ _ Hci Hx). simpl. lia. Qed.

Lemma create_sc_graph_up_ordered cfg g ch ci closest ch' ci' :
  no_edges ch → Forall (λ c, CutIndex.distances c = []) ci →
  create_sc_graph cfg g ch ci closest = Ok (ch', ci') →
  up_ordered ch'.
Proof.
  intros He Hci H. unfold create_sc_graph in H.
  apply bind_Ok_inv in H as ([[ch1 ci1] bu] & H1 & H).
  apply bind_Ok_inv in H as ([ch2 ci2] & H2 & H).
  apply bind_Ok_inv in H as ([ch3 ci3] & H3 & H).
  apply bind_Ok_inv in H as (order & _ & H).
  apply sc_init_inv in H1 as [He1 Hw1];
    [|by apply no_edges_vresize|by apply empty_labels_within].
  eapply sc_graph_edges_inv in H2 as [Ho2 Hw2]; [|by apply no_edges_up_ordered|done].
  eapply sc_bottom_up_inv in H3 as [Ho3 _]; [|done..].
  by eapply sc_labels_inv.
Qed.

Lemma create_sc_graph_all_up_ordered cfg g ch ci ch' ci' :
  no_edges ch → Forall (λ c, CutIndex.distances c = []) ci →
  create_sc_graph_all cfg g ch ci = Ok (ch', ci') →
  up_ordered ch'.
Proof.
  intros He Hci H. unfold create_sc_graph_all in H.
  apply bind_Ok_inv in H as ([ch1 ci1] & H1 & H).
  apply bind_Ok_inv in H as ([ch2 ci2] & H2 & H).
  apply bind_Ok_inv in H as ([ch3 ci3] & H3 & H).
  apply bind_Ok_inv in H as (order & _ & H).
  apply sc_init_all_inv in H1 as [He1 Hw1];
    [|by apply no_edges_vresize|by apply empty_labels_within].
  eapply sc_graph_edges_all_inv in H2 as [Ho2 Hw2]; [|by apply no_edges_up_ordered|done].
  eapply sc_bottom_up_inv in H3 as [Ho3 _]; [|done..].
  by eapply sc_labels_inv.
Qed.

(** *** The down-neighbours *)

Lemma down_frame_refl ch : down_frame ch ch.
Proof. apply Forall2_same_length_lookup. split; [done|]. intros i x y ? ?. by simplify_eq. Qed.

Lemma down_frame_trans ch1 ch2 ch3 :
  down_frame ch1 ch2 → down_frame ch2 ch3 → down_frame ch1 ch3.
Proof.
  unfold down_frame. intros H1 H2. eapply Forall2_trans; [|done..].
  simpl. intros x y z (-> & ->) (-> & ->). done.
Qed.

Lemma down_frame_set_up ch v up : down_frame ch (set_up ch v up).
Proof.
  apply Forall2_same_length_lookup. split; [by rewrite length_set_up|].
  intros i x y Hx Hy. apply lookup_set_up in Hy as (m & Hm & -> & -> & _).
  by simplify_eq.
Qed.

Lemma same_shape_down_frame ch ch' : same_shape ch ch' → down_frame ch ch'.
Proof. intros H. eapply Forall2_impl; [done|]. simpl. naive_solver. Qed.

Lemma down_frame_di ch ch' v : down_frame ch ch' → di ch v = di ch' v.
Proof.
  intros Hs. unfold di.
  destruct (ch !! v) as [n|] eqn:E.
  - destruct (Forall2_lookup_l _ _ _ _ _ Hs E) as (n' & -> & Hd & _). done.
  - apply lookup_ge_None in E. rewrite (Forall2_length _ _ _ Hs) in E.
    apply lookup_ge_None in E. by rewrite E.
Qed.

Lemma down_ordered_down_frame ch ch' : down_frame ch ch' → down_ordered ch → down_ordered ch'.
Proof.
  intros Hs Ho v n' u Hv Hu.
  destruct (Forall2_lookup_r _ _ _ _ _ Hs Hv) as (n & Hn & Hd & Hdown).
  rewrite <- !(down_frame_di _ _ _ Hs). rewrite <- Hdown in Hu. by apply (Ho v n).
Qed.

Lemma down_ordered_set_down ch w down n :
  down_ordered ch → ch !! w = Some n → (∀ u, u ∈ down → di ch w < di ch u) →
  down_ordered (set_down ch w down).
Proof.
  intros Ho Hw Hdown v m u Hm Hu. rewrite !di_set_down.
  unfold set_down in Hm. rewrite list_lookup_alter in Hm. case_decide; [subst|].
  - rewrite Hw in Hm. injection Hm as <-. by apply Hdown.
  - by apply (Ho v m).
Qed.

Lemma no_edges_down_ordered ch : no_edges ch → down_ordered ch.
Proof.
  intros He v n x Hn Hx. destruct (Forall_lookup_1 _ _ _ _ He Hn) as [_ Hd].
  rewrite Hd in Hx. by apply elem_of_nil in Hx.
Qed.

Lemma sc_up_edges_frame closest v ns : ∀ ch ci ch' ci',
  sc_up_edges closest v ns ch ci = Ok (ch', ci') → down_frame ch ch'.
Proof.
  induction ns as [|n ns IH]; simpl; intros ch ci ch' ci' H.
  { inv_res. apply down_frame_refl. }
  apply bind_Ok_inv in H as (c & Hc & H).
  case_decide; [|by eapply IH].
  apply bind_Ok_inv in H as (dn & Hdn & H). apply bind_Ok_inv in H as (chv & Hv & H).
  destruct (dn <? CHNode.dist_index chv); [|by eapply IH].
  apply bind_Ok_inv in H as (ci1 & Hst & H). apply IH in H.
  eapply down_frame_trans; [apply down_frame_set_up|done].
Qed.

Lemma sc_graph_edges_frame g closest todo : ∀ ch ci ch' ci',
  sc_graph_edges g closest todo ch ci = Ok (ch', ci') → down_frame ch ch'.
Proof.
  induction todo as [|v todo IH]; simpl; intros ch ci ch' ci' H.
  { inv_res. apply down_frame_refl. }
  apply bind_Ok_inv in H as (nd & Hnd & H).
  apply bind_Ok_inv in H as ([ch1 ci1] & H1 & H).
  apply sc_up_edges_frame in H1. apply IH in H. by eapply down_frame_trans.
Qed.

Lemma sc_up_edges_all_frame v ns : ∀ ch ci ch' ci',
  sc_up_edges_all v ns ch ci = Ok (ch', ci') → down_frame ch ch'.
Proof.
  induction ns as [|n ns IH]; simpl; intros ch ci ch' ci' H.
  { inv_res. apply down_frame_refl. }
  apply bind_Ok_inv in H as (dn & Hdn & H). apply bind_Ok_inv in H as (chv & Hv & H).
  destruct (dn <? CHNode.dist_index chv); [|by eapply IH].
  apply bind_Ok_inv in H as (ci1 & Hst & H). apply IH in H.
  eapply down_frame_trans; [apply down_frame_set_up|done].
Qed.

Lemma sc_graph_edges_all_frame g todo : ∀ ch ci ch' ci',
  sc_graph_edges_all g todo ch ci = Ok (ch', ci') → down_frame ch ch'.
Proof.
  induction todo as [|v todo IH]; simpl; intros ch ci ch' ci' H.
  { inv_res. apply down_frame_refl. }
  apply bind_Ok_inv in H as (nd & Hnd & H).
  apply bind_Ok_inv in H as ([ch1 ci1] & H1 & H).
  apply sc_up_edges_all_frame in H1. apply IH in H. by eapply down_frame_trans.
Qed.

Lemma sc_shortcut_frame v ui uj ch ci ch' ci' :
  sc_shortcut v ui uj ch ci = Ok (ch', ci') → down_frame ch ch'.
Proof.
  unfold sc_shortcut. intros H.
  apply bind_Ok_inv in H as (dj & Hdj & H). apply bind_Ok_inv in H as (c & Hc & H).
  apply bind_Ok_inv in H as (cur & Hcur & H).
  destruct (_ <? cur).
  - case_decide; [done|].
    apply bind_Ok_inv in H as (chi & Hchi & H).
    apply bind_Ok_inv in H as (ci1 & Hst & H). injection H as <- <-.
    apply down_frame_set_up.
  - destruct (_ =? cur); [|injection H as <- <-; apply down_frame_refl].
    apply bind_Ok_inv in H as (p & Hp & H).
    apply bind_Ok_inv in H as (ci1 & Hst & H).
    case_decide; [done|].
    apply bind_Ok_inv in H as (chi & Hchi & H). injection H as <- <-.
    apply down_frame_set_up.
Qed.

Lemma sc_pairs_from_frame v ui rest : ∀ ch ci ch' ci',
  sc_pairs_from v ui rest ch ci = Ok (ch', ci') → down_frame ch ch'.
Proof.
  induction rest as [|uj rest IH]; simpl; intros ch ci ch' ci' H.
  { inv_res. apply down_frame_refl. }
  apply bind_Ok_inv in H as ([ch1 ci1] & H1 & H).
  apply sc_shortcut_frame in H1. apply IH in H. by eapply down_frame_trans.
Qed.

Lemma sc_pairs_frame v up : ∀ ch ci ch' ci',
  sc_pairs v up ch ci = Ok (ch', ci') → down_frame ch ch'.
Proof.
  induction up as [|ui rest IH]; simpl; intros ch ci ch' ci' H.
  { inv_res. apply down_frame_refl. }
  apply bind_Ok_inv in H as ([ch1 ci1] & H1 & H).
  apply sc_pairs_from_frame in H1. apply IH in H. by eapply down_frame_trans.
Qed.

(** [node] becomes a down-neighbour of the vertices of its own up-list,
    all of which lie above it. *)
Lemma sc_down_down v up : ∀ ch ch',
  sc_down v up ch = Ok ch' →
  (∀ x, x ∈ up → di ch (node x) < di ch v) → down_ordered ch → down_ordered ch'.
Proof.
  induction up as [|upn up IH]; simpl; intros ch ch' H Hup Ho.
  { by inv_res. }
  apply bind_Ok_inv in H as (n & Hn & H). apply at_Ok in Hn.
  eapply IH in H; [done| |].
  - intros x Hx. rewrite !di_set_down. apply Hup. by right.
  - eapply down_ordered_set_down; [done..|]. intros u Hu.
    apply elem_of_app in Hu as [Hu|Hu]; [by apply (Ho _ n)|].
    apply list_elem_of_singleton in Hu as ->. apply Hup. left.
Qed.

Lemma sc_bottom_up_down todo : ∀ ch ci ch' ci',
  sc_bottom_up todo ch ci = Ok (ch', ci') →
  up_ordered ch → labels_within ch ci → down_ordered ch → down_ordered ch'.
Proof.
  induction todo as [|v todo IH]; simpl; intros ch ci ch' ci' H Ho Hw Hd.
  { by inv_res. }
  apply bind_Ok_inv in H as (chv & Hv & H). apply at_Ok in Hv.
  apply bind_Ok_inv in H as ([ch2 ci2] & H2 & H).
  apply bind_Ok_inv in H as (ch3 & H3 & H).
  set (up := util.make_set (di_order1 ch) (CHNode.up_neighbors chv)) in *.
  assert (up_ordered (set_up ch v up)) as Ho1.
  { eapply up_ordered_set_up; [done..|]. intros x Hx%elem_of_make_set.
    by apply (Ho v chv). }
  assert (∀ x, x ∈ up → di ch2 (node x) < di ch2 v) as Hup.
  { intros x Hx. rewrite <- !(down_frame_di _ _ _ (sc_pairs_frame _ _ _ _ _ _ H2)).
    assert (set_up ch v up !! v
            = Some (CHNode.mk (CHNode.dist_index chv) up (CHNode.down_neighbors chv))) as Hv1.
    { unfold set_up. by rewrite list_lookup_alter_eq, Hv. }
    rewrite (di_lookup _ _ _ Hv1). by apply (Ho1 v _ x Hv1). }
  assert (down_ordered ch2) as Hd2.
  { eapply down_ordered_down_frame; [|done].
    eapply down_frame_trans; [apply down_frame_set_up|by eapply sc_pairs_frame]. }
  pose proof H2 as H2'.
  apply sc_pairs_inv in H2' as [Ho2 Hw2];
    [|done|eapply labels_within_di; [apply di_set_up|done]].
  pose proof H3 as H3'.
  eapply sc_down_inv in H3' as [Ho3 Hw3]; [|done..].
  eapply IH; [done..|]. by eapply sc_down_down.
Qed.

Lemma sc_labels_down cfg todo : ∀ ch ci ch' ci',
  sc_labels cfg todo ch ci = Ok (ch', ci') → down_ordered ch → down_ordered ch'.
Proof.
  induction todo as [|x todo IH]; simpl; intros ch ci ch' ci' H Ho.
  { by inv_res. }
  apply bind_Ok_inv in H as (chx & Hx & H). apply at_Ok in Hx.
  apply bind_Ok_inv in H as (ci1 & H1 & H).
  apply bind_Ok_inv in H as (c & Hc & H).
  eapply IH in H; [done|]. destruct (MULTI_THREAD_DISTANCES cfg); [done|].
  eapply down_ordered_set_down; [done..|]. intros u Hu%elem_of_sort_by.
  by apply (Ho x chx).
Qed.

Lemma create_sc_graph_down_ordered cfg g ch ci closest ch' ci' :
  no_edges ch → Forall (λ c, CutIndex.distances c = []) ci →
  create_sc_graph cfg g ch ci closest = Ok (ch', ci') →
  down_ordered ch'.
Proof.
  intros He Hci H. unfold create_sc_graph in H.
  apply bind_Ok_inv in H as ([[ch1 ci1] bu] & H1 & H).
  apply bind_Ok_inv in H as ([ch2 ci2] & H2 & H).
  apply bind_Ok_inv in H as ([ch3 ci3] & H3 & H).
  apply bind_Ok_inv in H as (order & _ & H).
  apply sc_init_inv in H1 as [He1 Hw1];
    [|by apply no_edges_vresize|by apply empty_labels_within].
  pose proof (sc_graph_edges_frame _ _ _ _ _ _ _ H2) as Hf.
  eapply sc_graph_edges_inv in H2 as [Ho2 Hw2]; [|by apply no_edges_up_ordered|done].
  eapply sc_bottom_up_down in H3; [|done..|].
  - by eapply sc_labels_down.
  - eapply down_ordered_down_frame; [done|]. by apply no_edges_down_ordered.
Qed.

Lemma create_sc_graph_all_down_ordered cfg g ch ci ch' ci' :
  no_edges ch → Forall (λ c, CutIndex.distances c = []) ci →
  create_sc_graph_all cfg g ch ci = Ok (ch', ci') →
  down_ordered ch'.
Proof.
  intros He Hci H. unfold create_sc_graph_all in H.
  apply bind_Ok_inv in H as ([ch1 ci1] & H1 & H).
  apply bind_Ok_inv in H as ([ch2 ci2] & H2 & H).
  apply bind_Ok_inv in H as ([ch3 ci3] & H3 & H).
  apply bind_Ok_inv in H as (order & _ & H).
  apply sc_init_all_inv in H1 as [He1 Hw1];
    [|by apply no_edges_vresize|by apply empty_labels_within].
  pose proof (sc_graph_edges_all_frame _ _ _ _ _ _ H2) as Hf.
  eapply sc_graph_edges_all_inv in H2 as [Ho2 Hw2]; [|by apply no_edges_up_ordered|done].
  eapply sc_bottom_up_down in H3; [|done..|].
  - by eapply sc_labels_down.
  - eapply down_ordered_down_frame; [done|]. by apply no_edges_down_ordered.
Qed.

(** *** Maintenance: the operations write weights and counts only *)

Lemma GS_Dec_loop_shape fuel : ∀ ch q C ch' C',
  GS_Dec_loop fuel ch q C = Ok (ch', C') → same_shape ch ch'.
Proof.
  induction fuel as [|fuel IH]; intros ch q C ch' C' H; simpl in H;
    destruct (pq_pop q) as [[next q']|]; try discriminate;
    try (injection H as <- <-; apply same_shape_refl).
  apply bind_Ok_inv in H as ([k x] & Hx & H).
  destruct (_ || _).
  - apply bind_Ok_inv in H as (n & Hn & H). apply bind_Ok_inv in H as (q2 & Hq & H).
    apply IH in H. eapply same_shape_trans; [apply same_shape_assign_up|done].
  - by eapply IH.
Qed.

Lemma GS_Dec_shape fuel ch updates C ch' C' :
  GS_Dec fuel ch updates C = Ok (ch', C') → same_shape ch ch'.
Proof.
  unfold GS_Dec. intros H.
  apply bind_Ok_inv in H as (q & Hq & H). apply bind_Ok_inv in H as ([ch1 C1] & H1 & H).
  injection H as <- <-. by eapply GS_Dec_loop_shape.
Qed.

Lemma GS_Inc_common_shape fuel v w k : ∀ dv dw ch ch',
  GS_Inc_common fuel v w k dv dw ch = Ok ch' → same_shape ch ch'.
Proof.
  induction fuel as [|fuel IH]; intros dv dw ch ch' H; simpl in H.
  { injection H as <-. apply same_shape_refl. }
  destruct dv as [|a dv]; [injection H as <-; apply same_shape_refl|].
  destruct dw as [|b dw]; [injection H as <-; apply same_shape_refl|].
  destruct (a <? b)%nat; [by eapply IH|].
  destruct (b <? a)%nat; [by eapply IH|].
  apply bind_Ok_inv in H as ([? av] & Hav & H). apply bind_Ok_inv in H as ([? aw] & Haw & H).
  apply bind_Ok_inv in H as (nv & Hn & H). apply bind_Ok_inv in H as (x & Hx & H).
  apply IH in H. eapply same_shape_trans; [|done].
  destruct (_ <? _); [apply same_shape_assign_up|].
  destruct (_ =? _); [apply same_shape_assign_up|apply same_shape_refl].
Qed.

Lemma GS_Inc_loop_shape cfg g fuel : ∀ ch q C ch' C',
  GS_Inc_loop cfg g fuel ch q C = Ok (ch', C') → same_shape ch ch'.
Proof.
  induction fuel as [|fuel IH]; intros ch q C ch' C' H; simpl in H;
    destruct (pq_pop q) as [[next q']|]; try discriminate;
    try (injection H as <- <-; apply same_shape_refl).
  apply bind_Ok_inv in H as (nv & Hnv & H). apply bind_Ok_inv in H as (q2 & Hq & H).
  apply bind_Ok_inv in H as ([k x] & Hx & H). apply bind_Ok_inv in H as (ch1 & H1 & H).
  apply IH in H. eapply same_shape_trans; [|done].
  destruct (_ <? _).
  - injection H1 as <-. apply same_shape_assign_up.
  - apply bind_Ok_inv in H1 as (nd & Hnd & H1). apply bind_Ok_inv in H1 as (nw & Hnw & H1).
    apply GS_Inc_common_shape in H1.
    eapply same_shape_trans; [apply same_shape_assign_up|done].
Qed.

Lemma GS_Inc_shape cfg g fuel ch updates C ch' C' :
  GS_Inc cfg g fuel ch updates C = Ok (ch', C') → same_shape ch ch'.
Proof.
  unfold GS_Inc. intros H.
  apply bind_Ok_inv in H as (q & Hq & H). apply bind_Ok_inv in H as ([ch1 C1] & H1 & H).
  injection H as <- <-. by eapply GS_Inc_loop_shape.
Qed.

Lemma DCL_Dec_shape cfg fuel ch idx updates ch' idx' trace :
  DCL_Dec cfg fuel ch idx updates = Ok (ch', idx', trace) → same_shape ch ch'.
Proof.
  unfold DCL_Dec. intros H.
  apply bind_Ok_inv in H as ([ch1 C] & H1 & H). apply bind_Ok_inv in H as (q & Hq & H).
  apply bind_Ok_inv in H as ([[ci1 q1] tr] & Hd & H).
  destruct (util.empty q1); [|discriminate]. injection H as <- <- <-.
  by eapply GS_Dec_shape.
Qed.

Lemma DCL_Inc_shape cfg g fuel ch idx updates ch' idx' trace :
  DCL_Inc cfg g fuel ch idx updates = Ok (ch', idx', trace) → same_shape ch ch'.
Proof.
  unfold DCL_Inc. intros H.
  apply bind_Ok_inv in H as ([ch1 C] & H1 & H). apply bind_Ok_inv in H as (q & Hq & H).
  apply bind_Ok_inv in H as ([[ci1 q1] tr] & Hd & H).
  destruct (util.empty q1); [|discriminate]. injection H as <- <- <-.
  by eapply GS_Inc_shape.
Qed.

Lemma maintenance_step_shape cfg ch ch' : maintenance_step cfg ch ch' → same_shape ch ch'.
Proof.
  destruct 1; eauto using GS_Dec_shape, GS_Inc_shape, DCL_Dec_shape, DCL_Inc_shape.
Qed.

Lemma maintenance_shape cfg ch ch' : rtc (maintenance_step cfg) ch ch' → same_shape ch ch'.
Proof.
  induction 1 as [|ch ch1 ch2 Hs _ IH]; [apply same_shape_refl|].
  eapply same_shape_trans; [by eapply maintenance_step_shape|done].
Qed.

End shape.

(** ** The bucket queue of [DCL_Dec] *)

Section queue.

Context {T : Type}.
Implicit Types (q : util.min_bucket_queue T).

Lemma skip_empty_ge (bs : list (list T)) : ∀ k, (k ≤ util.skip_empty bs k)%nat.
Proof.
  induction bs as [|b bs IH]; intros k; simpl; [lia|].
  destruct b; [|lia]. specialize (IH (S k)). lia.
Qed.

(** A [pop] takes an entry of the bucket [min_bucket] and never moves
    [min_bucket] down. *)
Lemma pop_Ok cfg q top q' :
  util.pop cfg q = Ok (top, q') →
  (∃ b, util.buckets q !! util.min_bucket q = Some (b ++ [top])
        ∧ util.buckets q' = <[util.min_bucket q := b]> (util.buckets q))
  ∧ (util.min_bucket q ≤ util.min_bucket q')%nat.
Proof.
  unfold util.pop. destruct (util.buckets q !! util.min_bucket q) as [b|] eqn:Hb.
  2:{ by destruct (NDEBUG cfg). }
  destruct (last b) as [x|] eqn:Hl.
  2:{ by destruct (NDEBUG cfg). }
  intros [= <- <-]. apply last_Some in Hl as [b' ->]. simpl. split.
  - exists b'. by rewrite removelast_last.
  - apply skip_empty_ge.
Qed.

Lemma min_bucket_push q x b k :
  (k ≤ util.min_bucket q)%nat → (k ≤ b)%nat → (k ≤ util.min_bucket (util.push q x b))%nat.
Proof. intros. unfold util.push. simpl. by destruct (_ || _). Qed.

Lemma buckets_push q x b k l :
  util.buckets (util.push q x b) !! k = Some l →
  (k = b ∧ ∃ l0, l = l0 ++ [x]
     ∧ (util.buckets q !! k = Some l0 ∨ (util.buckets q !! k = None ∧ l0 = [])))
  ∨ (k ≠ b ∧ (util.buckets q !! k = Some l ∨ l = [])).
Proof.
  unfold util.push. simpl. rewrite list_lookup_alter. case_decide; [subst|].
  - intros H. left. split; [done|].
    destruct ((util.buckets q ++ _) !! k) as [l0|] eqn:E; [|done].
    injection H as <-. exists l0. split; [done|].
    apply lookup_app_Some in E as [E|[Hge E]]; [by left|].
    apply lookup_replicate in E as [-> _]. right. split; [|done].
    by apply lookup_ge_None.
  - intros E. right. split; [done|].
    apply lookup_app_Some in E as [E|[Hge E]]; [by left|].
    apply lookup_replicate in E as [-> _]. by right.
Qed.

End queue.

Section dequeue_order.

Variable ch : list CHNode.t.

Lemma queue_keyed_new : queue_keyed ch util.queue_new.
Proof. intros k b e Hb. simpl in Hb. by rewrite lookup_nil in Hb. Qed.

Lemma queue_keyed_push q e :
  queue_keyed ch q → queue_keyed ch (util.push q e (Z.to_nat (di ch (i_v e)))).
Proof.
  intros Hq k l x Hl Hx.
  apply buckets_push in Hl as [(-> & l0 & -> & Hl0)|(Hne & [Hl| ->])].
  - apply elem_of_app in Hx as [Hx|Hx].
    + destruct Hl0 as [Hl0|[_ ->]]; [by eapply Hq|by apply elem_of_nil in Hx].
    + by apply list_elem_of_singleton in Hx as ->.
  - by eapply Hq.
  - by apply elem_of_nil in Hx.
Qed.

Lemma queue_keyed_pop cfg q top q' :
  util.pop cfg q = Ok (top, q') → queue_keyed ch q →
  util.min_bucket q = Z.to_nat (di ch (i_v top)) ∧ queue_keyed ch q'
  ∧ (util.min_bucket q ≤ util.min_bucket q')%nat.
Proof.
  intros Hp Hq. apply pop_Ok in Hp as [(b & Hb & Hq') Hle].
  split; [|split; [|done]].
  - eapply Hq; [done|]. apply elem_of_app. right. left.
  - intros k l e Hl He. rewrite Hq' in Hl.
    apply list_lookup_insert_Some in Hl as [(<- & <- & _)|[Hne Hl]]; [|by eapply Hq].
    eapply Hq; [done|]. apply elem_of_app. by left.
Qed.

Lemma DCL_Dec_slots_keyed v d c a b slots : ∀ q q',
  DCL_Dec_slots v (Z.to_nat (di ch v)) d c a b slots q = Ok q' →
  queue_keyed ch q → queue_keyed ch q'.
Proof.
  induction slots as [|i slots IH]; simpl; intros q q' H Hq.
  { by injection H as <-. }
  apply bind_Ok_inv in H as (bd & Hbd & H). apply bind_Ok_inv in H as (ad & Had & H).
  destruct (_ <=? ad); [|by eapply IH].
  apply bind_Ok_inv in H as (bp & Hbp & H). eapply IH; [done|].
  by apply (queue_keyed_push q (mkICH v i _ _)).
Qed.

Lemma DCL_Dec_seed_keyed idx C : ∀ q q',
  DCL_Dec_seed ch idx C q = Ok q' → queue_keyed ch q → queue_keyed ch q'.
Proof.
  induction C as [|[[v w] [d c]] C IH]; intros q q' H Hq; cbn [DCL_Dec_seed] in H.
  { by injection H as <-. }
  apply bind_Ok_inv in H as ([? a] & Ha & H). apply bind_Ok_inv in H as (dw & Hdw & H).
  apply bind_Ok_inv in H as (cur & Hcur & H).
  destruct (d <=? cur); [|by eapply IH].
  apply bind_Ok_inv in H as ([? b] & Hb & H). apply bind_Ok_inv in H as (dv & Hdv & H).
  apply bind_Ok_inv in H as (q1 & H1 & H).
  apply dist_index_of_Ok in Hdv as [_ <-].
  eapply IH; [done|]. eapply DCL_Dec_slots_keyed; eauto.
Qed.

(** The entries pushed for the down-neighbours of the dequeued vertex go
    to buckets that are not below the one just served. *)
Lemma DCL_Dec_down_keyed idx next k down : ∀ q q',
  DCL_Dec_down ch idx next down q = Ok q' →
  (∀ u, u ∈ down → (k ≤ Z.to_nat (di ch u))%nat) →
  queue_keyed ch q → (k ≤ util.min_bucket q)%nat →
  queue_keyed ch q' ∧ (k ≤ util.min_bucket q')%nat.
Proof.
  induction down as [|u down IH]; simpl; intros q q' H Hdown Hq Hk.
  { by injection H as <-. }
  apply bind_Ok_inv in H as ([? x] & Hx & H). apply bind_Ok_inv in H as ([? cu] & Hcu & H).
  apply bind_Ok_inv in H as (ud & Hud & H).
  assert (∀ u0, u0 ∈ down → (k ≤ Z.to_nat (di ch u0))%nat) as Hdown'.
  { intros u0 Hu0. apply Hdown. by right. }
  destruct (_ <=? ud); [|by eapply IH].
  apply bind_Ok_inv in H as (du & Hdu & H). apply dist_index_of_Ok in Hdu as [_ <-].
  eapply IH; [done..| |].
  - by apply (queue_keyed_push q (mkICH u _ _ _)).
  - apply min_bucket_push; [done|]. apply Hdown. left.
Qed.

Lemma DCL_Dec_drain_sorted cfg fuel : ∀ idx q trace idx' q' trace',
  DCL_Dec_drain cfg ch fuel idx q trace = Ok (idx', q', trace') →
  down_ordered ch → queue_keyed ch q →
  StronglySorted le trace.*1 → Forall (λ k, (k ≤ util.min_bucket q)%nat) trace.*1 →
  trace_keyed ch trace →
  StronglySorted le trace'.*1 ∧ trace_keyed ch trace'.
Proof.
  induction fuel as [|fuel IH]; simpl; intros idx q trace idx' q' trace' H Hd Hq Hs Hm Ht.
  { by injection H as <- <- <-. }
  destruct (util.empty q); [by injection H as <- <- <-|].
  apply bind_Ok_inv in H as ([next q1] & Hpop & H).
  apply (queue_keyed_pop _ _ _ _ Hpop) in Hq as (Hkey & Hq1 & Hle).
  assert (StronglySorted le (trace ++ [(util.min_bucket q, next)]).*1) as Hs'.
  { rewrite fmap_app. apply StronglySorted_app_2; [|done|repeat constructor].
    intros x1 x2 Hx1 ->%list_elem_of_singleton.
    by apply (proj1 (Forall_forall _ _) Hm). }
  assert (trace_keyed ch (trace ++ [(util.min_bucket q, next)])) as Ht'.
  { apply Forall_app. split; [done|]. by repeat constructor. }
  assert (∀ q2 : util.min_bucket_queue ICHSearchNode,
    (util.min_bucket q ≤ util.min_bucket q2)%nat →
    Forall (λ k, (k ≤ util.min_bucket q2)%nat) (trace ++ [(util.min_bucket q, next)]).*1) as Hm'.
  { intros q2 Hq2. rewrite fmap_app. apply Forall_app. split.
    - eapply Forall_impl; [done|]. simpl. lia.
    - by repeat constructor. }
  apply bind_Ok_inv in H as ([a cv] & Hcv & H). apply bind_Ok_inv in H as (cur & Hcur & H).
  destruct (_ || _); [|eapply IH; eauto].
  apply bind_Ok_inv in H as (p & Hp & H). apply bind_Ok_inv in H as (idx1 & Hw & H).
  apply bind_Ok_inv in H as (n & Hn & H). apply at_Ok in Hn.
  apply bind_Ok_inv in H as (q2 & Hdown & H).
  eapply DCL_Dec_down_keyed in Hdown as [Hq2 Hle2]; [| |done|done].
  - eapply IH; eauto.
  - intros u Hu. specialize (Hd _ _ _ Hn Hu). rewrite Hkey. lia.
Qed.

End dequeue_order.

(** ** The edge direction invariant *)

(** C6.  After [create_sc_graph] (either overload, run on a hierarchy without
    edges and on labels that are still empty, as [create_cut_index] leaves
    them) every up-neighbour of every vertex is a vertex of the shortcut
    graph with a strictly smaller [dist_index], and no vertex reaches itself
    along up-edges.  Both remain true after any sequence of [GS_Dec],
    [GS_Inc], [DCL_Dec] and [DCL_Inc]: these write the weight and the count
    of existing entries only. *)
Theorem up_neighbors_ordered cfg g ch ci closest ch' ci' :
  no_edges ch →
  Forall (λ c, CutIndex.distances c = []) ci →
  create_sc_graph cfg g ch ci closest = Ok (ch', ci')
    ∨ create_sc_graph_all cfg g ch ci = Ok (ch', ci') →
  up_ordered ch' ∧ acyclic ch'
  ∧ ∀ ch1, rtc (maintenance_step cfg) ch' ch1 → up_ordered ch1 ∧ acyclic ch1.
Proof.
  intros He Hci H.
  assert (up_ordered ch') as Ho.
  { destruct H as [H|H];
      [by eapply create_sc_graph_up_ordered|by eapply create_sc_graph_all_up_ordered]. }
  split; [done|]. split; [by apply up_ordered_acyclic|].
  intros ch1 Hsteps.
  assert (up_ordered ch1) as Ho1.
  { eapply up_ordered_same_shape; [by eapply maintenance_shape|done]. }
  split; [done|by apply up_ordered_acyclic].
Qed.

Lemma up_neighbors_ordered_witness :
  (up_ordered weighted_sc.1 ∧ acyclic weighted_sc.1)
  ∧ (up_ordered decreased.1.1 ∧ acyclic decreased.1.1).
Proof.
  destruct (up_neighbors_ordered spec_config weighted_graph [] example_cut_index
              example_closest weighted_sc.1 weighted_sc.2) as (Ho & Ha & Hm).
  - constructor.
  - repeat constructor.
  - left. vm_compute. reflexivity.
  - split; [exact (conj Ho Ha)|]. apply Hm. apply rtc_once.
    apply (step_DCL_Dec spec_config _ _ 100%nat weighted_index decrease_3_2
             decreased.1.2 decreased.2).
    vm_compute. reflexivity.
Defined.

(** ** The order of the dequeues *)

(** C5, as the code has it.  When every down-neighbour lies strictly below
    its vertex (larger [dist_index], as [create_sc_graph] leaves the
    hierarchy), the bucket keys of the successive dequeues of [DCL_Dec]
    never decrease, and each key is the [dist_index] of the vertex of the
    entry dequeued: ancestors are served before descendants. *)
Theorem DCL_Dec_dequeue_order cfg fuel ch idx updates ch' idx' trace :
  down_ordered ch →
  DCL_Dec cfg fuel ch idx updates = Ok (ch', idx', trace) →
  StronglySorted le trace.*1 ∧ trace_keyed ch' trace.
Proof.
  intros Hd H. unfold DCL_Dec in H.
  apply bind_Ok_inv in H as ([ch1 C] & H1 & H). apply bind_Ok_inv in H as (q & Hq & H).
  apply bind_Ok_inv in H as ([[idx1 q1] tr] & Hdrain & H).
  destruct (util.empty q1); [|discriminate]. injection H as <- <- <-.
  eapply DCL_Dec_drain_sorted in Hdrain; [done| | |constructor|constructor|constructor].
  - eapply down_ordered_down_frame; [|done].
    apply same_shape_down_frame. by eapply GS_Dec_shape.
  - eapply DCL_Dec_seed_keyed; [done|]. apply queue_keyed_new.
Qed.

Lemma DCL_Dec_dequeue_order_witness :
  StronglySorted le decreased.2.*1 ∧ trace_keyed decreased.1.1 decreased.2.
Proof.
  apply (DCL_Dec_dequeue_order spec_config 100 weighted_sc.1 weighted_index decrease_3_2
           decreased.1.1 decreased.1.2 decreased.2).
  - apply (create_sc_graph_down_ordered spec_config weighted_graph [] example_cut_index
             example_closest weighted_sc.1 weighted_sc.2).
    + constructor.
    + repeat constructor.
    + vm_compute. reflexivity.
  - vm_compute. reflexivity.
Defined.

(** The claim fails on the square of weight 2 when the edge 3-2 drops to
    weight 1: [DCL_Dec] dequeues twice, first the entry of vertex 3 from
    bucket 1, then the entry of vertex 2 from bucket 2, so the keys
    increase. *)
Lemma DCL_Dec_dequeues_upwards :
  create_sc_graph spec_config weighted_graph [] example_cut_index example_closest
  = Ok weighted_sc
  ∧ ContractionIndex_build spec_config weighted_sc.2 example_closest = Ok weighted_index
  ∧ ∃ ch' idx' e1 e2,
      DCL_Dec spec_config 100 weighted_sc.1 weighted_index decrease_3_2
      = Ok (ch', idx', [(1%nat, e1); (2%nat, e2)])
      ∧ i_v e1 = 3%nat ∧ di ch' (i_v e1) = 1
      ∧ i_v e2 = 2%nat ∧ di ch' (i_v e2) = 2.
Proof.
  split; [vm_compute; reflexivity|]. split; [vm_compute; reflexivity|].
  eexists _, _, _, _. split; [vm_compute; reflexivity|].
  repeat split; vm_compute; reflexivity.
Qed.

(** ** Queries after an increase *)

(** C3 on the files of a run.  [pentagon_file] is a cycle 1-2-3-4-5 of
    edges of weight 2.  The index program, in a build with
    [MULTI_THREAD_DISTANCES] and without assertions, finds the separator
    [2; 4], then 1 above 5, and leaves the down-neighbours in bottom-up
    order: [5; 1; 3] for vertex 4.  The index answers every query as
    [run_dijkstra] does.  The update program is then run on the line
    [2 3 2] in mode [i], which takes the edge 2-3 to weight 3, so that the
    shortest way from 2 to 4 is 2-3-4 of weight 5.  [GS_Inc] recomputes the
    shortcut 4-2 from the common down-neighbours of 4 and 2, found by a
    walk that takes both lists to be sorted by vertex; it passes over 1 and
    3, the shortcut is left without a weight, and the query answers
    [infinity], whichever of the two values [infinity] has.  In a build
    that sorts the lists the same run answers 5.  With the assertions
    compiled in the partitioner starts from the first vertex, whatever
    [rand()] gives, and the line [1 2 2] does the same to the pair 2, 5. *)
Theorem DCL_Inc_skips_common_down_neighbor :
  Forall (λ uv, agrees (answer_after spec_config unseeded_build pentagon_file no_updates "i" uv.1 uv.2))
    pentagon_pairs
  ∧ down_neighbors_built spec_config unseeded_build pentagon_file
    = Ok [[]; [5]; [1; 3; 4]; []; [5; 1; 3]; []]%nat
  ∧ answer_after spec_config unseeded_build pentagon_file "2 3 2" "i" 2 4 = Ok (4294967295, 5)
  ∧ answer_after spec_config unseeded_build pentagon_file "2 3 2" "i" 4 2 = Ok (4294967295, 5)
  ∧ answer_after half_range_config unseeded_build pentagon_file "2 3 2" "i" 2 4
    = Ok (2147483647, 5)
  ∧ down_neighbors_built single_thread_config unseeded_build pentagon_file
    = Ok [[]; [5]; [1; 3; 4]; []; [1; 3; 5]; []]%nat
  ∧ answer_after single_thread_config unseeded_build pentagon_file "2 3 2" "i" 2 4 = Ok (5, 5)
  ∧ (∀ rnd,
       down_neighbors_built debug_config {| rand := rnd; below_dist_index := Some 0 |}
         pentagon_file
       = Ok [[]; []; [1; 3; 5]; [4]; []; [4; 1; 3]]%nat
       ∧ answer_after debug_config {| rand := rnd; below_dist_index := Some 0 |}
           pentagon_file "1 2 2" "i" 2 5
         = Ok (4294967295, 5)).
Proof.
  split.
  { unfold pentagon_pairs. repeat (apply Forall_cons; split; [vm_compute; reflexivity|]).
    apply Forall_nil. done. }
  split; [vm_compute; reflexivity|]. split; [vm_compute; reflexivity|].
  split; [vm_compute; reflexivity|]. split; [vm_compute; reflexivity|].
  split; [vm_compute; reflexivity|]. split; [vm_compute; reflexivity|].
  intros rnd. split; vm_compute; reflexivity.
Qed.

(** * Further properties *)

(** ** Partition bit vectors *)

Lemma wrap64_shiftl_low x k :
  0 <= k <= 64 →
  PBV.wrap64 (Z.shiftl x (64 - k)) = (x mod 2 ^ k) * 2 ^ (64 - k).
Proof.
  intros Hk. unfold PBV.wrap64. rewrite Z.shiftl_mul_pow2 by lia.
  change 18446744073709551616 with (2 ^ 64).
  replace (2 ^ 64) with (2 ^ k * 2 ^ (64 - k)) at 1
    by (rewrite <- Z.pow_add_r by lia; f_equal; lia).
  rewrite Zmult_mod_distr_r. done.
Qed.

(** The word [from] builds: the lowest [k] bits of [x] above the six bits
    that hold [k]. *)
Lemma pbv_pack x k :
  1 <= k <= 58 →
  Z.shiftr (PBV.wrap64 (Z.shiftl x (64 - k))) (58 - k) = Z.shiftl (x mod 2 ^ k) 6.
Proof.
  intros Hk. rewrite wrap64_shiftl_low by lia.
  rewrite Z.shiftr_div_pow2, Z.shiftl_mul_pow2 by lia.
  replace (2 ^ (64 - k)) with (2 ^ 6 * 2 ^ (58 - k))
    by (rewrite <- Z.pow_add_r by lia; f_equal; lia).
  rewrite Z.mul_assoc, Z.div_mul by lia. done.
Qed.

Lemma land_63 k : 0 <= k < 64 → Z.land k 63 = k.
Proof.
  intros Hk. change 63 with (Z.ones 6). rewrite Z.land_ones by lia.
  apply Z.mod_small. change (2 ^ 6) with 64. lia.
Qed.

Lemma pbv_unpack m k :
  0 <= k < 64 →
  PBV.partition (Z.lor (Z.shiftl m 6) k) = m
  ∧ PBV.cut_level (Z.lor (Z.shiftl m 6) k) = k.
Proof.
  intros Hk. unfold PBV.partition, PBV.cut_level. split.
  - rewrite Z.shiftr_lor, Z.shiftr_shiftl_l by lia. rewrite Z.sub_diag, Z.shiftl_0_r.
    rewrite (Z.shiftr_div_pow2 k) by lia. rewrite Z.div_small by (change (2 ^ 6) with 64; lia).
    apply Z.lor_0_r.
  - rewrite Z.land_lor_distr_l, (land_63 k) by done.
    change 63 with (Z.ones 6). rewrite Z.land_ones by lia.
    rewrite Z.shiftl_mul_pow2 by lia. rewrite Z.mod_mul by lia. done.
Qed.

(** X1.  [PBV::from] keeps the lowest [length] bits of [bits] and the length
    itself: [partition] and [cut_level] read both back.  A partition that
    fits its level therefore survives the round trip unchanged. *)
Theorem PBV_from_round_trip bits length :
  0 <= length <= MAX_CUT_LEVEL →
  PBV.partition (PBV.from bits length) = bits mod 2 ^ length
  ∧ PBV.cut_level (PBV.from bits length) = length.
Proof.
  unfold MAX_CUT_LEVEL. intros Hl. unfold PBV.from.
  destruct (length =? 0) eqn:E.
  - apply Z.eqb_eq in E as ->. by rewrite Z.pow_0_r, Z.mod_1_r.
  - apply Z.eqb_neq in E. rewrite pbv_pack by lia. apply pbv_unpack. lia.
Qed.

Lemma PBV_from_round_trip_witness :
  PBV.partition (PBV.from 5 3) = 5 mod 2 ^ 3 ∧ PBV.cut_level (PBV.from 5 3) = 3.
Proof. apply (PBV_from_round_trip 5 3). unfold MAX_CUT_LEVEL. lia. Defined.

Lemma cut_level_range bv : 0 <= PBV.cut_level bv < 64.
Proof.
  unfold PBV.cut_level. change 63 with (Z.ones 6). rewrite Z.land_ones by lia.
  change (2 ^ 6) with 64. apply Z.mod_pos_bound. lia.
Qed.

Lemma mod_pow2_eq_bits x y k :
  0 <= k → (∀ j, 0 <= j < k → Z.testbit x j = Z.testbit y j) →
  x mod 2 ^ k = y mod 2 ^ k.
Proof.
  intros Hk Hb. apply Z.bits_inj'. intros j Hj.
  destruct (decide (j < k)).
  - rewrite !Z.mod_pow2_bits_low by lia. apply Hb. lia.
  - by rewrite !Z.mod_pow2_bits_high by lia.
Qed.

Lemma lxor_mod_pow2_0 x y k :
  0 <= k → (Z.lxor x y) mod 2 ^ k = 0 ↔ x mod 2 ^ k = y mod 2 ^ k.
Proof.
  intros Hk. split; intros H.
  - apply mod_pow2_eq_bits; [done|]. intros j Hj.
    assert (Z.testbit (Z.lxor x y mod 2 ^ k) j = false) as Hb by (rewrite H; apply Z.bits_0).
    rewrite Z.mod_pow2_bits_low, Z.lxor_spec in Hb by lia.
    by destruct (Z.testbit x j), (Z.testbit y j).
  - apply Z.bits_inj'. intros j Hj. rewrite Z.bits_0.
    destruct (decide (j < k)); [|by rewrite Z.mod_pow2_bits_high by lia].
    rewrite Z.mod_pow2_bits_low, Z.lxor_spec by lia.
    assert (Z.testbit (x mod 2 ^ k) j = Z.testbit (y mod 2 ^ k) j) as Hb by by rewrite H.
    rewrite !Z.mod_pow2_bits_low in Hb by lia. rewrite Hb. apply xorb_nilpotent.
Qed.

(** X2.  [is_ancestor] holds exactly when the first word is at level 0, or
    is not deeper than the second and the two partitions agree on the bits
    below the first word's level. *)
Theorem PBV_is_ancestor_spec bv_ancestor bv_descendant :
  PBV_is_ancestor bv_ancestor bv_descendant = true
  ↔ PBV.cut_level bv_ancestor = 0
    ∨ (PBV.cut_level bv_ancestor <= PBV.cut_level bv_descendant
       ∧ PBV.partition bv_ancestor mod 2 ^ PBV.cut_level bv_ancestor
         = PBV.partition bv_descendant mod 2 ^ PBV.cut_level bv_ancestor).
Proof.
  unfold PBV_is_ancestor.
  pose proof (cut_level_range bv_ancestor) as Hr.
  set (cla := PBV.cut_level bv_ancestor) in *.
  rewrite orb_true_iff, andb_true_iff, Z.eqb_eq, Z.leb_le, Z.eqb_eq.
  rewrite wrap64_shiftl_low by lia. rewrite Z.shiftr_lxor.
  fold (PBV.partition bv_ancestor) (PBV.partition bv_descendant).
  rewrite <- (lxor_mod_pow2_0 _ _ cla) by lia.
  assert (0 < 2 ^ (64 - cla)) by (apply Z.pow_pos_nonneg; lia).
  split; (intros [?|[? Hz]]; [by left|right; split; [done|nia]]).
Qed.

Lemma lca_level_bounds a b :
  0 <= PBV.lca_level a b
  ∧ PBV.lca_level a b <= PBV.cut_level a ∧ PBV.lca_level a b <= PBV.cut_level b
  ∧ PBV.partition a mod 2 ^ PBV.lca_level a b = PBV.partition b mod 2 ^ PBV.lca_level a b.
Proof.
  unfold PBV.lca_level.
  pose proof (cut_level_range a) as Hra. pose proof (cut_level_range b) as Hrb.
  set (p := PBV.partition a). set (q := PBV.partition b).
  destruct (p =? q) eqn:E.
  { apply Z.eqb_eq in E. rewrite E. lia. }
  apply Z.eqb_neq in E.
  assert (Z.lxor p q ≠ 0) as Hx by (by rewrite Z.lxor_eq_0_iff).
  assert (0 <= PBV.ctzll (Z.lxor p q)
          ∧ ∀ j, 0 <= j < PBV.ctzll (Z.lxor p q) → Z.testbit p j = Z.testbit q j) as [Hc Hl].
  { destruct (Z.lxor p q) as [|x|x] eqn:Ex; [done| |simpl; split; [lia|intros; lia]].
    simpl. destruct (ctz_pos_spec x) as (Hnn & _ & Hlow). split; [done|].
    intros j Hj. specialize (Hlow j Hj). rewrite <- Ex, Z.lxor_spec in Hlow.
    by destruct (Z.testbit p j), (Z.testbit q j). }
  destruct (_ <? _) eqn:Hlt.
  - apply Z.ltb_lt in Hlt. repeat split; try lia. by apply mod_pow2_eq_bits.
  - apply Z.ltb_ge in Hlt. repeat split; try lia.
    apply mod_pow2_eq_bits; [lia|]. intros j Hj. apply Hl. lia.
Qed.

(** X3.  For two words whose levels are within [MAX_CUT_LEVEL], the word
    [lca] returns is an ancestor of both, at their [lca_level] and with the
    first word's partition cut down to that level. *)
Theorem PBV_lca_common_ancestor bv1 bv2 :
  PBV.cut_level bv1 <= MAX_CUT_LEVEL ∨ PBV.cut_level bv2 <= MAX_CUT_LEVEL →
  PBV.cut_level (PBV_lca bv1 bv2) = PBV.lca_level bv1 bv2
  ∧ PBV.partition (PBV_lca bv1 bv2) = PBV.partition bv1 mod 2 ^ PBV.lca_level bv1 bv2
  ∧ PBV_is_ancestor (PBV_lca bv1 bv2) bv1 = true
  ∧ PBV_is_ancestor (PBV_lca bv1 bv2) bv2 = true.
Proof.
  unfold MAX_CUT_LEVEL. intros Hmax.
  destruct (lca_level_bounds bv1 bv2) as (H0 & H1 & H2 & Heq).
  assert (PBV.cut_level (PBV_lca bv1 bv2) = PBV.lca_level bv1 bv2
          ∧ PBV.partition (PBV_lca bv1 bv2)
            = PBV.partition bv1 mod 2 ^ PBV.lca_level bv1 bv2) as [Hc Hp].
  { unfold PBV_lca. set (l := PBV.lca_level bv1 bv2) in *.
    destruct (l =? 0) eqn:E.
    - apply Z.eqb_eq in E. rewrite E. by rewrite Z.pow_0_r, Z.mod_1_r.
    - apply Z.eqb_neq in E. rewrite pbv_pack by lia.
      destruct (pbv_unpack (Z.shiftr bv1 6 mod 2 ^ l) l) as [Hp Hc]; [lia|]. done. }
  split; [done|]. split; [done|].
  rewrite !PBV_is_ancestor_spec, Hc, Hp.
  assert (∀ x l, 0 <= l → (x mod 2 ^ l) mod 2 ^ l = x mod 2 ^ l) as Hmm.
  { intros x l Hl. apply Z.mod_mod. apply Z.pow_nonzero; lia. }
  split; right; (split; [done|]); rewrite Hmm by done; done.
Qed.

Lemma PBV_lca_common_ancestor_witness :
  PBV.cut_level (PBV_lca 195 323) = PBV.lca_level 195 323
  ∧ PBV.partition (PBV_lca 195 323) = PBV.partition 195 mod 2 ^ PBV.lca_level 195 323
  ∧ PBV_is_ancestor (PBV_lca 195 323) 195 = true
  ∧ PBV_is_ancestor (PBV_lca 195 323) 323 = true.
Proof. apply (PBV_lca_common_ancestor 195 323). left. vm_compute. discriminate. Defined.

(** ** The bucket queue *)

Section queue_wf.

Context {T : Type}.
Implicit Types (q : util.min_bucket_queue T).

Lemma skip_empty_spec (bs : list (list T)) : ∀ k0,
  (∀ j b, (j < util.skip_empty bs k0 - k0)%nat → bs !! j = Some b → b = [])
  ∧ (∀ b, bs !! (util.skip_empty bs k0 - k0)%nat = Some b → b ≠ []).
Proof.
  induction bs as [|b bs IH]; intros k0; simpl.
  { split; [intros; lia|]. intros b. by rewrite lookup_nil. }
  destruct b as [|x b].
  - destruct (IH (S k0)) as [IH1 IH2]. pose proof (skip_empty_ge bs (S k0)).
    replace (util.skip_empty bs (S k0) - k0)%nat
      with (S (util.skip_empty bs (S k0) - S k0)) by lia.
    split.
    + intros [|j] c Hj; simpl; [by intros [= <-]|]. apply IH1. lia.
    + simpl. apply IH2.
  - rewrite Nat.sub_diag. split; [intros; lia|]. simpl. by intros c [= <-].
Qed.

Lemma queue_wf_new : queue_wf (@util.queue_new T).
Proof. split; simpl; intros *; [|intros ?]; by rewrite ?lookup_nil. Qed.

Lemma empty_false q : util.empty q = false ↔ (util.min_bucket q < length (util.buckets q))%nat.
Proof. unfold util.empty. rewrite Nat.leb_gt. done. Qed.

Lemma empty_true q : util.empty q = true ↔ (length (util.buckets q) ≤ util.min_bucket q)%nat.
Proof. unfold util.empty. by rewrite Nat.leb_le. Qed.

Lemma buckets_push_eq q x b :
  util.buckets (util.push q x b) !! b = Some (default [] (util.buckets q !! b) ++ [x]).
Proof.
  unfold util.push. simpl. rewrite list_lookup_alter_eq.
  destruct (util.buckets q !! b) as [l|] eqn:E; simpl.
  - by rewrite (lookup_app_l_Some _ _ _ _ E).
  - apply lookup_ge_None in E. rewrite lookup_app_r by done.
    rewrite lookup_replicate_2 by lia. done.
Qed.

Lemma buckets_push_old q x b k :
  k ≠ b → (k < length (util.buckets q))%nat →
  util.buckets (util.push q x b) !! k = util.buckets q !! k.
Proof.
  intros Hne Hk. unfold util.push. simpl.
  rewrite list_lookup_alter_ne by done. by rewrite lookup_app_l.
Qed.

Lemma min_bucket_push_cases q x b :
  util.min_bucket (util.push q x b) = b
  ∨ (util.min_bucket (util.push q x b) = util.min_bucket q
     ∧ (util.min_bucket q < length (util.buckets q))%nat
     ∧ (util.min_bucket q ≤ b)%nat).
Proof.
  unfold util.push. simpl. destruct (util.empty q) eqn:He; simpl; [by left|].
  destruct (b <? util.min_bucket q)%nat eqn:Hlt; [by left|].
  right. apply empty_false in He. apply Nat.ltb_ge in Hlt. done.
Qed.

Lemma min_bucket_push_le q x b :
  (util.min_bucket (util.push q x b) ≤ b)%nat
  ∧ (util.empty q = false →
     (util.min_bucket (util.push q x b) ≤ util.min_bucket q)%nat).
Proof.
  unfold util.push. simpl. destruct (util.empty q) eqn:He; simpl; [done|].
  destruct (b <? util.min_bucket q)%nat eqn:Hlt.
  - apply Nat.ltb_lt in Hlt. lia.
  - apply Nat.ltb_ge in Hlt. lia.
Qed.

Lemma queue_wf_push q x b : queue_wf q → queue_wf (util.push q x b).
Proof.
  intros [Hlow Hmin]. split.
  - intros k l Hk Hl.
    destruct (min_bucket_push_le q x b) as [Hb Hq].
    apply buckets_push in Hl as [(-> & _)|(Hne & [Hl| ->])]; [lia| |done].
    destruct (util.empty q) eqn:He.
    + apply empty_true in He. pose proof (lookup_lt_Some _ _ _ Hl).
      eapply Hlow; [|done]. lia.
    + eapply Hlow; [|done]. specialize (Hq eq_refl). lia.
  - intros l.
    destruct (min_bucket_push_cases q x b) as [->|(-> & Hlt & Hle)].
    + rewrite buckets_push_eq. intros [= <-]. by destruct (default _ _).
    + destruct (decide (util.min_bucket q = b)) as [<-|Hne].
      * rewrite buckets_push_eq. intros [= <-]. by destruct (default _ _).
      * rewrite buckets_push_old by done. apply Hmin.
Qed.

Lemma queue_wf_pop cfg q top q' :
  util.pop cfg q = Ok (top, q') → queue_wf q → queue_wf q'.
Proof.
  intros Hpop [Hlow Hmin]. pose proof Hpop as Hspec.
  apply pop_Ok in Hspec as [(b & Hb & Hq') Hle].
  unfold util.pop in Hpop. rewrite Hb, last_snoc in Hpop.
  injection Hpop as <-. simpl in *. rewrite removelast_last in *.
  set (m := util.min_bucket q) in *.
  set (bs := <[m := b]> (util.buckets q)) in *.
  destruct (skip_empty_spec (drop m bs) m) as [Hs1 Hs2].
  set (m' := util.skip_empty (drop m bs) m) in *.
  split.
  - intros k l Hk Hl. simpl in Hk, Hl. destruct (decide (k < m)%nat) as [Hkm|Hkm].
    + unfold bs in Hl. rewrite list_lookup_insert_ne in Hl by lia. by eapply Hlow.
    + apply (Hs1 (k - m)%nat); [lia|]. rewrite lookup_drop.
      by replace (m + (k - m))%nat with k by lia.
  - intros l Hl. simpl in Hl. apply Hs2. rewrite lookup_drop.
    by replace (m + (m' - m))%nat with m' by lia.
Qed.

Lemma queue_built_wf q : queue_built q → queue_wf q.
Proof.
  induction 1; eauto using queue_wf_new, queue_wf_push, queue_wf_pop.
Qed.

End queue_wf.

(** X4.  On a queue built from the empty one by [push] and [pop], a [pop]
    of a queue that [empty()] reports as not empty succeeds: the bucket
    [min_bucket] exists and is not empty, [pop] takes the entry pushed last
    to it, and no entry of the queue sits in a bucket with a smaller
    number. *)
Theorem min_bucket_queue_pop_min {T : Type} cfg (q : util.min_bucket_queue T) :
  queue_built q → util.empty q = false →
  ∃ top q' b,
    util.pop cfg q = Ok (top, q')
    ∧ util.buckets q !! util.min_bucket q = Some (b ++ [top])
    ∧ util.buckets q' = <[util.min_bucket q := b]> (util.buckets q)
    ∧ ∀ k l e, util.buckets q !! k = Some l → e ∈ l → (util.min_bucket q ≤ k)%nat.
Proof.
  intros [Hlow Hmin]%queue_built_wf He. apply empty_false in He.
  destruct (lookup_lt_is_Some_2 _ _ He) as [l Hl].
  destruct (last l) as [top|] eqn:Hlast.
  2:{ apply last_None in Hlast. by destruct (Hmin _ Hl). }
  apply last_Some in Hlast as [b ->].
  exists top. eexists. exists b. split.
  { unfold util.pop. rewrite Hl, last_snoc, removelast_last. reflexivity. }
  split; [done|]. split; [done|].
  intros k l' e Hl' He'. destruct (decide (util.min_bucket q ≤ k)%nat) as [|Hk]; [done|].
  rewrite (Hlow k l') in He' by (done || lia). by apply elem_of_nil in He'.
Qed.

Lemma min_bucket_queue_pop_min_witness :
  ∃ top q' b,
    util.pop spec_config (util.push (util.push util.queue_new 7 3%nat) 9 1%nat) = Ok (top, q')
    ∧ util.buckets (util.push (util.push util.queue_new 7 3%nat) 9 1%nat)
        !! util.min_bucket (util.push (util.push util.queue_new 7 3%nat) 9 1%nat)
      = Some (b ++ [top])
    ∧ util.buckets q'
      = <[util.min_bucket (util.push (util.push util.queue_new 7 3%nat) 9 1%nat) := b]>
          (util.buckets (util.push (util.push util.queue_new 7 3%nat) 9 1%nat))
    ∧ ∀ k l e,
        util.buckets (util.push (util.push util.queue_new 7 3%nat) 9 1%nat) !! k = Some l →
        e ∈ l →
        (util.min_bucket (util.push (util.push util.queue_new 7 3%nat) 9 1%nat) ≤ k)%nat.
Proof.
  apply (min_bucket_queue_pop_min spec_config
           (util.push (util.push util.queue_new 7 3%nat) 9 1%nat)).
  - apply built_push, built_push, built_new.
  - reflexivity.
Defined.

(** X5.  On such a queue [empty()] is true exactly when no bucket holds an
    entry. *)
Theorem min_bucket_queue_empty_spec {T : Type} (q : util.min_bucket_queue T) :
  queue_built q →
  util.empty q = true ↔ ∀ k l, util.buckets q !! k = Some l → l = [].
Proof.
  intros [Hlow Hmin]%queue_built_wf. split.
  - intros He%empty_true k l Hl. eapply Hlow; [|done].
    apply lookup_lt_Some in Hl. lia.
  - intros Hall. destruct (util.empty q) eqn:He; [done|].
    apply empty_false in He. destruct (lookup_lt_is_Some_2 _ _ He) as [l Hl].
    destruct (Hmin _ Hl). by eapply Hall.
Qed.

Lemma min_bucket_queue_empty_spec_witness :
  util.empty (util.push (@util.queue_new Z) 7 3%nat) = true
  ↔ ∀ k l, util.buckets (util.push (@util.queue_new Z) 7 3%nat) !! k = Some l → l = [].
Proof.
  apply (min_bucket_queue_empty_spec (util.push util.queue_new 7 3%nat)).
  apply built_push, built_new.
Defined.

(** ** The shortcut graph *)

(** X6.  After [create_sc_graph] (either overload, from a hierarchy without
    edges and labels still empty) every down-neighbour of a vertex has a
    strictly larger [dist_index] than the vertex. *)
Theorem create_sc_graph_down_neighbors_below cfg g ch ci closest ch' ci' :
  no_edges ch →
  Forall (λ c, CutIndex.distances c = []) ci →
  create_sc_graph cfg g ch ci closest = Ok (ch', ci')
    ∨ create_sc_graph_all cfg g ch ci = Ok (ch', ci') →
  down_ordered ch'.
Proof.
  intros He Hci [H|H];
    [by eapply create_sc_graph_down_ordered|by eapply create_sc_graph_all_down_ordered].
Qed.

Lemma create_sc_graph_down_neighbors_below_witness : down_ordered kite_sc.1.
Proof.
  apply (create_sc_graph_down_neighbors_below spec_config kite_graph [] kite_cut_index
           kite_closest kite_sc.1 kite_sc.2).
  - constructor.
  - repeat constructor.
  - left. vm_compute. reflexivity.
Defined.

(** X7.  [GS_Dec], [GS_Inc], [DCL_Dec] and [DCL_Inc], in any sequence, leave
    the vertices, every [dist_index], the vertices named in every
    up-neighbour list (in their order) and every down-neighbour list as they
    were: only weights and counts of existing entries are written. *)
Theorem maintenance_keeps_shape cfg ch ch' :
  rtc (maintenance_step cfg) ch ch' → same_shape ch ch'.
Proof. apply maintenance_shape. Qed.

Lemma maintenance_keeps_shape_witness : same_shape weighted_sc.1 decreased.1.1.
Proof.
  apply (maintenance_keeps_shape spec_config). apply rtc_once.
  apply (step_DCL_Dec spec_config _ _ 100%nat weighted_index decrease_3_2
           decreased.1.2 decreased.2).
  vm_compute. reflexivity.
Defined.

Section mirror.

Implicit Types (ch : list CHNode.t) (ci : list CutIndex.t) (v u w : nat).

Lemma find_neighbor_elem w l : ∀ k,
  w ∈ node <$> l → ∃ j e, find_neighbor w l k = Some (j, e) ∧ node e = w.
Proof.
  induction l as [|n l IH]; intros k Hin; simpl in *; [by apply elem_of_nil in Hin|].
  case_decide; [eauto|].
  apply elem_of_cons in Hin as [?|Hin]; [done|]. by apply IH.
Qed.

Lemma down_in_up_has_up ch : down_in_up ch → down_has_up ch.
Proof.
  intros Hd v n u Hn Hu. destruct (Hd v n u Hn Hu) as (m & Hm & Hin).
  unfold UpNeighbor. rewrite (at_lookup _ _ _ Hm). simpl.
  destruct (find_neighbor_elem v _ 0%nat Hin) as (j & e & -> & He). eauto.
Qed.

Lemma up_grows_refl ch : up_grows ch ch.
Proof. apply Forall2_same_length_lookup. split; [done|]. intros i x y ? ?. by simplify_eq. Qed.

Lemma up_grows_trans ch1 ch2 ch3 : up_grows ch1 ch2 → up_grows ch2 ch3 → up_grows ch1 ch3.
Proof.
  unfold up_grows. intros H1 H2. eapply Forall2_trans; [|done..].
  simpl. intros x y z [-> Hxy] [-> Hyz]. split; [done|]. auto.
Qed.

Lemma up_grows_set_up ch v up n :
  ch !! v = Some n →
  (∀ w, w ∈ node <$> CHNode.up_neighbors n → w ∈ node <$> up) →
  up_grows ch (set_up ch v up).
Proof.
  intros Hv Hup.
  apply Forall2_same_length_lookup. split; [by rewrite length_set_up|].
  intros i x y Hx Hy. apply lookup_set_up in Hy as (m & Hm & _ & -> & Hupm).
  assert (m = x) as -> by congruence. split; [done|].
  rewrite Hupm. case_decide; [subst|done]. by assert (x = n) as -> by congruence.
Qed.

Lemma up_grows_push ch v n x :
  ch !! v = Some n → up_grows ch (set_up ch v (CHNode.up_neighbors n ++ [x])).
Proof.
  intros Hv. eapply up_grows_set_up; [done|]. intros w Hw.
  rewrite fmap_app. apply elem_of_app. by left.
Qed.

Lemma same_shape_up_grows ch ch' : same_shape ch ch' → up_grows ch ch'.
Proof.
  intros H. eapply Forall2_impl; [done|]. simpl.
  intros x y (_ & Hup & Hdown). split; [done|]. by rewrite Hup.
Qed.

Lemma down_in_up_grows ch ch' : up_grows ch ch' → down_in_up ch → down_in_up ch'.
Proof.
  intros Hg Hd v n' u Hv Hu.
  destruct (Forall2_lookup_r _ _ _ _ _ Hg Hv) as (n & Hn & Hdown & _).
  rewrite <- Hdown in Hu. destruct (Hd v n u Hn Hu) as (m & Hm & Hin).
  destruct (Forall2_lookup_l _ _ _ _ _ Hg Hm) as (m' & Hm' & _ & Hup). eauto.
Qed.

Lemma no_edges_down_in_up ch : no_edges ch → down_in_up ch.
Proof.
  intros He v n x Hn Hx. destruct (Forall_lookup_1 _ _ _ _ He Hn) as [_ Hd].
  rewrite Hd in Hx. by apply elem_of_nil in Hx.
Qed.

Lemma no_edges_down_frame ch ch' : down_frame ch ch' →
  Forall (λ n, CHNode.down_neighbors n = []) ch →
  Forall (λ n, CHNode.down_neighbors n = []) ch'.
Proof.
  intros Hf He. apply Forall_lookup. intros i n' Hn'.
  destruct (Forall2_lookup_r _ _ _ _ _ Hf Hn') as (n & Hn & _ & <-).
  by apply (Forall_lookup_1 _ _ _ _ He Hn).
Qed.

Lemma down_empty_down_in_up ch :
  Forall (λ n, CHNode.down_neighbors n = []) ch → down_in_up ch.
Proof.
  intros He v n x Hn Hx. rewrite (Forall_lookup_1 _ _ _ _ He Hn) in Hx.
  by apply elem_of_nil in Hx.
Qed.

Lemma elem_of_insert_by_2 {A} (lt : A → A → bool) x y l :
  y = x ∨ y ∈ l → y ∈ util.insert_by lt x l.
Proof.
  induction l as [|z l IH]; simpl.
  - intros [->|H]; [left|by apply elem_of_nil in H].
  - destruct (lt z x).
    + intros [->|[->|H]%elem_of_cons]; [right; apply IH; by left|left|right; apply IH; by right].
    + intros [->|H]; [left|by right].
Qed.

Lemma elem_of_sort_by_2 {A} (lt : A → A → bool) y l : y ∈ l → y ∈ util.sort_by lt l.
Proof.
  unfold util.sort_by. induction l as [|x l IH]; simpl; [done|].
  intros [->|H]%elem_of_cons; apply elem_of_insert_by_2; [by left|right; auto].
Qed.

Lemma distinct_after_nodes l : ∀ last w,
  w ∈ node <$> l → w = node last ∨ w ∈ node <$> util.distinct_after last l.
Proof.
  induction l as [|x l IH]; intros last w; simpl; [by intros ?%elem_of_nil|].
  intros [->|Hw]%elem_of_cons.
  - case_decide; [by left|right; simpl; left].
  - case_decide; [by apply IH|].
    destruct (IH x w Hw) as [->|?]; right; simpl; [left|by right].
Qed.

(** [make_set] loses no vertex. *)
Lemma make_set_nodes comp l w :
  w ∈ node <$> l → w ∈ node <$> util.make_set comp l.
Proof.
  unfold util.make_set. destruct (length l <? 2)%nat; [done|].
  intros (x & -> & Hx)%list_elem_of_fmap.
  apply (elem_of_sort_by_2 comp) in Hx.
  destruct (util.sort_by comp l) as [|y l']; [by apply elem_of_nil in Hx|].
  assert (node x ∈ node <$> y :: l') as Hin by (apply list_elem_of_fmap; eauto).
  simpl in *. apply elem_of_cons in Hin as [->|Hin]; [left|].
  destruct (distinct_after_nodes l' y _ Hin) as [->|?]; [left|by right].
Qed.

Lemma sc_shortcut_grows v ui uj ch ci ch' ci' :
  sc_shortcut v ui uj ch ci = Ok (ch', ci') → up_grows ch ch'.
Proof.
  unfold sc_shortcut. intros H.
  apply bind_Ok_inv in H as (dj & Hdj & H). apply bind_Ok_inv in H as (c & Hc & H).
  apply bind_Ok_inv in H as (cur & Hcur & H).
  destruct (_ <? cur).
  - case_decide; [done|].
    apply bind_Ok_inv in H as (chi & Hchi & H). apply at_Ok in Hchi.
    apply bind_Ok_inv in H as (ci1 & Hst & H). injection H as <- <-.
    by apply up_grows_push.
  - destruct (_ =? cur); [|injection H as <- <-; apply up_grows_refl].
    apply bind_Ok_inv in H as (p & Hp & H).
    apply bind_Ok_inv in H as (ci1 & Hst & H).
    case_decide; [done|].
    apply bind_Ok_inv in H as (chi & Hchi & H). apply at_Ok in Hchi. injection H as <- <-.
    by apply up_grows_push.
Qed.

Lemma sc_pairs_from_grows v ui rest : ∀ ch ci ch' ci',
  sc_pairs_from v ui rest ch ci = Ok (ch', ci') → up_grows ch ch'.
Proof.
  induction rest as [|uj rest IH]; simpl; intros ch ci ch' ci' H.
  { inv_res. apply up_grows_refl. }
  apply bind_Ok_inv in H as ([ch1 ci1] & H1 & H).
  apply sc_shortcut_grows in H1. apply IH in H. by eapply up_grows_trans.
Qed.

Lemma sc_pairs_grows v up : ∀ ch ci ch' ci',
  sc_pairs v up ch ci = Ok (ch', ci') → up_grows ch ch'.
Proof.
  induction up as [|ui rest IH]; simpl; intros ch ci ch' ci' H.
  { inv_res. apply up_grows_refl. }
  apply bind_Ok_inv in H as ([ch1 ci1] & H1 & H).
  apply sc_pairs_from_grows in H1. apply IH in H. by eapply up_grows_trans.
Qed.

Lemma down_in_up_set_down ch w down n :
  down_in_up ch → ch !! w = Some n →
  (∀ u, u ∈ down → ∃ m, ch !! u = Some m ∧ w ∈ node <$> CHNode.up_neighbors m) →
  down_in_up (set_down ch w down).
Proof.
  intros Hd Hw Hdown v m u Hm Hu.
  assert (∃ m0, ch !! u = Some m0 ∧ v ∈ node <$> CHNode.up_neighbors m0) as (m0 & Hm0 & Hin).
  { unfold set_down in Hm. rewrite list_lookup_alter in Hm. case_decide; [subst|].
    - rewrite Hw in Hm. injection Hm as <-. by apply Hdown.
    - by apply (Hd v m). }
  unfold set_down. rewrite list_lookup_alter. case_decide; [subst|eauto].
  rewrite Hm0. simpl. eauto.
Qed.

Lemma sc_down_mirror v up : ∀ ch ch',
  sc_down v up ch = Ok ch' →
  (∃ m, ch !! v = Some m ∧ ∀ x, x ∈ up → node x ∈ node <$> CHNode.up_neighbors m) →
  down_in_up ch → down_in_up ch'.
Proof.
  induction up as [|upn up IH]; simpl; intros ch ch' H Hup Hd.
  { by inv_res. }
  apply bind_Ok_inv in H as (n & Hn & H). apply at_Ok in Hn.
  destruct Hup as (m & Hm & Hup).
  eapply IH in H; [done| |].
  - unfold set_down. rewrite list_lookup_alter. case_decide; [subst|].
    + rewrite Hm. simpl. eexists. split; [done|]. simpl. intros x Hx. apply Hup. by right.
    + exists m. split; [done|]. intros x Hx. apply Hup. by right.
  - eapply down_in_up_set_down; [done..|]. intros u Hu.
    apply elem_of_app in Hu as [Hu|Hu]; [by apply (Hd _ n)|].
    apply list_elem_of_singleton in Hu as ->. exists m. split; [done|]. apply Hup. left.
Qed.

Lemma sc_down_grows v up : ∀ ch ch', sc_down v up ch = Ok ch' → length ch' = length ch.
Proof.
  induction up as [|upn up IH]; simpl; intros ch ch' H.
  { by inv_res. }
  apply bind_Ok_inv in H as (n & Hn & H). apply IH in H. by rewrite H, length_set_down.
Qed.

Lemma sc_bottom_up_mirror todo : ∀ ch ci ch' ci',
  sc_bottom_up todo ch ci = Ok (ch', ci') → down_in_up ch → down_in_up ch'.
Proof.
  induction todo as [|v todo IH]; simpl; intros ch ci ch' ci' H Hd.
  { by inv_res. }
  apply bind_Ok_inv in H as (chv & Hv & H). apply at_Ok in Hv.
  apply bind_Ok_inv in H as ([ch2 ci2] & H2 & H).
  apply bind_Ok_inv in H as (ch3 & H3 & H).
  set (up := util.make_set (di_order1 ch) (CHNode.up_neighbors chv)) in *.
  assert (up_grows ch (set_up ch v up)) as Hg1.
  { eapply up_grows_set_up; [done|]. intros w. apply make_set_nodes. }
  pose proof (sc_pairs_grows _ _ _ _ _ _ H2) as Hg2.
  eapply IH; [done|]. eapply sc_down_mirror; [done| |].
  - assert (set_up ch v up !! v
            = Some (CHNode.mk (CHNode.dist_index chv) up (CHNode.down_neighbors chv))) as Hv1.
    { unfold set_up. by rewrite list_lookup_alter_eq, Hv. }
    destruct (Forall2_lookup_l _ _ _ _ _ Hg2 Hv1) as (m & Hm & _ & Hup).
    exists m. split; [done|]. intros x Hx. apply Hup. simpl.
    apply list_elem_of_fmap. eauto.
  - eapply down_in_up_grows; [|done]. by eapply up_grows_trans.
Qed.

Lemma sc_labels_mirror cfg todo : ∀ ch ci ch' ci',
  sc_labels cfg todo ch ci = Ok (ch', ci') → down_in_up ch → down_in_up ch'.
Proof.
  induction todo as [|x todo IH]; simpl; intros ch ci ch' ci' H Hd.
  { by inv_res. }
  apply bind_Ok_inv in H as (chx & Hx & H). apply at_Ok in Hx.
  apply bind_Ok_inv in H as (ci1 & H1 & H).
  apply bind_Ok_inv in H as (c & Hc & H).
  eapply IH in H; [done|]. destruct (MULTI_THREAD_DISTANCES cfg); [done|].
  eapply down_in_up_set_down; [done..|]. intros u Hu%elem_of_sort_by.
  by apply (Hd x chx).
Qed.

Lemma sc_init_no_edges cfg closest todo : ∀ ch ci bu ch1 ci1 bu1,
  sc_init cfg closest todo ch ci bu = Ok (ch1, ci1, bu1) → no_edges ch → no_edges ch1.
Proof.
  induction todo as [|v todo IH]; simpl; intros ch ci bu ch1 ci1 bu1 H He.
  { by inv_res. }
  apply bind_Ok_inv in H as (c & Hc & H). apply bind_Ok_inv in H as (n & Hn & H).
  case_decide.
  - apply bind_Ok_inv in H as (cix & Hcix & H). apply bind_Ok_inv in H as (last & Hlast & H).
    eapply IH; [done|]. by apply no_edges_set_dist_index.
  - eapply IH; [done|]. by apply no_edges_set_dist_index.
Qed.

Lemma sc_init_all_no_edges cfg todo : ∀ ch ci ch1 ci1,
  sc_init_all cfg todo ch ci = Ok (ch1, ci1) → no_edges ch → no_edges ch1.
Proof.
  induction todo as [|v todo IH]; simpl; intros ch ci ch1 ci1 H He.
  { by inv_res. }
  apply bind_Ok_inv in H as (n & Hn & H).
  apply bind_Ok_inv in H as (cix & Hcix & H). apply bind_Ok_inv in H as (last & Hlast & H).
  eapply IH; [done|]. by apply no_edges_set_dist_index.
Qed.

Lemma no_edges_down_empty ch : no_edges ch → Forall (λ n, CHNode.down_neighbors n = []) ch.
Proof. intros H. eapply Forall_impl; [done|]. simpl. naive_solver. Qed.

Lemma create_sc_graph_mirror cfg g ch ci closest ch' ci' :
  no_edges ch →
  create_sc_graph cfg g ch ci closest = Ok (ch', ci') → down_in_up ch'.
Proof.
  intros He H. unfold create_sc_graph in H.
  apply bind_Ok_inv in H as ([[ch1 ci1] bu] & H1 & H).
  apply bind_Ok_inv in H as ([ch2 ci2] & H2 & H).
  apply bind_Ok_inv in H as ([ch3 ci3] & H3 & H).
  apply bind_Ok_inv in H as (order & _ & H).
  eapply sc_labels_mirror; [done|]. eapply sc_bottom_up_mirror; [done|].
  apply down_empty_down_in_up.
  eapply no_edges_down_frame; [by eapply sc_graph_edges_frame|].
  apply no_edges_down_empty. eapply sc_init_no_edges; [done|].
  by apply no_edges_vresize.
Qed.

Lemma create_sc_graph_all_mirror cfg g ch ci ch' ci' :
  no_edges ch →
  create_sc_graph_all cfg g ch ci = Ok (ch', ci') → down_in_up ch'.
Proof.
  intros He H. unfold create_sc_graph_all in H.
  apply bind_Ok_inv in H as ([ch1 ci1] & H1 & H).
  apply bind_Ok_inv in H as ([ch2 ci2] & H2 & H).
  apply bind_Ok_inv in H as ([ch3 ci3] & H3 & H).
  apply bind_Ok_inv in H as (order & _ & H).
  eapply sc_labels_mirror; [done|]. eapply sc_bottom_up_mirror; [done|].
  apply down_empty_down_in_up.
  eapply no_edges_down_frame; [by eapply sc_graph_edges_all_frame|].
  apply no_edges_down_empty. eapply sc_init_all_no_edges; [done|].
  by apply no_edges_vresize.
Qed.

End mirror.

(** X8.  After [create_sc_graph] (either overload, from a hierarchy without
    edges), and after any sequence of maintenance operations, every
    down-neighbour [u] of a vertex [v] has an up-neighbour entry for [v]:
    the search [UpNeighbor(ch, u, v)] that [DCL_Dec] and [DCL_Inc] run over
    the down-neighbours always returns an entry. *)
Theorem down_neighbors_have_up_entry cfg g ch ci closest ch' ci' ch1 :
  no_edges ch →
  create_sc_graph cfg g ch ci closest = Ok (ch', ci')
    ∨ create_sc_graph_all cfg g ch ci = Ok (ch', ci') →
  rtc (maintenance_step cfg) ch' ch1 →
  down_has_up ch1.
Proof.
  intros He H Hsteps. apply down_in_up_has_up.
  eapply down_in_up_grows.
  { apply same_shape_up_grows. by eapply maintenance_shape. }
  destruct H as [H|H]; [by eapply create_sc_graph_mirror|by eapply create_sc_graph_all_mirror].
Qed.

Lemma down_neighbors_have_up_entry_witness : down_has_up decreased.1.1.
Proof.
  apply (down_neighbors_have_up_entry spec_config weighted_graph [] example_cut_index
           example_closest weighted_sc.1 weighted_sc.2 decreased.1.1).
  - constructor.
  - left. vm_compute. reflexivity.
  - apply rtc_once.
    apply (step_DCL_Dec spec_config _ _ 100%nat weighted_index decrease_3_2
             decreased.1.2 decreased.2).
    vm_compute. reflexivity.
Defined.

(** ** Maintenance of the labels *)

Section inc_order.

Variable ch : list CHNode.t.

Lemma DCL_Inc_slots_keyed v d c a b slots : ∀ q q',
  DCL_Inc_slots v (Z.to_nat (di ch v)) d c a b slots q = Ok q' →
  queue_keyed ch q → queue_keyed ch q'.
Proof.
  induction slots as [|i slots IH]; simpl; intros q q' H Hq.
  { by injection H as <-. }
  apply bind_Ok_inv in H as (bd & Hbd & H). apply bind_Ok_inv in H as (bp & Hbp & H).
  apply bind_Ok_inv in H as (ad & Had & H).
  destruct (_ =? ad); [|by eapply IH].
  eapply IH; [done|]. by apply (queue_keyed_push ch q (mkICH v i _ _)).
Qed.

Lemma DCL_Inc_seed_keyed idx C : ∀ q q',
  DCL_Inc_seed ch idx C q = Ok q' → queue_keyed ch q → queue_keyed ch q'.
Proof.
  induction C as [|[[v w] [d c]] C IH]; intros q q' H Hq; cbn [DCL_Inc_seed] in H.
  { by injection H as <-. }
  apply bind_Ok_inv in H as ([? a] & Ha & H). apply bind_Ok_inv in H as (dw & Hdw & H).
  apply bind_Ok_inv in H as (cur & Hcur & H).
  destruct (d =? cur); [|by eapply IH].
  apply bind_Ok_inv in H as ([? b] & Hb & H). apply bind_Ok_inv in H as (dv & Hdv & H).
  apply bind_Ok_inv in H as (q1 & H1 & H).
  apply dist_index_of_Ok in Hdv as [_ <-].
  eapply IH; [done|]. eapply DCL_Inc_slots_keyed; eauto.
Qed.

Lemma DCL_Inc_down_keyed idx next cv k down : ∀ q q',
  DCL_Inc_down ch idx next cv down q = Ok q' →
  (∀ u, u ∈ down → (k ≤ Z.to_nat (di ch u))%nat) →
  queue_keyed ch q → (k ≤ util.min_bucket q)%nat →
  queue_keyed ch q' ∧ (k ≤ util.min_bucket q')%nat.
Proof.
  induction down as [|u down IH]; simpl; intros q q' H Hdown Hq Hk.
  { by injection H as <-. }
  apply bind_Ok_inv in H as ([? x] & Hx & H). apply bind_Ok_inv in H as ([? cu] & Hcu & H).
  apply bind_Ok_inv in H as (vd & Hvd & H). apply bind_Ok_inv in H as (ud & Hud & H).
  assert (∀ u0, u0 ∈ down → (k ≤ Z.to_nat (di ch u0))%nat) as Hdown'.
  { intros u0 Hu0. apply Hdown. by right. }
  destruct (_ =? ud); [|by eapply IH].
  apply bind_Ok_inv in H as (du & Hdu & H). apply dist_index_of_Ok in Hdu as [_ <-].
  eapply IH; [done..| |].
  - by apply (queue_keyed_push ch q (mkICH u _ _ _)).
  - apply min_bucket_push; [done|]. apply Hdown. left.
Qed.

Lemma DCL_Inc_drain_sorted cfg fuel : ∀ idx q trace idx' q' trace',
  DCL_Inc_drain cfg ch fuel idx q trace = Ok (idx', q', trace') →
  down_ordered ch → queue_keyed ch q →
  StronglySorted le trace.*1 → Forall (λ k, (k ≤ util.min_bucket q)%nat) trace.*1 →
  trace_keyed ch trace →
  StronglySorted le trace'.*1 ∧ trace_keyed ch trace'.
Proof.
  induction fuel as [|fuel IH]; simpl; intros idx q trace idx' q' trace' H Hd Hq Hs Hm Ht.
  { by injection H as <- <- <-. }
  destruct (util.empty q); [by injection H as <- <- <-|].
  apply bind_Ok_inv in H as ([next q1] & Hpop & H).
  apply (queue_keyed_pop _ _ _ _ _ Hpop) in Hq as (Hkey & Hq1 & Hle).
  assert (StronglySorted le (trace ++ [(util.min_bucket q, next)]).*1) as Hs'.
  { rewrite fmap_app. apply StronglySorted_app_2; [|done|repeat constructor].
    intros x1 x2 Hx1 ->%list_elem_of_singleton.
    by apply (proj1 (Forall_forall _ _) Hm). }
  assert (trace_keyed ch (trace ++ [(util.min_bucket q, next)])) as Ht'.
  { apply Forall_app. split; [done|]. by repeat constructor. }
  apply bind_Ok_inv in H as ([a cv] & Hcv & H). apply bind_Ok_inv in H as (n & Hn & H).
  apply at_Ok in Hn. apply bind_Ok_inv in H as (q2 & Hdown & H).
  apply bind_Ok_inv in H as (p & Hp & H). apply bind_Ok_inv in H as (idx1 & Hw & H).
  eapply DCL_Inc_down_keyed in Hdown as [Hq2 Hle2]; [| |done|done].
  - eapply IH; eauto. rewrite fmap_app. apply Forall_app. split.
    + eapply Forall_impl; [done|]. simpl. lia.
    + by repeat constructor.
  - intros u Hu. specialize (Hd _ _ _ Hn Hu). rewrite Hkey. lia.
Qed.

End inc_order.

(** X9.  [DCL_Inc] serves its bucket queue like [DCL_Dec]: on a hierarchy
    whose down-neighbours lie below their vertex, the bucket keys of the
    successive dequeues never decrease and each key is the [dist_index] of
    the vertex of the entry dequeued. *)
Theorem DCL_Inc_dequeue_order cfg g fuel ch idx updates ch' idx' trace :
  down_ordered ch →
  DCL_Inc cfg g fuel ch idx updates = Ok (ch', idx', trace) →
  StronglySorted le trace.*1 ∧ trace_keyed ch' trace.
Proof.
  intros Hd H. unfold DCL_Inc in H.
  apply bind_Ok_inv in H as ([ch1 C] & H1 & H). apply bind_Ok_inv in H as (q & Hq & H).
  apply bind_Ok_inv in H as ([[idx1 q1] tr] & Hdrain & H).
  destruct (util.empty q1); [|discriminate]. injection H as <- <- <-.
  eapply DCL_Inc_drain_sorted in Hdrain; [done| | |constructor|constructor|constructor].
  - eapply down_ordered_down_frame; [|done].
    apply same_shape_down_frame. by eapply GS_Inc_shape.
  - eapply DCL_Inc_seed_keyed; [done|]. apply queue_keyed_new.
Qed.

Lemma DCL_Inc_dequeue_order_witness :
  StronglySorted le increased.2.*1 ∧ trace_keyed increased.1.1 increased.2.
Proof.
  apply (DCL_Inc_dequeue_order spec_config weighted_graph_increased 100 weighted_sc.1
           weighted_index increase_3_2 increased.1.1 increased.1.2 increased.2).
  - apply (create_sc_graph_down_ordered spec_config weighted_graph [] example_cut_index
             example_closest weighted_sc.1 weighted_sc.2).
    + constructor.
    + repeat constructor.
    + vm_compute. reflexivity.
  - vm_compute. reflexivity.
Defined.

Section layout.

Implicit Types (idx : ContractionIndex).

Lemma same_layout_refl idx : same_layout idx idx.
Proof.
  split; [done|]. apply Forall2_same_length_lookup. split; [done|].
  intros i x y ? ?. by simplify_eq.
Qed.

Lemma same_layout_trans idx1 idx2 idx3 :
  same_layout idx1 idx2 → same_layout idx2 idx3 → same_layout idx1 idx3.
Proof.
  intros [Hl1 Hh1] [Hl2 Hh2]. split; [congruence|].
  eapply Forall2_trans; [|done..]. simpl.
  intros x y z (-> & -> & -> & ->) (-> & -> & -> & ->). done.
Qed.

Lemma wr_length l i x l' : wr l i x = Ok l' → length l' = length l.
Proof. unfold wr. case_decide; [|done]. intros [= <-]. apply length_insert. Qed.

Lemma write_label_layout idx a i d p idx' :
  write_label idx a i d p = Ok idx' → same_layout idx idx'.
Proof.
  unfold write_label. intros H.
  apply bind_Ok_inv in H as (b & Hb & H). apply at_Ok in Hb.
  apply bind_Ok_inv in H as (ds & Hds & H). apply bind_Ok_inv in H as (ps & Hps & H).
  injection H as <-. split; [done|]. simpl.
  apply Forall2_same_length_lookup. split; [symmetry; apply length_insert|].
  intros j x y Hx Hy.
  apply list_lookup_insert_Some in Hy as [(<- & <- & _)|[Hne Hy]].
  - assert (x = b) as -> by congruence. simpl.
    by rewrite (wr_length _ _ _ _ Hds), (wr_length _ _ _ _ Hps).
  - by assert (x = y) as -> by congruence.
Qed.

Lemma DCL_Dec_drain_layout cfg ch fuel : ∀ idx q trace idx' q' trace',
  DCL_Dec_drain cfg ch fuel idx q trace = Ok (idx', q', trace') → same_layout idx idx'.
Proof.
  induction fuel as [|fuel IH]; simpl; intros idx q trace idx' q' trace' H.
  { injection H as <- <- <-. apply same_layout_refl. }
  destruct (util.empty q); [injection H as <- <- <-; apply same_layout_refl|].
  apply bind_Ok_inv in H as ([next q1] & Hpop & H).
  apply bind_Ok_inv in H as ([a cv] & Hcv & H). apply bind_Ok_inv in H as (cur & Hcur & H).
  destruct (_ || _); [|by eapply IH].
  apply bind_Ok_inv in H as (p & Hp & H). apply bind_Ok_inv in H as (idx1 & Hw & H).
  apply bind_Ok_inv in H as (n & Hn & H). apply bind_Ok_inv in H as (q2 & Hdown & H).
  apply write_label_layout in Hw. apply IH in H. by eapply same_layout_trans.
Qed.

Lemma DCL_Inc_recompute_layout ch v a i up : ∀ idx idx',
  DCL_Inc_recompute ch v a i up idx = Ok idx' → same_layout idx idx'.
Proof.
  induction up as [|u up IH]; simpl; intros idx idx' H.
  { injection H as <-. apply same_layout_refl. }
  apply bind_Ok_inv in H as (du & Hdu & H).
  destruct (_ <=? du); [|by eapply IH].
  apply bind_Ok_inv in H as ([? x] & Hx & H). apply bind_Ok_inv in H as ([? cu] & Hcu & H).
  apply bind_Ok_inv in H as (ud & Hud & H). apply bind_Ok_inv in H as (up_ & Hup & H).
  apply bind_Ok_inv in H as (cv & Hcv & H). apply bind_Ok_inv in H as (cur & Hcur & H).
  apply bind_Ok_inv in H as (idx1 & Hw & H). apply IH in H.
  eapply same_layout_trans; [|done].
  destruct (_ <? cur); [by eapply write_label_layout|].
  destruct (_ =? cur).
  - apply bind_Ok_inv in Hw as (p & Hp & Hw). by eapply write_label_layout.
  - injection Hw as <-. apply same_layout_refl.
Qed.

Lemma DCL_Inc_drain_layout cfg ch fuel : ∀ idx q trace idx' q' trace',
  DCL_Inc_drain cfg ch fuel idx q trace = Ok (idx', q', trace') → same_layout idx idx'.
Proof.
  induction fuel as [|fuel IH]; simpl; intros idx q trace idx' q' trace' H.
  { injection H as <- <- <-. apply same_layout_refl. }
  destruct (util.empty q); [injection H as <- <- <-; apply same_layout_refl|].
  apply bind_Ok_inv in H as ([next q1] & Hpop & H).
  apply bind_Ok_inv in H as ([a cv] & Hcv & H). apply bind_Ok_inv in H as (n & Hn & H).
  apply bind_Ok_inv in H as (q2 & Hdown & H). apply bind_Ok_inv in H as (p & Hp & H).
  apply bind_Ok_inv in H as (idx1 & Hw & H). apply IH in H.
  eapply same_layout_trans; [|done].
  destruct (_ <? p).
  - apply bind_Ok_inv in Hw as (dcur & Hd & Hw). by eapply write_label_layout.
  - apply bind_Ok_inv in Hw as (idx0 & Hw0 & Hw).
    eapply same_layout_trans; [by eapply write_label_layout|].
    by eapply DCL_Inc_recompute_layout.
Qed.

End layout.

(** X10.  [DCL_Dec] and [DCL_Inc] write label slots only: the label table
    (block, offset and parent of every vertex) is unchanged, and every block
    keeps its partition word, its [dist_index] and the number of its
    distances and counts. *)
Theorem DCL_keep_layout cfg g fuel ch idx updates ch' idx' trace :
  DCL_Dec cfg fuel ch idx updates = Ok (ch', idx', trace)
    ∨ DCL_Inc cfg g fuel ch idx updates = Ok (ch', idx', trace) →
  same_layout idx idx'.
Proof.
  intros [H|H].
  - unfold DCL_Dec in H.
    apply bind_Ok_inv in H as ([ch1 C] & H1 & H). apply bind_Ok_inv in H as (q & Hq & H).
    apply bind_Ok_inv in H as ([[idx1 q1] tr] & Hdrain & H).
    destruct (util.empty q1); [|discriminate]. injection H as <- <- <-.
    by eapply DCL_Dec_drain_layout.
  - unfold DCL_Inc in H.
    apply bind_Ok_inv in H as ([ch1 C] & H1 & H). apply bind_Ok_inv in H as (q & Hq & H).
    apply bind_Ok_inv in H as ([[idx1 q1] tr] & Hdrain & H).
    destruct (util.empty q1); [|discriminate]. injection H as <- <- <-.
    by eapply DCL_Inc_drain_layout.
Qed.

Lemma DCL_keep_layout_witness : same_layout weighted_index increased.1.2.
Proof.
  apply (DCL_keep_layout spec_config weighted_graph_increased 100 weighted_sc.1
           weighted_index increase_3_2 increased.1.1 increased.1.2 increased.2).
  right. vm_compute. reflexivity.
Defined.

(** ** The graph store, the rest *)

Section graph_store.

Implicit Types (g : Graph) (ns : list Neighbor) (u v w x : NodeID) (d : distance_t).

Lemma set_first_distance_other w d ns x :
  x ≠ w → weights_in (set_first_distance w d ns) x = weights_in ns x.
Proof.
  intros Hx. unfold weights_in. induction ns as [|n ns IH]; simpl; [done|].
  case_decide as Hn.
  - rewrite !filter_cons_False; simpl; auto; congruence.
  - destruct (decide (node n = x)).
    + rewrite !filter_cons_True; auto. simpl. by f_equal.
    + rewrite !filter_cons_False; auto.
Qed.

Lemma set_first_distance_same w d ns :
  weights_in (set_first_distance w d ns) w =
  match weights_in ns w with
  | [] => []
  | _ :: r => d :: r
  end.
Proof.
  unfold weights_in. induction ns as [|n ns IH]; simpl; [done|].
  case_decide as Hn.
  - rewrite !filter_cons_True; auto.
  - rewrite !filter_cons_False; auto.
Qed.

Lemma set_first_distance_nodes w d ns :
  node <$> set_first_distance w d ns = node <$> ns.
Proof.
  induction ns as [|n ns IH]; simpl; [done|].
  case_decide; simpl; [done|by f_equal].
Qed.

End graph_store.

(** X11.  [update_edge(v, w, d)] overwrites the weight of the first entry for
    [w] in the list of [v] and nothing else: the lists of all other vertices
    (the one of [w] included) and the entries of [v] for other neighbours are
    as before, and without an entry for [w] nothing changes. *)
Theorem update_edge_first_entry g v w d g' :
  update_edge g v w d = Ok g' →
  (∀ u, u ≠ v → node_data g' !! u = node_data g !! u)
  ∧ (∀ x, x ≠ w → stored_weights g' v x = stored_weights g v x)
  ∧ stored_weights g' v w = match stored_weights g v w with
                            | [] => []
                            | _ :: r => d :: r
                            end
  ∧ (stored_weights g v w = [] → g' = g)
  ∧ nodes g' = nodes g.
Proof.
  unfold update_edge. intros H. apply bind_Ok_inv in H as (nd & Hnd & H).
  apply at_Ok in Hnd. injection H as <-.
  assert (Hv : (v < length (node_data g))%nat) by (by eapply lookup_lt_Some).
  assert (Hsw : ∀ x, stored_weights g v x = weights_in (neighbors nd) x).
  { intros x. unfold stored_weights. by rewrite Hnd. }
  split; [|split; [|split; [|split]]].
  - intros u Hu. unfold set_neighbors. simpl. by rewrite list_lookup_alter_ne.
  - intros x Hx. rewrite stored_weights_set_neighbors by done.
    rewrite decide_True by done. rewrite Hsw. by apply set_first_distance_other.
  - rewrite stored_weights_set_neighbors by done.
    rewrite decide_True by done. rewrite Hsw. apply set_first_distance_same.
  - rewrite Hsw. intros Hnil. unfold set_neighbors.
    assert (Hid : set_first_distance w d (neighbors nd) = neighbors nd).
    { clear -Hnil. unfold weights_in in Hnil.
      induction (neighbors nd) as [|n ns IH]; simpl; [done|].
      case_decide as Hn.
      - rewrite filter_cons_True in Hnil by done. discriminate.
      - rewrite filter_cons_False in Hnil by done. f_equal. by apply IH. }
    rewrite Hid. destruct g as [ndata nds sid]. simpl in *. f_equal.
    apply list_eq. intros i. destruct (decide (i = v)) as [->|Hi].
    + rewrite list_lookup_alter_eq, Hnd. simpl. by destruct nd.
    + by rewrite list_lookup_alter_ne.
  - done.
Qed.

Lemma update_edge_first_entry_witness :
  (∀ u, u ≠ 3%nat → node_data updated_3_2 !! u = node_data weighted_graph !! u)
  ∧ (∀ x, x ≠ 2%nat → stored_weights updated_3_2 3 x = stored_weights weighted_graph 3 x)
  ∧ stored_weights updated_3_2 3 2 = match stored_weights weighted_graph 3 2 with
                                     | [] => []
                                     | _ :: r => 3 :: r
                                     end
  ∧ (stored_weights weighted_graph 3 2 = [] → updated_3_2 = weighted_graph)
  ∧ nodes updated_3_2 = nodes weighted_graph.
Proof.
  apply (update_edge_first_entry weighted_graph 3 2 3 updated_3_2).
  vm_compute. reflexivity.
Defined.

(** *** [degree] and [single_neighbor] *)

Lemma members_cons g n ns :
  members g (n :: ns) = if is_member g n then n :: members g ns else members g ns.
Proof.
  unfold members. rewrite filter_cons. by destruct (is_member g n).
Qed.

Lemma is_member_contains g n c : contains g (node n) = Ok c → is_member g n = c.
Proof. unfold is_member. intros ->. by destruct c. Qed.

Lemma count_contained_members g ns k :
  count_contained g ns = Ok k → k = length (members g ns).
Proof.
  revert k. induction ns as [|n ns IH]; simpl; intros k H.
  - by injection H as <-.
  - apply bind_Ok_inv in H as (c & Hc & H). apply bind_Ok_inv in H as (k' & Hk & H).
    injection H as <-. specialize (IH _ Hk).
    rewrite members_cons, (is_member_contains _ _ _ Hc).
    destruct c; simpl; by f_equal.
Qed.

Lemma single_neighbor_scan_two g ns r :
  contains g NO_NODE = Ok false →
  (∃ k, count_contained g ns = Ok k) →
  node r ≠ NO_NODE →
  single_neighbor_scan g ns r =
    Ok (match members g ns with [] => r | _ => Neighbor2 NO_NODE 0 end).
Proof.
  intros H0 [k Hk] Hr. revert k Hk. induction ns as [|n ns IH]; simpl; intros k Hk; [done|].
  apply bind_Ok_inv in Hk as (c & Hc & Hk). apply bind_Ok_inv in Hk as (k' & Hk' & _).
  rewrite Hc. simpl. rewrite members_cons, (is_member_contains _ _ _ Hc). destruct c.
  - by rewrite decide_False by done.
  - by eapply IH.
Qed.

Lemma single_neighbor_scan_none g ns :
  contains g NO_NODE = Ok false →
  (∃ k, count_contained g ns = Ok k) →
  single_neighbor_scan g ns (Neighbor2 NO_NODE 0) =
    Ok (match members g ns with [n] => n | _ => Neighbor2 NO_NODE 0 end).
Proof.
  intros H0 [k Hk]. revert k Hk. induction ns as [|n ns IH]; simpl; intros k Hk; [done|].
  apply bind_Ok_inv in Hk as (c & Hc & Hk). apply bind_Ok_inv in Hk as (k' & Hk' & _).
  rewrite Hc. simpl. rewrite members_cons, (is_member_contains _ _ _ Hc). destruct c.
  - rewrite (single_neighbor_scan_two g ns n H0); [|by eauto|].
    + by destruct (members g ns).
    + intros Hn. unfold NO_NODE in *. rewrite Hn in Hc. congruence.
  - by eapply IH.
Qed.

(** X12.  When vertex 0 is outside the subgraph and [degree(v)] returns [k],
    [k] is the number of entries of [v] whose vertex is inside the subgraph,
    and [single_neighbor(v)] returns that entry when there is exactly one
    and [Neighbor(NO_NODE, 0)] otherwise. *)
Theorem single_neighbor_unique cfg g v k :
  contains g NO_NODE = Ok false →
  degree cfg g v = Ok k →
  ∃ nd, node_data g !! v = Some nd
    ∧ k = length (members g (neighbors nd))
    ∧ single_neighbor cfg g v =
        Ok (match members g (neighbors nd) with
            | [n] => n
            | _ => Neighbor2 NO_NODE 0
            end).
Proof.
  intros H0 H. unfold degree in H. unfold single_neighbor.
  apply bind_Ok_inv in H as (c & Hc & H). apply bind_Ok_inv in H as ([] & Hchk & H).
  apply bind_Ok_inv in H as (nd & Hnd & H). rewrite Hc. simpl. rewrite Hchk. simpl.
  rewrite Hnd. simpl. apply at_Ok in Hnd. exists nd.
  split; [done|]. split; [by apply count_contained_members|].
  apply single_neighbor_scan_none; eauto.
Qed.

Lemma single_neighbor_unique_witness :
  ∃ nd, node_data kite_graph !! 2%nat = Some nd
    ∧ 2%nat = length (members kite_graph (neighbors nd))
    ∧ single_neighbor spec_config kite_graph 2 =
        Ok (match members kite_graph (neighbors nd) with
            | [n] => n
            | _ => Neighbor2 NO_NODE 0
            end).
Proof.
  apply (single_neighbor_unique spec_config kite_graph 2 2); vm_compute; reflexivity.
Defined.

(** *** [remove_isolated] *)

Lemma contains_set_subgraph_eq gt u nd id :
  node_data gt !! u = Some nd →
  contains (set_subgraph gt u id) u = Ok (id =? g_subgraph_id gt).
Proof.
  intros E. unfold contains, at_, set_subgraph. cbn [node_data g_subgraph_id].
  by rewrite list_lookup_alter_eq, E.
Qed.

Lemma contains_set_subgraph_ne gt u v id :
  v ≠ u → contains (set_subgraph gt u id) v = contains gt v.
Proof.
  intros E. unfold contains, at_, set_subgraph. cbn [node_data g_subgraph_id].
  by rewrite list_lookup_alter_ne.
Qed.

Section remove_isolated.

Variable g : Graph.
Hypothesis Hid : g_subgraph_id g ≠ NO_SUBGRAPH.
Hypothesis Hsym : symmetric_adjacency g.

Lemma unstamped_refl : unstamped g g.
Proof. repeat split. intros v nd Hv. exists nd. auto. Qed.

Lemma is_member_elem gt n ns : is_member gt n → n ∈ ns → members gt ns ≠ [].
Proof.
  intros Hm Hin Hnil. unfold members in Hnil.
  assert (n ∈ filter (λ n, is_member gt n) ns) as Hf.
  { apply list_elem_of_filter. by split. }
  rewrite Hnil in Hf. by apply not_elem_of_nil in Hf.
Qed.

Lemma members_unstamped gt ns :
  unstamped g gt → ∀ n, n ∈ members gt ns → n ∈ members g ns.
Proof.
  intros (Hsid & Hlen & Hnd) n. unfold members. rewrite !list_elem_of_filter.
  intros [Hm Hin]. split; [|done]. unfold is_member, contains, at_ in *.
  destruct (node_data gt !! node n) as [nd'|] eqn:E'; simpl in Hm; [|done].
  destruct (node_data g !! node n) as [nd|] eqn:E; simpl.
  - destruct (Hnd _ _ E) as (nd2 & E2 & _ & [Hs|[Hs _]]).
    + rewrite E' in E2. injection E2 as <-. by rewrite <- Hs, <- Hsid.
    + rewrite E' in E2. injection E2 as <-. rewrite Hs, Hsid in Hm.
      destruct (NO_SUBGRAPH =? g_subgraph_id g) eqn:Eq; [|done].
      apply Z.eqb_eq in Eq. by rewrite Eq in Hid.
  - apply lookup_lt_Some in E'. apply lookup_ge_None in E. lia.
Qed.

(** A vertex with a member neighbour keeps one while only isolated vertices
    are un-stamped. *)
Lemma members_kept gt v nd :
  unstamped g gt → contains g v = Ok true → node_data g !! v = Some nd →
  members g (neighbors nd) ≠ [] → members gt (neighbors nd) ≠ [].
Proof.
  intros Hun Hv Hnd Hne.
  destruct (members g (neighbors nd)) as [|n r] eqn:E; [done|]. clear Hne.
  assert (Hn : n ∈ members g (neighbors nd)) by (rewrite E; left).
  unfold members in Hn. apply list_elem_of_filter in Hn as [Hm Hin].
  apply (is_member_elem gt n); [|done].
  destruct Hun as (Hsid & _ & Hun).
  unfold is_member, contains, at_ in Hm |- *.
  destruct (node_data g !! node n) as [nx|] eqn:Ex; simpl in Hm; [|done].
  destruct (Hun _ _ Ex) as (nx' & Ex' & Hnb & [Hs|[_ Hiso]]).
  - rewrite Ex'. simpl. rewrite Hs, Hsid. by destruct (_ =? _).
  - exfalso. destruct Hiso as (nx2 & Ex2 & Hnil). rewrite Ex in Ex2. injection Ex2 as <-.
    destruct (Hsym v (node n) nd Hnd) as (nv & Hnv & Hback).
    { apply list_elem_of_fmap. eauto. }
    rewrite Ex in Hnv. injection Hnv as <-.
    apply list_elem_of_fmap in Hback as (m & Hm1 & Hm2).
    apply (is_member_elem g m (neighbors nx)); [|done|done].
    unfold is_member. by rewrite <- Hm1, Hv.
Qed.

Lemma unstamped_set gt v :
  unstamped g gt → isolated_in g v → unstamped g (set_subgraph gt v NO_SUBGRAPH).
Proof.
  intros (Hsid & Hlen & Hnd) Hiso. unfold set_subgraph. repeat split; simpl; try done.
  - by rewrite length_alter.
  - intros u nd Hu. destruct (Hnd _ _ Hu) as (nd' & E' & Hnb & Hs).
    destruct (decide (u = v)) as [->|Huv].
    + rewrite list_lookup_alter_eq, E'. simpl. eexists. split; [done|]. simpl. auto.
    + rewrite list_lookup_alter_ne by done. eauto.
Qed.

Lemma degree_unstamped cfg gt v k :
  unstamped g gt → degree cfg gt v = Ok k →
  ∃ nd, node_data g !! v = Some nd ∧ k = length (members gt (neighbors nd)).
Proof.
  intros (Hsid & Hlen & Hun) H. unfold degree in H.
  apply bind_Ok_inv in H as (c & Hc & H). apply bind_Ok_inv in H as ([] & Hchk & H).
  apply bind_Ok_inv in H as (nd' & Hnd' & H). apply at_Ok in Hnd'.
  destruct (node_data g !! v) as [nd|] eqn:E.
  - destruct (Hun _ _ E) as (nd2 & E2 & Hnb & _). rewrite Hnd' in E2. injection E2 as <-.
    exists nd. split; [done|]. rewrite <- Hnb. by apply count_contained_members.
  - apply lookup_lt_Some in Hnd'. apply lookup_ge_None in E. lia.
Qed.

Lemma mark_isolated_spec cfg todo : ∀ gt g' iso,
  unstamped g gt → (∀ v, v ∈ todo → contains g v = Ok true) →
  mark_isolated cfg gt todo = Ok (g', iso) →
  unstamped g g' ∧ nodes g' = nodes gt ∧ (∀ v, v ∈ iso ↔ v ∈ todo ∧ isolated_in g v).
Proof.
  induction todo as [|v todo IH]; intros gt g' iso Hun Hc H; simpl in H.
  - injection H as <- <-. split; [done|]. split; [done|]. intros v. split; [by intros ?%not_elem_of_nil|].
    by intros [?%not_elem_of_nil _].
  - apply bind_Ok_inv in H as (deg & Hdeg & H).
    destruct (degree_unstamped _ _ _ _ Hun Hdeg) as (nd & Hnd & Hk).
    assert (Hv : contains g v = Ok true) by (apply Hc; left).
    case_decide as Hz.
    + apply bind_Ok_inv in H as ([g1 iso1] & H1 & H). injection H as <- <-.
      assert (Hiso : isolated_in g v).
      { exists nd. split; [done|]. destruct (members g (neighbors nd)) eqn:E; [done|].
        exfalso. apply (members_kept gt v nd Hun Hv Hnd); [by rewrite E|].
        apply nil_length_inv. lia. }
      destruct (IH _ _ _ (unstamped_set _ _ Hun Hiso) (λ u Hu, Hc u (proj2 (elem_of_cons _ _ _) (or_intror Hu))) H1)
        as (Hun1 & Hn1 & Hiso1).
      split; [done|]. split; [done|]. intros u. rewrite !elem_of_cons, Hiso1. naive_solver.
    + destruct (IH _ _ _ Hun (λ u Hu, Hc u (proj2 (elem_of_cons _ _ _) (or_intror Hu))) H)
        as (Hun1 & Hn1 & Hiso1).
      split; [done|]. split; [done|]. intros u. rewrite elem_of_cons, Hiso1.
      split; [naive_solver|]. intros [[->|Hu] Hiso]; [|done]. exfalso.
      destruct Hiso as (nd2 & E2 & Hnil). rewrite Hnd in E2. injection E2 as <-.
      destruct (members gt (neighbors nd)) as [|m r] eqn:E; [simpl in Hk; lia|].
      assert (m ∈ members g (neighbors nd)) as Hin.
      { apply (members_unstamped gt); [done|]. rewrite E. left. }
      rewrite Hnil in Hin. by apply not_elem_of_nil in Hin.
Qed.

Lemma count_contained_total gt ns :
  (∀ n, n ∈ ns → is_Some (node_data gt !! node n)) →
  count_contained gt ns = Ok (length (members gt ns)).
Proof.
  induction ns as [|n ns IH]; intros Hin; simpl; [done|].
  destruct (Hin n) as [nd Hnd]; [left|].
  unfold contains at 1, at_. rewrite Hnd. simpl.
  rewrite IH by (intros; apply Hin; by right). simpl. rewrite members_cons.
  unfold is_member, contains, at_. rewrite Hnd. simpl.
  by destruct (subgraph_id nd =? g_subgraph_id gt).
Qed.

Lemma remove_isolated_spec cfg g' :
  listed_contained g → remove_isolated cfg g = Ok g' →
  (∀ v, neighbors <$> node_data g' !! v = neighbors <$> node_data g !! v)
  ∧ (∀ v, v ∈ nodes g' ↔ v ∈ nodes g ∧ ¬ isolated_in g v)
  ∧ (∀ v, v ∈ nodes g → isolated_in g v → contains g' v = Ok false)
  ∧ (∀ v, v ∈ nodes g' → ∃ k, degree cfg g' v = Ok (S k)).
Proof.
  intros Hl H. unfold remove_isolated in H.
  apply bind_Ok_inv in H as ([g1 iso] & H1 & H). injection H as <-.
  destruct (mark_isolated_spec cfg (nodes g) g g1 iso unstamped_refl Hl H1) as (Hun & Hn & Hiso).
  pose proof Hun as (Hsid & Hlen & Hnd).
  assert (Hkeep : ∀ v, v ∈ filter (λ v, v ∉ iso) (nodes g1) ↔ v ∈ nodes g ∧ ¬ isolated_in g v).
  { intros v. rewrite list_elem_of_filter, Hn, Hiso. tauto. }
  split; [|split; [|split]]; simpl.
  - intros v. destruct (node_data g !! v) as [nd|] eqn:E.
    + destruct (Hnd _ _ E) as (nd' & -> & Hnb & _). simpl. by rewrite Hnb.
    + apply lookup_ge_None in E. rewrite (proj2 (lookup_ge_None _ _)) by lia. done.
  - done.
  - intros v Hv Hi. (* an isolated listed vertex was examined and lost its stamp *)
    clear Hkeep.
    assert (∀ todo gt g1 iso, unstamped g gt → (∀ v, v ∈ todo → contains g v = Ok true) →
              mark_isolated cfg gt todo = Ok (g1, iso) →
              (contains gt v = Ok false ∨ v ∈ todo) → contains g1 v = Ok false) as Hgen.
    { clear -Hid Hsym Hi. induction todo as [|u todo IH]; intros gt g1 iso Hun Hc H Hor; simpl in H.
      - injection H as <- <-. destruct Hor as [|?%not_elem_of_nil]; done.
      - apply bind_Ok_inv in H as (deg & Hdeg & H).
        destruct (degree_unstamped _ _ _ _ Hun Hdeg) as (nd & Hnd & Hk).
        assert (Hu : contains g u = Ok true) by (apply Hc; left).
        case_decide as Hz.
        + apply bind_Ok_inv in H as ([g2 iso2] & H2 & H). injection H as <- <-.
          assert (Hiso : isolated_in g u).
          { exists nd. split; [done|]. destruct (members g (neighbors nd)) eqn:E; [done|].
            exfalso. apply (members_kept gt u nd Hun Hu Hnd); [by rewrite E|].
            apply nil_length_inv. lia. }
          eapply (IH _ _ _ (unstamped_set _ _ Hun Hiso)); [|exact H2|].
          { intros; apply Hc; by right. }
          destruct (decide (v = u)) as [->|Hvu].
          * left. destruct Hun as (Hsid & _ & Hun).
            destruct (Hun _ _ Hnd) as (nd' & E' & _).
            rewrite (contains_set_subgraph_eq _ _ _ _ E'). f_equal.
            apply Z.eqb_neq. rewrite Hsid. congruence.
          * destruct Hor as [Hf|[?|Hin]%elem_of_cons]; [|done|by right].
            left. by rewrite contains_set_subgraph_ne.
        + eapply (IH _ _ _ Hun); [|exact H|].
          { intros; apply Hc; by right. }
          destruct Hor as [Hf|[->|Hin]%elem_of_cons]; [by left| |by right].
          exfalso. destruct Hi as (nd2 & E2 & Hnil). rewrite Hnd in E2. injection E2 as <-.
          destruct (members gt (neighbors nd)) as [|m r] eqn:E; [simpl in Hk; lia|].
          assert (m ∈ members g (neighbors nd)) as Hin.
          { apply (members_unstamped gt); [done|]. rewrite E. left. }
          rewrite Hnil in Hin. by apply not_elem_of_nil in Hin. }
    specialize (Hgen (nodes g) g g1 iso unstamped_refl Hl H1 (or_intror Hv)).
    unfold contains in *. simpl. done.
  - intros v Hv. apply Hkeep in Hv as [Hv Hni].
    pose proof (Hl v Hv) as Hc. unfold contains, at_ in Hc.
    destruct (node_data g !! v) as [nd|] eqn:E; simpl in Hc; [|done].
    destruct (Hnd _ _ E) as (nd' & E' & Hnb & [Hs|[_ Hi]]); [|done].
    set (g2 := mkGraph _ _ _).
    assert (Hun2 : unstamped g g2) by (split; [done|split; done]).
    assert (Hmem : members g2 (neighbors nd) ≠ []).
    { apply (members_kept g2 v nd Hun2 (Hl v Hv) E). intros Hnil. apply Hni. by exists nd. }
    exists (pred (length (members g2 (neighbors nd)))).
    unfold degree, contains at 1, at_. simpl. rewrite E'. simpl.
    rewrite Hs, Hsid. injection Hc as ->. rewrite check_true by done. simpl.
    rewrite Hnb. rewrite count_contained_total.
    + f_equal. destruct (members g2 (neighbors nd)); [done|]. simpl. done.
    + intros n Hin. destruct (Hsym v (node n) nd E) as (nx & Ex & _).
      { apply list_elem_of_fmap. eauto. }
      destruct (Hnd _ _ Ex) as (nx' & Ex' & _). simpl. eauto.
Qed.

End remove_isolated.

Lemma symmetric_weights_adjacency g : symmetric_weights g → symmetric_adjacency g.
Proof.
  intros Hs u v nu Hu Hv. apply list_elem_of_fmap in Hv as (n & -> & Hn).
  assert (Hw : distance n ∈ stored_weights g u (node n)).
  { unfold stored_weights. rewrite Hu. apply list_elem_of_fmap. exists n. split; [done|].
    apply list_elem_of_filter. by split. }
  rewrite Hs in Hw. unfold stored_weights in Hw.
  destruct (node_data g !! node n) as [nv|]; [|by apply not_elem_of_nil in Hw].
  exists nv. split; [done|]. apply list_elem_of_fmap in Hw as (m & _ & Hm).
  apply list_elem_of_filter in Hm as [Hm1 Hm2]. apply list_elem_of_fmap. eauto.
Qed.

Lemma edges_invariant_symmetric N hist g : edges_invariant N hist g → symmetric_weights g.
Proof. intros [_ H] u x. by rewrite !H, min_weight_sym. Qed.

Lemma built_symmetric cfg n calls g :
  Forall (call_ok n) calls →
  (g0 ← Graph_new cfg n; add_edges cfg g0 calls) = Ok g → symmetric_weights g.
Proof.
  intros Hok H.
  destruct (Graph_new_invariant cfg n) as (g0 & Hg0 & Hinv0). rewrite Hg0 in H. simpl in H.
  destruct (add_edges_invariant cfg (n + 3) calls [] g0 Hinv0) as (g1 & Hg1 & Hinv).
  { intros u v d Hin. apply (proj1 (Forall_forall _ _) Hok _ Hin). }
  rewrite Hg1 in H. injection H as <-. by eapply edges_invariant_symmetric.
Qed.

(** X13.  On a subgraph whose listed vertices all carry its stamp and whose
    edges are stored at both ends, [remove_isolated] leaves every adjacency
    list as it is, drops from [nodes] exactly the vertices without a
    neighbour inside the subgraph and takes their stamp away; every vertex it
    keeps has a positive degree afterwards. *)
Theorem remove_isolated_no_isolated cfg g g' :
  g_subgraph_id g ≠ NO_SUBGRAPH → symmetric_adjacency g → listed_contained g →
  remove_isolated cfg g = Ok g' →
  (∀ v, neighbors <$> node_data g' !! v = neighbors <$> node_data g !! v)
  ∧ (∀ v, v ∈ nodes g' ↔ v ∈ nodes g ∧ ¬ isolated_in g v)
  ∧ (∀ v, v ∈ nodes g → isolated_in g v → contains g' v = Ok false)
  ∧ (∀ v, v ∈ nodes g' → ∃ k, degree cfg g' v = Ok (S k)).
Proof. intros Hid Hsym Hl H. by apply remove_isolated_spec. Qed.

Lemma remove_isolated_no_isolated_witness :
  (∀ v, neighbors <$> node_data sparse_graph_trimmed !! v = neighbors <$> node_data sparse_graph !! v)
  ∧ (∀ v, v ∈ nodes sparse_graph_trimmed ↔ v ∈ nodes sparse_graph ∧ ¬ isolated_in sparse_graph v)
  ∧ (∀ v, v ∈ nodes sparse_graph → isolated_in sparse_graph v →
       contains sparse_graph_trimmed v = Ok false)
  ∧ (∀ v, v ∈ nodes sparse_graph_trimmed → ∃ k, degree debug_config sparse_graph_trimmed v = Ok (S k)).
Proof.
  apply (remove_isolated_no_isolated debug_config sparse_graph sparse_graph_trimmed).
  - vm_compute. discriminate.
  - apply symmetric_weights_adjacency.
    apply (built_symmetric debug_config 4 sparse_edges).
    + repeat constructor; simpl; lia.
    + vm_compute. reflexivity.
  - intros v Hv. vm_compute in Hv.
    repeat (apply elem_of_cons in Hv as [->|Hv]; [vm_compute; reflexivity|]).
    by apply not_elem_of_nil in Hv.
  - vm_compute. reflexivity.
Defined.

(** *** [read_graph] *)

Lemma add_edge1_weights cfg g v w d g' :
  add_edge1 cfg g v w d = Ok g' →
  length (node_data g') = length (node_data g)
  ∧ ∀ u x, stored_weights g' u x =
      if decide (u = v ∧ x = w) then
        match stored_weights g v w with
        | [] => [d]
        | m :: r => Z.min m d :: r
        end
      else stored_weights g u x.
Proof.
  unfold add_edge1. intros H.
  apply bind_Ok_inv in H as ([] & _ & H). apply bind_Ok_inv in H as ([] & _ & H).
  apply bind_Ok_inv in H as ([] & _ & H). apply bind_Ok_inv in H as (nd & Hnd & H).
  apply at_Ok in Hnd.
  assert (Hv : (v < length (node_data g))%nat) by (by eapply lookup_lt_Some).
  assert (Hsw : ∀ x, stored_weights g v x = weights_in (neighbors nd) x).
  { intros x. unfold stored_weights. by rewrite Hnd. }
  destruct (relax_existing w d (neighbors nd)) as [ns|] eqn:E; injection H as <-.
  - split.
    { unfold set_neighbors. simpl. by rewrite length_alter. }
    intros u x. rewrite stored_weights_set_neighbors by done.
    destruct (relax_existing_Some _ _ _ _ E) as [(m & r & H1 & H2) H3].
    rewrite Hsw, H1.
    destruct (decide (u = v)) as [->|Hu].
    + destruct (decide (x = w)) as [->|Hx].
      * by rewrite decide_True.
      * rewrite decide_False by naive_solver. by rewrite H3, Hsw.
    + by rewrite decide_False by naive_solver.
  - split.
    { unfold set_neighbors. simpl. by rewrite length_alter. }
    intros u x. rewrite stored_weights_set_neighbors by done.
    rewrite Hsw, (relax_existing_None _ _ _ E).
    rewrite weights_in_app. simpl.
    destruct (decide (u = v)) as [->|Hu].
    + destruct (decide (x = w)) as [->|Hx].
      * rewrite decide_True by done. rewrite decide_True by done.
        by rewrite (relax_existing_None _ _ _ E).
      * rewrite decide_False by naive_solver. rewrite decide_False by naive_solver.
        by rewrite Hsw, app_nil_r.
    + by rewrite decide_False by naive_solver.
Qed.

Lemma add_edge_symmetric cfg g u v d g' :
  symmetric_weights g → add_edge cfg g u v d true = Ok g' → symmetric_weights g'.
Proof.
  intros Hs H. unfold add_edge in H. apply bind_Ok_inv in H as (g1 & H1 & H2).
  apply add_edge1_weights in H1 as [_ H1]. apply add_edge1_weights in H2 as [_ H2].
  intros a x. rewrite !H2, !H1.
  repeat case_decide; destruct_and?; simplify_eq; try done;
    try (exfalso; tauto); rewrite ?(Hs v u); try done; apply Hs.
Qed.

Lemma resize_symmetric cfg g n g' : resize cfg g n = Ok g' → symmetric_weights g'.
Proof.
  unfold resize. intros H. apply bind_Ok_inv in H as ([] & _ & H). injection H as <-.
  assert (Hnil : ∀ u x, stored_weights
            (mkGraph (alter (λ n0, mkNode NO_SUBGRAPH (neighbors n0)) (n + 2)%nat
               (alter (λ n0, mkNode NO_SUBGRAPH (neighbors n0)) (n + 1)%nat
                  (alter (λ n0, mkNode NO_SUBGRAPH (neighbors n0)) 0%nat
                     (replicate (n + 3) (mkNode (g_subgraph_id g) [])))))
               (nodes g ++ seq 1 n) (g_subgraph_id g)) u x = []).
  { intros u x. unfold stored_weights. cbn [node_data].
    match goal with |- context [?l !! u] =>
      assert (Hall : Forall (λ nd, neighbors nd = []) l) end.
    { repeat (apply Forall_alter; [|done]). by apply Forall_replicate. }
    destruct (_ !! u) as [nd|] eqn:E; [|done].
    by rewrite (proj1 (Forall_lookup _ _) Hall _ _ E). }
  intros u x. by rewrite !Hnil.
Qed.

Lemma read_lines_symmetric cfg fuel : ∀ s v w d g g',
  symmetric_weights g → read_lines cfg fuel s v w d g = Ok g' → symmetric_weights g'.
Proof.
  induction fuel as [|fuel IH]; intros s v w d g g' Hs H; simpl in H; [done|].
  destruct (get_char s) as [s1 [line_id|]]; [|by injection H as <-].
  case_bool_decide.
  - destruct (get_u32 _ v) as [s3 v'].
    apply bind_Ok_inv in H as (n & Hn & H). apply bind_Ok_inv in H as (g1 & Hg1 & H).
    eapply IH; [|exact H]. by eapply resize_symmetric.
  - case_bool_decide.
    + destruct (get_edge s1 v w d) as [[[s4 v'] w'] d'].
      apply bind_Ok_inv in H as (g1 & Hg1 & H). eapply IH; [|exact H].
      unfold add_parsed_edge in Hg1.
      apply bind_Ok_inv in Hg1 as (a & _ & Hg1). apply bind_Ok_inv in Hg1 as (b & _ & Hg1).
      apply bind_Ok_inv in Hg1 as (c & _ & Hg1). by eapply add_edge_symmetric.
    + by eapply IH.
Qed.

Lemma mark_isolated_frame cfg todo : ∀ gt g' iso,
  mark_isolated cfg gt todo = Ok (g', iso) →
  nodes g' = nodes gt
  ∧ (∀ v, neighbors <$> node_data g' !! v = neighbors <$> node_data gt !! v)
  ∧ ∀ v, v ∈ todo → is_Some (node_data gt !! v).
Proof.
  induction todo as [|v todo IH]; intros gt g' iso H; simpl in H.
  - injection H as <- <-. split; [done|]. split; [done|]. by intros v ?%not_elem_of_nil.
  - apply bind_Ok_inv in H as (deg & Hdeg & H).
    assert (Hv : is_Some (node_data gt !! v)).
    { unfold degree in Hdeg. apply bind_Ok_inv in Hdeg as (c & Hc & _).
      unfold contains in Hc. apply bind_Ok_inv in Hc as (nd & Hnd & _).
      apply at_Ok in Hnd. eauto. }
    assert (Hset : ∀ u, neighbors <$> node_data (set_subgraph gt v NO_SUBGRAPH) !! u
                        = neighbors <$> node_data gt !! u).
    { intros u. unfold set_subgraph. cbn [node_data].
      destruct (decide (u = v)) as [->|Hu].
      - rewrite list_lookup_alter_eq. by destruct (node_data gt !! v).
      - by rewrite list_lookup_alter_ne. }
    case_decide as Hz.
    + apply bind_Ok_inv in H as ([g1 iso1] & H1 & H). injection H as <- <-.
      destruct (IH _ _ _ H1) as (Hn & Hnb & Hr). split; [done|]. split.
      * intros u. by rewrite Hnb, Hset.
      * intros u [->|Hu]%elem_of_cons; [done|].
        specialize (Hr u Hu). specialize (Hset u).
        destruct (node_data gt !! u); [done|].
        destruct Hr as [y Hy]. rewrite Hy in Hset. done.
    + destruct (IH _ _ _ H) as (Hn & Hnb & Hr). split; [done|]. split; [done|].
      intros u [->|Hu]%elem_of_cons; [done|]. by apply Hr.
Qed.

Lemma stored_weights_neighbors g g' :
  (∀ v, neighbors <$> node_data g' !! v = neighbors <$> node_data g !! v) →
  ∀ u x, stored_weights g' u x = stored_weights g u x.
Proof.
  intros H u x. unfold stored_weights. specialize (H u).
  destruct (node_data g' !! u), (node_data g !! u); simpl in H; try done.
  by injection H as ->.
Qed.

Lemma has_reverse_elem v d ns :
  d ∈ weights_in ns v → has_reverse v d ns = true.
Proof.
  unfold weights_in, has_reverse. intros (n & -> & Hn)%list_elem_of_fmap.
  apply list_elem_of_filter in Hn as [Hn Hin].
  induction Hin as [n ns|n m ns Hin IH]; simpl.
  - rewrite bool_decide_eq_true_2 by done. by rewrite Z.eqb_refl.
  - rewrite IH by done. apply orb_true_r.
Qed.

Lemma is_undirected_at_symmetric g v ns :
  symmetric_weights g →
  (∀ n, n ∈ ns → distance n ∈ stored_weights g v (node n)) →
  is_undirected_at g v ns = Ok true.
Proof.
  intros Hs. induction ns as [|n ns IH]; intros Hin; simpl; [done|].
  pose proof (Hin n (list_elem_of_here _ _)) as Hn. rewrite Hs in Hn.
  unfold stored_weights in Hn.
  destruct (node_data g !! node n) as [nd|] eqn:E; [|by apply not_elem_of_nil in Hn].
  unfold at_. rewrite E. simpl. rewrite (has_reverse_elem _ _ _ Hn).
  apply IH. intros m Hm. apply Hin. by right.
Qed.

Lemma is_undirected_from_symmetric g todo :
  symmetric_weights g → (∀ v, v ∈ todo → is_Some (node_data g !! v)) →
  is_undirected_from g todo = Ok true.
Proof.
  intros Hs. induction todo as [|v todo IH]; intros Hr; simpl; [done|].
  destruct (Hr v) as [nd Hnd]; [left|]. unfold at_. rewrite Hnd. simpl.
  rewrite is_undirected_at_symmetric; [|done|].
  - simpl. apply IH. intros u Hu. apply Hr. by right.
  - intros n Hn. unfold stored_weights. rewrite Hnd. apply list_elem_of_fmap.
    exists n. split; [done|]. apply list_elem_of_filter. by split.
Qed.

(** X14.  A graph that [read_graph] fills in from one whose edges are stored
    at both ends with equal weights (an empty one in particular) is such a
    graph again, whatever the lines hold, and [is_undirected] accepts it. *)
Theorem read_graph_undirected cfg g input g' :
  symmetric_weights g → read_graph cfg g input = Ok g' →
  symmetric_weights g' ∧ is_undirected g' = Ok true.
Proof.
  intros Hs H. unfold read_graph in H. apply bind_Ok_inv in H as (g1 & H1 & H).
  apply read_lines_symmetric in H1; [|done].
  unfold remove_isolated in H. apply bind_Ok_inv in H as ([g2 iso] & H2 & H).
  injection H as <-. destruct (mark_isolated_frame _ _ _ _ _ H2) as (Hn & Hnb & Hr).
  set (g3 := mkGraph (node_data g2) (filter (λ v, v ∉ iso) (nodes g2)) (g_subgraph_id g2)).
  assert (Hnb3 : ∀ v, neighbors <$> node_data g3 !! v = neighbors <$> node_data g1 !! v)
    by exact Hnb.
  assert (Hs2 : symmetric_weights g3).
  { intros u x. rewrite (stored_weights_neighbors g1 g3 Hnb3 u x).
    rewrite (stored_weights_neighbors g1 g3 Hnb3 x u). apply H1. }
  split; [done|]. apply is_undirected_from_symmetric; [done|].
  intros v Hv. subst g3. cbn [nodes node_data] in *.
  apply list_elem_of_filter in Hv as [_ Hv]. rewrite Hn in Hv.
  specialize (Hr v Hv). specialize (Hnb v).
  destruct (node_data g2 !! v); [by eexists|]. destruct Hr as [y Hy]. by rewrite Hy in Hnb.
Qed.

Lemma read_graph_undirected_witness :
  symmetric_weights sample_input_graph ∧ is_undirected sample_input_graph = Ok true.
Proof.
  apply (read_graph_undirected spec_config empty_graph sample_input).
  - intros u x. unfold stored_weights.
    destruct u as [|[|[|u]]], x as [|[|[|x]]]; reflexivity.
  - vm_compute. reflexivity.
Defined.

(** ** Decrease updates *)

Section decrease.

Implicit Types (ch : ContractionHierarchy) (idx : ContractionIndex).

Lemma weights_below_refl ch : weights_below ch ch.
Proof.
  apply Forall2_same_length_lookup. split; [done|]. intros i x y Hx Hy.
  assert (x = y) as -> by congruence.
  apply Forall2_same_length_lookup. split; [done|]. intros j e e' He He'.
  assert (e = e') as -> by congruence. split; [done|lia].
Qed.

Lemma weights_below_trans ch1 ch2 ch3 :
  weights_below ch1 ch2 → weights_below ch2 ch3 → weights_below ch1 ch3.
Proof.
  unfold weights_below. intros H1 H2. eapply Forall2_trans; [|done..].
  simpl. intros x y z Hxy Hyz. eapply Forall2_trans; [|done..].
  simpl. intros e1 e2 e3 [Hn1 Hd1] [Hn2 Hd2]. split; [congruence|lia].
Qed.

Lemma find_neighbor_lookup w l : ∀ k0 k x,
  find_neighbor w l k0 = Some (k, x) →
  (k0 ≤ k)%nat ∧ l !! (k - k0)%nat = Some x ∧ node x = w.
Proof.
  induction l as [|n l IH]; intros k0 k x H; simpl in H; [done|].
  case_decide as Hn.
  - injection H as <- <-. rewrite Nat.sub_diag. done.
  - apply IH in H as (Hle & Hl & Hx). split; [lia|]. split; [|done].
    replace (k - k0)%nat with (S (k - S k0)) by lia. done.
Qed.

Lemma UpNeighbor_lookup ch v w k x :
  UpNeighbor ch v w = Ok (k, x) →
  ∃ n, ch !! v = Some n ∧ CHNode.up_neighbors n !! k = Some x ∧ node x = w.
Proof.
  unfold UpNeighbor. intros H. apply bind_Ok_inv in H as (n & Hn & H). apply at_Ok in Hn.
  destruct (find_neighbor w _ 0) as [[k' x']|] eqn:E; [|done]. injection H as -> ->.
  apply find_neighbor_lookup in E as (_ & E & Hx). rewrite Nat.sub_0_r in E. eauto.
Qed.

Lemma find_neighbor_below w l : ∀ l' k0 k x,
  Forall2 (λ e e', node e' = node e ∧ distance e' <= distance e) l l' →
  find_neighbor w l k0 = Some (k, x) →
  ∃ x', find_neighbor w l' k0 = Some (k, x') ∧ distance x' <= distance x.
Proof.
  induction l as [|n l IH]; intros l' k0 k x HF H; simpl in H; [done|].
  inversion HF as [|? n' ? l2 [Hn Hd] HF2]; subst. simpl. rewrite Hn.
  case_decide.
  - injection H as <- <-. eauto.
  - by eapply IH.
Qed.

Lemma UpNeighbor_below ch ch' v w k x :
  weights_below ch ch' → UpNeighbor ch v w = Ok (k, x) →
  ∃ x', UpNeighbor ch' v w = Ok (k, x') ∧ distance x' <= distance x.
Proof.
  intros Hb H. unfold UpNeighbor in *. apply bind_Ok_inv in H as (n & Hn & H).
  apply at_Ok in Hn. destruct (Forall2_lookup_l _ _ _ _ _ Hb Hn) as (n' & Hn' & HF).
  rewrite (at_lookup _ _ _ Hn'). simpl.
  destruct (find_neighbor w _ 0) as [[k' x']|] eqn:E; [|done]. injection H as -> ->.
  destruct (find_neighbor_below _ _ _ _ _ _ HF E) as (x2 & -> & Hx2). eauto.
Qed.

Lemma find_neighbor_alter w l d pc k : ∀ k0 j x,
  find_neighbor w l k0 = Some (j, x) →
  find_neighbor w (alter (λ y, mkNeighbor (node y) d pc) k l) k0 =
    Some (j, if decide (j = (k0 + k)%nat) then mkNeighbor (node x) d pc else x).
Proof.
  revert k. induction l as [|n l IH]; intros k k0 j x H; simpl in H; [done|].
  destruct k as [|k];
    [change (alter (λ y, mkNeighbor (node y) d pc) 0%nat (n :: l))
       with (mkNeighbor (node n) d pc :: l)
    |change (alter (λ y, mkNeighbor (node y) d pc) (S k) (n :: l))
       with (n :: alter (λ y, mkNeighbor (node y) d pc) k l)];
    cbn [find_neighbor node].
  - case_decide as Hn.
    + injection H as <- <-. rewrite decide_True by lia. done.
    + pose proof (find_neighbor_lookup _ _ _ _ _ H) as (Hle & _).
      rewrite H. rewrite decide_False by lia. done.
  - case_decide as Hn.
    + injection H as <- <-. rewrite decide_False by lia. done.
    + rewrite (IH k (S k0) j x H). repeat case_decide; try done; lia.
Qed.

Lemma UpNeighbor_assign_up ch v w k x d pc :
  UpNeighbor ch v w = Ok (k, x) →
  UpNeighbor (assign_up ch v k d pc) v w = Ok (k, mkNeighbor (node x) d pc).
Proof.
  unfold UpNeighbor, assign_up. intros H. apply bind_Ok_inv in H as (n & Hn & H).
  apply at_Ok in Hn. unfold at_. rewrite list_lookup_alter_eq, Hn. simpl.
  destruct (find_neighbor w _ 0) as [[k' x']|] eqn:E; [|done]. injection H as -> ->.
  rewrite (find_neighbor_alter _ _ d pc k _ _ _ E). by rewrite decide_True by done.
Qed.

Lemma weights_below_assign_up ch v k d pc :
  (∀ n x, ch !! v = Some n → CHNode.up_neighbors n !! k = Some x → d <= distance x) →
  weights_below ch (assign_up ch v k d pc).
Proof.
  intros Hd. apply Forall2_same_length_lookup. split.
  { unfold assign_up. by rewrite length_alter. }
  intros i n n' Hn. unfold assign_up. rewrite list_lookup_alter.
  case_decide; [subst; rewrite Hn|rewrite Hn]; intros [= <-]; simpl.
  - apply Forall2_same_length_lookup. split; [by rewrite length_alter|].
    intros j e e' He. rewrite list_lookup_alter.
    case_decide; [subst; rewrite He|rewrite He]; intros [= <-]; simpl.
    + split; [done|]. by eapply Hd.
    + split; [done|lia].
  - apply Forall2_same_length_lookup. split; [done|]. intros j e e' He He'.
    assert (e = e') as -> by congruence. split; [done|lia].
Qed.

Lemma GS_Dec_loop_weights fuel : ∀ ch q C ch' C',
  GS_Dec_loop fuel ch q C = Ok (ch', C') → weights_below ch ch'.
Proof.
  induction fuel as [|fuel IH]; intros ch q C ch' C' H; simpl in H;
    destruct (pq_pop q) as [[next q']|]; try discriminate;
    try (injection H as <- <-; apply weights_below_refl).
  apply bind_Ok_inv in H as ([k x] & Hx & H).
  destruct (_ || _) eqn:Ecmp; [|by eapply IH].
  apply bind_Ok_inv in H as (n & Hn & H). apply bind_Ok_inv in H as (q2 & Hq2 & H).
  eapply weights_below_trans; [|by eapply IH].
  apply weights_below_assign_up. intros n0 x0 Hn0 Hx0.
  apply UpNeighbor_lookup in Hx as (n1 & Hn1 & Hx1 & _).
  assert (n0 = n1) as -> by congruence. assert (x0 = x) as -> by congruence.
  apply orb_true_iff in Ecmp as [?%Z.ltb_lt|?%Z.eqb_eq]; lia.
Qed.

(** *** The queue of [GS_Dec] *)

Lemma pq_take_spec m q y r :
  pq_take m q = Some (y, r) →
  y ∈ q ∧ (∀ e, e ∈ q → e = y ∨ e ∈ r) ∧ (∀ e, e ∈ r → e ∈ q).
Proof.
  revert y r. induction q as [|x q IH]; intros y r H; simpl in H; [done|].
  destruct (s_dist_index x =? m).
  - injection H as <- <-. split; [left|]. split; [|by right].
    intros e [->|He]%elem_of_cons; auto.
  - destruct (pq_take m q) as [[y' r']|]; simpl in H; [|done]. injection H as <- <-.
    destruct (IH _ _ eq_refl) as (Hy & Hr & Hsub). split; [by right|]. split.
    + intros e [->|He]%elem_of_cons; [right; left|].
      destruct (Hr e He) as [->|?]; [by left|right; by right].
    + intros e [->|He]%elem_of_cons; [left|right; by apply Hsub].
Qed.

Lemma pq_take_elem m q e : e ∈ q → s_dist_index e = m → is_Some (pq_take m q).
Proof.
  induction q as [|x q IH]; intros He Hm; [by apply elem_of_nil in He|]. simpl.
  destruct (s_dist_index x =? m) eqn:E; [eauto|].
  apply elem_of_cons in He as [->|He].
  - apply Z.eqb_neq in E. done.
  - destruct (IH He Hm) as [[y r] ->]. simpl. eauto.
Qed.

Lemma pq_max_elem q :
  q ≠ [] → (∀ e, e ∈ q → 0 <= s_dist_index e) → ∃ e, e ∈ q ∧ s_dist_index e = pq_max q.
Proof.
  induction q as [|x q IH]; intros Hne Hpos; [done|]. simpl.
  destruct q as [|y q].
  - exists x. split; [left|]. simpl. specialize (Hpos x (list_elem_of_here _ _)). lia.
  - destruct IH as (e & He & Hm); [done|intros; apply Hpos; by right|].
    destruct (Z.max_spec (s_dist_index x) (pq_max (y :: q))) as [[_ ->]|[_ ->]].
    + exists e. split; [by right|done].
    + exists x. split; [left|done].
Qed.

Lemma pq_pop_None q :
  (∀ e, e ∈ q → 0 <= s_dist_index e) → pq_pop q = None → q = [].
Proof.
  intros Hpos H. destruct q as [|x q]; [done|]. exfalso.
  destruct (pq_max_elem (x :: q)) as (e & He & Hm); [done..|].
  destruct (pq_take_elem _ _ _ He Hm) as [r Hr]. unfold pq_pop in H. congruence.
Qed.

Lemma unsigned_same_shape ch ch' : same_shape ch ch' → unsigned_positions ch → unsigned_positions ch'.
Proof.
  intros Hs Hu v n' Hn'. destruct (Forall2_lookup_r _ _ _ _ _ Hs Hn') as (n & Hn & <- & _).
  by eapply Hu.
Qed.

Lemma dist_index_of_unsigned ch v d :
  unsigned_positions ch → dist_index_of ch v = Ok d → 0 <= d.
Proof.
  unfold dist_index_of. intros Hu H. apply bind_Ok_inv in H as (n & Hn & H).
  apply at_Ok in Hn. injection H as <-. by eapply Hu.
Qed.

Lemma GS_Dec_relax_queue ch next ns : ∀ q q',
  unsigned_positions ch → (∀ e, e ∈ q → 0 <= s_dist_index e) →
  GS_Dec_relax ch next ns q = Ok q' →
  (∀ e, e ∈ q → e ∈ q') ∧ (∀ e, e ∈ q' → 0 <= s_dist_index e).
Proof.
  induction ns as [|n ns IH]; intros q q' Hu Hq H; simpl in H.
  - by injection H as <-.
  - case_decide as Hn; [|by eapply IH].
    apply bind_Ok_inv in H as ([a b] & Hab & H). apply bind_Ok_inv in H as ([k x] & Hx & H).
    apply bind_Ok_inv in H as (da & Hda & H).
    apply IH in H as [Hin Hpos]; [|done|].
    + split; [|done]. intros e He. apply Hin. destruct (_ <=? _); [|done].
      apply elem_of_app. by left.
    + intros e He. destruct (_ <=? _); [|by apply Hq].
      apply elem_of_app in He as [He|He]; [by apply Hq|].
      apply list_elem_of_singleton in He as ->. simpl. by eapply dist_index_of_unsigned.
Qed.

Lemma GS_Dec_loop_below fuel : ∀ ch q C ch' C',
  unsigned_positions ch → (∀ e, e ∈ q → 0 <= s_dist_index e) →
  GS_Dec_loop fuel ch q C = Ok (ch', C') →
  weights_below ch ch'
  ∧ ∀ e, e ∈ q → ∃ k x, UpNeighbor ch' (s_v e) (s_w e) = Ok (k, x) ∧ distance x <= s_distance e.
Proof.
  induction fuel as [|fuel IH]; intros ch q C ch' C' Hu Hq H; simpl in H;
    destruct (pq_pop q) as [[next q']|] eqn:Epop; try discriminate.
  1,3: injection H as <- <-; split; [apply weights_below_refl|];
       rewrite (pq_pop_None _ Hq Epop); by intros e ?%elem_of_nil.
  apply pq_take_spec in Epop as (Hnext & Hrest & Hsub).
  assert (Hq' : ∀ e, e ∈ q' → 0 <= s_dist_index e) by (intros; apply Hq; by apply Hsub).
  apply bind_Ok_inv in H as ([k x] & Hx & H).
  destruct (_ || _) eqn:Ecmp.
  - apply bind_Ok_inv in H as (n & Hn & H). apply bind_Ok_inv in H as (q2 & Hq2 & H).
    set (pc := if s_distance next <? distance x then s_path_count next
               else add16 (path_count x) (s_path_count next)) in *.
    set (ch1 := assign_up ch (s_v next) k (s_distance next) pc) in *.
    assert (Hu1 : unsigned_positions ch1).
    { eapply unsigned_same_shape; [apply same_shape_assign_up|done]. }
    destruct (GS_Dec_relax_queue _ _ _ _ _ Hu1 Hq' Hq2) as [Hin2 Hpos2].
    destruct (IH _ _ _ _ _ Hu1 Hpos2 H) as [Hb1 Hall].
    assert (Hb0 : weights_below ch ch1).
    { apply weights_below_assign_up. intros n0 x0 Hn0 Hx0.
      apply UpNeighbor_lookup in Hx as (n1 & Hn1 & Hx1 & _).
      assert (n0 = n1) as -> by congruence. assert (x0 = x) as -> by congruence.
      apply orb_true_iff in Ecmp as [?%Z.ltb_lt|?%Z.eqb_eq]; lia. }
    split; [by eapply weights_below_trans|].
    intros e He. destruct (Hrest e He) as [->|He']; [|by apply Hall, Hin2].
    pose proof (UpNeighbor_assign_up _ _ _ _ _ (s_distance next) pc Hx) as Hx1.
    destruct (UpNeighbor_below _ _ _ _ _ _ Hb1 Hx1) as (x' & Hx' & Hle). simpl in Hle. eauto.
  - destruct (IH _ _ _ _ _ Hu Hq' H) as [Hb Hall]. split; [done|].
    intros e He. destruct (Hrest e He) as [->|He']; [|by apply Hall].
    destruct (UpNeighbor_below _ _ _ _ _ _ Hb Hx) as (x' & Hx' & Hle).
    apply orb_false_iff in Ecmp as [?%Z.ltb_ge _]. exists k, x'. split; [done|lia].
Qed.

Lemma higher_first_same_shape ch ch' a b :
  same_shape ch ch' → higher_first ch' a b = higher_first ch a b.
Proof.
  intros Hs. unfold higher_first, dist_index_of, at_.
  assert (Hl : ∀ v, CHNode.dist_index <$> ch' !! v = CHNode.dist_index <$> ch !! v).
  { intros v. destruct (ch !! v) as [n|] eqn:E.
    - destruct (Forall2_lookup_l _ _ _ _ _ Hs E) as (n' & -> & Hd & _). simpl.
      by rewrite Hd.
    - apply lookup_ge_None in E. rewrite (Forall2_length _ _ _ Hs) in E.
      apply lookup_ge_None in E. by rewrite E. }
  pose proof (Hl a) as Ha. pose proof (Hl b) as Hb.
  destruct (ch' !! a), (ch !! a); simpl in *; try done. injection Ha as ->.
  destruct (ch' !! b), (ch !! b); simpl in *; try done. by injection Hb as ->.
Qed.

Lemma GS_Dec_seed_queue ch updates : ∀ q q',
  unsigned_positions ch → (∀ e, e ∈ q → 0 <= s_dist_index e) →
  GS_Dec_seed ch updates q = Ok q' →
  (∀ e, e ∈ q → e ∈ q') ∧ (∀ e, e ∈ q' → 0 <= s_dist_index e)
  ∧ ∀ old new a0 b0, ((old, new), (a0, b0)) ∈ updates →
      ∃ a b k x, higher_first ch a0 b0 = Ok (a, b) ∧ UpNeighbor ch a b = Ok (k, x)
        ∧ (distance x < new ∨ ∃ e, e ∈ q' ∧ s_v e = a ∧ s_w e = b ∧ s_distance e = new).
Proof.
  induction updates as [|[[old new] [a0 b0]] updates IH]; intros q q' Hu Hq H; simpl in H.
  - injection H as <-. split; [done|]. split; [done|]. by intros ???? ?%elem_of_nil.
  - apply bind_Ok_inv in H as ([a b] & Hab & H). apply bind_Ok_inv in H as ([k x] & Hx & H).
    apply bind_Ok_inv in H as (da & Hda & H).
    apply IH in H as (Hin & Hpos & Hupd); [|done|].
    + split; [|split; [done|]].
      * intros e He. apply Hin. destruct (_ <=? _); [|done]. apply elem_of_app. by left.
      * intros old' new' a' b' [[= -> -> -> ->]|He]%elem_of_cons; [|by eapply Hupd].
        exists a, b, k, x. split; [done|]. split; [done|].
        destruct (new <=? distance x) eqn:E; [right|left; by apply Z.leb_gt].
        eexists. split; [apply Hin, elem_of_app; right; by left|done].
    + intros e He. destruct (_ <=? _); [|by apply Hq].
      apply elem_of_app in He as [He|He]; [by apply Hq|].
      apply list_elem_of_singleton in He as ->. simpl. by eapply dist_index_of_unsigned.
Qed.

Lemma wr_below l i x l' cur :
  l !! i = Some cur → x <= cur → wr l i x = Ok l' → Forall2 (λ d d', d' <= d) l l'.
Proof.
  unfold wr. intros Hc Hx. case_decide; [|done]. intros [= <-].
  apply Forall2_same_length_lookup. split; [symmetry; apply length_insert|].
  intros j a b Ha Hb. apply list_lookup_insert_Some in Hb as [(<- & <- & _)|[Hne Hb]].
  - assert (a = cur) as -> by congruence. done.
  - assert (a = b) as -> by congruence. lia.
Qed.

Lemma labels_below_refl idx : labels_below idx idx.
Proof.
  apply Forall2_same_length_lookup. split; [done|]. intros i x y Hx Hy.
  assert (x = y) as -> by congruence.
  apply Forall2_same_length_lookup. split; [done|]. intros j e e' He He'.
  assert (e = e') as -> by congruence. lia.
Qed.

Lemma labels_below_trans idx1 idx2 idx3 :
  labels_below idx1 idx2 → labels_below idx2 idx3 → labels_below idx1 idx3.
Proof.
  unfold labels_below. intros H1 H2. eapply Forall2_trans; [|done..].
  simpl. intros x y z Hxy Hyz. eapply Forall2_trans; [|done..].
  simpl. intros e1 e2 e3 ? ?. lia.
Qed.

Lemma write_label_below idx a i d p idx' cv cur :
  (heap idx : list Block) !! a = Some cv → b_distances cv !! i = Some cur → d <= cur →
  write_label idx a i d p = Ok idx' → labels_below idx idx'.
Proof.
  unfold write_label. intros Ha Hc Hd H.
  apply bind_Ok_inv in H as (b & Hb & H). apply at_Ok in Hb.
  rewrite Ha in Hb. injection Hb as <-.
  apply bind_Ok_inv in H as (ds & Hds & H). apply bind_Ok_inv in H as (ps & Hps & H).
  injection H as <-. unfold labels_below. simpl.
  apply Forall2_same_length_lookup. split; [symmetry; apply length_insert|].
  intros j x y Hx Hy.
  apply list_lookup_insert_Some in Hy as [(<- & <- & _)|[Hne Hy]].
  - rewrite Ha in Hx. injection Hx as <-. simpl. by eapply wr_below.
  - rewrite Hx in Hy. injection Hy as <-.
    apply Forall2_same_length_lookup. split; [done|]. intros k e e' He He'.
    assert (e = e') as -> by congruence. lia.
Qed.

Lemma DCL_Dec_drain_below cfg ch fuel : ∀ idx q trace idx' q' trace',
  DCL_Dec_drain cfg ch fuel idx q trace = Ok (idx', q', trace') → labels_below idx idx'.
Proof.
  induction fuel as [|fuel IH]; simpl; intros idx q trace idx' q' trace' H.
  { injection H as <- <- <-. apply labels_below_refl. }
  destruct (util.empty q); [injection H as <- <- <-; apply labels_below_refl|].
  apply bind_Ok_inv in H as ([next q1] & Hpop & H).
  apply bind_Ok_inv in H as ([a cv] & Hcv & H). apply bind_Ok_inv in H as (cur & Hcur & H).
  destruct (_ || _) eqn:Ecmp; [|by eapply IH].
  apply bind_Ok_inv in H as (p & Hp & H). apply bind_Ok_inv in H as (idx1 & Hw & H).
  apply bind_Ok_inv in H as (n & Hn & H). apply bind_Ok_inv in H as (q2 & Hdown & H).
  eapply labels_below_trans; [|by eapply IH].
  unfold label_block in Hcv. apply bind_Ok_inv in Hcv as (l & Hl & Hcv).
  destruct (cut_index l) as [a'|]; [|done].
  apply bind_Ok_inv in Hcv as (b & Hb & Hcv). apply at_Ok in Hb. injection Hcv as -> ->.
  unfold rd in Hcur. destruct (b_distances cv !! i_i next) as [c|] eqn:Ec; [|done].
  injection Hcur as ->.
  eapply write_label_below; [done..| |done].
  apply orb_true_iff in Ecmp as [?%Z.ltb_lt|?%Z.eqb_eq]; lia.
Qed.

End decrease.

(** X15.  A decrease update never raises a stored value: after [DCL_Dec]
    every vertex has the same up-neighbours with weights at most the old
    ones, and every label slot holds a distance at most the old one. *)
Theorem DCL_Dec_never_raises cfg fuel ch idx updates ch' idx' trace :
  DCL_Dec cfg fuel ch idx updates = Ok (ch', idx', trace) →
  weights_below ch ch' ∧ labels_below idx idx'.
Proof.
  intros H. unfold DCL_Dec in H.
  apply bind_Ok_inv in H as ([ch1 C] & H1 & H). apply bind_Ok_inv in H as (q & Hq & H).
  apply bind_Ok_inv in H as ([[idx1 q1] tr] & Hdrain & H).
  destruct (util.empty q1); [|discriminate]. injection H as <- <- <-.
  split; [|by eapply DCL_Dec_drain_below].
  unfold GS_Dec in H1. apply bind_Ok_inv in H1 as (q0 & Hq0 & H1).
  apply bind_Ok_inv in H1 as ([ch2 C2] & H2 & H1). injection H1 as <- <-.
  by eapply GS_Dec_loop_weights.
Qed.

Lemma DCL_Dec_never_raises_witness :
  weights_below weighted_sc.1 decreased.1.1 ∧ labels_below weighted_index decreased.1.2.
Proof.
  apply (DCL_Dec_never_raises spec_config 100 weighted_sc.1 weighted_index decrease_3_2
           decreased.1.1 decreased.1.2 decreased.2).
  vm_compute. reflexivity.
Defined.

(** X16.  When [GS_Dec] returns (positions being unsigned), the shortcut of
    every updated edge, stored at the endpoint with the larger [dist_index],
    weighs at most the new weight of the update. *)
Theorem GS_Dec_reaches_new_weight fuel ch updates C ch' C' :
  unsigned_positions ch →
  GS_Dec fuel ch updates C = Ok (ch', C') →
  ∀ old new a b, ((old, new), (a, b)) ∈ updates → shortcut_at_most ch' a b new.
Proof.
  intros Hu' H old new a0 b0 Hin.
  pose proof (GS_Dec_shape _ _ _ _ _ _ H) as Hshape.
  unfold GS_Dec in H. apply bind_Ok_inv in H as (q0 & Hq0 & H).
  apply bind_Ok_inv in H as ([ch2 C2] & H2 & H). injection H as <- <-.
  destruct (GS_Dec_seed_queue _ _ _ _ Hu' (λ e He, False_ind _ (proj1 (elem_of_nil e) He)) Hq0)
    as (_ & Hpos & Hupd).
  destruct (GS_Dec_loop_below _ _ _ _ _ _ Hu' Hpos H2) as [Hb Hall].
  destruct (Hupd _ _ _ _ Hin) as (a & b & k & x & Hab & Hx & Hor).
  exists a, b. rewrite (higher_first_same_shape _ _ _ _ Hshape).
  destruct Hor as [Hlt|(e & He & <- & <- & <-)].
  - destruct (UpNeighbor_below _ _ _ _ _ _ Hb Hx) as (x' & Hx' & Hle).
    exists k, x'. split; [done|]. split; [done|lia].
  - destruct (Hall e He) as (k' & x' & Hx' & Hle). eauto.
Qed.

Lemma GS_Dec_reaches_new_weight_witness : shortcut_at_most decreased.1.1 3 2 1.
Proof.
  apply (GS_Dec_reaches_new_weight 100 weighted_sc.1 decrease_3_2 [] decreased.1.1
           (unwrap ([], []) (GS_Dec 100 weighted_sc.1 decrease_3_2 [])).2) with (old := 2).
  - intros v n Hn.
    apply (Forall_lookup_1 (λ n, 0 <= CHNode.dist_index n) weighted_sc.1 v n); [|done].
    repeat constructor; vm_compute; discriminate.
  - vm_compute. reflexivity.
  - left.
Defined.

(** ** [merge_edges] *)

Section merge_edges.

Implicit Types (k : edge_t) (x y last : edge_t * edata_t) (l v : list (edge_t * edata_t)).

Lemma edge_key_le_trans k1 k2 k3 : edge_key_le k1 k2 → edge_key_le k2 k3 → edge_key_le k1 k3.
Proof.
  unfold edge_key_le, edge_key_lt. destruct k1, k2, k3. simpl.
  intros [[= -> ->]|H1] [[= -> ->]|H2]; auto. right. lia.
Qed.

Lemma edge_lt_true x y : edge_lt x y = true → edge_key_le x.1 y.1.
Proof.
  destruct x as [[a1 b1] [d1 c1]], y as [[a2 b2] [d2 c2]]. unfold edge_lt, edge_key_le, edge_key_lt.
  simpl. destruct (a1 <? a2)%nat eqn:E1; [apply Nat.ltb_lt in E1; auto|].
  destruct (a2 <? a1)%nat eqn:E2; [done|].
  destruct (b1 <? b2)%nat eqn:E3; [apply Nat.ltb_lt in E3|].
  { apply Nat.ltb_ge in E1, E2. intros _. right. right. lia. }
  destruct (b2 <? b1)%nat eqn:E4; [done|].
  apply Nat.ltb_ge in E1, E2, E3, E4. intros _. left. f_equal; lia.
Qed.

Lemma edge_lt_false x y : edge_lt y x = false → edge_key_le x.1 y.1.
Proof.
  destruct x as [[a1 b1] [d1 c1]], y as [[a2 b2] [d2 c2]]. unfold edge_lt, edge_key_le, edge_key_lt.
  simpl. destruct (a2 <? a1)%nat eqn:E1; [done|].
  destruct (a1 <? a2)%nat eqn:E2; [apply Nat.ltb_lt in E2; auto|].
  destruct (b2 <? b1)%nat eqn:E3; [done|].
  destruct (b1 <? b2)%nat eqn:E4; [apply Nat.ltb_lt in E4|].
  { apply Nat.ltb_ge in E1, E2. intros _. right. right. lia. }
  apply Nat.ltb_ge in E1, E2, E3, E4. intros _. left. f_equal; lia.
Qed.

Lemma insert_by_keys_sorted x l :
  StronglySorted edge_key_le l.*1 →
  StronglySorted edge_key_le (util.insert_by edge_lt x l).*1.
Proof.
  induction l as [|y l IH]; simpl; intros Hs.
  - repeat constructor.
  - apply StronglySorted_inv in Hs as [Hs Hall].
    destruct (edge_lt y x) eqn:E; simpl.
    + constructor; [by apply IH|].
      apply Forall_forall. intros k Hk. apply list_elem_of_fmap in Hk as (z & -> & Hz).
      apply elem_of_insert_by in Hz as [->|Hz]; [by apply edge_lt_true|].
      apply (proj1 (Forall_forall _ _) Hall). apply list_elem_of_fmap. eauto.
    + pose proof (edge_lt_false _ _ E) as Hxy.
      constructor; [by constructor|]. constructor; [done|].
      eapply Forall_impl; [done|]. simpl. intros k Hk. by eapply edge_key_le_trans.
Qed.

Lemma sort_by_keys_sorted l : StronglySorted edge_key_le (util.sort_by edge_lt l).*1.
Proof.
  unfold util.sort_by. induction l as [|x l IH]; simpl; [constructor|].
  by apply insert_by_keys_sorted.
Qed.

Lemma count_sum_cons k d x l :
  count_sum k d (x :: l) =
  if decide (x.1 = k ∧ x.2.1 = d) then x.2.2 + count_sum k d l else count_sum k d l.
Proof. done. Qed.

Lemma count_sum_insert_by k d x l :
  count_sum k d (util.insert_by edge_lt x l) = count_sum k d (x :: l).
Proof.
  induction l as [|y l IH]; [done|]. cbn [util.insert_by].
  destruct (edge_lt y x); [|done]. rewrite !count_sum_cons, IH, count_sum_cons.
  repeat case_decide; lia.
Qed.

Lemma count_sum_sort_by k d l : count_sum k d (util.sort_by edge_lt l) = count_sum k d l.
Proof.
  unfold util.sort_by. induction l as [|x l IH]; [done|]. cbn [foldr].
  by rewrite count_sum_insert_by, !count_sum_cons, IH.
Qed.

Lemma count_sum_other k d l : k ∉ l.*1 → count_sum k d l = 0.
Proof.
  induction l as [|x l IH]; [done|]. rewrite fmap_cons. intros Hk.
  apply not_elem_of_cons in Hk as [Hx Hl]. rewrite count_sum_cons.
  rewrite decide_False by (intros [? _]; congruence). by apply IH.
Qed.

Lemma merge_after_head l : ∀ last,
  ∃ e r, merge_after last l = (last.1, e) :: r.
Proof.
  induction l as [|x l IH]; intros last; simpl.
  - destruct last. simpl. eauto.
  - case_decide.
    + destruct (_ <? _); [apply (IH (last.1, x.2))|].
      destruct (_ =? _); [apply (IH (last.1, (last.2.1, add16 last.2.2 x.2.2)))|apply IH].
    + destruct last. simpl. eauto.
Qed.

Lemma merge_after_keys_all l : ∀ last y,
  y ∈ last :: l → y.1 ∈ (merge_after last l).*1.
Proof.
  induction l as [|x l IH]; intros last y Hy; simpl.
  - apply list_elem_of_singleton in Hy as ->. left.
  - case_decide as Hx.
    + assert (Hstep : ∀ last', last'.1 = last.1 → y.1 ∈ (merge_after last' l).*1).
      { intros last' Hl. apply elem_of_cons in Hy as [->|[->|Hy]%elem_of_cons].
        - destruct (merge_after_head l last') as (e & r & ->). rewrite Hl. left.
        - destruct (merge_after_head l last') as (e & r & ->). rewrite Hl, Hx. left.
        - apply IH. by right. }
      destruct (_ <? _); [by apply Hstep|]. destruct (_ =? _); by apply Hstep.
    + apply elem_of_cons in Hy as [->|Hy]; [left|]. right. by apply IH.
Qed.

Lemma keys_sorted_head k l y :
  StronglySorted edge_key_le (k :: l.*1) → y ∈ l → edge_key_le k y.1.
Proof.
  intros [_ Hall]%StronglySorted_inv Hy.
  apply (proj1 (Forall_forall _ _) Hall). apply list_elem_of_fmap. eauto.
Qed.

Lemma edge_key_lt_irrefl k : ¬ edge_key_lt k k.
Proof. unfold edge_key_lt. lia. Qed.

Lemma edge_key_le_lt_trans k1 k2 k3 : edge_key_lt k1 k2 → edge_key_le k2 k3 → edge_key_lt k1 k3.
Proof.
  unfold edge_key_le, edge_key_lt. destruct k1, k2, k3. simpl.
  intros H1 [[= -> ->]|H2]; auto. lia.
Qed.

Lemma wrap16_add16 a b c : wrap16 (add16 a b + c) = wrap16 (a + (b + c)).
Proof.
  unfold add16, wrap16. rewrite Z.add_assoc.
  rewrite (Z.add_mod ((a + b) mod 65536)), Z.mod_mod by done.
  by rewrite <- Z.add_mod by done.
Qed.

(** What [merge_after] returns on a run sorted by edge. *)
Lemma merge_after_spec l : ∀ last,
  StronglySorted edge_key_le (last.1 :: l.*1) →
  StronglySorted edge_key_lt (merge_after last l).*1
  ∧ ∀ k d c, (k, (d, c)) ∈ merge_after last l →
      (∃ c0, (k, (d, c0)) ∈ last :: l)
      ∧ (∀ d' c', (k, (d', c')) ∈ last :: l → d <= d')
      ∧ wrap16 c = wrap16 (count_sum k d (last :: l)).
Proof.
  induction l as [|x l IH]; intros last Hs.
  - destruct last as [kl [dl cl]]. simpl. split; [repeat constructor|].
    intros k d c [= -> -> ->]%list_elem_of_singleton.
    split; [exists cl; left|]. split.
    + intros d' c' [= <- <-]%list_elem_of_singleton. lia.
    + rewrite count_sum_cons. simpl. rewrite decide_True by done.
      unfold count_sum. f_equal. lia.
  - assert (Hs' : ∀ last', last'.1 = last.1 → StronglySorted edge_key_le (last'.1 :: l.*1)).
    { intros last' ->. apply StronglySorted_inv in Hs as [Hs Hall].
      rewrite fmap_cons in Hs, Hall. apply StronglySorted_inv in Hs as [Hs _].
      apply Forall_cons in Hall as [_ Hall]. by constructor. }
    destruct last as [kl [dl cl]], x as [kx [dx cx]]. cbn [merge_after fst snd] in *.
    case_decide as Hx.
    + subst kx. destruct (dx <? dl) eqn:E1; [|destruct (dx =? dl) eqn:E2].
      * apply Z.ltb_lt in E1.
        destruct (IH (kl, (dx, cx)) (Hs' (kl, (dx, cx)) eq_refl)) as [Hsort Hel].
        split; [done|]. intros k d c Hin. destruct (Hel k d c Hin) as ((c0 & H0) & Hmin & Hc).
        assert (Hdx : k = kl → d <= dx).
        { intros ->. apply (Hmin dx cx). left. }
        split; [|split].
        -- exists c0. rewrite !elem_of_cons in *. tauto.
        -- intros d' c' H'. rewrite !elem_of_cons in H'.
           destruct H' as [[= -> -> ->]|[[= -> -> ->]|H']].
           ++ specialize (Hdx eq_refl). lia.
           ++ by apply Hdx.
           ++ apply (Hmin d' c'). by right.
        -- rewrite Hc, !count_sum_cons. cbn [fst snd]. f_equal.
           destruct (decide (kl = k ∧ dl = d)) as [[<- <-]|Hn1].
           ++ specialize (Hdx eq_refl). lia.
           ++ done.
      * apply Z.eqb_eq in E2. subst dx.
        destruct (IH (kl, (dl, add16 cl cx)) (Hs' (kl, (dl, add16 cl cx)) eq_refl)) as [Hsort Hel].
        split; [done|]. intros k d c Hin. destruct (Hel k d c Hin) as ((c0 & H0) & Hmin & Hc).
        split; [|split].
        -- rewrite elem_of_cons in H0. destruct H0 as [[= -> -> ->]|H0].
           ++ exists cl. left.
           ++ exists c0. right. by right.
        -- intros d' c' H'. rewrite !elem_of_cons in H'.
           destruct H' as [[= -> -> ->]|[[= -> -> ->]|H']].
           ++ apply (Hmin dl (add16 cl cx)). left.
           ++ apply (Hmin dl (add16 cl cx)). left.
           ++ apply (Hmin d' c'). by right.
        -- rewrite Hc, !count_sum_cons. cbn [fst snd].
           destruct (decide (kl = k ∧ dl = d)) as [[<- <-]|Hn1]; [|done].
           apply wrap16_add16.
      * apply Z.ltb_ge in E1. apply Z.eqb_neq in E2.
        destruct (IH (kl, (dl, cl)) (Hs' (kl, (dl, cl)) eq_refl)) as [Hsort Hel].
        split; [done|]. intros k d c Hin. destruct (Hel k d c Hin) as ((c0 & H0) & Hmin & Hc).
        assert (Hdl : k = kl → d <= dl).
        { intros ->. apply (Hmin dl cl). left. }
        split; [|split].
        -- exists c0. rewrite !elem_of_cons in *. tauto.
        -- intros d' c' H'. rewrite !elem_of_cons in H'.
           destruct H' as [[= -> -> ->]|[[= -> -> ->]|H']].
           ++ by apply Hdl.
           ++ specialize (Hdl eq_refl). lia.
           ++ apply (Hmin d' c'). by right.
        -- rewrite Hc, !count_sum_cons. cbn [fst snd]. f_equal.
           destruct (decide (kl = k ∧ dl = d)) as [[<- <-]|Hn1].
           ++ rewrite (decide_False (P := kl = kl ∧ dx = dl)); [done|].
              intros [_ ?]. lia.
           ++ destruct (decide (kl = k ∧ dx = d)) as [[<- <-]|Hn2]; [|done].
              specialize (Hdl eq_refl). lia.
    + apply StronglySorted_inv in Hs as [Hs Hall]. rewrite fmap_cons in Hs, Hall.
      cbn [fst] in Hs, Hall.
      destruct (IH (kx, (dx, cx)) Hs) as [Hsort Hel].
      apply Forall_cons in Hall as [Hlx Hall].
      assert (Hlt : edge_key_lt kl kx).
      { destruct Hlx as [->|?]; [done|done]. }
      assert (Habove : ∀ y, y ∈ (kx, (dx, cx)) :: l → edge_key_lt kl y.1).
      { intros y [->|Hy]%elem_of_cons; [done|].
        eapply edge_key_le_lt_trans; [done|]. by eapply keys_sorted_head. }
      assert (Hnot : kl ∉ ((kx, (dx, cx)) :: l).*1).
      { intros (y & Hy1 & Hy2)%list_elem_of_fmap. apply Habove in Hy2.
        change (y.1) with (fst y) in Hy2. rewrite <- Hy1 in Hy2.
        by apply edge_key_lt_irrefl in Hy2. }
      split.
      * rewrite fmap_cons. constructor; [done|]. apply Forall_forall. intros k Hk.
        apply list_elem_of_fmap in Hk as ([k' [d c]] & -> & Hk).
        destruct (Hel _ _ _ Hk) as ((c0 & H0) & _). by apply (Habove _ H0).
      * intros k d c Hin. rewrite elem_of_cons in Hin. destruct Hin as [[= -> -> ->]|Hin].
        -- split; [exists cl; left|]. split.
           ++ intros d' c' H'. rewrite elem_of_cons in H'.
              destruct H' as [[= -> ->]|H']; [lia|]. exfalso. apply Hnot.
              apply list_elem_of_fmap. eexists. split; [|done]. done.
           ++ rewrite count_sum_cons. cbn [fst snd]. rewrite decide_True by done.
              rewrite count_sum_other by done. f_equal. lia.
        -- destruct (Hel k d c Hin) as ((c0 & H0) & Hmin & Hc).
           pose proof (Habove _ H0) as Hk. cbn [fst] in Hk.
           split; [exists c0; by right|]. split.
           ++ intros d' c' H'. rewrite elem_of_cons in H'.
              destruct H' as [[= -> -> ->]|H']; [by apply edge_key_lt_irrefl in Hk|].
              by apply (Hmin d' c').
           ++ rewrite Hc. rewrite (count_sum_cons k d (kl, (dl, cl))). cbn [fst snd].
              rewrite decide_False; [done|]. intros [-> _].
              by apply edge_key_lt_irrefl in Hk.
Qed.

Lemma merge_edges_sorted v :
  merge_edges v = match util.sort_by edge_lt v with
                  | [] => []
                  | x :: l => merge_after x l
                  end.
Proof.
  unfold merge_edges. destruct v as [|x [|y v]]; try done.
Qed.

End merge_edges.

(** X17.  [merge_edges] returns one entry per edge of its argument, in
    strictly increasing edge order; the entry carries the smallest distance
    given for the edge, and its count is, modulo 2^16, the sum of the counts
    given with that distance. *)
Theorem merge_edges_min_count (v : list (edge_t * edata_t)) :
  StronglySorted edge_key_lt (merge_edges v).*1
  ∧ (∀ k, k ∈ (merge_edges v).*1 ↔ k ∈ v.*1)
  ∧ ∀ k d c, (k, (d, c)) ∈ merge_edges v →
      (∃ c0, (k, (d, c0)) ∈ v)
      ∧ (∀ d' c', (k, (d', c')) ∈ v → d <= d')
      ∧ wrap16 c = wrap16 (count_sum k d v).
Proof.
  rewrite merge_edges_sorted.
  pose proof (sort_by_keys_sorted v) as Hs.
  assert (Hmem : ∀ y, y ∈ util.sort_by edge_lt v ↔ y ∈ v).
  { intros y. split; [apply elem_of_sort_by|apply elem_of_sort_by_2]. }
  assert (Hcnt := λ k d, count_sum_sort_by k d v).
  destruct (util.sort_by edge_lt v) as [|x l].
  - assert (v = []) as ->.
    { destruct v as [|y v]; [done|]. exfalso.
      apply (elem_of_nil y). apply Hmem. left. }
    split; [constructor|]. split; [done|]. by intros k d c ?%elem_of_nil.
  - destruct (merge_after_spec l x Hs) as [Hsort Hel]. split; [done|]. split.
    + intros k. split.
      * intros ([k' [d c]] & -> & Hin)%list_elem_of_fmap.
        destruct (Hel _ _ _ Hin) as ((c0 & H0) & _). apply Hmem in H0.
        apply list_elem_of_fmap. eexists. split; [|done]. done.
      * intros (y & -> & Hy)%list_elem_of_fmap. apply merge_after_keys_all. by apply Hmem.
    + intros k d c Hin. destruct (Hel _ _ _ Hin) as ((c0 & H0) & Hmin & Hc).
      split; [exists c0; by apply Hmem|]. split.
      * intros d' c' H'. apply (Hmin d' c'). by apply Hmem.
      * by rewrite Hc, <- Hcnt.
Qed.

(** ** Shortest-path search *)

Section dijkstra.

Variables (cfg : BuildConfig) (g : Graph) (v : NodeID).
Hypothesis Hready : search_ready cfg g.

Implicit Types (tbl : list SearchData) (q : list SearchNode) (u w : NodeID).

Lemma sq_take_spec m q y r :
  sq_take m q = Some (y, r) →
  y ∈ q ∧ (∀ e, e ∈ q → e = y ∨ e ∈ r) ∧ (∀ e, e ∈ r → e ∈ q) ∧ length q = S (length r).
Proof.
  revert y r. induction q as [|x q IH]; intros y r H; simpl in H; [done|].
  destruct (sn_distance x =? m).
  - injection H as <- <-. split; [left|]. split; [|split; [by right|done]].
    intros e [->|He]%elem_of_cons; auto.
  - destruct (sq_take m q) as [[y' r']|]; simpl in H; [|done]. injection H as <- <-.
    destruct (IH _ _ eq_refl) as (Hy & Hr & Hsub & Hlen). split; [by right|]. split; [|split].
    + intros e [->|He]%elem_of_cons; [right; left|].
      destruct (Hr e He) as [->|?]; [by left|right; by right].
    + intros e [->|He]%elem_of_cons; [left|right; by apply Hsub].
    + simpl. by rewrite Hlen.
Qed.

Lemma sq_min_attained m q : sq_min m q = m ∨ ∃ e, e ∈ q ∧ sn_distance e = sq_min m q.
Proof.
  revert m. induction q as [|x q IH]; intros m; simpl; [by left|].
  destruct (IH (Z.min m (sn_distance x))) as [E|(e & He & E)].
  - destruct (Z.min_spec m (sn_distance x)) as [[_ Hm]|[_ Hm]]; rewrite Hm in *.
    + by left.
    + right. exists x. split; [left|done].
  - right. exists e. split; [by right|done].
Qed.

Lemma sq_take_elem m q e : e ∈ q → sn_distance e = m → is_Some (sq_take m q).
Proof.
  induction q as [|x q IH]; intros He Hm; [by apply elem_of_nil in He|]. simpl.
  destruct (sn_distance x =? m) eqn:E; [eauto|].
  apply elem_of_cons in He as [->|He].
  - apply Z.eqb_neq in E. done.
  - destruct (IH He Hm) as [[y r] ->]. simpl. eauto.
Qed.

Lemma sq_pop_None q : sq_pop q = None → q = [].
Proof.
  destruct q as [|x q]; [done|]. unfold sq_pop. intros H. exfalso.
  destruct (sq_min_attained (sn_distance x) q) as [E|(e & He & E)].
  - destruct (sq_take_elem (sq_min (sn_distance x) q) (x :: q) x) as [r Hr];
      [left|done|]. congruence.
  - destruct (sq_take_elem (sq_min (sn_distance x) q) (x :: q) e) as [r Hr];
      [by right|done|]. congruence.
Qed.

Lemma sq_pop_Some q y r :
  sq_pop q = Some (y, r) →
  y ∈ q ∧ (∀ e, e ∈ q → e = y ∨ e ∈ r) ∧ (∀ e, e ∈ r → e ∈ q) ∧ length q = S (length r).
Proof. destruct q as [|x q]; [done|]. unfold sq_pop. apply sq_take_spec. Qed.

Lemma contains_in_range u : contains g u = Ok true → (u < length (node_data g))%nat.
Proof.
  unfold contains. intros H. apply bind_Ok_inv in H as (nd & Hnd & _).
  apply at_Ok in Hnd. by eapply lookup_lt_Some.
Qed.

Lemma contains_total u : (u < length (node_data g))%nat → ∃ c, contains g u = Ok c.
Proof.
  intros Hu. destruct (lookup_lt_is_Some_2 _ _ Hu) as [nd Hnd].
  unfold contains, at_. rewrite Hnd. simpl. eauto.
Qed.

Lemma dist_of_insert tbl i s u :
  (i < length tbl)%nat →
  dist_of (<[i := s]> tbl) u = if decide (u = i) then sd_distance s else dist_of tbl u.
Proof.
  intros Hi. unfold dist_of. case_decide as Hu.
  - subst. by rewrite list_lookup_insert_eq.
  - by rewrite list_lookup_insert_ne.
Qed.

Lemma table_weight_nonneg tbl : 0 <= table_weight tbl.
Proof. unfold table_weight. induction tbl as [|s tbl IH]; simpl; lia. Qed.

Lemma table_weight_insert tbl : ∀ i s s',
  tbl !! i = Some s →
  table_weight (<[i := s']> tbl)
  = table_weight tbl - Z.max 0 (sd_distance s) + Z.max 0 (sd_distance s').
Proof.
  unfold table_weight. induction tbl as [|x tbl IH]; intros i s s' Hi; [done|].
  destruct i as [|i]; simpl in *.
  - injection Hi as ->. lia.
  - rewrite (IH _ _ s' Hi). lia.
Qed.

Lemma add32_exact a b : 0 <= a → 0 <= b → a + b < 4294967296 → add32 a b = a + b.
Proof. intros. unfold add32, wrap32. apply Z.mod_small. lia. Qed.

Lemma sound_same_dist tbl tbl' q :
  length tbl' = length tbl → (∀ u, dist_of tbl' u = dist_of tbl u) →
  search_sound cfg g v tbl q → search_sound cfg g v tbl' q.
Proof.
  intros Hl Hd (Hlen & Hv & Hm & Hq). split; [congruence|]. split; [by rewrite Hd|].
  split; [|done]. intros u Hu. rewrite Hd. by apply Hm.
Qed.

Lemma closed_same_dist tbl tbl' q P :
  (∀ u, dist_of tbl' u = dist_of tbl u) →
  search_closed cfg g tbl q P → search_closed cfg g tbl' q P.
Proof.
  intros Hd Hc u nd n Hu Hlt Hnd Hn Hw. rewrite !Hd in *. by eapply Hc.
Qed.

Lemma closed_step tbl q next n ns :
  search_closed cfg g tbl q (λ u d m, u = sn_node next ∧ d = sn_distance next ∧ m ∈ n :: ns) →
  (contains g (node n) = Ok true → dist_of tbl (node n) <= sn_distance next + distance n) →
  search_closed cfg g tbl q (λ u d m, u = sn_node next ∧ d = sn_distance next ∧ m ∈ ns).
Proof.
  intros Hc Hn u nd m Hu Hlt Hnd Hm Hw.
  destruct (Hc u nd m Hu Hlt Hnd Hm Hw) as [H1|[H2|(-> & Hd & Hin)]]; [by left|by right; left|].
  apply elem_of_cons in Hin as [->|Hin]; [|right; right; done].
  left. rewrite Hd. by apply Hn.
Qed.

Lemma dijkstra_relax_spec next nd :
  contains g (sn_node next) = Ok true → node_data g !! sn_node next = Some nd →
  0 <= sn_distance next < infinity cfg → walk g v (sn_node next) (sn_distance next) →
  ∀ ns tbl q,
    (∀ n, n ∈ ns → n ∈ neighbors nd) →
    search_sound cfg g v tbl q →
    search_closed cfg g tbl q (λ u d n, u = sn_node next ∧ d = sn_distance next ∧ n ∈ ns) →
    ∃ tbl' q', dijkstra_relax g next ns tbl q = Ok (tbl', q')
      ∧ search_sound cfg g v tbl' q'
      ∧ search_closed cfg g tbl' q' (λ _ _ _, False)
      ∧ Z.of_nat (length q') + 2 * table_weight tbl'
        <= Z.of_nat (length q) + 2 * table_weight tbl.
Proof.
  intros Hnext Hnd Hd0 Hwalk. destruct Hready as (Hinf & Hlisted & Hrange & Hedges).
  induction ns as [|n ns IH]; intros tbl q Hsub Hsound Hclosed.
  - exists tbl, q. split; [done|]. split; [done|]. split; [|lia].
    intros u nd' m Hu Hlt Hnd' Hm Hw.
    destruct (Hclosed u nd' m Hu Hlt Hnd' Hm Hw) as [?|[?|(_ & _ & ?%elem_of_nil)]]; auto.
  - assert (Hn : n ∈ neighbors nd) by (apply Hsub; left).
    assert (Hsub' : ∀ m, m ∈ ns → m ∈ neighbors nd) by (intros; apply Hsub; by right).
    destruct (Hedges _ _ _ Hnext Hnd Hn) as [Hr Hw].
    destruct (contains_total _ Hr) as [c Hc]. cbn [dijkstra_relax]. rewrite Hc. simpl.
    destruct c.
    2:{ apply IH; [done..|]. apply (closed_step tbl q next n ns Hclosed). congruence. }
    destruct (Hw Hc) as [Hpos Hwrap]. clear Hw.
    pose proof Hsound as (Hlen & Hv0 & Hm & Hq).
    assert (Hlt : (node n < length tbl)%nat) by lia.
    destruct (lookup_lt_is_Some_2 _ _ Hlt) as [cur Hcur].
    assert (Hsrc : (sn_node next < length tbl)%nat).
    { rewrite Hlen. by apply contains_in_range. }
    destruct (lookup_lt_is_Some_2 _ _ Hsrc) as [src Hsrc'].
    rewrite (at_lookup _ _ _ Hcur). simpl.
    rewrite add32_exact by lia.
    assert (Hdcur : dist_of tbl (node n) = sd_distance cur) by (unfold dist_of; by rewrite Hcur).
    destruct (sn_distance next + distance n <? sd_distance cur) eqn:E1.
    + apply Z.ltb_lt in E1. rewrite (at_lookup _ _ _ Hsrc'). simpl.
      unfold set_at. rewrite decide_True by done. simpl.
      set (new := sn_distance next + distance n) in *.
      set (tbl' := <[node n := mkSearch new (sd_path_count src)]> tbl).
      set (q1 := q ++ [mkSearchNode new (node n)]).
      destruct (Hm (node n) Hc) as [Hcur_range _]. rewrite Hdcur in Hcur_range.
      assert (Hwalk' : walk g v (node n) new) by (by eapply walk_step).
      assert (Hnew : 0 < new < sd_distance cur) by (unfold new; lia).
      assert (Hd' : ∀ u, dist_of tbl' u = if decide (u = node n) then new else dist_of tbl u).
      { intros u. unfold tbl'. by rewrite dist_of_insert. }
      assert (Hsound' : search_sound cfg g v tbl' q1).
      { split; [unfold tbl'; by rewrite length_insert|]. split; [|split].
        - rewrite Hd'. case_decide as Hvn; [|done]. subst v. rewrite Hdcur in Hv0. lia.
        - intros u Hu. rewrite Hd'. case_decide as Hun; [subst u; split; [lia|done]|by apply Hm].
        - intros e [He|He]%elem_of_app; [by apply Hq|].
          apply list_elem_of_singleton in He as ->. simpl. split; [done|]. split; [lia|done]. }
      assert (Hclosed' : search_closed cfg g tbl' q1
                (λ u d m, u = sn_node next ∧ d = sn_distance next ∧ m ∈ n :: ns)).
      { intros u nd' m Hu Hltu Hnd' Hmem Hwm. rewrite !Hd' in *.
        destruct (decide (u = node n)) as [->|Hun].
        - right. left. apply elem_of_app. right. by left.
        - destruct (Hclosed u nd' m Hu Hltu Hnd' Hmem Hwm) as [H1|[H2|H3]].
          + left. case_decide; [|done]. rewrite <- H1. replace (node m) with (node n) by done.
            rewrite Hdcur. lia.
          + right. left. apply elem_of_app. by left.
          + right. right. done. }
      destruct (IH tbl' q1 Hsub' Hsound') as (tbl2 & q2 & Hrun & Hs2 & Hc2 & Hle).
      { apply (closed_step tbl' q1 next n ns Hclosed'). intros _.
        rewrite Hd', decide_True by done. unfold new. lia. }
      exists tbl2, q2. split; [done|]. split; [done|]. split; [done|].
      unfold q1, tbl' in Hle. rewrite length_app in Hle. simpl in Hle.
      rewrite (table_weight_insert _ _ _ _ Hcur) in Hle. simpl in Hle. lia.
    + apply Z.ltb_ge in E1.
      destruct (sn_distance next + distance n =? sd_distance cur) eqn:E2.
      * apply Z.eqb_eq in E2. rewrite (at_lookup _ _ _ Hsrc'). simpl.
        unfold set_at. rewrite decide_True by done. simpl.
        set (tbl' := <[node n := _]> tbl).
        assert (Hd' : ∀ u, dist_of tbl' u = dist_of tbl u).
        { intros u. unfold tbl'. rewrite dist_of_insert by done. case_decide; [|done].
          subst u. simpl. by rewrite Hdcur. }
        destruct (IH tbl' q Hsub') as (tbl2 & q2 & Hrun & Hs2 & Hc2 & Hle).
        { apply (sound_same_dist tbl); [unfold tbl'; by rewrite length_insert|done..]. }
        { apply (closed_step tbl' q next n ns).
          - by apply (closed_same_dist tbl).
          - intros _. rewrite Hd', Hdcur. lia. }
        exists tbl2, q2. split; [done|]. split; [done|]. split; [done|].
        unfold tbl' in Hle. rewrite (table_weight_insert _ _ _ _ Hcur) in Hle. simpl in Hle. lia.
      * apply Z.eqb_neq in E2. apply IH; [done..|].
        apply (closed_step tbl q next n ns Hclosed). intros _. rewrite Hdcur. lia.
Qed.

Lemma dijkstra_loop_spec : ∀ fuel tbl q,
  search_sound cfg g v tbl q → search_closed cfg g tbl q (λ _ _ _, False) →
  Z.of_nat (length q) + 2 * table_weight tbl < Z.of_nat fuel →
  ∃ tbl', dijkstra_loop g fuel tbl q = Ok tbl'
    ∧ search_sound cfg g v tbl' [] ∧ search_closed cfg g tbl' [] (λ _ _ _, False).
Proof.
  induction fuel as [|fuel IH]; intros tbl q Hsound Hclosed Hfuel.
  { pose proof (table_weight_nonneg tbl). lia. }
  cbn [dijkstra_loop]. destruct (sq_pop q) as [[next q']|] eqn:Epop.
  - apply sq_pop_Some in Epop as (Hnext & Hrest & Hsub & Hlen).
    pose proof Hsound as (Hl & Hv0 & Hm & Hq).
    destruct (Hq next Hnext) as (Hmem & Hrange & Hwalk).
    pose proof (contains_in_range _ Hmem) as Hin.
    destruct (lookup_lt_is_Some_2 _ _ Hin) as [nd Hnd].
    rewrite (at_lookup _ _ _ Hnd). simpl.
    destruct (dijkstra_relax_spec next nd Hmem Hnd Hrange Hwalk (neighbors nd) tbl q')
      as (tbl1 & q1 & Hrun & Hs1 & Hc1 & Hle); [done| | |].
    + split; [done|]. split; [done|]. split; [done|]. intros e He. by apply Hq, Hsub.
    + intros u nd' n Hu Hlt Hnd' Hn Hw.
      destruct (Hclosed u nd' n Hu Hlt Hnd' Hn Hw) as [?|[H2|[]]]; [by left|].
      destruct (Hrest _ H2) as [<-|?]; [|right; by left].
      right. right. simpl in *. split; [done|]. split; [done|].
      rewrite Hnd in Hnd'. by injection Hnd' as <-.
    + rewrite Hrun. simpl. apply IH; [done..|]. lia.
  - apply sq_pop_None in Epop as ->. eauto.
Qed.

Lemma dijkstra_loop_mono : ∀ fuel tbl q r,
  dijkstra_loop g fuel tbl q = Ok r →
  ∀ fuel', (fuel ≤ fuel')%nat → dijkstra_loop g fuel' tbl q = Ok r.
Proof.
  induction fuel as [|fuel IH]; intros tbl q r H fuel' Hle;
    cbn [dijkstra_loop] in H; destruct fuel' as [|fuel']; cbn [dijkstra_loop];
    destruct (sq_pop q) as [[next q']|]; try done; try lia.
  apply bind_Ok_inv in H as (nd & Hnd & H). rewrite Hnd. simpl.
  apply bind_Ok_inv in H as ([tbl1 q1] & H1 & H). rewrite H1. simpl.
  apply IH; [done|lia].
Qed.

Lemma walk_member u L : contains g v = Ok true → walk g v u L → contains g u = Ok true.
Proof. intros Hv. by destruct 1. Qed.

Lemma walk_nonneg u L : contains g v = Ok true → walk g v u L → 0 <= L.
Proof.
  intros Hv. destruct Hready as (_ & _ & _ & Hedges). induction 1 as [|u nd n L Hw IH Hnd Hn Hc].
  - done.
  - destruct (Hedges u nd n (walk_member _ _ Hv Hw) Hnd Hn) as [_ Hpos].
    destruct (Hpos Hc). lia.
Qed.

Lemma closed_optimal tbl :
  contains g v = Ok true →
  search_sound cfg g v tbl [] → search_closed cfg g tbl [] (λ _ _ _, False) →
  ∀ u L, walk g v u L → dist_of tbl u <= L.
Proof.
  intros Hv (Hlen & Hv0 & Hm & _) Hclosed u L Hw.
  destruct Hready as (_ & _ & _ & Hedges).
  induction Hw as [|u nd n L Hw IH Hnd Hn Hc]; [lia|].
  pose proof (walk_member _ _ Hv Hw) as Hu.
  destruct (Hedges u nd n Hu Hnd Hn) as [_ Hpos]. destruct (Hpos Hc) as [Hpos' _].
  destruct (decide (dist_of tbl u < infinity cfg)) as [Hlt|Hge].
  - destruct (Hclosed u nd n Hu Hlt Hnd Hn Hc) as [H1|[?%elem_of_nil|[]]]; [lia|done].
  - destruct (Hm (node n) Hc) as [[_ Hle] _]. lia.
Qed.

Lemma dijkstra_init_spec todo : ∀ tbl,
  (∀ u, u ∈ todo → (u < length tbl)%nat) →
  ∃ tbl', dijkstra_init cfg todo tbl = Ok tbl' ∧ length tbl' = length tbl
    ∧ ∀ u, dist_of tbl' u = if decide (u ∈ todo) then infinity cfg else dist_of tbl u.
Proof.
  induction todo as [|x todo IH]; intros tbl Hr.
  - exists tbl. split; [done|]. split; [done|]. intros u.
    rewrite decide_False; [done|]. apply not_elem_of_nil.
  - cbn [dijkstra_init]. unfold set_at. rewrite decide_True by (apply Hr; left). simpl.
    destruct (IH (<[x := mkSearch (infinity cfg) 0]> tbl)) as (tbl' & Hrun & Hlen & Hd).
    { intros u Hu. rewrite length_insert. apply Hr. by right. }
    exists tbl'. split; [done|]. split; [by rewrite Hlen, length_insert|].
    intros u. rewrite Hd, dist_of_insert by (apply Hr; left).
    destruct (decide (u ∈ todo)) as [Hin|Hnin].
    + rewrite decide_True; [done|by right].
    + destruct (decide (u = x)) as [->|Hux].
      * rewrite decide_True; [done|left].
      * rewrite decide_False; [done|]. intros [?|?]%elem_of_cons; done.
Qed.

End dijkstra.

(** X18.  On a subgraph that satisfies [search_ready] (members listed and in
    range, positive weights that do not wrap around), [run_dijkstra(v)]
    terminates, and for every vertex of the subgraph the [distance] field
    then holds the length of a shortest walk from [v], or [infinity] when no
    walk is shorter than that. *)
Theorem run_dijkstra_shortest cfg g tbl v :
  search_ready cfg g → CHECK_CONSISTENT cfg g = Ok tt →
  length tbl = length (node_data g) → contains g v = Ok true →
  ∃ bound tbl',
    (∀ fuel, (bound ≤ fuel)%nat → run_dijkstra cfg fuel g tbl v = Ok tbl')
    ∧ ∀ u, contains g u = Ok true →
        ∃ s, tbl' !! u = Some s ∧ shortest_distance cfg g v u (sd_distance s).
Proof.
  intros Hready Hcons Hlen Hv.
  pose proof Hready as (Hinf & Hlisted & Hrange & Hedges).
  destruct (dijkstra_init_spec cfg (nodes g) tbl) as (tbl1 & Hinit & Hlen1 & Hd1).
  { intros u Hu. rewrite Hlen. by apply Hrange. }
  pose proof (contains_in_range g v Hv) as Hvr.
  set (tbl2 := <[v := mkSearch 0 1]> tbl1).
  assert (Hd2 : ∀ u, dist_of tbl2 u = if decide (u = v) then 0 else dist_of tbl1 u).
  { intros u. unfold tbl2. rewrite dist_of_insert by lia. done. }
  assert (Hsound : search_sound cfg g v tbl2 [mkSearchNode 0 v]).
  { split; [unfold tbl2; rewrite length_insert; lia|]. split; [|split].
    - rewrite Hd2. by rewrite decide_True.
    - intros u Hu. rewrite Hd2. case_decide as Huv.
      + subst. split; [lia|]. intros _. constructor.
      + rewrite Hd1, decide_True by (by apply Hlisted). split; [lia|lia].
    - intros e ->%list_elem_of_singleton. simpl. split; [done|]. split; [lia|constructor]. }
  assert (Hclosed : search_closed cfg g tbl2 [mkSearchNode 0 v] (λ _ _ _, False)).
  { intros u nd n Hu Hlt Hnd Hn Hw. rewrite !Hd2 in *.
    destruct (decide (u = v)) as [->|Huv]; [right; left; left|].
    rewrite Hd1, decide_True in Hlt by (by apply Hlisted). lia. }
  set (bound := S (Z.to_nat (1 + 2 * table_weight tbl2))).
  destruct (dijkstra_loop_spec cfg g v Hready bound tbl2 [mkSearchNode 0 v] Hsound Hclosed)
    as (tbl' & Hrun & Hs' & Hc').
  { pose proof (table_weight_nonneg tbl2). unfold bound. simpl length. lia. }
  exists bound, tbl'. split.
  - intros fuel Hfuel. unfold run_dijkstra. rewrite Hcons. simpl. rewrite Hv. simpl.
    rewrite check_true by done. simpl. rewrite Hinit. simpl.
    unfold set_at. rewrite decide_True by lia. simpl.
    by apply (dijkstra_loop_mono g bound).
  - intros u Hu. pose proof Hs' as (Hlen' & _ & Hm' & _).
    pose proof (contains_in_range g u Hu) as Hur.
    destruct (lookup_lt_is_Some_2 tbl' u) as [s Hs]; [lia|].
    exists s. split; [done|].
    assert (Hds : dist_of tbl' u = sd_distance s) by (unfold dist_of; by rewrite Hs).
    rewrite <- Hds. destruct (Hm' u Hu) as [[_ Hle] Hwalk].
    split; [done|]. split; [done|].
    intros L HL. by apply (closed_optimal cfg g v Hready tbl' Hv Hs' Hc').
Qed.

Lemma run_dijkstra_shortest_witness :
  ∃ bound tbl',
    (∀ fuel, (bound ≤ fuel)%nat → run_dijkstra search_config fuel kite_graph kite_table 2 = Ok tbl')
    ∧ ∀ u, contains kite_graph u = Ok true →
        ∃ s, tbl' !! u = Some s ∧ shortest_distance search_config kite_graph 2 u (sd_distance s).
Proof.
  apply (run_dijkstra_shortest search_config kite_graph kite_table 2).
  - split; [reflexivity|]. split; [|split].
    + intros u Hu.
      do 7 (destruct u as [|u];
            [first [discriminate Hu
                   | vm_compute; repeat first [apply list_elem_of_here | apply list_elem_of_further]]|]).
      discriminate Hu.
    + intros u Hu. vm_compute in Hu.
      repeat (apply elem_of_cons in Hu as [->|Hu]; [simpl; lia|]).
      by apply elem_of_nil in Hu.
    + intros u nd n Hu Hnd Hn.
      do 7 (destruct u as [|u];
            [first [discriminate Hu
                   | vm_compute in Hnd; injection Hnd as <-; simpl in Hn;
                     repeat (apply elem_of_cons in Hn as [->|Hn];
                             [split; [simpl; lia|intros _; simpl; lia]|]);
                     by apply elem_of_nil in Hn]|]).
      discriminate Hu.
  - vm_compute. reflexivity.
  - reflexivity.
  - reflexivity.
Defined.

(** ** Contraction of degree-one vertices *)

Section contract.

Variable cfg : BuildConfig.

Implicit Types (g : Graph) (closest : list Neighbor) (x w : NodeID) (n : Neighbor).

Lemma single_neighbor_total g x :
  pass_ready g → contains g x = Ok true →
  ∃ nd, node_data g !! x = Some nd
    ∧ single_neighbor cfg g x =
        Ok (match members g (neighbors nd) with
            | [m] => m
            | _ => Neighbor2 NO_NODE 0
            end).
Proof.
  intros [H0 Hedges] Hx. unfold single_neighbor. rewrite Hx. simpl.
  rewrite check_true by done. simpl.
  unfold contains in Hx. apply bind_Ok_inv in Hx as (nd & Hnd & _).
  rewrite Hnd. simpl. apply at_Ok in Hnd. exists nd. split; [done|].
  apply single_neighbor_scan_none; [done|].
  eexists. apply count_contained_total. intros n Hn.
  apply lookup_lt_is_Some_2. by eapply Hedges.
Qed.

Lemma single_neighbor_member g x n :
  pass_ready g → contains g x = Ok true →
  single_neighbor cfg g x = Ok n → node n ≠ NO_NODE →
  ∃ nd, node_data g !! x = Some nd ∧ n ∈ neighbors nd ∧ contains g (node n) = Ok true.
Proof.
  intros Hr Hx Hn Hnode. destruct (single_neighbor_total g x Hr Hx) as (nd & Hnd & Hs).
  rewrite Hs in Hn. injection Hn as <-. exists nd. split; [done|].
  destruct (members g (neighbors nd)) as [|m [|m' r]] eqn:E; try done.
  assert (Hm : m ∈ members g (neighbors nd)) by (rewrite E; left).
  unfold members in Hm. apply list_elem_of_filter in Hm as [Hm Hin]. split; [done|].
  unfold is_member in Hm. destruct (contains g (node m)) as [[]|]; done.
Qed.

Lemma contracts_onto_facts g x n :
  pass_ready g → contains g x = Ok true → contracts_onto cfg g x n →
  (∃ nd, node_data g !! x = Some nd ∧ n ∈ neighbors nd)
  ∧ contains g (node n) = Ok true ∧ node n ≠ x
  ∧ ∀ m, ¬ contracts_onto cfg g (node n) m.
Proof.
  intros Hr Hx (Hs & Hnode & n2 & Hs2 & Hn2).
  destruct (single_neighbor_member g x n Hr Hx Hs Hnode) as (nd & Hnd & Hin & Hc).
  split; [eauto|]. split; [done|]. split.
  - intros Heq. rewrite Heq in Hs2. congruence.
  - intros m (Hm & Hm0 & _). congruence.
Qed.

Lemma find_degree_one_spec g : pass_ready g → ∀ todo closest D W,
  (∀ x, x ∈ todo → contains g x = Ok true ∧ (x < length closest)%nat) →
  ∃ closest' D' W',
    find_degree_one cfg g todo closest D W = Ok (closest', D', W')
    ∧ length closest' = length closest
    ∧ (∀ x, x ∈ D' ↔ x ∈ D ∨ (x ∈ todo ∧ ∃ n, contracts_onto cfg g x n))
    ∧ (∀ w, w ∈ W' → w ∈ W ∨ ∃ x n, x ∈ todo ∧ contracts_onto cfg g x n ∧ w = node n)
    ∧ ∀ x, (x ∈ todo → (∃ n, contracts_onto cfg g x n) →
              ∃ n, closest' !! x = Some n ∧ contracts_onto cfg g x n)
         ∧ (¬ (x ∈ todo ∧ ∃ n, contracts_onto cfg g x n) → closest' !! x = closest !! x).
Proof.
  intros Hr. induction todo as [|x todo IH]; intros closest D W Hin.
  - exists closest, D, W. split; [done|]. split; [done|]. split; [|split].
    + intros x. split; [by left|]. intros [?|[?%elem_of_nil _]]; done.
    + intros w. by left.
    + intros x. split; [by intros ?%elem_of_nil|done].
  - destruct (Hin x) as [Hx Hlt]; [left|].
    destruct (single_neighbor_total g x Hr Hx) as (nd & Hnd & Hs).
    cbn [find_degree_one]. rewrite Hs. cbn [mbind result_bind].
    set (n := match members g (neighbors nd) with [m] => m | _ => Neighbor2 NO_NODE 0 end) in *.
    assert (Hstep : ¬ (∃ m, contracts_onto cfg g x m) →
      ∃ closest' D' W',
        find_degree_one cfg g todo closest D W = Ok (closest', D', W')
        ∧ length closest' = length closest
        ∧ (∀ y, y ∈ D' ↔ y ∈ D ∨ (y ∈ x :: todo ∧ ∃ m, contracts_onto cfg g y m))
        ∧ (∀ w, w ∈ W' → w ∈ W ∨ ∃ y m, y ∈ x :: todo ∧ contracts_onto cfg g y m ∧ w = node m)
        ∧ ∀ y, (y ∈ x :: todo → (∃ m, contracts_onto cfg g y m) →
                  ∃ m, closest' !! y = Some m ∧ contracts_onto cfg g y m)
             ∧ (¬ (y ∈ x :: todo ∧ ∃ m, contracts_onto cfg g y m) → closest' !! y = closest !! y)).
    { intros Hno. destruct (IH closest D W) as (c' & D' & W' & Hrun & Hlen & HD & HW & Hc).
      { intros y Hy. apply Hin. by right. }
      exists c', D', W'. split; [done|]. split; [done|]. split; [|split].
      - intros y. rewrite HD, elem_of_cons. split; [tauto|].
        intros [?|[[->|?] ?]]; [by left|done|right; done].
      - intros w Hw. destruct (HW w Hw) as [?|(y & m & Hy & Hm & ->)]; [by left|].
        right. exists y, m. split; [by right|done].
      - intros y. destruct (Hc y) as [Hc1 Hc2]. split.
        + intros [->|Hy]%elem_of_cons Hm; [done|]. by apply Hc1.
        + intros Hn1. apply Hc2. intros [Hy Hm]. apply Hn1. split; [by right|done]. }
    case_decide as Hnode; [|apply Hstep; intros (m & Hm & Hm0 & _); congruence].
    assert (Hmem : contains g (node n) = Ok true).
    { by destruct (single_neighbor_member g x n Hr Hx Hs Hnode) as (? & _ & _ & ?). }
    destruct (single_neighbor_total g (node n) Hr Hmem) as (nd2 & Hnd2 & Hs2).
    rewrite Hs2. cbn [mbind result_bind].
    set (n2 := match members g (neighbors nd2) with [m] => m | _ => Neighbor2 NO_NODE 0 end) in *.
    case_decide as Hn2; [|apply Hstep; intros (m & Hm & _ & m2 & Hm2 & Hm20); congruence].
    assert (Hon : contracts_onto cfg g x n) by (split; [done|]; split; [done|]; eauto).
    unfold set_at. rewrite decide_True by done. cbn [mbind result_bind].
    destruct (IH (<[x := n]> closest) (D ++ [x]) (W ++ [node n]))
      as (c' & D' & W' & Hrun & Hlen & HD & HW & Hc).
    { intros y Hy. rewrite length_insert. apply Hin. by right. }
    exists c', D', W'. split; [done|]. split; [by rewrite Hlen, length_insert|].
    split; [|split].
    + intros y. rewrite HD, elem_of_app, list_elem_of_singleton, elem_of_cons. split.
      * intros [[?| ->]|[? ?]]; [by left|right; split; [by left|eauto]|right; split; [by right|done]].
      * intros [?|[[->|?] ?]]; [left; by left|left; by right|right; done].
    + intros w Hw. destruct (HW w Hw) as [Hw'|(y & m & Hy & Hm & ->)].
      * apply elem_of_app in Hw' as [?| ->%list_elem_of_singleton]; [by left|].
        right. exists x, n. split; [left|done].
      * right. exists y, m. split; [by right|done].
    + intros y. destruct (Hc y) as [Hc1 Hc2]. split.
      * intros Hy Hm. destruct (decide (y ∈ todo)) as [Hyt|Hyt]; [by apply Hc1|].
        apply elem_of_cons in Hy as [->|?]; [|done].
        exists n. split; [|done]. rewrite Hc2 by tauto. by apply list_lookup_insert_eq.
      * intros Hn1. rewrite Hc2.
        -- apply list_lookup_insert_ne. intros <-. apply Hn1. split; [left|eauto].
        -- intros [Hy Hm]. apply Hn1. split; [by right|done].
Qed.

(** *** [remove_nodes] *)

Lemma nodes_sorted_cons2 a b r :
  nodes_sorted (a :: b :: r) = (a <=? b)%nat && nodes_sorted (b :: r).
Proof. done. Qed.

Lemma insert_by_nodes_sorted x l :
  nodes_sorted l = true → nodes_sorted (util.insert_by Nat.ltb x l) = true.
Proof.
  induction l as [|y l IH]; [done|]. intros Hs. cbn [util.insert_by].
  destruct (y <? x)%nat eqn:E.
  - apply Nat.ltb_lt in E. destruct l as [|z l].
    + cbn [util.insert_by]. rewrite nodes_sorted_cons2. simpl. rewrite andb_true_r.
      apply Nat.leb_le. lia.
    + rewrite nodes_sorted_cons2 in Hs. apply andb_true_iff in Hs as [Hyz Hs].
      specialize (IH Hs). cbn [util.insert_by] in *.
      destruct (z <? x)%nat eqn:E2; rewrite nodes_sorted_cons2.
      * by rewrite Hyz, IH.
      * rewrite IH, andb_true_r. apply Nat.leb_le. lia.
  - apply Nat.ltb_ge in E. rewrite nodes_sorted_cons2, Hs, andb_true_r. by apply Nat.leb_le.
Qed.

Lemma sort_by_nodes_sorted l : nodes_sorted (util.sort_by Nat.ltb l) = true.
Proof.
  unfold util.sort_by. induction l as [|x l IH]; [done|]. by apply insert_by_nodes_sorted.
Qed.

Lemma filter_alter_length {A} (P : A → Prop) `{∀ a, Decision (P a)} (f : A → A) l : ∀ i a,
  l !! i = Some a →
  (length (filter P (alter f i l)) + (if decide (P a) then 1 else 0)
   = length (filter P l) + (if decide (P (f a)) then 1 else 0))%nat.
Proof.
  induction l as [|y l IH]; intros i a Hi; [done|].
  destruct i as [|i].
  - injection Hi as ->. change (alter f 0%nat (a :: l)) with (f a :: l).
    rewrite !filter_cons. repeat case_decide; simpl; lia.
  - change (alter f (S i) (y :: l)) with (y :: alter f i l).
    rewrite !filter_cons. specialize (IH i a Hi).
    destruct (decide (P a)), (decide (P (f a))), (decide (P y)); simpl in *; lia.
Qed.

Lemma member_count_unstamp1 g x :
  g_subgraph_id g ≠ NO_SUBGRAPH → (x < length (node_data g))%nat →
  (member_count (set_subgraph g x NO_SUBGRAPH) ≤ member_count g)%nat
  ∧ (contains g x = Ok true →
       (member_count (set_subgraph g x NO_SUBGRAPH) < member_count g)%nat).
Proof.
  intros Hid Hx. destruct (lookup_lt_is_Some_2 _ _ Hx) as [nd Hnd].
  unfold member_count, set_subgraph. cbn [node_data g_subgraph_id].
  pose proof (filter_alter_length (λ nd, subgraph_id nd = g_subgraph_id g)
                (λ e, mkNode NO_SUBGRAPH (neighbors e)) (node_data g) x nd Hnd) as Hf.
  cbn [subgraph_id] in Hf. rewrite (decide_False (P := NO_SUBGRAPH = g_subgraph_id g)) in Hf
    by congruence.
  split.
  - case_decide; lia.
  - unfold contains, at_. rewrite Hnd. cbn [mbind result_bind]. intros Heq.
    assert (subgraph_id nd = g_subgraph_id g) as Heq'.
    { apply Z.eqb_eq. by injection Heq. }
    rewrite decide_True in Hf by done. lia.
Qed.

Lemma unstamp_spec : ∀ S g,
  g_subgraph_id g ≠ NO_SUBGRAPH →
  (∀ x, x ∈ S → (x < length (node_data g))%nat) →
  ∃ g', unstamp g S = Ok g'
    ∧ g_subgraph_id g' = g_subgraph_id g ∧ nodes g' = nodes g
    ∧ length (node_data g') = length (node_data g)
    ∧ (∀ x, neighbors <$> node_data g' !! x = neighbors <$> node_data g !! x)
    ∧ (∀ x, contains g' x = Ok true ↔ contains g x = Ok true ∧ x ∉ S)
    ∧ (member_count g' ≤ member_count g)%nat
    ∧ ((∃ x, x ∈ S ∧ contains g x = Ok true) → (member_count g' < member_count g)%nat).
Proof.
  induction S as [|y S IH]; intros g Hid Hr.
  - exists g. split; [done|]. split; [done|]. split; [done|]. split; [done|].
    split; [done|]. split; [|split; [done|]].
    + intros x. split; [|by intros [? _]]. intros ?. split; [done|]. apply not_elem_of_nil.
    + by intros (x & ?%elem_of_nil & _).
  - assert (Hy : (y < length (node_data g))%nat) by (apply Hr; left).
    destruct (lookup_lt_is_Some_2 _ _ Hy) as [nd Hnd].
    cbn [unstamp]. rewrite (at_lookup _ _ _ Hnd). cbn [mbind result_bind].
    destruct (IH (set_subgraph g y NO_SUBGRAPH)) as (g' & Hrun & Hsid & Hn & Hlen & Hnb & Hc & Hle & Hlt).
    { done. }
    { intros x Hx. unfold set_subgraph. cbn [node_data]. rewrite length_alter. apply Hr. by right. }
    destruct (member_count_unstamp1 g y Hid Hy) as [Hle1 Hlt1].
    exists g'. split; [done|]. split; [done|]. split; [done|]. split.
    { rewrite Hlen. unfold set_subgraph. cbn [node_data]. by rewrite length_alter. }
    split; [|split; [|split]].
    + intros x. rewrite Hnb. unfold set_subgraph. cbn [node_data].
      destruct (decide (x = y)) as [->|Hxy].
      * rewrite list_lookup_alter_eq. by destruct (node_data g !! y).
      * by rewrite list_lookup_alter_ne.
    + intros x. rewrite Hc, elem_of_cons. destruct (decide (x = y)) as [->|Hxy].
      * rewrite (contains_set_subgraph_eq _ _ _ _ Hnd).
        rewrite (proj2 (Z.eqb_neq NO_SUBGRAPH (g_subgraph_id g))) by congruence. split.
        -- by intros [[=] _].
        -- intros [_ Hn']. exfalso. apply Hn'. by left.
      * rewrite contains_set_subgraph_ne by done. split; [intros [? ?]|intros [? ?]].
        -- split; [done|]. intros [?|?]; done.
        -- split; [done|]. intros ?. apply H0. by right.
    + lia.
    + intros (x & Hx & Hcx). apply elem_of_cons in Hx as [->|Hx].
      * specialize (Hlt1 Hcx). lia.
      * destruct (decide (x = y)) as [->|Hxy]; [specialize (Hlt1 Hcx); lia|].
        assert ((member_count g' < member_count (set_subgraph g y NO_SUBGRAPH))%nat); [|lia].
        apply Hlt. exists x. split; [done|]. by rewrite contains_set_subgraph_ne.
Qed.

Lemma remove_nodes_spec g D :
  g_subgraph_id g ≠ NO_SUBGRAPH →
  (∀ x, x ∈ D → (x < length (node_data g))%nat) →
  ∃ g', remove_nodes cfg g (util.sort_by Nat.ltb D) = Ok g'
    ∧ g_subgraph_id g' = g_subgraph_id g
    ∧ length (node_data g') = length (node_data g)
    ∧ (∀ x, neighbors <$> node_data g' !! x = neighbors <$> node_data g !! x)
    ∧ (∀ x, x ∈ nodes g' ↔ x ∈ nodes g ∧ x ∉ D)
    ∧ (∀ x, contains g' x = Ok true ↔ contains g x = Ok true ∧ x ∉ D)
    ∧ (member_count g' ≤ member_count g)%nat
    ∧ ((∃ x, x ∈ D ∧ contains g x = Ok true) → (member_count g' < member_count g)%nat).
Proof.
  intros Hid Hr. set (S := util.sort_by Nat.ltb D).
  assert (HS : ∀ x, x ∈ S ↔ x ∈ D).
  { intros x. split; [apply elem_of_sort_by|apply elem_of_sort_by_2]. }
  unfold remove_nodes, remove_set.
  rewrite check_true by apply sort_by_nodes_sorted. cbn [mbind result_bind].
  fold S. rewrite (sort_by_nodes_sorted D : nodes_sorted S = true).
  set (nodes' := if bool_decide (nodes g = []) || bool_decide (S = []) then nodes g
                 else filter (λ x, x ∉ S) (nodes g)).
  assert (Hnodes : ∀ x, x ∈ nodes' ↔ x ∈ nodes g ∧ x ∉ D).
  { intros x. unfold nodes'. destruct (bool_decide (nodes g = [])) eqn:E1; simpl.
    - apply bool_decide_eq_true in E1. rewrite E1. split; [by intros ?%elem_of_nil|].
      by intros [?%elem_of_nil _].
    - destruct (bool_decide (S = [])) eqn:E2.
      + apply bool_decide_eq_true in E2. split; [|by intros [? _]].
        intros Hx. split; [done|]. rewrite <- HS, E2. apply not_elem_of_nil.
      + rewrite list_elem_of_filter, HS. tauto. }
  destruct (unstamp_spec S (mkGraph (node_data g) nodes' (g_subgraph_id g)))
    as (g' & Hrun & Hsid & Hn & Hlen & Hnb & Hc & Hle & Hlt); [done| |].
  { intros x Hx. apply Hr. by apply HS. }
  exists g'. split.
  { unfold nodes' in Hrun.
    destruct (bool_decide (nodes g = []) || bool_decide (S = [])); exact Hrun. }
  split; [done|]. split; [done|]. split; [done|]. split; [by rewrite Hn|].
  split; [|split].
  - intros x. rewrite Hc, HS. done.
  - exact Hle.
  - intros (x & Hx & Hcx). apply Hlt. exists x. split; [by apply HS|done].
Qed.

(** *** The chains of [closest] *)

Lemma chain_len_extend closest closest' :
  (∀ x c, closest !! x = Some c → node c ≠ x → closest' !! x = Some c) →
  (∀ x c, closest !! x = Some c → node c = x →
     self_closest closest' x
     ∨ ∃ c', closest' !! x = Some c' ∧ self_closest closest' (node c')) →
  ∀ j v, chain_len closest j v = Some j →
    ∃ j', (j' ≤ S j)%nat ∧ chain_len closest' j' v = Some j'.
Proof.
  intros Hkeep Hroot. induction j as [|j IH]; intros v H.
  - cbn [chain_len] in H. destruct (closest !! v) as [c|] eqn:E; [|done].
    case_decide as Hc; [|done].
    destruct (Hroot v c E Hc) as [(c1 & E1 & H1)|(c1 & E1 & c2 & E2 & H2)].
    + exists 0%nat. split; [lia|]. cbn [chain_len]. rewrite E1. by rewrite decide_True.
    + destruct (decide (node c1 = v)) as [Hself|Hne].
      * exists 0%nat. split; [lia|]. cbn [chain_len]. rewrite E1. by rewrite decide_True.
      * exists 1%nat. split; [lia|]. cbn [chain_len]. rewrite E1, decide_False by done.
        rewrite E2. by rewrite decide_True.
  - cbn [chain_len] in H. destruct (closest !! v) as [c|] eqn:E; [|done].
    case_decide as Hc; [done|].
    destruct (chain_len closest j (node c)) as [k|] eqn:Ek; [|done].
    injection H as ->. destruct (IH _ Ek) as (j' & Hle & Hj').
    exists (S j'). split; [lia|]. cbn [chain_len].
    rewrite (Hkeep v c E Hc), decide_False by done. by rewrite Hj'.
Qed.

Lemma filter_length_bound {A} (P : A → Prop) `{∀ a, Decision (P a)} l : ∀ a b,
  (∀ i e, l !! i = Some e → P e → (a ≤ i < b)%nat) →
  (length (filter P l) ≤ b - a)%nat.
Proof.
  induction l as [|y l IH]; intros a b Hr; [simpl; lia|].
  rewrite filter_cons.
  assert (Hl : (length (filter P l) ≤ (b - 1) - (a - 1))%nat).
  { apply IH. intros i e Hi He. specialize (Hr (S i) e Hi He). lia. }
  case_decide as Hy; simpl.
  - specialize (Hr 0%nat y eq_refl Hy). lia.
  - lia.
Qed.

Lemma member_count_bound g :
  (∀ u, contains g u = Ok true → (0 < u ∧ u + 2 < length (node_data g))%nat) →
  (member_count g ≤ length (node_data g) - 3)%nat.
Proof.
  intros Hc. unfold member_count.
  pose proof (filter_length_bound (λ nd, subgraph_id nd = g_subgraph_id g) (node_data g)
                1%nat (length (node_data g) - 2)%nat) as Hb.
  assert ((length (node_data g) - 2 - 1 = length (node_data g) - 3)%nat) as <- by lia.
  apply Hb. intros i e Hi Hx. destruct (Hc i); [|lia].
  unfold contains, at_. rewrite Hi. cbn [mbind result_bind]. f_equal. by apply Z.eqb_eq.
Qed.

Lemma member_count_le_length g : (member_count g ≤ length (node_data g))%nat.
Proof. unfold member_count. apply length_filter. Qed.

(** *** The rounds of [contract] *)

Section rounds.

Variable g0 : Graph.
Hypothesis Hready : contract_ready g0.

Lemma shrunk_pass_ready g : shrunk g0 g → pass_ready g.
Proof.
  destruct Hready as (Hid & HN & Hl & Hlisted & Hrange & Hedges).
  intros (Hsid & Hlen & Hnb & Hsub & Hn). split.
  - destruct (lookup_lt_is_Some_2 (node_data g) 0) as [nd Hnd]; [lia|].
    unfold contains, at_, NO_NODE. rewrite Hnd. cbn [mbind result_bind].
    destruct (subgraph_id nd =? g_subgraph_id g) eqn:E; [|done]. exfalso.
    destruct (Hrange 0%nat); [|lia]. apply Hsub.
    unfold contains, at_. rewrite Hnd. cbn [mbind result_bind]. by rewrite E.
  - intros u nd n Hu Hin. rewrite Hlen. specialize (Hnb u). rewrite Hu in Hnb.
    destruct (node_data g0 !! u) as [nd0|] eqn:E0; [|done]. injection Hnb as Hnb.
    apply (Hedges u nd0 n E0). by rewrite <- Hnb.
Qed.

Lemma pass_spec g closest todo :
  shrunk g0 g → length closest = (length (node_data g0) - 2)%nat →
  (∀ x, x ∈ todo → contains g x = Ok true) →
  ∃ closest' D W,
    find_degree_one cfg g todo closest [] [] = Ok (closest', D, W)
    ∧ pass_result g closest closest' D W.
Proof.
  intros Hsh Hlen Htodo. pose proof (shrunk_pass_ready g Hsh) as Hpr.
  destruct Hready as (Hid & HN & Hl & Hlisted & Hrange & Hedges).
  pose proof Hsh as (Hsid & Hlen' & Hnb & Hsub & Hn).
  destruct (find_degree_one_spec g Hpr todo closest [] [])
    as (c' & D & W & Hrun & Hl' & HD & HW & Hc).
  { intros x Hx. split; [by apply Htodo|]. destruct (Hrange x); [by apply Hsub, Htodo|]. lia. }
  exists c', D, W. split; [done|]. split; [done|].
  assert (HD' : ∀ x, x ∈ D ↔ x ∈ todo ∧ ∃ n, contracts_onto cfg g x n).
  { intros x. rewrite HD. split; [intros [?%elem_of_nil|?]; done|by right]. }
  split; [|split].
  - intros x Hx. apply (Hc x). by rewrite <- HD'.
  - intros x Hx. apply HD' in Hx as [Hx Hon]. split; [by apply Htodo|].
    destruct (proj1 (Hc x) Hx Hon) as (n & Hcn & Hn').
    destruct (contracts_onto_facts g x n Hpr (Htodo x Hx) Hn')
      as ((nd & Hnd & Hin) & Hmem & Hne & Hnot).
    exists n, nd. split; [done|]. split; [done|]. split; [done|]. split; [|done].
    rewrite HD'. intros [_ [m Hm]]. by apply (Hnot m).
  - intros w Hw. destruct (HW w Hw) as [?%elem_of_nil|(x & n & Hx & Hon & ->)]; [done|].
    destruct (contracts_onto_facts g x n Hpr (Htodo x Hx) Hon) as (_ & Hmem & _ & Hnot).
    split; [done|]. rewrite HD'. intros [_ [m Hm]]. by apply (Hnot m).
Qed.

Lemma neighbors_shrunk g x nd :
  shrunk g0 g → node_data g !! x = Some nd →
  ∃ nd0, node_data g0 !! x = Some nd0 ∧ neighbors nd0 = neighbors nd.
Proof.
  intros (_ & _ & Hnb & _) Hx. specialize (Hnb x). rewrite Hx in Hnb.
  destruct (node_data g0 !! x) as [nd0|]; [|done]. injection Hnb as Hnb. eauto.
Qed.

Lemma round_from_pass r g closest closest' D W :
  shrunk g0 g → length closest = (length (node_data g0) - 2)%nat →
  (∀ x, contains g0 x ≠ Ok true → (x < length closest)%nat →
     closest !! x = Some (Neighbor2 NO_NODE 0)) →
  (∀ x, contains g x = Ok true → closest !! x = Some (Neighbor2 x 0)) →
  (∀ x, contains g0 x = Ok true → contains g x ≠ Ok true →
     ∃ c nd, closest !! x = Some c ∧ node c ≠ x
       ∧ node_data g0 !! x = Some nd ∧ c ∈ neighbors nd) →
  pass_result g closest closest' D W →
  (∀ v, (v < length closest')%nat → ∃ j, (j ≤ r)%nat ∧ chain_len closest' j v = Some j) →
  (r + member_count g ≤ member_count g0 + 1)%nat →
  round_inv g0 r g closest' D W.
Proof.
  intros Hsh Hlen HU HJ1 HA (Hl' & Hsame & HD & HW) Hch Hmc.
  pose proof Hsh as (Hsid & Hlen' & Hnb & Hsub & Hn).
  assert (HDc : ∀ x, x ∈ D → contains g x = Ok true) by (intros x Hx; by apply HD).
  split; [done|]. split; [congruence|]. split; [|split; [|split; [|split; [|split; [|split]]]]].
  - intros x Hx Hlt. rewrite Hsame.
    + apply HU; [done|congruence].
    + intros HxD. apply Hx, Hsub. by apply HDc.
  - intros x Hx HxD. rewrite Hsame by done. by apply HJ1.
  - intros x Hx. destruct (HD x Hx) as (Hc & n & nd & Hcn & Hne & Hmem & HnD & _).
    split; [done|]. eauto 10.
  - intros x Hx0 [Hx|Hx].
    + rewrite Hsame; [by apply HA|]. intros HxD. by apply Hx, HDc.
    + destruct (HD x Hx) as (Hc & n & nd & Hcn & Hne & Hmem & HnD & Hnd & Hin).
      destruct (neighbors_shrunk g x nd Hsh Hnd) as (nd0 & Hnd0 & Heq).
      exists n, nd0. split; [done|]. split; [done|]. split; [done|]. by rewrite Heq.
  - done.
  - done.
  - done.
Qed.

Lemma pass_chains r g closest closest' D W :
  (∀ x, contains g x = Ok true → closest !! x = Some (Neighbor2 x 0)) →
  pass_result g closest closest' D W →
  (∀ v, (v < length closest)%nat → ∃ j, (j ≤ r)%nat ∧ chain_len closest j v = Some j) →
  ∀ v, (v < length closest')%nat → ∃ j, (j ≤ S r)%nat ∧ chain_len closest' j v = Some j.
Proof.
  intros HJ1 (Hl' & Hsame & HD & HW) Hch v Hv.
  destruct (Hch v) as (j & Hj & Hcl); [congruence|].
  destruct (chain_len_extend closest closest') with (j := j) (v := v) as (j' & Hj' & Hcl');
    [| |done|exists j'; split; [lia|done]].
  - intros x c Hx Hc. rewrite Hsame; [done|]. intros HxD.
    destruct (HD x HxD) as (Hmem & _). rewrite (HJ1 x Hmem) in Hx. injection Hx as <-. done.
  - intros x c Hx Hc. destruct (decide (x ∈ D)) as [HxD|HxD].
    + right. destruct (HD x HxD) as (_ & n & nd & Hcn & Hne & Hmem & HnD & _).
      exists n. split; [done|]. exists (Neighbor2 (node n) 0).
      split; [|done]. rewrite Hsame by done. by apply HJ1.
    + left. exists c. split; [|done]. by rewrite Hsame.
Qed.

Lemma contract_loop_spec : ∀ k r g closest D W,
  round_inv g0 r g closest D W → (member_count g ≤ k)%nat →
  ∃ g' closest' r' W',
    (∀ fuel, (k ≤ fuel)%nat → contract_loop cfg fuel g closest D W = Ok (g', closest'))
    ∧ round_inv g0 r' g' closest' [] W'.
Proof.
  destruct Hready as (Hid & HN & Hl & Hlisted & Hrange & Hedges).
  induction k as [|k IH]; intros r g closest D W Hinv Hk.
  - destruct D as [|x D].
    + exists g, closest, r, W. split; [by intros [|fuel] _|done].
    + exfalso. destruct Hinv as (Hsh & _ & _ & _ & HJ2 & _).
      destruct (HJ2 x) as [Hx _]; [left|].
      pose proof Hsh as (Hsid & Hlen' & _).
      destruct (remove_nodes_spec g [x]) as (g1 & _ & _ & _ & _ & _ & _ & _ & Hlt).
      { congruence. }
      { intros y ->%list_elem_of_singleton. unfold contains in Hx.
        apply bind_Ok_inv in Hx as (nd & Hnd & _). apply at_Ok in Hnd.
        by eapply lookup_lt_Some. }
      assert ((member_count g1 < member_count g)%nat); [|lia].
      apply Hlt. exists x. split; [left|done].
  - destruct (decide (D = [])) as [->|HDne].
    { exists g, closest, r, W. split; [by intros [|fuel] _|done]. }
    pose proof Hinv as (Hsh & Hlen & HU & HJ1 & HJ2 & HA & HJ3 & HJ4 & HJ5).
    pose proof Hsh as (Hsid & Hlen' & Hnb & Hsub & Hn).
    assert (HDc : ∀ x, x ∈ D → contains g x = Ok true) by (intros x Hx; by apply HJ2).
    destruct (remove_nodes_spec g D)
      as (g1 & Hrm & Hsid1 & Hlen1 & Hnb1 & Hn1 & Hc1 & Hle1 & Hlt1).
    { congruence. }
    { intros y Hy. specialize (HDc y Hy). unfold contains in HDc.
      apply bind_Ok_inv in HDc as (nd & Hnd & _). apply at_Ok in Hnd.
      by eapply lookup_lt_Some. }
    assert (Hlt : (member_count g1 < member_count g)%nat).
    { apply Hlt1. destruct D as [|y D']; [done|]. exists y. split; [left|apply HDc; left]. }
    assert (Hsh1 : shrunk g0 g1).
    { split; [congruence|]. split; [congruence|]. split; [|split].
      - intros y. by rewrite Hnb1.
      - intros y Hy. apply Hsub. by apply Hc1.
      - intros y. rewrite Hn1, Hn, Hc1. split; [|tauto].
        intros [[? ?] ?]. tauto. }
    destruct (pass_spec g1 closest W Hsh1 Hlen) as (closest1 & D1 & W1 & Hpass & Hres).
    { intros w Hw. apply Hc1. by apply HJ4. }
    assert (HJ1' : ∀ y, contains g1 y = Ok true → closest !! y = Some (Neighbor2 y 0)).
    { intros y Hy. apply Hc1 in Hy as [Hy HyD]. by apply HJ1. }
    assert (Hinv1 : round_inv g0 (S r) g1 closest1 D1 W1).
    { apply (round_from_pass (S r) g1 closest closest1 D1 W1); try done.
      - intros y Hy0 Hy1. apply HA; [done|].
        destruct (decide (y ∈ D)) as [?|HyD]; [by right|left].
        intros Hy. apply Hy1, Hc1. done.
      - by apply (pass_chains r g1 closest closest1 D1 W1).
      - lia. }
    destruct (IH (S r) g1 closest1 D1 W1 Hinv1) as (g' & closest' & r' & W' & Hrun & Hfin); [lia|].
    exists g', closest', r', W'. split; [|done].
    intros [|fuel] Hfuel; [lia|]. destruct D as [|y D']; [done|].
    cbn [contract_loop]. rewrite Hrm. cbn [mbind result_bind]. rewrite Hpass.
    cbn [mbind result_bind]. apply Hrun. lia.
Qed.

Lemma closest_init_spec todo : ∀ closest,
  (∀ x, x ∈ todo → (x < length closest)%nat) →
  ∃ closest', closest_init todo closest = Ok closest'
    ∧ length closest' = length closest
    ∧ (∀ x, x ∈ todo → closest' !! x = Some (Neighbor2 x 0))
    ∧ (∀ x, x ∉ todo → closest' !! x = closest !! x).
Proof.
  induction todo as [|y todo IH]; intros closest Hr.
  - exists closest. split; [done|]. split; [done|]. split; [|done]. by intros x ?%elem_of_nil.
  - cbn [closest_init]. unfold set_at. rewrite decide_True by (apply Hr; left).
    cbn [mbind result_bind].
    destruct (IH (<[y := Neighbor2 y 0]> closest)) as (c' & Hrun & Hlen & Hin & Hout).
    { intros x Hx. rewrite length_insert. apply Hr. by right. }
    exists c'. split; [done|]. split; [by rewrite Hlen, length_insert|]. split.
    + intros x Hx. destruct (decide (x ∈ todo)) as [?|Hnt]; [by apply Hin|].
      apply elem_of_cons in Hx as [->|?]; [|done].
      rewrite Hout by done. apply list_lookup_insert_eq. apply Hr. left.
    + intros x Hx. apply not_elem_of_cons in Hx as [Hxy Hx].
      rewrite Hout by done. by apply list_lookup_insert_ne.
Qed.

End rounds.

End contract.

(** X19.  On a consistent subgraph [contract] terminates within as many
    rounds as [node_data] has entries.  It leaves the adjacency lists alone,
    every vertex still in the subgraph is its own [closest] entry, every
    vertex it removed has one of its own edges as [closest] entry, and from
    every vertex the chain of [closest] entries ends at a vertex that is its
    own entry, within the number of steps the [ContractionIndex] constructor
    allows. *)
Theorem contract_forest cfg g :
  contract_ready g →
  ∃ g' closest',
    (∀ fuel, (length (node_data g) ≤ fuel)%nat → contract cfg fuel g [] = Ok (g', closest'))
    ∧ shrunk g g'
    ∧ length closest' = (length (node_data g) - 2)%nat
    ∧ (∀ x, contains g' x = Ok true → closest' !! x = Some (Neighbor2 x 0))
    ∧ (∀ x, contains g x = Ok true → contains g' x ≠ Ok true →
         ∃ c nd, closest' !! x = Some c ∧ node c ≠ x
           ∧ node_data g !! x = Some nd ∧ c ∈ neighbors nd)
    ∧ ∀ x, (x < length closest')%nat → is_Some (chain_len closest' (length closest') x).
Proof.
  intros Hready. pose proof Hready as (Hid & HN & Hl & Hlisted & Hrange & Hedges).
  set (N := length (node_data g)) in *.
  set (closest0 := vresize [] (N - 2) (Neighbor2 NO_NODE 0)).
  assert (Hlen0 : length closest0 = (N - 2)%nat) by apply length_vresize.
  assert (Hnull : ∀ x, (x < N - 2)%nat → closest0 !! x = Some (Neighbor2 NO_NODE 0)).
  { intros x Hx. unfold closest0, vresize. rewrite take_nil. simpl.
    apply lookup_replicate_2. lia. }
  destruct (closest_init_spec (nodes g) closest0) as (closest1 & Hinit & Hlen1 & Hin1 & Hout1).
  { intros x Hx. destruct (Hrange x (Hl x Hx)). lia. }
  assert (Hsh0 : shrunk g g).
  { split; [done|]. split; [done|]. split; [done|]. split; [done|].
    intros x. split; [intros ?; split; [done|by apply Hl]|by intros [? _]]. }
  destruct (pass_spec cfg g Hready g closest1 (nodes g) Hsh0) as (closest2 & D & W & Hpass & Hres).
  { lia. }
  { exact Hl. }
  assert (HJ1 : ∀ x, contains g x = Ok true → closest1 !! x = Some (Neighbor2 x 0)).
  { intros x Hx. by apply Hin1, Hlisted. }
  assert (HU : ∀ x, contains g x ≠ Ok true → (x < length closest1)%nat →
                 closest1 !! x = Some (Neighbor2 NO_NODE 0)).
  { intros x Hx Hlt. rewrite Hout1; [apply Hnull; lia|]. intros Hin. by apply Hx, Hl. }
  assert (Hinv : round_inv g 1 g closest2 D W).
  { apply (round_from_pass g 1 g closest1 closest2 D W); try done; [lia| |lia].
    pose proof Hres as (Hl2 & Hsame & HD & HW).
    intros v Hv. destruct (decide (v ∈ D)) as [HvD|HvD].
    - destruct (HD v HvD) as (_ & n & nd & Hcn & Hne & Hmem & HnD & _).
      exists 1%nat. split; [lia|]. cbn [chain_len]. rewrite Hcn, decide_False by done.
      rewrite Hsame, (HJ1 _ Hmem) by done. simpl. by rewrite decide_True.
    - destruct (decide (v ∈ nodes g)) as [Hc%Hl|Hc].
      + exists 0%nat. split; [lia|]. cbn [chain_len]. rewrite Hsame, (HJ1 _ Hc) by done.
        simpl. by rewrite decide_True.
      + assert (Hv1 : closest2 !! v = Some (Neighbor2 NO_NODE 0)).
        { rewrite Hsame by done. apply HU; [|lia]. intros Hc'. by apply Hc, Hlisted. }
        destruct (decide (v = 0%nat)) as [->|Hv0].
        * exists 0%nat. split; [lia|]. cbn [chain_len]. by rewrite Hv1.
        * assert (H0 : closest2 !! 0%nat = Some (Neighbor2 NO_NODE 0)).
          { rewrite Hsame.
            - apply HU; [|lia]. intros H0. destruct (Hrange 0%nat H0). lia.
            - intros H0. destruct (HD 0%nat H0) as [H0' _]. destruct (Hrange 0%nat H0'). lia. }
          exists 1%nat. split; [lia|]. cbn [chain_len]. rewrite Hv1. cbn [node Neighbor2].
          rewrite decide_False by (unfold NO_NODE; congruence).
          unfold NO_NODE in *. by rewrite H0. }
  destruct (contract_loop_spec cfg g Hready N 1 g closest2 D W Hinv)
    as (g' & closest' & r' & W' & Hrun & Hfin).
  { apply member_count_le_length. }
  exists g', closest'. split.
  { intros fuel Hfuel. unfold contract. fold N.
    destruct (N <? 2)%nat eqn:E; [apply Nat.ltb_lt in E; lia|].
    fold closest0. rewrite Hinit. cbn [mbind result_bind]. rewrite Hpass.
    cbn [mbind result_bind]. by apply Hrun. }
  destruct Hfin as (Hsh & Hlen & HU' & HJ1' & HJ2 & HA & HJ3 & HJ4 & HJ5).
  split; [done|]. split; [done|]. split; [|split].
  - intros x Hx. apply HJ1'; [done|apply not_elem_of_nil].
  - intros x Hx Hx'. apply HA; [done|by left].
  - intros x Hx. destruct (HJ3 x Hx) as (j & Hj & Hcl).
    pose proof (member_count_bound g Hrange) as Hb. fold N in Hb.
    exists j. apply (chain_len_mono closest' j); [done|]. lia.
Qed.

Lemma contract_forest_witness :
  ∃ g' closest',
    (∀ fuel, (length (node_data example_graph) ≤ fuel)%nat →
       contract spec_config fuel example_graph [] = Ok (g', closest'))
    ∧ shrunk example_graph g'
    ∧ length closest' = (length (node_data example_graph) - 2)%nat
    ∧ (∀ x, contains g' x = Ok true → closest' !! x = Some (Neighbor2 x 0))
    ∧ (∀ x, contains example_graph x = Ok true → contains g' x ≠ Ok true →
         ∃ c nd, closest' !! x = Some c ∧ node c ≠ x
           ∧ node_data example_graph !! x = Some nd ∧ c ∈ neighbors nd)
    ∧ ∀ x, (x < length closest')%nat → is_Some (chain_len closest' (length closest') x).
Proof.
  apply (contract_forest spec_config example_graph).
  split; [vm_compute; discriminate|]. split; [vm_compute; lia|].
  split; [|split; [|split]].
  - intros u Hu. vm_compute in Hu.
    repeat (apply elem_of_cons in Hu as [->|Hu]; [vm_compute; reflexivity|]).
    by apply elem_of_nil in Hu.
  - intros u Hu.
    do 9 (destruct u as [|u];
          [first [discriminate Hu
                 | vm_compute; repeat first [apply list_elem_of_here | apply list_elem_of_further]]|]).
    discriminate Hu.
  - intros u Hu.
    do 9 (destruct u as [|u]; [first [discriminate Hu | vm_compute; lia]|]).
    discriminate Hu.
  - intros u nd n Hnd Hn.
    do 9 (destruct u as [|u];
          [vm_compute in Hnd; injection Hnd as <-; simpl in Hn;
           repeat (apply elem_of_cons in Hn as [->|Hn]; [vm_compute; lia|]);
           by apply elem_of_nil in Hn|]).
    discriminate Hnd.
Defined.

(** ** The shortcut graph on file *)

Section on_file.

Lemma length_le_bytes w : ∀ x, length (le_bytes w x) = w.
Proof. induction w as [|w IH]; intros x; simpl; [done|]. by rewrite IH. Qed.

Lemma le_value_bytes w : ∀ x, 0 <= x < 256 ^ Z.of_nat w → le_value (le_bytes w x) = x.
Proof.
  induction w as [|w IH]; intros x Hx.
  - simpl in *. lia.
  - cbn [le_bytes le_value]. rewrite IH.
    + pose proof (Z.div_mod x 256). lia.
    + rewrite Nat2Z.inj_succ, Z.pow_succ_r in Hx by lia.
      split; [apply Z.div_pos; lia|]. apply Z.div_lt_upper_bound; lia.
Qed.

Lemma bread_bytes w x rest old :
  0 <= x < 256 ^ Z.of_nat w →
  bread (mkB (le_bytes w x ++ rest) false) w old = (mkB rest false, Some x).
Proof.
  intros Hx. unfold bread. cbn [b_fail b_bytes].
  rewrite (proj2 (Nat.leb_le w _)) by (rewrite length_app, length_le_bytes; lia).
  rewrite drop_app_length' by (by rewrite length_le_bytes).
  rewrite take_app_length' by (by rewrite length_le_bytes).
  by rewrite le_value_bytes.
Qed.

Lemma read_up_written up : ∀ rest acc,
  Forall up_fits up →
  read_up (mkB (flat_map write_up up ++ rest) false) (length up) acc
  = Ok (mkB rest false, acc ++ up).
Proof.
  induction up as [|[a d p] up IH]; intros rest acc Hfit.
  - simpl. by rewrite app_nil_r.
  - apply Forall_cons in Hfit as [(Ha & Hd & Hp) Hfit]. cbn [node distance path_count] in *.
    cbn [length flat_map read_up]. unfold write_up at 1. cbn [node distance path_count].
    rewrite <- !app_assoc.
    rewrite bread_bytes by (change (256 ^ Z.of_nat 4) with 4294967296; lia).
    rewrite bread_bytes by (change (256 ^ Z.of_nat 4) with 4294967296; lia).
    rewrite bread_bytes by (change (256 ^ Z.of_nat 2) with 65536; lia).
    cbn [initialised mbind result_bind]. simpl. rewrite Nat2Z.id, IH by done.
    by rewrite <- app_assoc.
Qed.

Lemma read_down_written down : ∀ rest acc,
  Forall (λ u, Z.of_nat u < 4294967296) down →
  read_down (mkB (flat_map (λ u, le_bytes 4 (Z.of_nat u)) down ++ rest) false) (length down) acc
  = Ok (mkB rest false, acc ++ down).
Proof.
  induction down as [|u down IH]; intros rest acc Hfit.
  - simpl. by rewrite app_nil_r.
  - apply Forall_cons in Hfit as [Hu Hfit].
    cbn [length flat_map read_down]. rewrite <- !app_assoc.
    rewrite bread_bytes by (change (256 ^ Z.of_nat 4) with 4294967296; lia).
    simpl. rewrite Nat2Z.id, IH by done.
    by rewrite <- app_assoc.
Qed.

Lemma read_nodes_written dflt tl : ∀ pre rest count,
  Forall node_fits tl →
  CHNode.up_neighbors dflt = [] → CHNode.down_neighbors dflt = [] →
  read_nodes (mkB (flat_map write_node tl ++ rest) false) (seq (length pre) (length tl)) count
    (pre ++ replicate (length tl) dflt)
  = Ok (pre ++ ((λ n, if CHNode.dist_index n =? 65535 then CHNode.mk 65535 [] [] else n) <$> tl)).
Proof.
  induction tl as [|[di up down] tl IH]; intros pre rest count Hfit Hup Hdown.
  - done.
  - apply Forall_cons in Hfit as [(Hdi & Hlu & Hld & Hfu & Hfd) Hfit].
    cbn [CHNode.dist_index CHNode.up_neighbors CHNode.down_neighbors] in *.
    cbn [length seq replicate flat_map read_nodes fmap list_fmap].
    unfold at_. rewrite lookup_app_r, Nat.sub_diag by lia. cbn [lookup list_lookup mbind result_bind].
    unfold write_node at 1. cbn [CHNode.dist_index CHNode.up_neighbors CHNode.down_neighbors].
    rewrite <- !app_assoc.
    rewrite bread_bytes by (change (256 ^ Z.of_nat 2) with 65536; lia).
    cbn [initialised mbind result_bind].
    assert (Halter : ∀ f (x : CHNode.t) r, alter f (length pre) (pre ++ x :: r) = pre ++ f x :: r).
    { intros f x r. rewrite <- (Nat.add_0_r (length pre)). by rewrite alter_app_r. }
    destruct (di =? 65535) eqn:Hc.
    + apply Z.eqb_eq in Hc. subst di. cbn [app].
      unfold set_dist_index. rewrite Halter, Hup, Hdown.
      specialize (IH (pre ++ [CHNode.mk 65535 [] []]) rest count Hfit Hup Hdown).
      rewrite length_app, Nat.add_1_r, <- app_assoc in IH. cbn [app] in IH.
      rewrite IH. by rewrite <- app_assoc.
    + rewrite <- !app_assoc.
      rewrite bread_bytes by (change (256 ^ Z.of_nat 8) with 18446744073709551616; lia).
      cbn [initialised mbind result_bind]. rewrite Nat2Z.id, Hup.
      rewrite (read_up_written up _ []) by done. cbn [mbind result_bind app].
      rewrite bread_bytes by (change (256 ^ Z.of_nat 8) with 18446744073709551616; lia).
      cbn [initialised mbind result_bind]. rewrite Nat2Z.id, Hdown.
      rewrite (read_down_written down _ []) by done. cbn [mbind result_bind app].
      unfold set_dist_index, set_up, set_down. rewrite !Halter.
      cbn [CHNode.dist_index CHNode.up_neighbors CHNode.down_neighbors].
      specialize (IH (pre ++ [CHNode.mk di up down]) rest (Some (Z.of_nat (length down)))
                    Hfit Hup Hdown).
      rewrite length_app, Nat.add_1_r, <- app_assoc in IH. cbn [app] in IH.
      rewrite IH. by rewrite <- app_assoc.
Qed.

(** X20 (ContractionHierarchy::write, ContractionHierarchy(istream&)): a
    shortcut graph whose values fit their types is read back from the bytes
    [write] produces, for every count the local [count] starts with, up to
    what [write] leaves out: vertex 0 comes back as a fresh node and a
    contracted vertex (dist_index 65535) comes back without lists.  A
    shortcut graph that has nothing there comes back as it was. *)
Theorem CH_write_read cfg (ch : ContractionHierarchy) :
  CH_fits ch →
  CH_read cfg (CH_write ch) = Ok (CH_stored cfg ch)
  ∧ (head ch = Some (CHNode.mk (chnode_dist_index cfg) [] []) →
     Forall (λ n, CHNode.dist_index n = 65535 →
                  CHNode.up_neighbors n = [] ∧ CHNode.down_neighbors n = []) ch →
     CH_read cfg (CH_write ch) = Ok ch).
Proof.
  intros [Hlen Hfit].
  assert (Hread : CH_read cfg (CH_write ch) = Ok (CH_stored cfg ch)).
  { unfold CH_read, CH_write.
    rewrite bread_bytes by (change (256 ^ Z.of_nat 8) with 18446744073709551616; lia).
    cbn [initialised mbind result_bind].
    rewrite (proj2 (Z.leb_gt _ _)) by lia. rewrite Nat2Z.id.
    destruct ch as [|n0 tl]; [done|].
    cbn [length drop CH_stored] in *. rewrite Nat.sub_succ, Nat.sub_0_r.
    unfold vresize. rewrite take_nil, Nat.sub_0_r. cbn [app replicate].
    pose proof (read_nodes_written (CHNode.mk (chnode_dist_index cfg) [] []) tl
                  [CHNode.mk (chnode_dist_index cfg) [] []] [] None Hfit eq_refl eq_refl) as H.
    rewrite app_nil_r in H. exact H. }
  split; [exact Hread|].
  intros Hhead Hplain. rewrite Hread. f_equal.
  destruct ch as [|n0 tl]; [done|]. cbn [CH_stored]. simpl in Hhead.
  injection Hhead as ->. f_equal.
  apply Forall_cons in Hplain as [_ Hplain].
  clear -Hplain. induction Hplain as [|[di up down] tl Hn _ IH]; [done|].
  cbn [fmap list_fmap] in *. rewrite IH. f_equal.
  cbn [CHNode.dist_index CHNode.up_neighbors CHNode.down_neighbors] in *.
  destruct (di =? 65535) eqn:Hc; [|done].
  apply Z.eqb_eq in Hc. destruct (Hn Hc) as [-> ->]. by subst.
Qed.

End on_file.

Lemma CH_write_read_witness :
  CH_read spec_config (CH_write example_sc.1) = Ok example_sc.1.
Proof.
  apply (CH_write_read spec_config example_sc.1).
  - split; [vm_compute; reflexivity|].
    repeat first [apply Forall_nil_2 | apply Forall_cons_2 | split]; vm_compute;
      first [reflexivity | discriminate].
  - vm_compute; reflexivity.
  - repeat first [apply Forall_nil_2 | apply Forall_cons_2]; vm_compute;
      first [discriminate | by split].
Defined.

(** ** Printing a graph and reading it back *)

Lemma isdigit_digit_char d : 0 <= d < 10 → isdigit (digit_char d) = true.
Proof.
  intros Hd. assert (H : d = 0 ∨ d = 1 ∨ d = 2 ∨ d = 3 ∨ d = 4 ∨ d = 5 ∨ d = 6 ∨ d = 7 ∨ d = 8 ∨ d = 9) by lia.
  repeat destruct H as [->|H]; try subst d; reflexivity.
Qed.

Lemma digit_char_value d : 0 <= d < 10 → Z.of_nat (nat_of_ascii (digit_char d) - 48) = d.
Proof.
  intros Hd. assert (H : d = 0 ∨ d = 1 ∨ d = 2 ∨ d = 3 ∨ d = 4 ∨ d = 5 ∨ d = 6 ∨ d = 7 ∨ d = 8 ∨ d = 9) by lia.
  repeat destruct H as [->|H]; try subst d; reflexivity.
Qed.

Lemma isdigit_not_space c : isdigit c = true → isspace c = false ∧ c ≠ newline.
Proof.
  unfold isdigit, isspace. intros H. apply andb_true_iff in H as [H1 H2].
  apply Nat.leb_le in H1, H2. split.
  - apply orb_false_iff. split; [apply Nat.eqb_neq; lia|].
    apply andb_false_iff. right. apply Nat.leb_gt. lia.
  - intros ->. change (nat_of_ascii newline) with 10%nat in H1. lia.
Qed.

Lemma dec_digits_spec fuel : ∀ x acc,
  0 <= x < 10 ^ Z.of_nat (S fuel) →
  ∃ ds, dec_digits (S fuel) x acc = ds ++ acc ∧ ds ≠ []
    ∧ Forall (λ c, isdigit c = true) ds
    ∧ ∀ a tail, read_digits a (ds ++ tail) = read_digits (a * 10 ^ Z.of_nat (length ds) + x) tail.
Proof.
  assert (Hone : ∀ x acc, 0 <= x < 10 →
    ∃ ds, digit_char (x mod 10) :: acc = ds ++ acc ∧ ds ≠ []
      ∧ Forall (λ c, isdigit c = true) ds
      ∧ ∀ a tail, read_digits a (ds ++ tail)
                  = read_digits (a * 10 ^ Z.of_nat (length ds) + x) tail).
  { intros x acc Hlt. exists [digit_char (x mod 10)].
    rewrite Z.mod_small by lia. split; [done|]. split; [done|]. split.
    - constructor; [|done]. apply isdigit_digit_char. lia.
    - intros a tail. cbn [app read_digits length]. rewrite isdigit_digit_char by lia.
      rewrite digit_char_value by lia. f_equal. change (10 ^ Z.of_nat 1) with 10. lia. }
  induction fuel as [|fuel IH]; intros x acc Hx.
  - cbn [dec_digits]. change (10 ^ Z.of_nat 1) with 10 in Hx.
    rewrite (proj2 (Z.ltb_lt _ _)) by lia. by apply Hone.
  - remember (S fuel) as k eqn:Hk. cbn [dec_digits]. destruct (x <? 10) eqn:Hlt.
    + apply Z.ltb_lt in Hlt. apply Hone. lia.
    + apply Z.ltb_ge in Hlt.
      rewrite Nat2Z.inj_succ, Z.pow_succ_r in Hx by lia. subst k.
      destruct (IH (x / 10) (digit_char (x mod 10) :: acc)) as (ds & Hds & Hne & Hall & Hrd).
      { split; [apply Z.div_pos; lia|]. apply Z.div_lt_upper_bound; lia. }
      pose proof (Z.mod_pos_bound x 10 ltac:(lia)) as Hm.
      exists (ds ++ [digit_char (x mod 10)]). split; [by rewrite Hds, <- app_assoc|].
      split; [by destruct ds|]. split.
      * apply Forall_app. split; [done|]. constructor; [|done]. by apply isdigit_digit_char.
      * intros a tail. rewrite <- app_assoc. cbn [app]. rewrite Hrd. cbn [read_digits].
        rewrite isdigit_digit_char, digit_char_value by lia. f_equal.
        rewrite length_app. cbn [length]. rewrite Nat2Z.inj_add, Z.pow_add_r by lia.
        change (10 ^ Z.of_nat 1) with 10. pose proof (Z.div_mod x 10). lia.
Qed.

Lemma print_dec_spec x :
  0 <= x →
  ∃ c ds, print_dec x = c :: ds ∧ Forall (λ c, isdigit c = true) (c :: ds)
    ∧ ∀ tail, read_digits 0 (c :: ds ++ tail) = read_digits x tail.
Proof.
  intros Hx. unfold print_dec.
  destruct (dec_digits_spec (Z.to_nat (Z.log2 x)) x []) as (ds & Hds & Hne & Hall & Hrd).
  { split; [done|]. rewrite Nat2Z.inj_succ, Z2Nat.id by apply Z.log2_nonneg.
    destruct (decide (x = 0)) as [->|Hn]; [done|].
    pose proof (Z.log2_spec x ltac:(lia)) as [_ H2].
    eapply Z.lt_le_trans; [exact H2|].
    apply Z.pow_le_mono_l. pose proof (Z.log2_nonneg x). lia. }
  rewrite app_nil_r in Hds. destruct ds as [|c ds]; [done|].
  exists c, ds. split; [done|]. split; [done|]. intros tail.
  specialize (Hrd 0 tail). by rewrite Z.mul_0_l, Z.add_0_l in Hrd.
Qed.

(** [in >> x] on what [os << ' ' << x] wrote, followed by a character that
    is no digit *)
Lemma get_u32_printed x c rest old :
  0 <= x <= UINT32_MAX → isdigit c = false →
  get_u32 (mkStream (" "%char :: print_dec x ++ c :: rest) false false) old
  = (mkStream (c :: rest) false false, Some x).
Proof.
  intros Hx Hc. unfold get_u32, good. cbn [failbit eofbit chars negb andb].
  destruct (print_dec_spec x) as (c0 & ds & Hp & Hall & Hrd); [lia|].
  rewrite Hp. apply Forall_cons in Hall as [Hc0 Hall].
  assert (Hskip : skipws (" "%char :: (c0 :: ds) ++ c :: rest) = c0 :: ds ++ c :: rest).
  { cbn [app skipws]. change (isspace " ") with true. cbn iota.
    by rewrite (proj1 (isdigit_not_space c0 Hc0)). }
  rewrite Hskip.
  assert (Hsign : bool_decide (c0 = "-"%char) || bool_decide (c0 = "+"%char) = false).
  { apply orb_false_iff. split; apply bool_decide_eq_false_2; by intros ->. }
  rewrite Hsign. cbv beta iota zeta. rewrite Hc0, Hrd. cbn [read_digits]. rewrite Hc.
  rewrite (proj2 (Z.leb_le _ _)) by lia.
  rewrite (bool_decide_eq_false_2 (c0 = "-"%char)) by (by intros ->).
  by rewrite bool_decide_eq_false_2.
Qed.

(** [in >> x] on a printed number with a minus sign before it: the value is
    negated in 32 bits and no flag is set *)
Lemma get_u32_printed_negative x c rest old :
  0 <= x <= UINT32_MAX → isdigit c = false →
  get_u32 (mkStream (" "%char :: "-"%char :: print_dec x ++ c :: rest) false false) old
  = (mkStream (c :: rest) false false, Some (wrap32 (- x))).
Proof.
  intros Hx Hc. unfold get_u32, good. cbn [failbit eofbit chars negb andb].
  destruct (print_dec_spec x) as (c0 & ds & Hp & Hall & Hrd); [lia|].
  rewrite Hp. apply Forall_cons in Hall as [Hc0 Hall].
  change (skipws (" "%char :: "-"%char :: ?l)) with ("-"%char :: l).
  cbv beta iota. rewrite (bool_decide_eq_true_2 ("-"%char = "-"%char)) by done.
  cbn [orb app]. cbv zeta. rewrite Hc0.
  rewrite Hrd.
  cbn [read_digits]. rewrite Hc.
  rewrite (proj2 (Z.leb_le _ _)) by lia.
  by rewrite bool_decide_eq_false_2.
Qed.

(** [in >> x] when only white space is left: the end of the input is met,
    both flags are set and [x] keeps its value *)
Lemma get_u32_at_end s x :
  good s = true → skipws (chars s) = [] →
  get_u32 s x = (mkStream [] true true, x).
Proof. intros Hg Hs. unfold get_u32. by rewrite Hg, Hs. Qed.

Lemma length_dec_digits fuel : ∀ x acc,
  (length (dec_digits fuel x acc) ≤ fuel + length acc)%nat.
Proof.
  induction fuel as [|fuel IH]; intros x acc; cbn [dec_digits]; [lia|].
  destruct (x <? 10); [simpl; lia|].
  specialize (IH (x / 10) (digit_char (x mod 10) :: acc)). simpl in IH. lia.
Qed.

Lemma print_dec_line x :
  0 <= x < 18446744073709551616 →
  (length (print_dec x) ≤ 64)%nat ∧ newline ∉ print_dec x.
Proof.
  intros Hx. split.
  - unfold print_dec. pose proof (length_dec_digits (S (Z.to_nat (Z.log2 x))) x []) as H.
    rewrite Nat.add_0_r in H.
    assert (Z.log2 x < 64); [|lia].
    destruct (decide (x = 0)) as [->|Hn]; [done|].
    apply Z.log2_lt_pow2; lia.
  - destruct (print_dec_spec x) as (c & ds & -> & Hall & _); [lia|].
    intros Hin. apply (proj1 (Forall_forall _ _) Hall) in Hin.
    by apply isdigit_not_space in Hin as [_ Hin].
Qed.

Lemma skipws_lines es : skipws (flat_map print_edge es) = flat_map print_edge es.
Proof. by destruct es as [|[[a b] d] es]. Qed.

Lemma length_lines es : (length es ≤ length (flat_map print_edge es))%nat.
Proof.
  induction es as [|[[a b] d] es IH]; [done|].
  cbn [flat_map]. rewrite length_app. unfold print_edge at 1. simpl. lia.
Qed.

Lemma contains_set_neighbors g v ns u : contains (set_neighbors g v ns) u = contains g u.
Proof.
  unfold contains, at_, set_neighbors. cbn [node_data g_subgraph_id].
  rewrite list_lookup_alter. case_decide; [subst u|done].
  by destruct (node_data g !! v).
Qed.

Lemma add_edge1_frame cfg g v w d g' :
  add_edge1 cfg g v w d = Ok g' → nodes g' = nodes g ∧ ∀ u, contains g' u = contains g u.
Proof.
  unfold add_edge1. intros H.
  repeat (apply bind_Ok_inv in H as (? & _ & H)).
  destruct (relax_existing _ _ _); injection H as <-;
    (split; [done|]); intros u; apply contains_set_neighbors.
Qed.

Lemma add_edge_frame cfg g v w d g' :
  add_edge cfg g v w d true = Ok g' → nodes g' = nodes g ∧ ∀ u, contains g' u = contains g u.
Proof.
  unfold add_edge. intros H. apply bind_Ok_inv in H as (g1 & H1 & H2).
  apply add_edge1_frame in H1 as [Hn1 Hc1]. apply add_edge1_frame in H2 as [Hn2 Hc2].
  split; [congruence|]. intros u. by rewrite Hc2, Hc1.
Qed.

Lemma mark_isolated_length cfg todo : ∀ gt g' iso,
  mark_isolated cfg gt todo = Ok (g', iso) → length (node_data g') = length (node_data gt).
Proof.
  induction todo as [|v todo IH]; intros gt g' iso H; cbn [mark_isolated] in H.
  - by injection H as <- <-.
  - apply bind_Ok_inv in H as (deg & _ & H). case_decide.
    + apply bind_Ok_inv in H as ([g1 iso1] & H1 & H). injection H as <- <-.
      apply IH in H1. rewrite H1. unfold set_subgraph. cbn [node_data]. by rewrite length_alter.
    + by apply IH in H.
Qed.

Lemma read_edge_lines cfg N es : ∀ fuel s v w d g hist,
  failbit s = false → eofbit s = false → skipws (chars s) = flat_map print_edge es →
  (∀ a b x, (a, b, x) ∈ es → (a < N)%nat ∧ (b < N)%nat ∧ 0 < x <= UINT32_MAX) →
  Z.of_nat N <= 4294967296 →
  edges_invariant N hist g → (length es < fuel)%nat →
  ∃ g', read_lines cfg fuel s v w d g = Ok g' ∧ edges_invariant N (hist ++ es) g'
    ∧ nodes g' = nodes g ∧ ∀ u, contains g' u = contains g u.
Proof.
  induction es as [|[[a b] x] es IH]; intros fuel s v w d g hist Hf He Hs Hfit HN Hinv Hfuel.
  - destruct fuel as [|fuel]; [simpl in Hfuel; lia|]. cbn [read_lines].
    unfold get_char, good. rewrite Hf, He, Hs. cbn [negb andb flat_map].
    exists g. by rewrite app_nil_r.
  - destruct fuel as [|fuel]; [simpl in Hfuel; lia|]. cbn [read_lines].
    destruct (Hfit a b x) as (Ha & Hb & Hx); [left|].
    unfold get_char, good. rewrite Hf, He, Hs. cbn [negb andb flat_map].
    unfold print_edge at 1. rewrite <- !app_assoc. cbn [app].
    rewrite bool_decide_eq_false_2 by done. rewrite bool_decide_eq_true_2 by done.
    unfold get_edge. unfold UINT32_MAX in *.
    rewrite (get_u32_printed (Z.of_nat a) " "%char _ v); [|unfold UINT32_MAX; lia|done].
    rewrite (get_u32_printed (Z.of_nat b) " "%char _ w); [|unfold UINT32_MAX; lia|done].
    rewrite (get_u32_printed x newline _ d); [|unfold UINT32_MAX; lia|done].
    unfold add_parsed_edge. cbn [initialised mbind result_bind]. rewrite !Nat2Z.id.
    destruct (add_edge_invariant cfg N hist g a b x Hinv Ha Hb) as (g1 & Hadd & H1); [lia|].
    rewrite Hadd. cbn [mbind result_bind]. apply add_edge_frame in Hadd as [Hn1 Hc1].
    destruct (IH fuel (mkStream (newline :: flat_map print_edge es) false false)
                (Some (Z.of_nat a)) (Some (Z.of_nat b)) (Some x) g1 (hist ++ [(a, b, x)]))
      as (g' & Hg' & H' & Hn' & Hc'); try done.
    + cbn [chars]. change (skipws (newline :: ?l)) with (skipws l). apply skipws_lines.
    + intros. apply Hfit. by right.
    + simpl in Hfuel. lia.
    + exists g'. split; [done|]. rewrite <- app_assoc in H'. split; [done|].
      split; [congruence|]. intros u. by rewrite Hc', Hc1.
Qed.

Lemma resize_invariant cfg g0 n :
  nodes g0 = [] →
  ∃ g1, resize cfg g0 n = Ok g1 ∧ edges_invariant (n + 3) [] g1
    ∧ nodes g1 = seq 1 n
    ∧ ∀ v, v ∈ seq 1 n → contains g1 v = Ok true.
Proof.
  intros Hn. unfold resize. rewrite Hn. rewrite check_true by done.
  eexists. split; [reflexivity|]. split; [|split; [done|]].
  - split.
    + cbn [node_data]. by rewrite !length_alter, length_replicate.
    + intros u x. unfold stored_weights. cbn [node_data min_weight weights_of].
      match goal with |- context [?l !! u] =>
        assert (Hall : Forall (λ nd, neighbors nd = []) l) end.
      { repeat (apply Forall_alter; [|done]). by apply Forall_replicate. }
      destruct (_ !! u) as [nd|] eqn:E; [|done].
      by rewrite (proj1 (Forall_lookup _ _) Hall _ _ E).
  - intros v Hv. apply elem_of_seq in Hv. unfold contains, at_. cbn [node_data g_subgraph_id].
    rewrite !list_lookup_alter_ne by lia.
    rewrite lookup_replicate_2 by lia. simpl. by rewrite Z.eqb_refl.
Qed.

Lemma mark_isolated_total cfg todo : ∀ gt,
  NoDup todo → (∀ v, v ∈ todo → contains gt v = Ok true) →
  (∀ u nd n, node_data gt !! u = Some nd → n ∈ neighbors nd →
     (node n < length (node_data gt))%nat) →
  ∃ g' iso, mark_isolated cfg gt todo = Ok (g', iso).
Proof.
  induction todo as [|v todo IH]; intros gt Hnd Hc Hr; cbn [mark_isolated]; [eauto|].
  apply NoDup_cons in Hnd as [Hv Hnd].
  unfold degree. rewrite (Hc v) by left. cbn [mbind result_bind]. rewrite check_true by done.
  cbn [mbind result_bind].
  assert (∃ nd, node_data gt !! v = Some nd) as [nd End].
  { specialize (Hc v ltac:(left)). unfold contains, at_ in Hc.
    destruct (node_data gt !! v); [eauto|done]. }
  unfold at_. rewrite End. cbn [mbind result_bind].
  rewrite count_contained_total.
  2:{ intros n Hn. apply lookup_lt_is_Some_2. by eapply Hr. }
  cbn [mbind result_bind]. case_decide as Hd.
  - destruct (IH (set_subgraph gt v NO_SUBGRAPH)) as (g' & iso & ->); [done|..|simpl; eauto].
    + intros v' Hv'. rewrite contains_set_subgraph_ne by (intros ->; done).
      apply Hc. by right.
    + intros u nu n Hu Hn. unfold set_subgraph in *. cbn [node_data] in *.
      rewrite length_alter. rewrite list_lookup_alter in Hu.
      case_decide; [|by eapply Hr]. subst u. rewrite End in Hu. simpl in Hu.
      injection Hu as <-. simpl in Hn. by eapply Hr.
  - apply IH; [done| |done]. intros. apply Hc. by right.
Qed.

Lemma elem_of_sort_insert e x l : e ∈ sort_insert x l ↔ e = x ∨ e ∈ l.
Proof.
  induction l as [|y l IH]; cbn [sort_insert].
  - rewrite list_elem_of_singleton, elem_of_nil. tauto.
  - destruct (Edge_lt x y); rewrite !elem_of_cons; [tauto|]. rewrite IH. tauto.
Qed.

Lemma elem_of_sort_edges e l : e ∈ sort_edges l ↔ e ∈ l.
Proof.
  induction l as [|x l IH]; cbn [sort_edges foldr]; [done|].
  fold (sort_edges l). rewrite elem_of_sort_insert, elem_of_cons, IH. tauto.
Qed.

Lemma length_sort_insert x l : length (sort_insert x l) = S (length l).
Proof.
  induction l as [|y l IH]; cbn [sort_insert]; [done|].
  destruct (Edge_lt x y); simpl; [done|]. by rewrite IH.
Qed.

Lemma length_sort_edges l : length (sort_edges l) = length l.
Proof.
  induction l as [|x l IH]; cbn [sort_edges foldr]; [done|].
  fold (sort_edges l). by rewrite length_sort_insert, IH.
Qed.

Lemma get_edges_at_spec g a ns : ∀ acc r,
  get_edges_at g a ns acc = Ok r →
  ∀ e, e ∈ r ↔ e ∈ acc ∨ ∃ n, n ∈ ns ∧ (a < node n)%nat ∧ contains g (node n) = Ok true
                           ∧ e = (a, node n, distance n).
Proof.
  induction ns as [|n ns IH]; intros acc r H e; cbn [get_edges_at] in H.
  - injection H as <-. split; [by left|]. intros [?|(n & ?%not_elem_of_nil & _)]; done.
  - destruct (a <? node n)%nat eqn:Hlt.
    + apply Nat.ltb_lt in Hlt. apply bind_Ok_inv in H as (c & Hc & H).
      rewrite (IH _ _ H e). destruct c.
      * rewrite elem_of_app, list_elem_of_singleton. split.
        -- intros [[?| ->]|(m & Hm & ?)]; [by left|right; exists n|right; exists m];
             (split; [by (left || right)|done]).
        -- intros [?|(m & [->|Hm]%elem_of_cons & Hlt' & Hc' & ->)];
             [by left; left|by left; right|right; by exists m].
      * split.
        -- intros [?|(m & Hm & ?)]; [by left|right; exists m]. split; [by right|done].
        -- intros [?|(m & [->|Hm]%elem_of_cons & Hlt' & Hc' & ->)];
             [by left|congruence|right; by exists m].
    + apply Nat.ltb_ge in Hlt. rewrite (IH _ _ H e). split.
      * intros [?|(m & Hm & ?)]; [by left|right; exists m]. split; [by right|done].
      * intros [?|(m & [->|Hm]%elem_of_cons & Hlt' & Hc' & ->)];
          [by left|lia|right; by exists m].
Qed.

Lemma get_edges_from_spec g todo : ∀ acc r,
  get_edges_from g todo acc = Ok r →
  ∀ e, e ∈ r ↔ e ∈ acc ∨ ∃ a nd n, a ∈ todo ∧ node_data g !! a = Some nd ∧ n ∈ neighbors nd
                           ∧ (a < node n)%nat ∧ contains g (node n) = Ok true
                           ∧ e = (a, node n, distance n).
Proof.
  induction todo as [|a todo IH]; intros acc r H e; cbn [get_edges_from] in H.
  - injection H as <-. split; [by left|].
    intros [?|(a & nd & n & ?%not_elem_of_nil & _)]; done.
  - apply bind_Ok_inv in H as (nd & Hnd & H). apply at_Ok in Hnd.
    apply bind_Ok_inv in H as (r1 & H1 & H).
    rewrite (IH _ _ H e), (get_edges_at_spec _ _ _ _ _ H1 e). split.
    + intros [[?|(n & Hn & ?)]|(a' & nd' & n & Ha' & ?)].
      * by left.
      * right. exists a, nd, n. split; [left|done].
      * right. exists a', nd', n. split; [by right|done].
    + intros [?|(a' & nd' & n & [->|Ha']%elem_of_cons & Hnd' & Hn & ?)].
      * by left; left.
      * left; right. exists n. split; [congruence|done].
      * right. by exists a', nd', n.
Qed.

Lemma get_edges_printed g es a b d :
  get_edges g = Ok es → (a, b, d) ∈ es ↔ printed g a b d.
Proof.
  intros H. rewrite (get_edges_from_spec _ _ _ _ H). unfold printed. split.
  - intros [?%not_elem_of_nil|(a' & nd & n & Ha & Hnd & Hn & Hlt & Hc & [= -> -> ->])]; [done|].
    split; [done|]. split; [done|]. split; [done|]. by exists nd, n.
  - intros (Ha & Hlt & Hc & nd & n & Hnd & Hn & <- & <-). right. by exists a, nd, n.
Qed.

Lemma read_header cfg fuel n m rest v w d g :
  0 <= n <= UINT32_MAX → (length m < 999)%nat → newline ∉ m →
  read_lines cfg (S fuel)
    (mkStream ("p"%char :: " "%char :: "s"%char :: "p"%char :: " "%char
               :: print_dec n ++ " "%char :: m ++ newline :: rest) false false) v w d g
  = (g' ← resize cfg g (Z.to_nat n);
     read_lines cfg fuel (mkStream rest false false) (Some n) w d g').
Proof.
  intros Hn Hlen Hnl. cbn [read_lines].
  unfold get_char, good. cbn [chars failbit eofbit negb andb skipws].
  change (isspace "p") with false. cbn iota.
  rewrite (bool_decide_eq_true_2 ("p"%char = "p"%char)) by done.
  unfold ignore at 1, good. cbn [chars failbit eofbit negb andb discard].
  rewrite !bool_decide_eq_false_2 by done.
  rewrite (get_u32_printed n " "%char _ v) by done.
  unfold ignore, good. cbn [chars failbit eofbit negb andb].
  assert (Hd : discard 1000 (Some newline) (" "%char :: m ++ newline :: rest) = (rest, false)).
  { apply (discard_line 1000 (" "%char :: m) rest); [simpl; lia|].
    apply not_elem_of_cons. by split. }
  by rewrite Hd.
Qed.

(** X21 (print_graph, read_graph, Graph::get_edges, Edge::operator<): what
    [print_graph] writes for a graph whose vertex numbers, weights and edge
    count fit their types is read by [read_graph] into a fresh graph without
    a fault.  The graph read has as many slots, stores every edge at both
    ends, and holds for [u < v] one entry with the smallest weight among
    the lines printed for the pair, or none when no line was printed. *)
Theorem print_read_graph cfg g g0 es :
  get_edges g = Ok es →
  (3 ≤ length (node_data g))%nat → Z.of_nat (length (node_data g)) <= 4294967296 →
  Z.of_nat (length es) < 18446744073709551616 →
  weights_fit g → nodes g0 = [] →
  ∃ out g', print_graph g = Ok out ∧ read_graph cfg g0 out = Ok g'
    ∧ length (node_data g') = length (node_data g)
    ∧ symmetric_weights g'
    ∧ ∀ u v, (u < v)%nat →
        (stored_weights g' u v = [] ∧ ∀ d, ¬ printed g u v d)
        ∨ ∃ m, stored_weights g' u v = [m] ∧ printed g u v m
             ∧ ∀ d, printed g u v d → m <= d.
Proof.
  intros Hes H3 H32 Hcount Hfit Hg0.
  set (N := (length (node_data g) - 3)%nat).
  assert (Hsn : super_node_count g = Z.of_nat N).
  { unfold super_node_count, N. rewrite Z.mod_small; lia. }
  assert (Hrange : ∀ a b x, (a, b, x) ∈ sort_edges es →
            (a < N + 3)%nat ∧ (b < N + 3)%nat ∧ 0 < x <= UINT32_MAX).
  { intros a b x Hin. apply (proj1 (elem_of_sort_edges _ _)) in Hin.
    apply (proj1 (get_edges_printed g es a b x Hes)) in Hin.
    destruct Hin as (Ha & Hlt & Hc & nd & n & Hnd & Hn & <- & <-).
    split; [apply lookup_lt_Some in Hnd; lia|]. split.
    - unfold contains, at_ in Hc. destruct (node_data g !! node n) eqn:E; [|done].
      apply lookup_lt_Some in E. lia.
    - by eapply Hfit. }
  destruct (resize_invariant cfg g0 N Hg0) as (g1 & Hg1 & Hinv1 & Hn1 & Hc1).
  assert (HM : 0 <= Z.of_nat (length (sort_edges es)) < 18446744073709551616)
    by (rewrite length_sort_edges; lia).
  destruct (print_dec_line _ HM) as [Hlen Hnl].
  destruct (read_edge_lines cfg (N + 3) (sort_edges es)
              (length (["p"%char; " "%char; "s"%char; "p"%char; " "%char]
                 ++ print_dec (super_node_count g) ++ [" "%char]
                 ++ print_dec (Z.of_nat (length (sort_edges es))) ++ [newline]
                 ++ flat_map print_edge (sort_edges es)))
              (mkStream (flat_map print_edge (sort_edges es)) false false)
              (Some (Z.of_nat N)) None None g1 [])
    as (g2 & Hg2 & Hinv2 & Hn2 & Hc2); try done.
  { apply skipws_lines. }
  { lia. }
  { rewrite !length_app. pose proof (length_lines (sort_edges es)). simpl. lia. }
  cbn [app] in Hinv2.
  destruct (mark_isolated_total cfg (nodes g2) g2) as (g3 & iso & Hg3).
  { rewrite Hn2, Hn1. apply NoDup_seq. }
  { intros v Hv. rewrite Hc2. apply Hc1. by rewrite <- Hn1, <- Hn2. }
  { intros u nd n Hu Hn. destruct Hinv2 as [Hl2 Hw2]. rewrite Hl2.
    assert (Hsw : distance n ∈ stored_weights g2 u (node n)).
    { unfold stored_weights. rewrite Hu. apply list_elem_of_fmap. exists n. split; [done|].
      by apply list_elem_of_filter. }
    rewrite Hw2 in Hsw. destruct (min_weight u (node n) (sort_edges es)) as [m|] eqn:Em;
      [|by apply not_elem_of_nil in Hsw].
    apply min_weight_is_min in Em as [(a & b & Hin & Hp) _].
    apply Hrange in Hin. destruct Hp as [[-> ->]|[-> ->]]; lia. }
  unfold print_graph. rewrite Hes. cbn [mbind result_bind]. eexists.
  exists (mkGraph (node_data g3) (filter (λ v, v ∉ iso) (nodes g3)) (g_subgraph_id g3)).
  split; [reflexivity|].
  destruct (mark_isolated_frame _ _ _ _ _ Hg3) as (_ & Hnb & _).
  pose proof (mark_isolated_length _ _ _ _ _ Hg3) as Hl3.
  assert (Hsw : ∀ u v, stored_weights
            (mkGraph (node_data g3) (filter (λ v, v ∉ iso) (nodes g3)) (g_subgraph_id g3)) u v
            = weights_of (min_weight u v (sort_edges es))).
  { intros u v.
    rewrite (stored_weights_neighbors g2 (mkGraph (node_data g3) _ _) Hnb u v). apply Hinv2. }
  split; [|split; [|split]].
  - unfold read_graph. rewrite list_ascii_of_string_of_list_ascii. cbn [app].
    rewrite read_header; [|rewrite Hsn; unfold UINT32_MAX; lia|lia|done].
    rewrite Hsn, Nat2Z.id, Hg1. cbn [mbind result_bind] in *.
    cbn [app length] in Hg2. rewrite Hsn in Hg2. cbn [length]. rewrite Hg2. cbn [mbind result_bind].
    unfold remove_isolated. by rewrite Hg3.
  - cbn [node_data]. rewrite Hl3. destruct Hinv2 as [-> _]. lia.
  - intros u v. by rewrite !Hsw, min_weight_sym.
  - intros u v Huv. rewrite Hsw.
    destruct (min_weight u v (sort_edges es)) as [m|] eqn:Em.
    + right. exists m. split; [done|].
      apply min_weight_is_min in Em as [(a & b & Hin & Hp) Hmin].
      apply (proj1 (elem_of_sort_edges _ _)) in Hin.
      apply (proj1 (get_edges_printed g es a b m Hes)) in Hin.
      assert (a = u ∧ b = v) as [-> ->].
      { destruct Hin as (_ & Hlt & _). destruct Hp as [?|[-> ->]]; [done|lia]. }
      split; [done|]. intros d Hd. apply (Hmin u v d); [|by left].
      apply elem_of_sort_edges. by apply (get_edges_printed g es u v d Hes).
    + left. split; [done|]. intros d Hd.
      apply (get_edges_printed g es u v d Hes) in Hd.
      apply (proj2 (elem_of_sort_edges _ _)) in Hd.
      destruct (min_weight_elem_pair u v _ u v d Hd) as [m Hm]; [by left|]. congruence.
Qed.

Lemma print_read_graph_witness :
  ∃ out g', print_graph example_graph = Ok out ∧ read_graph debug_config empty_graph out = Ok g'
    ∧ length (node_data g') = length (node_data example_graph)
    ∧ symmetric_weights g'
    ∧ ∀ u v, (u < v)%nat →
        (stored_weights g' u v = [] ∧ ∀ d, ¬ printed example_graph u v d)
        ∨ ∃ m, stored_weights g' u v = [m] ∧ printed example_graph u v m
             ∧ ∀ d, printed example_graph u v d → m <= d.
Proof.
  apply (print_read_graph debug_config example_graph empty_graph example_printed).
  - vm_compute. reflexivity.
  - vm_compute. lia.
  - vm_compute. discriminate.
  - vm_compute. reflexivity.
  - intros u nd n Hu Hn.
    assert (H : Forall (λ nd, Forall (λ n, 0 < distance n <= UINT32_MAX) (neighbors nd))
                  (node_data example_graph)).
    { repeat first [apply Forall_nil_2 | apply Forall_cons_2 | split]; vm_compute;
        first [reflexivity | discriminate]. }
    apply (Forall_lookup_1 _ _ _ _ H) in Hu. by apply (proj1 (Forall_forall _ _) Hu).
  - reflexivity.
Defined.

(** ** The half-matrix index *)

Lemma hmi_below cfg (i j : nat) :
  (j < i)%nat → Z.of_nat i <= 4294967296 →
  hmi cfg (Z.of_nat i) (Z.of_nat j) = Ok (Z.of_nat (i * (i - 1) / 2 + j))
  ∧ hmi cfg (Z.of_nat j) (Z.of_nat i) = Ok (Z.of_nat (i * (i - 1) / 2 + j)).
Proof.
  intros Hlt Hi.
  assert (Hv : PBV.wrap64 (Z.shiftr (PBV.wrap64 (Z.of_nat i * PBV.wrap64 (Z.of_nat i - 1))) 1
                           + Z.of_nat j) = Z.of_nat (i * (i - 1) / 2 + j)).
  { unfold PBV.wrap64. rewrite (Z.mod_small (Z.of_nat i - 1)) by lia.
    rewrite (Z.mod_small (Z.of_nat i * _)) by nia.
    rewrite Z.shiftr_div_pow2 by lia. change (2 ^ 1) with 2.
    rewrite Nat2Z.inj_add, (Nat2Z.inj_div _ 2), Nat2Z.inj_mul, Nat2Z.inj_sub by lia.
    change (Z.of_nat 2) with 2. change (Z.of_nat 1) with 1.
    assert (0 <= Z.of_nat i * (Z.of_nat i - 1) / 2 < 9223372036854775808).
    { split; [apply Z.div_pos; nia|]. apply Z.div_lt_upper_bound; nia. }
    apply Z.mod_small. lia. }
  unfold hmi. split.
  - rewrite check_true by (apply negb_true_iff, Z.eqb_neq; lia). cbn [mbind result_bind].
    rewrite (proj2 (Z.ltb_ge _ _)) by lia. by rewrite Hv.
  - rewrite check_true by (apply negb_true_iff, Z.eqb_neq; lia). cbn [mbind result_bind].
    rewrite (proj2 (Z.ltb_lt _ _)) by lia. by rewrite Hv.
Qed.

Lemma tri_succ (i : nat) : (S i * (S i - 1) / 2 = i * (i - 1) / 2 + i)%nat.
Proof.
  replace (S i * (S i - 1))%nat with (i * (i - 1) + i * 2)%nat by nia.
  by rewrite Nat.div_add.
Qed.

Lemma pair_loop_succ (n : nat) :
  (1 ≤ n)%nat →
  pair_loop (S n) = pair_loop n ++ ((λ j, (Z.of_nat n, Z.of_nat j)) <$> seq 0 n).
Proof.
  intros Hn. unfold pair_loop.
  replace (S n - 1)%nat with ((n - 1) + 1)%nat by lia.
  rewrite seq_app, flat_map_app. cbn [seq flat_map]. rewrite app_nil_r.
  by replace (1 + (n - 1))%nat with n by lia.
Qed.

Lemma length_pair_loop (n : nat) : length (pair_loop n) = (n * (n - 1) / 2)%nat.
Proof.
  induction n as [|n IH]; [done|].
  destruct n as [|n]; [done|].
  rewrite pair_loop_succ by lia. rewrite length_app, IH, length_fmap, length_seq.
  by rewrite (tri_succ (S n)).
Qed.

Lemma pair_loop_lookup (n i j : nat) :
  (j < i)%nat → (i < n)%nat →
  pair_loop n !! (i * (i - 1) / 2 + j)%nat = Some (Z.of_nat i, Z.of_nat j).
Proof.
  induction n as [|n IH]; intros Hj Hi; [lia|].
  destruct n as [|n]; [lia|].
  rewrite pair_loop_succ by lia.
  destruct (decide (i = S n)) as [->|Hne].
  - rewrite lookup_app_r by (rewrite length_pair_loop; lia).
    rewrite length_pair_loop. replace (_ + j - _)%nat with j by lia.
    rewrite list_lookup_fmap, lookup_seq_lt by lia. done.
  - rewrite lookup_app_l; [apply IH; lia|].
    rewrite length_pair_loop.
    assert (Hmono : ∀ a b, (a ≤ b)%nat → (a * (a - 1) / 2 ≤ b * (b - 1) / 2)%nat).
    { intros a b Hab. apply Nat.Div0.div_le_mono. nia. }
    pose proof (Hmono (S i) (S n) ltac:(lia)) as H. rewrite tri_succ in H. lia.
Qed.

(** X22 (hmi, Graph::add_shortcuts): for a border of at most 2^32 vertices
    the half-matrix index is symmetric, the running index of the two loops
    of [add_shortcuts] equals [hmi(i, j)] at every pair they visit, so the
    assertions there hold, and for distinct [i], [k] below the border size
    the position [hmi(i, k)] lies inside the half matrix and belongs to no
    other pair. *)
Theorem hmi_half_matrix cfg (n : nat) :
  Z.of_nat n <= 4294967296 →
  (∀ k i j, pair_loop n !! k = Some (i, j) → hmi cfg i j = Ok (Z.of_nat k))
  ∧ ∀ i k : nat, (i < n)%nat → (k < n)%nat → i ≠ k →
      ∃ p : nat, hmi cfg (Z.of_nat i) (Z.of_nat k) = Ok (Z.of_nat p)
        ∧ hmi cfg (Z.of_nat k) (Z.of_nat i) = Ok (Z.of_nat p)
        ∧ (p < length (pair_loop n))%nat
        ∧ pair_loop n !! p = Some (Z.of_nat (i `max` k), Z.of_nat (i `min` k)).
Proof.
  intros Hn.
  assert (Hpos : ∀ i k : nat, (i < n)%nat → (k < n)%nat → i ≠ k →
      ∃ p : nat, hmi cfg (Z.of_nat i) (Z.of_nat k) = Ok (Z.of_nat p)
        ∧ hmi cfg (Z.of_nat k) (Z.of_nat i) = Ok (Z.of_nat p)
        ∧ (p < length (pair_loop n))%nat
        ∧ pair_loop n !! p = Some (Z.of_nat (i `max` k), Z.of_nat (i `min` k))).
  { intros i k Hi Hk Hik.
    destruct (decide (k < i)%nat) as [Hlt|Hge].
    - destruct (hmi_below cfg i k Hlt ltac:(lia)) as [H1 H2].
      exists (i * (i - 1) / 2 + k)%nat. split; [done|]. split; [done|].
      pose proof (pair_loop_lookup n i k Hlt Hi) as Hl.
      split; [by apply lookup_lt_Some in Hl|].
      by rewrite Nat.max_l, Nat.min_r by lia.
    - destruct (hmi_below cfg k i ltac:(lia) ltac:(lia)) as [H1 H2].
      exists (k * (k - 1) / 2 + i)%nat. split; [done|]. split; [done|].
      pose proof (pair_loop_lookup n k i ltac:(lia) Hk) as Hl.
      split; [by apply lookup_lt_Some in Hl|].
      by rewrite Nat.max_r, Nat.min_l by lia. }
  split; [|exact Hpos].
  intros k i j Hk.
  assert (∃ a b : nat, i = Z.of_nat a ∧ j = Z.of_nat b ∧ (b < a)%nat ∧ (a < n)%nat)
    as (a & b & -> & -> & Hba & Han).
  { unfold pair_loop in Hk. apply list_elem_of_lookup_2 in Hk.
    apply list_elem_of_In, in_flat_map in Hk as (a & Ha & Hin).
    apply list_elem_of_In, list_elem_of_fmap in Hin as (b & [= -> ->] & Hb).
    apply list_elem_of_In, elem_of_seq in Ha. apply elem_of_seq in Hb.
    exists a, b. repeat split; lia. }
  destruct (hmi_below cfg a b Hba ltac:(lia)) as [H1 _]. rewrite H1. do 2 f_equal.
  pose proof (pair_loop_lookup n a b Hba Han) as Hl.
  (* a list of distinct pairs: the position is determined *)
  assert (Hnd : NoDup (pair_loop n)).
  { clear. induction n as [|n IH]; [constructor|].
    destruct n as [|n]; [constructor|].
    rewrite pair_loop_succ by lia. apply NoDup_app. split; [done|]. split.
    - intros [x y] Hin Hin2. apply list_elem_of_fmap in Hin2 as (b & [= -> ->] & _).
      unfold pair_loop in Hin. apply list_elem_of_In, in_flat_map in Hin as (a & Ha & Hin).
      apply list_elem_of_In, list_elem_of_fmap in Hin as (b' & [= Hx _] & _).
      apply list_elem_of_In, elem_of_seq in Ha. lia.
    - apply NoDup_fmap_2; [|apply NoDup_seq]. intros x y [= H]. lia. }
  by apply (NoDup_lookup _ _ _ _ Hnd Hl Hk).
Qed.

Lemma hmi_half_matrix_witness :
  (∀ k i j, pair_loop 4 !! k = Some (i, j) → hmi debug_config i j = Ok (Z.of_nat k))
  ∧ ∀ i k : nat, (i < 4)%nat → (k < 4)%nat → i ≠ k →
      ∃ p : nat, hmi debug_config (Z.of_nat i) (Z.of_nat k) = Ok (Z.of_nat p)
        ∧ hmi debug_config (Z.of_nat k) (Z.of_nat i) = Ok (Z.of_nat p)
        ∧ (p < length (pair_loop 4))%nat
        ∧ pair_loop 4 !! p = Some (Z.of_nat (i `max` k), Z.of_nat (i `min` k)).
Proof. apply (hmi_half_matrix debug_config 4). simpl. lia. Defined.

(** ** [util::make_set] on the vector itself *)

Section make_set.

Context {A : Type} (differ : A → A → bool).

Lemma insert_middle (l1 l2 : list A) x y : <[length l1 := x]> (l1 ++ y :: l2) = l1 ++ x :: l2.
Proof. rewrite <- (Nat.add_0_r (length l1)). by rewrite insert_app_r. Qed.

Lemma compact_spec (rest : list A) : ∀ kept junk lastk,
  ∃ v', compact differ ((kept ++ [lastk]) ++ junk ++ rest)
          (seq (length (kept ++ [lastk]) + length junk) (length rest)) (length kept)
        = Ok (v', (length (kept ++ kept_after differ lastk rest))%nat)
      ∧ take (S (length (kept ++ kept_after differ lastk rest))) v'
        = (kept ++ [lastk]) ++ kept_after differ lastk rest
      ∧ length v' = length ((kept ++ [lastk]) ++ junk ++ rest).
Proof.
  induction rest as [|x rest IH]; intros kept junk lastk.
  - cbn [length seq compact kept_after]. exists ((kept ++ [lastk]) ++ junk).
    rewrite !app_nil_r. split; [done|]. split; [|done].
    replace (S (length kept)) with (length (kept ++ [lastk])) by (rewrite length_app; simpl; lia).
    by rewrite take_app_length.
  - cbn [length seq compact kept_after].
    assert (Hx : ((kept ++ [lastk]) ++ junk ++ x :: rest)
                 !! (length (kept ++ [lastk]) + length junk)%nat = Some x).
    { rewrite app_assoc, <- length_app. apply list_lookup_middle. done. }
    assert (Hy : ((kept ++ [lastk]) ++ junk ++ x :: rest) !! length kept = Some lastk).
    { rewrite <- !app_assoc. by apply list_lookup_middle. }
    unfold at_. rewrite Hx, Hy. cbn [mbind result_bind].
    destruct (differ x lastk) eqn:Hd.
    + destruct junk as [|j0 js].
      * (* the element is already in its place *)
        assert (Hz : ((kept ++ [lastk]) ++ [] ++ x :: rest) !! S (length kept) = Some x).
        { cbn [app]. apply list_lookup_middle. rewrite length_app. simpl. lia. }
        rewrite Hz. cbn [mbind result_bind].
        cbn [app length] in *. rewrite Nat.add_0_r.
        replace (<[length (kept ++ [lastk]) := x]>
                   (<[S (length kept) := x]> ((kept ++ [lastk]) ++ x :: rest)))
          with (((kept ++ [lastk]) ++ [x]) ++ [] ++ rest).
        2:{ replace (S (length kept)) with (length (kept ++ [lastk]))
              by (rewrite length_app; simpl; lia).
            rewrite !insert_middle. by rewrite <- app_assoc. }
        destruct (IH (kept ++ [lastk]) [] x) as (v' & Hv' & Ht & Hl).
        exists v'. cbn [length] in Hv'. rewrite Nat.add_0_r in Hv'.
        replace (length ((kept ++ [lastk]) ++ [x])) with (S (length (kept ++ [lastk]))) in Hv'
          by (rewrite !length_app; simpl; lia).
        replace (length (kept ++ [lastk])) with (S (length kept)) in Hv' at 2
          by (rewrite length_app; simpl; lia).
        rewrite Hv'. split; [|split].
        -- do 2 f_equal. rewrite !length_app. simpl. lia.
        -- replace (length (kept ++ x :: kept_after differ x rest))
             with (length ((kept ++ [lastk]) ++ kept_after differ x rest))
             by (rewrite !length_app; simpl; lia).
           rewrite Ht. by rewrite <- !app_assoc.
        -- rewrite Hl. rewrite !length_app. simpl. lia.
      * assert (Hz : ((kept ++ [lastk]) ++ (j0 :: js) ++ x :: rest) !! S (length kept)
                     = Some j0).
        { cbn [app]. apply list_lookup_middle. rewrite length_app. simpl. lia. }
        rewrite Hz. cbn [mbind result_bind].
        replace (<[(length (kept ++ [lastk]) + length (j0 :: js))%nat := j0]>
                   (<[S (length kept) := x]> ((kept ++ [lastk]) ++ (j0 :: js) ++ x :: rest)))
          with (((kept ++ [lastk]) ++ [x]) ++ (js ++ [j0]) ++ rest).
        2:{ replace (S (length kept)) with (length (kept ++ [lastk]))
              by (rewrite length_app; simpl; lia).
            cbn [app]. rewrite insert_middle.
            replace (length (kept ++ [lastk]) + length (j0 :: js))%nat
              with (length ((kept ++ [lastk]) ++ x :: js))
              by (rewrite !length_app; simpl; lia).
            rewrite (app_assoc _ (x :: js) (x :: rest)), insert_middle.
            by rewrite <- !app_assoc. }
        destruct (IH (kept ++ [lastk]) (js ++ [j0]) x) as (v' & Hv' & Ht & Hl).
        exists v'.
        replace (length ((kept ++ [lastk]) ++ [x]) + length (js ++ [j0]))%nat
          with (S (length (kept ++ [lastk]) + length (j0 :: js))) in Hv'
          by (rewrite !length_app; simpl; lia).
        replace (length (kept ++ [lastk])) with (S (length kept)) in Hv' at 2
          by (rewrite length_app; simpl; lia).
        rewrite Hv'. split; [|split].
        -- do 2 f_equal. rewrite !length_app. simpl. lia.
        -- replace (length (kept ++ x :: kept_after differ x rest))
             with (length ((kept ++ [lastk]) ++ kept_after differ x rest))
             by (rewrite !length_app; simpl; lia).
           rewrite Ht. by rewrite <- !app_assoc.
        -- rewrite Hl. rewrite !length_app. simpl. lia.
    + replace ((kept ++ [lastk]) ++ junk ++ x :: rest)
        with ((kept ++ [lastk]) ++ (junk ++ [x]) ++ rest) by (by rewrite <- !app_assoc).
      destruct (IH kept (junk ++ [x]) lastk) as (v' & Hv' & Ht & Hl).
      exists v'.
      replace (length (kept ++ [lastk]) + length (junk ++ [x]))%nat
        with (S (length (kept ++ [lastk]) + length junk)) in Hv'
        by (rewrite !length_app; simpl; lia).
      by rewrite Hv'.
Qed.

(** The loop on a vector [x :: l] that has at least one element. *)
Lemma compact_first x (l : list A) :
  ∃ v', compact differ (x :: l) (seq 1 (length (x :: l) - 1)) 0
        = Ok (v', length (kept_after differ x l))
      ∧ take (S (length (kept_after differ x l))) v' = x :: kept_after differ x l
      ∧ length v' = S (length l).
Proof.
  destruct (compact_spec l [] [] x) as (v' & Hv' & Ht & Hl).
  exists v'. cbn [app length] in *. replace (S (length l) - 1)%nat with (length l) by lia.
  by rewrite Nat.add_0_r in Hv'.
Qed.

End make_set.

Lemma length_kept_after {A} (differ : A → A → bool) (l : list A) : ∀ last,
  (length (kept_after differ last l) ≤ length l)%nat.
Proof.
  induction l as [|x l IH]; intros last; cbn [kept_after length]; [done|].
  destruct (differ x last); cbn [length]; [specialize (IH x)|specialize (IH last)]; lia.
Qed.

Lemma insert_by_ltb_sorted x l :
  StronglySorted le l → StronglySorted le (util.insert_by Nat.ltb x l).
Proof.
  induction 1 as [|y l Hs IH Hall]; cbn [util.insert_by]; [by repeat constructor|].
  destruct (y <? x)%nat eqn:E.
  - apply Nat.ltb_lt in E. constructor; [done|].
    apply Forall_forall. intros z Hz. apply elem_of_insert_by in Hz as [->|Hz]; [lia|].
    by apply (proj1 (Forall_forall _ _) Hall).
  - apply Nat.ltb_ge in E. constructor; [by constructor|].
    constructor; [done|]. eapply Forall_impl; [exact Hall|]. simpl. lia.
Qed.

Lemma sort_by_ltb_sorted l : StronglySorted le (util.sort_by Nat.ltb l).
Proof.
  unfold util.sort_by. induction l as [|x l IH]; cbn [foldr]; [constructor|].
  by apply insert_by_ltb_sorted.
Qed.

Lemma kept_after_sorted l : ∀ x,
  StronglySorted le (x :: l) →
  StronglySorted lt (x :: kept_after (λ a b, negb (a =? b)%nat) x l)
  ∧ ∀ y, y ∈ x :: kept_after (λ a b, negb (a =? b)%nat) x l ↔ y ∈ x :: l.
Proof.
  induction l as [|y l IH]; intros x Hs; cbn [kept_after].
  - split; [by repeat constructor|done].
  - apply StronglySorted_inv in Hs as [Hs Hall].
    apply Forall_cons in Hall as [Hxy Hall].
    destruct (y =? x)%nat eqn:E; cbn [negb].
    + apply Nat.eqb_eq in E. subst y.
      destruct (IH x Hs) as [H1 H2]. split; [done|].
      intros z. rewrite H2, !elem_of_cons. tauto.
    + apply Nat.eqb_neq in E. destruct (IH y Hs) as [H1 H2]. split.
      * constructor; [done|]. apply Forall_forall. intros z Hz. apply H2 in Hz.
        apply elem_of_cons in Hz as [->|Hz]; [lia|].
        apply StronglySorted_inv in Hs as [_ Hy].
        pose proof (proj1 (Forall_forall _ _) Hy z Hz). lia.
      * intros z. rewrite (elem_of_cons _ z x), H2, !elem_of_cons. tauto.
Qed.

(** X23 (util::make_set, one argument): on every vector of vertices the
    loop stays inside the vector, and what is left is strictly increasing
    and has the elements the vector had. *)
Theorem make_set1_strictly_sorted (v : list NodeID) :
  ∃ r, make_set1 v = Ok r ∧ StronglySorted lt r ∧ ∀ x, x ∈ r ↔ x ∈ v.
Proof.
  unfold make_set1. destruct (length v =? 0)%nat eqn:E.
  - apply Nat.eqb_eq, nil_length_inv in E. subst v. exists []. split; [done|].
    split; [constructor|done].
  - pose proof (sort_by_ltb_sorted v) as Hs.
    assert (Hel : ∀ x, x ∈ util.sort_by Nat.ltb v ↔ x ∈ v).
    { intros x. split; [apply elem_of_sort_by|apply elem_of_sort_by_2]. }
    destruct (util.sort_by Nat.ltb v) as [|x l] eqn:Ev.
    { destruct v as [|y v]; [done|]. specialize (Hel y). rewrite elem_of_nil in Hel.
      exfalso. apply Hel. left. }
    destruct (compact_first (λ a b, negb (a =? b)%nat) x l) as (v' & Hv' & Ht & Hl).
    rewrite Hv'. cbn [mbind result_bind].
    destruct (kept_after_sorted l x Hs) as [H1 H2].
    exists (x :: kept_after (λ a b, negb (a =? b)%nat) x l). split.
    + f_equal. unfold vresize. rewrite Nat.add_1_r, Ht.
      pose proof (length_kept_after (λ a b, negb (a =? b)%nat) l x).
      replace (_ - _)%nat with 0%nat by lia. by rewrite app_nil_r.
    + split; [done|]. intros y. by rewrite H2, Hel.
Qed.

Lemma kept_after_distinct l : ∀ last,
  kept_after (λ x y, negb (node x =? node y)%nat) last l = util.distinct_after last l.
Proof.
  induction l as [|x l IH]; intros last; cbn [kept_after util.distinct_after]; [done|].
  case_decide as Hd.
  - rewrite (proj2 (Nat.eqb_eq _ _) Hd). cbn [negb]. apply IH.
  - rewrite (proj2 (Nat.eqb_neq _ _) Hd). cbn [negb]. by rewrite IH.
Qed.

(** X24 (util::make_set, with a comparison): on every vector the loop stays
    inside the vector, and what is left is the sorted vector with every run
    of entries for one vertex reduced to the first entry of the run. *)
Theorem make_set2_first_of_run comp (v : list Neighbor) :
  make_set2 comp v = Ok (util.make_set comp v).
Proof.
  unfold make_set2, util.make_set. destruct (length v <? 2)%nat; [done|].
  destruct (util.sort_by comp v) as [|x l]; [done|].
  destruct (compact_first (λ x y, negb (node x =? node y)%nat) x l) as (v' & Hv' & Ht & Hl).
  rewrite Hv'. cbn [mbind result_bind]. by rewrite Nat.add_1_r, Ht, kept_after_distinct.
Qed.

(** ** Connected components *)

Lemma dimmed_refl g : dimmed g g.
Proof. repeat split. intros v nd Hv. exists nd. auto. Qed.

Lemma dimmed_trans g g1 g2 : dimmed g g1 → dimmed g1 g2 → dimmed g g2.
Proof.
  intros (Hi1 & Hn1 & Hl1 & H1) (Hi2 & Hn2 & Hl2 & H2).
  split; [congruence|]. split; [congruence|]. split; [congruence|].
  intros v nd Hv. destruct (H1 v nd Hv) as (nd1 & Hv1 & Hnb1 & Hs1).
  destruct (H2 v nd1 Hv1) as (nd2 & Hv2 & Hnb2 & Hs2).
  exists nd2. split; [done|]. split; [congruence|].
  destruct Hs2 as [Hs2|[Hs2 Hs2']]; [rewrite Hs2; done|].
  right. split; [done|]. destruct Hs1 as [Hs1|[Hs1 Hs1']]; congruence.
Qed.

Lemma contains_stamp g v :
  contains g v = Ok true ↔ ∃ nd, node_data g !! v = Some nd ∧ subgraph_id nd = g_subgraph_id g.
Proof.
  unfold contains, at_. destruct (node_data g !! v) as [nd|]; cbn [mbind result_bind].
  - split.
    + intros [= H]. apply Z.eqb_eq in H. eauto.
    + intros (nd' & [= <-] & H). by rewrite H, Z.eqb_refl.
  - split; [done|]. by intros (? & ? & _).
Qed.

Lemma dimmed_unstamp g v :
  g_subgraph_id g ≠ NO_SUBGRAPH → contains g v = Ok true →
  dimmed g (set_subgraph g v NO_SUBGRAPH)
  ∧ ∀ u, contains (set_subgraph g v NO_SUBGRAPH) u = Ok true ↔ contains g u = Ok true ∧ u ≠ v.
Proof.
  intros Hid Hc. apply contains_stamp in Hc as (nd & Hnd & Hs). split.
  - split; [done|]. split; [done|]. split; [by unfold set_subgraph; cbn; rewrite length_alter|].
    intros u nu Hu. unfold set_subgraph. cbn [node_data].
    destruct (decide (u = v)) as [->|Hne].
    + rewrite list_lookup_alter_eq, Hu. cbn. eexists. split; [done|]. split; [done|].
      right. split; [done|]. congruence.
    + rewrite list_lookup_alter_ne by done. exists nu. auto.
  - intros u. destruct (decide (u = v)) as [->|Hne].
    + rewrite (contains_set_subgraph_eq g v nd NO_SUBGRAPH Hnd).
      rewrite (proj2 (Z.eqb_neq NO_SUBGRAPH (g_subgraph_id g))) by congruence.
      split; [done|by intros [_ ?]].
    + rewrite contains_set_subgraph_ne by done. tauto.
Qed.

Lemma dimmed_contains g gt v :
  g_subgraph_id g ≠ NO_SUBGRAPH → dimmed g gt →
  contains gt v = Ok true → contains g v = Ok true.
Proof.
  intros Hid (Hi & _ & Hl & H) Hc. apply contains_stamp in Hc as (nd' & Hnd' & Hs').
  destruct (node_data g !! v) as [nd|] eqn:E.
  - destruct (H v nd E) as (nd2 & Hnd2 & _ & Hs). apply contains_stamp. exists nd.
    split; [done|]. assert (nd2 = nd') as -> by congruence.
    destruct Hs as [Hs|[Hs ?]]; congruence.
  - apply lookup_lt_Some in Hnd'. apply lookup_ge_None in E. lia.
Qed.

Lemma dimmed_neighbors g gt v nd :
  dimmed g gt → node_data gt !! v = Some nd →
  ∃ nd0, node_data g !! v = Some nd0 ∧ neighbors nd0 = neighbors nd.
Proof.
  intros (_ & _ & Hl & H) Hv. destruct (node_data g !! v) as [nd0|] eqn:E.
  - destruct (H v nd0 E) as (nd' & Hv' & Hnb & _). exists nd0. split; [done|]. congruence.
  - apply lookup_lt_Some in Hv. apply lookup_ge_None in E. lia.
Qed.

Lemma contains_defined g v : (v < length (node_data g))%nat → ∃ c, contains g v = Ok c.
Proof.
  intros Hv. destruct (lookup_lt_is_Some_2 _ _ Hv) as [nd Hnd].
  unfold contains, at_. rewrite Hnd. cbn. eauto.
Qed.

Section components.

Variable g : Graph.
Hypothesis Hid : g_subgraph_id g ≠ NO_SUBGRAPH.
Hypothesis Hrange : ∀ u nd n, node_data g !! u = Some nd → n ∈ neighbors nd →
  (node n < length (node_data g))%nat.

(** Pushing the neighbours of one vertex. *)
Lemma cc_push_spec ns : ∀ gt stack,
  dimmed g gt → (∀ n, n ∈ ns → (node n < length (node_data g))%nat) →
  ∃ gt' new, cc_push gt ns stack = Ok (gt', new ++ stack)
    ∧ dimmed gt gt' ∧ NoDup new
    ∧ (∀ v, contains gt' v = Ok true ↔ contains gt v = Ok true ∧ v ∉ new)
    ∧ (∀ v, v ∈ new → contains gt v = Ok true ∧ v ∈ node <$> ns)
    ∧ ∀ n, n ∈ ns → contains gt (node n) = Ok true → node n ∈ new.
Proof.
  induction ns as [|n ns IH]; intros gt stack Hd Hr; cbn [cc_push].
  - exists gt, []. split; [done|]. split; [apply dimmed_refl|]. split; [constructor|].
    split; [intros v; rewrite elem_of_nil; tauto|].
    split; [by intros v ?%elem_of_nil|by intros n ?%elem_of_nil].
  - assert (Hidt : g_subgraph_id gt ≠ NO_SUBGRAPH) by (destruct Hd as [-> _]; done).
    destruct (contains_defined gt (node n)) as [c Hc].
    { destruct Hd as (_ & _ & -> & _). apply Hr. left. }
    rewrite Hc. cbn [mbind result_bind]. destruct c.
    + destruct (dimmed_unstamp gt (node n) Hidt Hc) as [Hd1 Hc1].
      destruct (IH (set_subgraph gt (node n) NO_SUBGRAPH) (node n :: stack))
        as (gt' & new & Hp & Hd' & Hnd & Hc' & Hnew & Hall).
      { by eapply dimmed_trans. }
      { intros. apply Hr. by right. }
      exists gt', (new ++ [node n]). rewrite <- app_assoc. split; [done|].
      split; [by eapply dimmed_trans|]. split.
      { apply NoDup_app. split; [done|]. split; [|apply NoDup_singleton].
        intros v Hv ->%list_elem_of_singleton. apply Hnew in Hv as [Hv _].
        apply Hc1 in Hv as [_ Hv]. done. }
      split; [|split].
      * intros v. rewrite Hc', Hc1, elem_of_app, list_elem_of_singleton. tauto.
      * intros v [Hv| ->%list_elem_of_singleton]%elem_of_app.
        -- apply Hnew in Hv as [Hv1 Hv2]. apply Hc1 in Hv1 as [Hv1 _]. split; [done|].
           rewrite fmap_cons. by right.
        -- split; [done|]. rewrite fmap_cons. left.
      * intros m [->|Hm]%elem_of_cons Hcm; [apply elem_of_app; right; left|].
        destruct (decide (node m = node n)) as [->|Hne]; [apply elem_of_app; right; left|].
        apply elem_of_app. left. apply Hall; [done|]. apply Hc1. by split.
    + destruct (IH gt stack Hd) as (gt' & new & Hp & Hd' & Hnd & Hc' & Hnew & Hall).
      { intros. apply Hr. by right. }
      exists gt', new. split; [done|]. split; [done|]. split; [done|]. split; [done|]. split.
      * intros v Hv. apply Hnew in Hv as [Hv1 Hv2]. split; [done|]. rewrite fmap_cons. by right.
      * intros m [->|Hm]%elem_of_cons Hcm; [congruence|by apply Hall].
Qed.

Lemma NoDup_bounded_length (l : list nat) N :
  NoDup l → (∀ x, x ∈ l → (x < N)%nat) → (length l ≤ N)%nat.
Proof.
  intros Hnd Hb. rewrite <- (length_seq N 0). apply submseteq_length.
  apply NoDup_submseteq; [done|]. intros x Hx. apply elem_of_seq. specialize (Hb x Hx). lia.
Qed.

Lemma contains_lt gt v c : contains gt v = Ok c → (v < length (node_data gt))%nat.
Proof.
  unfold contains, at_. destruct (node_data gt !! v) eqn:E; [|done].
  intros _. by apply lookup_lt_Some in E.
Qed.

Lemma cc_search_spec g0 s fuel : ∀ gt stack cc,
  dimmed g g0 → cc_inv g g0 s gt stack cc →
  (length (node_data g) - length cc < fuel)%nat →
  ∃ gt' cc', cc_search fuel gt stack cc = Ok (gt', cc') ∧ cc_inv g g0 s gt' [] cc'.
Proof.
  induction fuel as [|fuel IH]; intros gt stack cc Hg0 Hinv Hfuel; [lia|].
  cbn [cc_search]. destruct stack as [|v stack]; [by exists gt, cc|].
  destruct Hinv as (Hd & Hnd & Hhead & Hst & Hreach & Hclosed).
  assert (Hid0 : g_subgraph_id g0 ≠ NO_SUBGRAPH) by (destruct Hg0 as [-> _]; done).
  assert (Hdg : dimmed g gt) by (by eapply dimmed_trans).
  destruct (Hreach v) as [Hv0 Hvr]; [apply elem_of_app; right; left|].
  assert (Hvlt : (v < length (node_data gt))%nat).
  { destruct Hd as (_ & _ & -> & _). by eapply contains_lt. }
  destruct (lookup_lt_is_Some_2 _ _ Hvlt) as [nd End].
  unfold at_. rewrite End. cbn [mbind result_bind].
  destruct (dimmed_neighbors g gt v nd Hdg End) as (ndg & Endg & Hnbg).
  destruct (cc_push_spec (neighbors nd) gt stack Hdg)
    as (gt' & new & Hp & Hd' & Hndn & Hc' & Hnew & Hall).
  { intros n Hn. rewrite <- Hnbg in Hn. by eapply Hrange. }
  rewrite Hp. cbn [mbind result_bind].
  assert (Hnewfresh : ∀ x, x ∈ new → x ∉ cc ++ v :: stack).
  { intros x Hx. apply Hnew in Hx as [Hx _]. apply Hst; [|done].
    by eapply dimmed_contains. }
  assert (Hlen : (length (cc ++ v :: stack) ≤ length (node_data g))%nat).
  { apply NoDup_bounded_length; [done|]. intros x Hx. apply Hreach in Hx as [Hx _].
    apply contains_lt in Hx. destruct Hg0 as (_ & _ & <- & _). done. }
  rewrite length_app in Hlen. cbn [length] in Hlen.
  apply IH; [done| |rewrite length_app; cbn [length]; lia].
  split; [by eapply dimmed_trans|].
  assert (Hmem : ∀ x, x ∈ (cc ++ [v]) ++ new ++ stack ↔ x ∈ cc ++ v :: stack ∨ x ∈ new).
  { intros x. rewrite !elem_of_app, !elem_of_cons, elem_of_nil. tauto. }
  split; [|split; [|split; [|split]]].
  - apply NoDup_app in Hnd as (Hnd1 & Hnd2 & Hnd3). apply NoDup_cons in Hnd3 as [Hv Hnd3].
    rewrite <- app_assoc. cbn [app]. apply NoDup_app. split; [done|]. split.
    + intros x Hx [->|[Hx2|Hx2]%elem_of_app]%elem_of_cons.
      * apply (Hnd2 v Hx). left.
      * apply (Hnewfresh x Hx2). apply elem_of_app. by left.
      * apply (Hnd2 x Hx). by right.
    + apply NoDup_cons. split.
      * intros [Hx|Hx]%elem_of_app; [|done].
        apply (Hnewfresh v Hx). apply elem_of_app. right. left.
      * apply NoDup_app. split; [done|]. split; [|done].
        intros x Hx Hx2. apply (Hnewfresh x Hx). apply elem_of_app. right. by right.
  - destruct cc as [|c cc]; [|done]. cbn [app] in *. done.
  - intros x Hx. rewrite Hc', (Hst x Hx), Hmem. tauto.
  - intros x Hx. apply Hmem in Hx as [Hx|Hx]; [by apply Hreach|].
    apply Hnew in Hx as [Hx1 Hx2]. split; [by eapply dimmed_contains|].
    eapply rtc_r; [exact Hvr|]. split.
    + eapply dimmed_contains; [done|exact Hdg|done].
    + apply list_elem_of_fmap in Hx2 as (n & -> & Hn). exists ndg, n. by rewrite Hnbg.
  - intros u w [Hu| ->%list_elem_of_singleton]%elem_of_app Hedge Hw; apply Hmem.
    + left. by eapply Hclosed.
    + destruct (decide (w ∈ cc ++ v :: stack)) as [Hin|Hnin]; [by left|]. right.
      destruct Hedge as (_ & nd' & n & Hnd' & Hn & <-).
      assert (nd' = ndg) as -> by congruence. rewrite Hnbg in Hn.
      apply Hall; [done|]. by apply Hst.
Qed.

Lemma elem_of_concat {A} (x : A) (ls : list (list A)) :
  x ∈ concat ls ↔ ∃ l, l ∈ ls ∧ x ∈ l.
Proof.
  induction ls as [|l ls IH]; cbn [concat].
  - split; [by intros ?%elem_of_nil|]. by intros (l & ?%elem_of_nil & _).
  - rewrite elem_of_app, IH. split.
    + intros [Hx|(l' & Hl' & Hx)]; [exists l; split; [left|done]|exists l'; split; [by right|done]].
    + intros (l' & [->|Hl']%elem_of_cons & Hx); [by left|right; eauto].
Qed.

Lemma cc_loop_spec fuel todo : ∀ gt comps,
  (length (node_data g) < fuel)%nat → cc_outer g gt comps →
  (∀ v, v ∈ todo → contains g v = Ok true) →
  ∃ gt' comps', cc_loop fuel gt todo comps = Ok (gt', comps') ∧ cc_outer g gt' comps'
    ∧ (∀ v, v ∈ todo → v ∈ concat comps')
    ∧ ∀ v, v ∈ concat comps → v ∈ concat comps'.
Proof.
  induction todo as [|start todo IH]; intros gt comps Hfuel Hout Htodo; cbn [cc_loop].
  - exists gt, comps. split; [done|]. split; [done|]. split; [by intros v ?%elem_of_nil|done].
  - destruct Hout as (Hd & Hnd & Hst & Hin & Hcomps).
    assert (Hidt : g_subgraph_id gt ≠ NO_SUBGRAPH) by (destruct Hd as [-> _]; done).
    assert (Hsg : contains g start = Ok true) by (apply Htodo; left).
    destruct (contains_defined gt start) as [c Hc].
    { destruct Hd as (_ & _ & -> & _). by eapply contains_lt. }
    rewrite Hc. cbn [mbind result_bind]. destruct c; cbn [negb].
    + destruct (dimmed_unstamp gt start Hidt Hc) as [Hd1 Hc1].
      destruct (cc_search_spec gt start fuel (set_subgraph gt start NO_SUBGRAPH) [start] [])
        as (gt' & cc & Hs & Hd' & Hndc & Hhead & Hstc & Hreach & Hclosed).
      { done. }
      { split; [done|]. split; [apply NoDup_singleton|]. split; [done|].
        split; [|split].
        - intros v Hv. rewrite Hc1. cbn [app]. rewrite list_elem_of_singleton. tauto.
        - intros v ->%list_elem_of_singleton. done.
        - by intros u w ?%elem_of_nil. }
      { cbn [length]. lia. }
      rewrite Hs. cbn [mbind result_bind]. rewrite app_nil_r in *.
      assert (Hcat : concat (comps ++ [cc]) = concat comps ++ cc).
      { rewrite concat_app. cbn [concat]. by rewrite app_nil_r. }
      destruct (IH gt' (comps ++ [cc]) Hfuel) as (gt2 & comps2 & Hl & Hout2 & Hall & Hmono).
      { split; [by eapply dimmed_trans|]. rewrite Hcat.
        split; [|split; [|split]].
        - apply NoDup_app. split; [done|]. split; [|done].
          intros x Hx Hx2. apply Hreach in Hx2 as [Hx2 _].
          apply (Hst x); [by apply Hin|done|done].
        - intros v Hv. rewrite elem_of_app. split.
          + intros Hv'. assert (Hvt : contains gt v = Ok true) by (by eapply dimmed_contains).
            intros [Hx|Hx]; [by apply (Hst v Hv)|]. by apply (Hstc v Hvt).
          + intros Hn. assert (Hvt : contains gt v = Ok true) by (apply Hst; tauto).
            apply Hstc; tauto.
        - intros v [Hv|Hv]%elem_of_app; [by apply Hin|].
          apply Hreach in Hv as [Hv _]. by eapply dimmed_contains.
        - intros i cci Hi. destruct (decide (i < length comps)%nat) as [Hlt|Hge].
          + rewrite lookup_app_l in Hi by done.
            destruct (Hcomps i cci Hi) as (s & Hh & Hr & Hcl). exists s.
            split; [done|]. split; [done|]. intros u w Hu Hw.
            destruct (Hcl u w Hu Hw) as (j & cc' & Hj & Hcc' & Hwc).
            exists j, cc'. split; [done|]. split; [|done].
            apply lookup_app_l_Some. done.
          + assert (i = length comps) as ->.
            { apply lookup_lt_Some in Hi. rewrite length_app in Hi. simpl in Hi. lia. }
            rewrite list_lookup_middle in Hi by done. injection Hi as <-.
            exists start. split; [done|]. split; [intros v Hv; by apply Hreach|].
            intros u w Hu Hw.
            destruct (decide (w ∈ concat comps)) as [Hwin|Hwn].
            * apply elem_of_concat in Hwin as (cc' & Hcc' & Hwc).
              apply list_elem_of_lookup_1 in Hcc' as [j Hj].
              exists j, cc'. split; [apply lookup_lt_Some in Hj; lia|].
              split; [by apply lookup_app_l_Some|done].
            * exists (length comps), cc. split; [done|].
              split; [by apply list_lookup_middle|].
              eapply Hclosed; [done..|]. apply Hst; [by destruct Hw|done]. }
      { intros. apply Htodo. by right. }
      exists gt2, comps2. split; [done|]. split; [done|]. split.
      * intros v [->|Hv]%elem_of_cons; [|by apply Hall].
        apply Hmono. rewrite Hcat. apply elem_of_app. right.
        destruct cc as [|c cc]; [done|]. injection Hhead as ->. left.
      * intros v Hv. apply Hmono. rewrite Hcat. apply elem_of_app. by left.
    + destruct (IH gt comps Hfuel) as (gt2 & comps2 & Hl & Hout2 & Hall & Hmono).
      { done. }
      { intros. apply Htodo. by right. }
      exists gt2, comps2. split; [done|]. split; [done|]. split; [|done].
      intros v [->|Hv]%elem_of_cons; [|by apply Hall].
      apply Hmono. destruct (decide (start ∈ concat comps)) as [|Hn]; [done|].
      apply (Hst start Hsg) in Hn. congruence.
Qed.

End components.

Lemma assign_nodes_from_spec todo : ∀ gt,
  (∀ v, v ∈ todo → (v < length (node_data gt))%nat) →
  ∃ gt', assign_nodes_from gt todo = Ok gt'
    ∧ g_subgraph_id gt' = g_subgraph_id gt ∧ nodes gt' = nodes gt
    ∧ ∀ v, node_data gt' !! v =
        if decide (v ∈ todo)
        then (λ nd, mkNode (g_subgraph_id gt) (neighbors nd)) <$> node_data gt !! v
        else node_data gt !! v.
Proof.
  induction todo as [|x todo IH]; intros gt Hr; cbn [assign_nodes_from].
  - exists gt. split; [done|]. split; [done|]. split; [done|]. intros v.
    by rewrite decide_False by apply not_elem_of_nil.
  - destruct (lookup_lt_is_Some_2 (node_data gt) x) as [nd Hnd]; [apply Hr; left|].
    unfold at_. rewrite Hnd. cbn [mbind result_bind].
    destruct (IH (set_subgraph gt x (g_subgraph_id gt))) as (gt' & Ha & Hi & Hn & Hl).
    { intros v Hv. unfold set_subgraph. cbn [node_data]. rewrite length_alter.
      apply Hr. by right. }
    exists gt'. split; [done|]. split; [done|]. split; [done|]. intros v. rewrite Hl.
    unfold set_subgraph. cbn [node_data g_subgraph_id].
    destruct (decide (v = x)) as [->|Hne].
    + rewrite list_lookup_alter_eq, Hnd. cbn. rewrite (decide_True (P := x ∈ x :: todo)) by left.
      by case_decide.
    + rewrite list_lookup_alter_ne by done.
      destruct (decide (v ∈ todo)) as [Hin|Hnin].
      * by rewrite decide_True by (by right).
      * by rewrite decide_False by (intros [?|?]%elem_of_cons; done).
Qed.

Lemma size_sum_concat {A} (v : list (list A)) :
  Z.of_nat (length (concat v)) < 18446744073709551616 →
  size_sum v = Z.of_nat (length (concat v)).
Proof.
  intros Hlt. unfold size_sum.
  assert (H : ∀ a, 0 <= a < 18446744073709551616 →
            0 <= foldl (λ sum x, PBV.wrap64 (sum + Z.of_nat (length x))) a v
               < 18446744073709551616
            ∧ PBV.wrap64 (foldl (λ sum x, PBV.wrap64 (sum + Z.of_nat (length x))) a v)
              = PBV.wrap64 (a + Z.of_nat (length (concat v)))).
  { clear. induction v as [|x v IH]; intros a Ha; cbn [foldl concat length].
    - split; [done|]. by rewrite Z.add_0_r.
    - assert (Hw : 0 <= PBV.wrap64 (a + Z.of_nat (length x)) < 18446744073709551616)
        by (apply Z.mod_pos_bound; lia).
      destruct (IH _ Hw) as [H1 H2]. split; [done|]. rewrite H2.
      unfold PBV.wrap64. rewrite Zplus_mod_idemp_l. f_equal.
      rewrite length_app, Nat2Z.inj_add. lia. }
  destruct (H 0 ltac:(lia)) as [H1 H2].
  etrans; [symmetry; apply (Z.mod_small _ 18446744073709551616 H1)|].
  etrans; [exact H2|]. apply Z.mod_small. lia.
Qed.

Lemma concat_NoDup_unique {A} (ls : list (list A)) : ∀ i j a b x,
  NoDup (concat ls) → ls !! i = Some a → ls !! j = Some b → x ∈ a → x ∈ b → i = j.
Proof.
  induction ls as [|l ls IH]; intros i j a b x Hnd Hi Hj Ha Hb; [done|].
  cbn [concat] in Hnd. apply NoDup_app in Hnd as (_ & Hdis & Hnd).
  destruct i as [|i], j as [|j]; cbn in Hi, Hj.
  - done.
  - injection Hi as ->. exfalso. apply (Hdis x Ha).
    apply elem_of_concat. exists b. split; [by eapply list_elem_of_lookup_2|done].
  - injection Hj as ->. exfalso. apply (Hdis x Hb).
    apply elem_of_concat. exists a. split; [by eapply list_elem_of_lookup_2|done].
  - f_equal. by eapply IH.
Qed.

(** X25 (Graph::get_connected_components, Graph::assign_nodes,
    util::size_sum): on a consistent subgraph the function returns within
    [node_data.size()] steps per search, leaves the graph as it was, and the
    final assertion holds.  The components together list every vertex of
    [nodes] once; the vertices of a component are all reached from its first
    vertex along edges of the subgraph; the edges of a component end in it
    or in an earlier one, and in it when every edge is stored at both
    ends. *)
Theorem get_connected_components_partition cfg g :
  cc_ready g → CHECK_CONSISTENT cfg g = Ok tt →
  ∃ comps,
    (∀ fuel, (length (node_data g) < fuel)%nat →
       get_connected_components cfg fuel g = Ok (g, comps))
    ∧ concat comps ≡ₚ nodes g
    ∧ components_of g comps
    ∧ (symmetric_adjacency g →
       ∀ cc u w, cc ∈ comps → u ∈ cc → edge_in g u w → w ∈ cc).
Proof.
  intros (Hid & H32 & Hnd & Hlisted & Hmem & Hrange) Hcheck.
  destruct (cc_loop_spec g Hid Hrange (S (length (node_data g))) (nodes g) g [])
    as (g1 & comps & Hl & (Hd & Hndc & Hst & Hin & Hcomps) & Hall & _).
  { lia. }
  { split; [apply dimmed_refl|]. split; [constructor|]. split; [|split].
    - intros v Hv. cbn [concat]. rewrite elem_of_nil. tauto.
    - by intros v ?%elem_of_nil.
    - intros i cc Hi. done. }
  { exact Hlisted. }
  assert (Hperm : concat comps ≡ₚ nodes g).
  { apply NoDup_Permutation; [done..|]. intros v. split; [|by apply Hall].
    intros Hv. by apply Hmem, Hin. }
  exists comps. split; [|split; [done|split; [done|]]].
  - intros fuel Hfuel. unfold get_connected_components. rewrite Hcheck. cbn [mbind result_bind].
    destruct (cc_loop_spec g Hid Hrange fuel (nodes g) g [])
      as (g1' & comps' & Hl' & _); [done| |exact Hlisted|].
    { split; [apply dimmed_refl|]. split; [constructor|]. split; [|split].
      - intros v Hv. cbn [concat]. rewrite elem_of_nil. tauto.
      - by intros v ?%elem_of_nil.
      - intros i cc Hi. done. }
    (* the result does not depend on the fuel *)
    assert (Hsame : (g1', comps') = (g1, comps)).
    { clear -Hl Hl' Hfuel.
      assert (Hmono : ∀ todo gt cs r, cc_loop (S (length (node_data g))) gt todo cs = Ok r →
                cc_loop fuel gt todo cs = Ok r).
      { assert (Hs : ∀ f1 f2 gt st cc r, (f1 ≤ f2)%nat → cc_search f1 gt st cc = Ok r →
                   cc_search f2 gt st cc = Ok r).
        { induction f1 as [|f1 IH]; intros f2 gt st cc r Hle H; [done|].
          destruct f2 as [|f2]; [lia|]. cbn [cc_search] in *.
          destruct st as [|v st]; [done|].
          destruct (at_ (node_data gt) v); cbn [mbind result_bind] in *; [|done].
          destruct (cc_push gt (neighbors a) st) as [[g' st']|]; cbn [mbind result_bind] in *;
            [|done].
          apply (IH f2); [lia|done]. }
        induction todo as [|x todo IH]; intros gt cs r H; cbn [cc_loop] in *; [done|].
        destruct (contains gt x) as [c|]; cbn [mbind result_bind] in *; [|done].
        destruct (negb c); [by apply IH|].
        destruct (cc_search (S (length (node_data g))) _ [x] []) as [[g' cc]|] eqn:E;
          cbn [mbind result_bind] in *; [|done].
        rewrite (Hs (S (length (node_data g))) fuel _ _ _ _ ltac:(lia) E). cbn [mbind result_bind]. by apply IH. }
      apply Hmono in Hl. congruence. }
    injection Hsame as -> ->. rewrite Hl'. cbn [mbind result_bind].
    destruct Hd as (Hi1 & Hn1 & Hlen1 & Hnodes1).
    destruct (assign_nodes_from_spec (nodes g1) g1) as (g2 & Ha & Hi2 & Hn2 & Hl2).
    { intros v Hv. rewrite Hn1 in Hv. rewrite Hlen1. eapply contains_lt. by apply Hlisted. }
    unfold assign_nodes. rewrite Ha. cbn [mbind result_bind].
    rewrite size_sum_concat.
    2:{ rewrite Hperm.
        assert (length (nodes g) ≤ length (node_data g))%nat; [|lia].
        apply NoDup_bounded_length; [done|]. intros v Hv. eapply contains_lt. by apply Hlisted. }
    rewrite Hperm, Z.eqb_refl, check_true by done. cbn [mbind result_bind].
    do 2 f_equal.
    assert (Hdata : node_data g2 = node_data g).
    { apply list_eq. intros v. rewrite Hl2, Hn1.
      destruct (node_data g !! v) as [nd|] eqn:E.
      - destruct (Hnodes1 v nd E) as (nd1 & E1 & Hnb & Hs). rewrite E1.
        case_decide as Hv.
        + cbn. f_equal. apply Hlisted, contains_stamp in Hv as (nd' & E' & Hs').
          assert (nd' = nd) as -> by congruence. rewrite Hi1, <- Hs', Hnb. by destruct nd.
        + f_equal. destruct Hs as [Hs|[_ Hs]].
          * destruct nd, nd1. cbn in *. congruence.
          * exfalso. apply Hv, Hmem, contains_stamp. eauto.
      - assert (node_data g1 !! v = None) as ->.
        { apply lookup_ge_None. apply lookup_ge_None in E. lia. }
        by case_decide. }
    destruct g2, g. cbn in *. congruence.
  - intros Hsym cc u w Hcc Hu Hw.
    apply list_elem_of_lookup_1 in Hcc as [i Hi].
    destruct (Hcomps i cc Hi) as (s & _ & _ & Hcl).
    destruct (Hcl u w Hu Hw) as (j & cc' & Hj & Hcc' & Hwc).
    destruct (decide (j = i)) as [->|Hne]; [congruence|].
    exfalso.
    assert (Hug : contains g u = Ok true).
    { apply Hin, elem_of_concat. exists cc. split; [by eapply list_elem_of_lookup_2|done]. }
    destruct Hw as (_ & nd & n & Hnd' & Hn & <-).
    destruct (Hsym u (node n) nd Hnd') as (nv & Hnv & Hback).
    { apply list_elem_of_fmap. eauto. }
    apply list_elem_of_fmap in Hback as (m & Hm & Hmin).
    destruct (Hcomps j cc' Hcc') as (s' & _ & _ & Hcl').
    destruct (Hcl' (node n) u Hwc) as (k & cc'' & Hk & Hcc'' & Huc).
    { split; [done|]. exists nv, m. by rewrite <- Hm. }
    pose proof (concat_NoDup_unique comps k i cc'' cc u Hndc Hcc'' Hi Huc Hu). lia.
Qed.

Lemma get_connected_components_partition_witness :
  ∃ comps,
    (∀ fuel, (length (node_data two_parts) < fuel)%nat →
       get_connected_components debug_config fuel two_parts = Ok (two_parts, comps))
    ∧ concat comps ≡ₚ nodes two_parts
    ∧ components_of two_parts comps
    ∧ (symmetric_adjacency two_parts →
       ∀ cc u w, cc ∈ comps → u ∈ cc → edge_in two_parts u w → w ∈ cc).
Proof.
  apply (get_connected_components_partition debug_config two_parts).
  - split; [vm_compute; discriminate|]. split; [vm_compute; discriminate|].
    split; [by apply (bool_decide_unpack _)|]. split; [|split].
    + intros v Hv. cbn in Hv.
      repeat (apply elem_of_cons in Hv as [->|Hv]; [reflexivity|]). by apply elem_of_nil in Hv.
    + intros u Hu. do 8 (destruct u as [|u]; [first [discriminate Hu | cbn; set_solver]|]).
      discriminate Hu.
    + intros u nd n Hu Hn.
      assert (H : Forall (λ nd, Forall (λ n, (node n < length (node_data two_parts))%nat)
                                  (neighbors nd)) (node_data two_parts)).
      { repeat first [apply Forall_nil_2 | apply Forall_cons_2]; cbn; lia. }
      apply (Forall_lookup_1 _ _ _ _ H) in Hu. by apply (proj1 (Forall_forall _ _) Hu).
  - vm_compute. reflexivity.
Defined.

(** ** Breadth-first search *)

Section bfs.

Variables (cfg : BuildConfig) (g : Graph).

Lemma bfs_init_spec todo : ∀ tbl,
  (∀ u, u ∈ todo → (u < length tbl)%nat) →
  ∃ tbl', bfs_init cfg todo tbl = Ok tbl' ∧ length tbl' = length tbl
    ∧ ∀ u, dist_of tbl' u = if decide (u ∈ todo) then infinity cfg else dist_of tbl u.
Proof.
  induction todo as [|x todo IH]; intros tbl Hr.
  - exists tbl. split; [done|]. split; [done|]. intros u.
    rewrite decide_False; [done|]. apply not_elem_of_nil.
  - cbn [bfs_init].
    destruct (lookup_lt_is_Some_2 tbl x) as [cur Hcur]; [apply Hr; left|].
    unfold at_, set_at. rewrite Hcur. cbn [mbind result_bind].
    rewrite decide_True by (apply Hr; left). cbn [mbind result_bind].
    destruct (IH (<[x := mkSearch (infinity cfg) (sd_path_count cur)]> tbl))
      as (tbl' & Hi & Hl & Hd).
    { intros u Hu. rewrite length_insert. apply Hr. by right. }
    exists tbl'. split; [done|]. split; [by rewrite Hl, length_insert|].
    intros u. rewrite Hd, dist_of_insert by (apply Hr; left). cbn [sd_distance].
    destruct (decide (u ∈ todo)) as [Hin|Hnin].
    + by rewrite decide_True by (by right).
    + destruct (decide (u = x)) as [->|Hne].
      * by rewrite decide_True by left.
      * by rewrite decide_False by (intros [?|?]%elem_of_cons; done).
Qed.

(** The neighbours of one vertex: the members not yet reached get the new
    distance and join the queue, once each. *)
Lemma bfs_visit_spec d ns : ∀ tbl q,
  d ≠ infinity cfg → length tbl = length (node_data g) →
  (∀ n, n ∈ ns → (node n < length (node_data g))%nat) →
  ∃ tbl' new, bfs_visit cfg g d ns tbl q = Ok (tbl', q ++ new)
    ∧ length tbl' = length tbl ∧ NoDup new
    ∧ (∀ w, w ∈ new → contains g w = Ok true ∧ dist_of tbl w = infinity cfg
                      ∧ w ∈ node <$> ns)
    ∧ (∀ u, dist_of tbl' u = if decide (u ∈ new) then d else dist_of tbl u)
    ∧ ∀ n, n ∈ ns → contains g (node n) = Ok true → dist_of tbl (node n) = infinity cfg →
        node n ∈ new.
Proof.
  induction ns as [|n ns IH]; intros tbl q Hd Hlen Hr; cbn [bfs_visit].
  - exists tbl, []. rewrite app_nil_r. split; [done|]. split; [done|]. split; [constructor|].
    split; [by intros w ?%elem_of_nil|]. split; [|by intros n ?%elem_of_nil].
    intros u. by rewrite decide_False by apply not_elem_of_nil.
  - assert (Hn : (node n < length (node_data g))%nat) by (apply Hr; left).
    destruct (contains_defined g (node n) Hn) as [c Hc]. rewrite Hc. cbn [mbind result_bind].
    assert (Hr' : ∀ m, m ∈ ns → (node m < length (node_data g))%nat)
      by (intros; apply Hr; by right).
    destruct c.
    + destruct (lookup_lt_is_Some_2 tbl (node n)) as [cur Hcur]; [lia|].
      unfold at_. rewrite Hcur. cbn [mbind result_bind].
      assert (Hdist : dist_of tbl (node n) = sd_distance cur) by (unfold dist_of; by rewrite Hcur).
      destruct (sd_distance cur =? infinity cfg) eqn:E.
      * apply Z.eqb_eq in E. unfold set_at. rewrite decide_True by lia.
        cbn [mbind result_bind].
        destruct (IH (<[node n := mkSearch d (sd_path_count cur)]> tbl) (q ++ [node n]))
          as (tbl' & new & Hv & Hl & Hnd & Hnew & Hdist' & Hall); [done| |done|].
        { by rewrite length_insert. }
        assert (Hfresh : node n ∉ new).
        { intros Hin. apply Hnew in Hin as (_ & Hin & _).
          rewrite dist_of_insert in Hin by lia. rewrite decide_True in Hin by done. done. }
        exists tbl', (node n :: new). split.
        { rewrite Hv. by rewrite <- app_assoc. }
        split; [by rewrite Hl, length_insert|]. split; [by constructor|].
        split; [|split].
        -- intros w [->|Hw]%elem_of_cons.
           ++ split; [done|]. split; [congruence|]. rewrite fmap_cons. left.
           ++ destruct (Hnew w Hw) as (Hw1 & Hw2 & Hw3). split; [done|].
              rewrite dist_of_insert in Hw2 by lia.
              destruct (decide (w = node n)) as [->|Hne]; [done|].
              split; [done|]. rewrite fmap_cons. by right.
        -- intros u. rewrite Hdist', dist_of_insert by lia. cbn [sd_distance].
           destruct (decide (u ∈ new)) as [Hin|Hnin].
           ++ by rewrite decide_True by (by right).
           ++ destruct (decide (u = node n)) as [->|Hne].
              ** by rewrite decide_True by left.
              ** by rewrite decide_False by (intros [?|?]%elem_of_cons; done).
        -- intros m [->|Hm]%elem_of_cons Hcm Hdm; [left|].
           destruct (decide (node m = node n)) as [->|Hne]; [left|]. right.
           apply Hall; [done..|]. rewrite dist_of_insert by lia. by rewrite decide_False.
      * apply Z.eqb_neq in E.
        destruct (IH tbl q) as (tbl' & new & Hv & Hl & Hnd & Hnew & Hdist' & Hall); [done..|].
        exists tbl', new. split; [done|]. split; [done|]. split; [done|]. split; [|split; [done|]].
        -- intros w Hw. destruct (Hnew w Hw) as (Hw1 & Hw2 & Hw3). split; [done|]. split; [done|].
           rewrite fmap_cons. by right.
        -- intros m [->|Hm]%elem_of_cons Hcm Hdm; [congruence|by apply Hall].
    + destruct (IH tbl q) as (tbl' & new & Hv & Hl & Hnd & Hnew & Hdist' & Hall); [done..|].
      exists tbl', new. split; [done|]. split; [done|]. split; [done|]. split; [|split; [done|]].
      * intros w Hw. destruct (Hnew w Hw) as (Hw1 & Hw2 & Hw3). split; [done|]. split; [done|].
        rewrite fmap_cons. by right.
      * intros m [->|Hm]%elem_of_cons Hcm Hdm; [congruence|by apply Hall].
Qed.

Lemma bfs_loop_spec v fuel : ∀ tbl q done,
  bfs_ready cfg g → bfs_inv cfg g v tbl q done →
  (length (node_data g) - length done < fuel)%nat →
  ∃ tbl' done', bfs_loop cfg g fuel tbl q = Ok tbl' ∧ bfs_inv cfg g v tbl' [] done'.
Proof.
  induction fuel as [|fuel IH]; intros tbl q done Hready Hinv Hfuel; [lia|].
  destruct q as [|x q]; [by exists tbl, done|]. cbn [bfs_loop].
  destruct Hready as (HN & Hinf & Hlisted & Hnodes & Hrange).
  destruct Hinv as (Hlen & Hnd & [Hv Hv0] & Hvis & Hmem & Hsorted & Hfront & Hdone & Hclosed).
  destruct (Hmem x) as (Hxc & Hxd & Hxh); [apply elem_of_app; right; left|].
  assert (Hcount : (length (done ++ x :: q) ≤ length (node_data g))%nat).
  { apply NoDup_bounded_length; [done|]. intros u Hu. apply Hmem in Hu as [Hu _].
    by eapply contains_lt. }
  rewrite length_app in Hcount. cbn [length] in Hcount.
  assert (Hxlt : (x < length (node_data g))%nat) by (by eapply contains_lt).
  destruct (lookup_lt_is_Some_2 tbl x) as [cur Hcur]; [lia|].
  destruct (lookup_lt_is_Some_2 (node_data g) x) as [nd Hx]; [done|].
  unfold at_. rewrite Hcur, Hx. cbn [mbind result_bind].
  assert (Hdx : sd_distance cur = dist_of tbl x) by (unfold dist_of; by rewrite Hcur).
  rewrite Hdx.
  assert (Hadd : add32 (dist_of tbl x) 1 = dist_of tbl x + 1).
  { unfold add32, wrap32. apply Z.mod_small. lia. }
  rewrite Hadd. set (d := dist_of tbl x + 1).
  destruct (bfs_visit_spec d (neighbors nd) tbl q)
    as (tbl' & new & Hvisit & Hlen' & Hndn & Hnew & Hdist & Hall).
  { unfold d. lia. }
  { done. }
  { intros n Hn. by eapply Hrange. }
  rewrite Hvisit. cbn [mbind result_bind].
  assert (Hold : ∀ u, u ∈ done ++ x :: q → u ∉ new).
  { intros u Hu Hin. destruct (Hnew u Hin) as (Hc & Hi & _).
    by apply (proj2 (Hvis u Hc)) in Hu. }
  assert (Hel : ∀ u, u ∈ (done ++ [x]) ++ q ++ new ↔ u ∈ done ++ x :: q ∨ u ∈ new).
  { intros u. rewrite !elem_of_app, !elem_of_cons, elem_of_nil. tauto. }
  assert (Hdold : ∀ u, u ∈ done ++ x :: q → dist_of tbl' u = dist_of tbl u).
  { intros u Hu. rewrite Hdist. by rewrite decide_False by (by apply Hold). }
  assert (Hdnew : ∀ u, u ∈ new → dist_of tbl' u = d).
  { intros u Hu. rewrite Hdist. by rewrite decide_True. }
  assert (Hxin : x ∈ done ++ x :: q) by (apply elem_of_app; right; left).
  assert (Hqin : ∀ u, u ∈ q → u ∈ done ++ x :: q) by (intros; apply elem_of_app; right; by right).
  assert (Hdin : ∀ u, u ∈ done → u ∈ done ++ x :: q) by (intros; apply elem_of_app; by left).
  assert (Hqx : ∀ u, u ∈ q → dist_of tbl x <= dist_of tbl u).
  { intros u Hu. apply list_elem_of_lookup_1 in Hu as [j Hj].
    apply (Hsorted 0%nat (S j) x u); [lia|done|done]. }
  apply (IH tbl' (q ++ new) (done ++ [x])).
  { done. }
  2:{ rewrite length_app. cbn [length]. lia. }
  split; [congruence|]. split; [|split; [|split; [|split; [|split; [|split; [|split]]]]]].
  - apply NoDup_app in Hnd as (Hnd1 & Hnd2 & Hnd3). apply NoDup_cons in Hnd3 as [Hxq Hnd3].
    rewrite <- app_assoc. cbn [app]. apply NoDup_app. split; [done|]. split.
    + intros u Hu [->|[Hu2|Hu2]%elem_of_app]%elem_of_cons.
      * apply (Hnd2 x Hu). left.
      * apply (Hnd2 u Hu). by right.
      * by apply (Hold u (Hdin u Hu)).
    + apply NoDup_cons. split.
      * intros [Hu|Hu]%elem_of_app; [done|]. by apply (Hold x Hxin).
      * apply NoDup_app. split; [done|]. split; [|done].
        intros u Hu Hu2. by apply (Hold u (Hqin u Hu)).
  - split; [apply Hel; by left|]. by rewrite Hdold.
  - intros u Hu. rewrite Hel. destruct (decide (u ∈ new)) as [Hin|Hnin].
    + rewrite Hdnew by done. unfold d. split; [tauto|]. lia.
    + rewrite Hdist, decide_False by done. rewrite (Hvis u Hu). tauto.
  - intros u Hu. rewrite length_app. cbn [length]. apply Hel in Hu as [Hu|Hu].
    + rewrite Hdold by done. destruct (Hmem u Hu) as (H1 & H2 & H3).
      split; [done|]. split; [lia|done].
    + rewrite Hdnew by done. destruct (Hnew u Hu) as (Hc & _ & Hin).
      split; [done|]. split; [unfold d; lia|]. unfold d. apply (hops_step g v x u); [done|].
      split; [done|]. apply list_elem_of_fmap in Hin as (n & -> & Hn). by exists nd, n.
  - intros i j a b Hij Ha Hb.
    apply lookup_app_Some in Ha as [Ha|[Hi Ha]], Hb as [Hb|[Hj Hb]].
    + rewrite !Hdold by (apply Hqin; by eapply list_elem_of_lookup_2).
      apply (Hsorted (S i) (S j) a b); [lia|done|done].
    + rewrite Hdold by (apply Hqin; by eapply list_elem_of_lookup_2).
      rewrite Hdnew by (by eapply list_elem_of_lookup_2).
      apply (Hfront x a eq_refl). apply Hqin. by eapply list_elem_of_lookup_2.
    + apply lookup_lt_Some in Hb. lia.
    + rewrite !Hdnew by (by eapply list_elem_of_lookup_2). lia.
  - intros x' y Hhead Hy.
    assert (Hx' : dist_of tbl x <= dist_of tbl' x' ∧ (x' ∈ q ∨ x' ∈ new)).
    { destruct q as [|q0 q]; cbn [app head] in Hhead.
      - destruct new as [|n0 new]; [done|]. injection Hhead as ->.
        rewrite Hdnew by left. split; [unfold d; lia|]. right. left.
      - injection Hhead as ->. rewrite Hdold by (apply Hqin; left).
        split; [apply Hqx; left|]. left. left. }
    destruct Hx' as [Hx' _]. apply Hel in Hy as [Hy|Hy].
    + rewrite (Hdold y Hy). pose proof (Hfront x y eq_refl Hy). lia.
    + rewrite (Hdnew y Hy). unfold d. lia.
  - intros x' y Hhead Hy.
    assert (Hx' : dist_of tbl x <= dist_of tbl' x').
    { destruct q as [|q0 q]; cbn [app head] in Hhead.
      - destruct new as [|n0 new]; [done|]. injection Hhead as ->.
        rewrite Hdnew by left. unfold d; lia.
      - injection Hhead as ->. rewrite Hdold by (apply Hqin; left). apply Hqx; left. }
    apply elem_of_app in Hy as [Hy| ->%list_elem_of_singleton].
    + rewrite (Hdold y (Hdin y Hy)). pose proof (Hdone x y eq_refl Hy). lia.
    + by rewrite (Hdold x Hxin).
  - intros u w [Hu| ->%list_elem_of_singleton]%elem_of_app Hedge.
    + destruct (Hclosed u w Hu Hedge) as [Hw Hle].
      split; [apply Hel; by left|]. by rewrite (Hdold w Hw), (Hdold u (Hdin u Hu)).
    + rewrite (Hdold x Hxin). destruct Hedge as (Hwc & nd' & n & Hnd' & Hn & <-).
      assert (nd' = nd) as -> by congruence.
      destruct (decide (dist_of tbl (node n) = infinity cfg)) as [Hi|Hni].
      * pose proof (Hall n Hn Hwc Hi) as Hin. split; [apply Hel; by right|].
        rewrite (Hdnew _ Hin). unfold d. lia.
      * apply (Hvis _ Hwc) in Hni. split; [apply Hel; by left|].
        rewrite (Hdold _ Hni). by apply (Hfront x _ eq_refl).
Qed.

End bfs.

Lemma bfs_loop_fuel cfg g f1 : ∀ f2 tbl q r,
  (f1 ≤ f2)%nat → bfs_loop cfg g f1 tbl q = Ok r → bfs_loop cfg g f2 tbl q = Ok r.
Proof.
  induction f1 as [|f1 IH]; intros f2 tbl q r Hle H.
  - destruct q; [by destruct f2|done].
  - destruct f2 as [|f2]; [lia|]. cbn [bfs_loop] in *. destruct q as [|x q]; [done|].
    destruct (at_ tbl x) as [cur|]; cbn [mbind result_bind] in *; [|done].
    destruct (at_ (node_data g) x) as [nd|]; cbn [mbind result_bind] in *; [|done].
    destruct (bfs_visit _ _ _ _ _ _) as [[tbl' q']|]; cbn [mbind result_bind] in *; [|done].
    apply (IH f2); [lia|done].
Qed.

(** X26 (Graph::run_bfs): on a consistent subgraph whose members are listed
    and whose edges stay inside [node_data], with [infinity] above the number
    of slots, the search from a member [v] returns within
    [node_data.size()] rounds, and the distance it leaves at every member is
    the smallest number of edges of a walk from [v] inside the subgraph, or
    [infinity] when there is none. *)
Theorem run_bfs_fewest_hops cfg g tbl v :
  bfs_ready cfg g → CHECK_CONSISTENT cfg g = Ok tt →
  length tbl = length (node_data g) → contains g v = Ok true →
  ∃ tbl',
    (∀ fuel, (length (node_data g) < fuel)%nat → run_bfs cfg fuel g tbl v = Ok tbl')
    ∧ length tbl' = length tbl
    ∧ ∀ u, contains g u = Ok true → fewest_hops cfg g v u (dist_of tbl' u).
Proof.
  intros Hready Hcheck Hlen Hv.
  pose proof Hready as (HN & Hinf & Hlisted & Hnodes & Hrange).
  destruct (bfs_init_spec cfg (nodes g) tbl) as (tbl1 & Hinit & Hl1 & Hd1).
  { intros u Hu. rewrite Hlen. by apply Hnodes. }
  assert (Hvlt : (v < length tbl1)%nat).
  { rewrite Hl1, Hlen. by eapply contains_lt. }
  destruct (lookup_lt_is_Some_2 tbl1 v Hvlt) as [cur Hcur].
  set (tbl2 := <[v := mkSearch 0 (sd_path_count cur)]> tbl1).
  assert (Hd2 : ∀ u, dist_of tbl2 u = if decide (u = v) then 0 else dist_of tbl1 u).
  { intros u. unfold tbl2. by rewrite dist_of_insert. }
  assert (Hinv : bfs_inv cfg g v tbl2 [v] []).
  { split; [unfold tbl2; rewrite length_insert; congruence|].
    split; [apply NoDup_singleton|]. cbn [app].
    split; [split; [left|by rewrite Hd2, decide_True]|].
    split; [|split; [|split; [|split; [|split]]]].
    - intros u Hu. rewrite Hd2, list_elem_of_singleton. case_decide as E; [split; [done|lia]|].
      rewrite Hd1, decide_True by (by apply Hlisted). tauto.
    - intros u ->%list_elem_of_singleton. rewrite Hd2, decide_True by done.
      split; [done|]. split; [done|]. constructor.
    - intros i j a b Hij Ha Hb.
      apply list_elem_of_lookup_2, list_elem_of_singleton in Ha, Hb. subst. lia.
    - intros x y [= <-] ->%list_elem_of_singleton. lia.
    - by intros x y _ ?%elem_of_nil.
    - by intros u w ?%elem_of_nil. }
  destruct (bfs_loop_spec cfg g v (S (length (node_data g))) tbl2 [v] [] Hready Hinv)
    as (tbl' & done' & Hloop & Hfin); [cbn [length]; lia|].
  destruct Hfin as (Hlen' & Hnd & [Hvd Hv0] & Hvis & Hmem & _ & _ & _ & Hclosed).
  rewrite app_nil_r in *.
  exists tbl'. split; [|split].
  - intros fuel Hfuel. unfold run_bfs. rewrite Hcheck, Hv. cbn [mbind result_bind].
    rewrite check_true by done. cbn [mbind result_bind]. rewrite Hinit. cbn [mbind result_bind].
    unfold at_, set_at. rewrite Hcur. cbn [mbind result_bind].
    rewrite decide_True by done. cbn [mbind result_bind].
    apply (bfs_loop_fuel cfg g (S (length (node_data g)))); [lia|done].
  - congruence.
  - assert (Hreach : ∀ w k, hops g v w k → w ∈ done' ∧ dist_of tbl' w <= k).
    { induction 1 as [|u w k Hh [IH1 IH2] He].
      - split; [done|lia].
      - destruct (Hclosed u w IH1 He) as [Hw Hle]. split; [done|lia]. }
    intros u Hu. destruct (decide (dist_of tbl' u = infinity cfg)) as [Hi|Hni].
    + left. split; [done|]. intros k Hk. apply Hreach in Hk as [Hk _].
      by apply (Hvis u Hu) in Hk.
    + right. apply (Hvis u Hu) in Hni. destruct (Hmem u Hni) as (_ & Hb & Hh).
      assert (length done' ≤ length (node_data g))%nat.
      { apply NoDup_bounded_length; [done|]. intros w Hw. apply Hmem in Hw as [Hw _].
        by eapply contains_lt. }
      split; [lia|]. split; [done|]. intros k Hk. by apply Hreach in Hk as [_ Hk].
Qed.

Lemma run_bfs_fewest_hops_witness :
  ∃ tbl',
    (∀ fuel, (length (node_data two_parts) < fuel)%nat →
       run_bfs search_config fuel two_parts (replicate 8 (mkSearch 0 0)) 3 = Ok tbl')
    ∧ length tbl' = length (replicate 8 (mkSearch 0 0))
    ∧ ∀ u, contains two_parts u = Ok true →
        fewest_hops search_config two_parts 3 u (dist_of tbl' u).
Proof.
  apply (run_bfs_fewest_hops search_config two_parts (replicate 8 (mkSearch 0 0)) 3).
  - split; [vm_compute; reflexivity|]. split; [vm_compute; reflexivity|]. split; [|split].
    + intros u Hu. do 8 (destruct u as [|u]; [first [discriminate Hu | cbn; set_solver]|]).
      discriminate Hu.
    + intros u Hu. cbn in Hu.
      repeat (apply elem_of_cons in Hu as [->|Hu]; [cbn; lia|]). by apply elem_of_nil in Hu.
    + intros u nd n Hu Hn.
      assert (H : Forall (λ nd, Forall (λ n, (node n < length (node_data two_parts))%nat)
                                  (neighbors nd)) (node_data two_parts)).
      { repeat first [apply Forall_nil_2 | apply Forall_cons_2]; cbn; lia. }
      apply (Forall_lookup_1 _ _ _ _ H) in Hu. by apply (proj1 (Forall_forall _ _) Hu).
  - vm_compute. reflexivity.
  - reflexivity.
  - reflexivity.
Defined.

(** ** Distances inside a contraction tree *)

Section tree.

Variable ls : list ContractionLabel.
Hypothesis Hforest : label_forest ls.

Lemma up_step_det v p p' : up_step ls v p → up_step ls v p' → p = p'.
Proof. intros (l & Hl & _ & <-) (l' & Hl' & _ & <-). congruence. Qed.

Lemma up_step_offset v p : up_step ls v p → offset_of ls p < offset_of ls v.
Proof.
  intros (l & Hl & Hne & <-). destruct (Hforest v l Hl) as [_ Hp].
  destruct (Hp Hne) as (lp & Hlp & Hlt). unfold offset_of. by rewrite Hl, Hlp.
Qed.

Lemma ancestor_offset v a : rtc (up_step ls) v a → a = v ∨ offset_of ls a < offset_of ls v.
Proof.
  induction 1 as [|v p a Hstep _ IH]; [by left|]. right.
  apply up_step_offset in Hstep. destruct IH as [->|IH]; lia.
Qed.

Lemma ancestor_step v p c : up_step ls v p → rtc (up_step ls) v c → c ≠ v → rtc (up_step ls) p c.
Proof.
  intros Hstep Hc Hne. destruct Hc as [|v p' c Hstep' Hc]; [done|].
  by rewrite (up_step_det _ _ _ Hstep Hstep').
Qed.

(** The walk ends at the lowest common ancestor. *)
Lemma lca_walk_spec fuel : ∀ va wa lva lwa kv kw r,
  ls !! va = Some lva → ls !! wa = Some lwa →
  nsteps (up_step ls) kv va r → nsteps (up_step ls) kw wa r → (kv + kw ≤ fuel)%nat →
  ∃ a la, lca_walk ls fuel va wa lva lwa = Ok la ∧ ls !! a = Some la
    ∧ lowest_common_ancestor ls va wa a.
Proof.
  induction fuel as [|fuel IH]; intros va wa lva lwa kv kw r Hva Hwa Hkv Hkw Hfuel.
  - assert (kv = 0%nat ∧ kw = 0%nat) as [-> ->] by lia.
    assert (va = r) as -> by (by inversion Hkv). assert (wa = r) as -> by (by inversion Hkw).
    cbn [lca_walk]. rewrite decide_True by done.
    exists r, lva. split; [done|]. split; [done|]. by split; [|split].
  - cbn [lca_walk]. case_decide as Heq.
    { subst wa. exists va, lva. split; [done|]. split; [done|]. by split; [|split]. }
    assert (Hova : offset_of ls va = distance_offset lva) by (unfold offset_of; by rewrite Hva).
    assert (Howa : offset_of ls wa = distance_offset lwa) by (unfold offset_of; by rewrite Hwa).
    assert (Hvr : rtc (up_step ls) va r) by (by eapply rtc_nsteps_2).
    assert (Hwr : rtc (up_step ls) wa r) by (by eapply rtc_nsteps_2).
    assert (Hstepw : offset_of ls va <= offset_of ls wa →
              ∃ kw' p lp, kw = S kw' ∧ up_step ls wa p ∧ p = parent lwa ∧ ls !! p = Some lp
                ∧ nsteps (up_step ls) kw' p r
                ∧ ∀ c, rtc (up_step ls) va c → rtc (up_step ls) wa c → rtc (up_step ls) p c).
    { intros Hle. destruct kw as [|kw'].
      - assert (wa = r) as Hr by (by inversion Hkw). rewrite <- Hr in Hvr.
        destruct (ancestor_offset va wa Hvr) as [->|Hlt]; [done|lia].
      - assert (∃ p, up_step ls wa p ∧ nsteps (up_step ls) kw' p r) as (p & Hstep & Hkw')
          by (inversion Hkw; eauto).
        pose proof Hstep as (l & Hl & Hne & Hp). assert (l = lwa) as -> by congruence.
        destruct (Hforest wa lwa Hwa) as [_ Hpar]. destruct (Hpar Hne) as (lp & Hlp & _).
        exists kw', p, lp. split; [done|]. split; [done|]. split; [done|].
        split; [by rewrite <- Hp|]. split; [done|].
        intros c Hvc Hwc. eapply ancestor_step; [done..|]. intros ->.
        destruct (ancestor_offset va wa Hvc) as [->|Hlt]; [done|lia]. }
    assert (Hstepv : offset_of ls wa <= offset_of ls va →
              ∃ kv' p lp, kv = S kv' ∧ up_step ls va p ∧ p = parent lva ∧ ls !! p = Some lp
                ∧ nsteps (up_step ls) kv' p r
                ∧ ∀ c, rtc (up_step ls) va c → rtc (up_step ls) wa c → rtc (up_step ls) p c).
    { intros Hle. destruct kv as [|kv'].
      - assert (va = r) as Hr by (by inversion Hkv). rewrite <- Hr in Hwr.
        destruct (ancestor_offset wa va Hwr) as [->|Hlt]; [done|lia].
      - assert (∃ p, up_step ls va p ∧ nsteps (up_step ls) kv' p r) as (p & Hstep & Hkv')
          by (inversion Hkv; eauto).
        pose proof Hstep as (l & Hl & Hne & Hp). assert (l = lva) as -> by congruence.
        destruct (Hforest va lva Hva) as [_ Hpar]. destruct (Hpar Hne) as (lp & Hlp & _).
        exists kv', p, lp. split; [done|]. split; [done|]. split; [done|].
        split; [by rewrite <- Hp|]. split; [done|].
        intros c Hvc Hwc. eapply ancestor_step; [done..|]. intros ->.
        destruct (ancestor_offset wa va Hwc) as [->|Hlt]; [done|lia]. }
    rewrite <- Hova, <- Howa.
    destruct (offset_of ls va <? offset_of ls wa) eqn:E1.
    + apply Z.ltb_lt in E1.
      destruct Hstepw as (kw' & p & lp & -> & Hs & -> & Hlp & Hk & Hc); [lia|].
      unfold at_. rewrite Hlp. cbn [mbind result_bind].
      destruct (IH va (parent lwa) lva lp kv kw' r) as (a & la & Hw & Hla & Ha1 & Ha2 & Ha3);
        [done..|lia|].
      exists a, la. split; [done|]. split; [done|]. split; [done|].
      split; [by eapply rtc_l|]. intros c Hvc Hwc. apply Ha3; [done|by apply Hc].
    + apply Z.ltb_ge in E1. destruct (offset_of ls wa <? offset_of ls va) eqn:E2.
      * apply Z.ltb_lt in E2.
        destruct Hstepv as (kv' & p & lp & -> & Hs & -> & Hlp & Hk & Hc); [lia|].
        unfold at_. rewrite Hlp. cbn [mbind result_bind].
        destruct (IH (parent lva) wa lp lwa kv' kw r) as (a & la & Hw & Hla & Ha1 & Ha2 & Ha3);
          [done..|lia|].
        exists a, la. split; [done|]. split; [done|]. split; [by eapply rtc_l|].
        split; [done|]. intros c Hvc Hwc. apply Ha3; [by apply Hc|done].
      * apply Z.ltb_ge in E2.
        destruct Hstepv as (kv' & pv & lpv & -> & Hsv & -> & Hlpv & Hkv' & Hcv); [lia|].
        destruct Hstepw as (kw' & pw & lpw & -> & Hsw & -> & Hlpw & Hkw' & Hcw); [lia|].
        unfold at_. rewrite Hlpv, Hlpw. cbn [mbind result_bind].
        destruct (IH (parent lva) (parent lwa) lpv lpw kv' kw' r)
          as (a & la & Hw & Hla & Ha1 & Ha2 & Ha3); [done..|lia|].
        exists a, la. split; [done|]. split; [done|]. split; [by eapply rtc_l|].
        split; [by eapply rtc_l|]. intros c Hvc Hwc. apply Ha3; [by apply Hcv|by apply Hcw].
Qed.

End tree.

Lemma lowest_common_ancestor_unique ls v w a a' :
  label_forest ls → lowest_common_ancestor ls v w a → lowest_common_ancestor ls v w a' → a = a'.
Proof.
  intros Hf (Hv & Hw & Hlow) (Hv' & Hw' & Hlow').
  destruct (ancestor_offset ls Hf a a' (Hlow a' Hv' Hw')) as [->|H1]; [done|].
  destruct (ancestor_offset ls Hf a' a (Hlow' a Hv Hw)) as [->|H2]; [done|]. lia.
Qed.

(** X27 (ContractionIndex::get_distance, same cut index): when the offsets
    of the labels grow away from the roots and [v], [w] share a block and
    an ancestor, the query returns, in [distance_t] arithmetic, the offset
    of [v] above their lowest common ancestor plus the offset of [w] above
    it, and the ancestor walk ends within as many rounds as the two
    vertices are steps away from a common ancestor. *)
Theorem get_distance_tree_path cfg ci v w cv cw :
  label_forest (labels ci) → labels ci !! v = Some cv → labels ci !! w = Some cw →
  cut_index cv = cut_index cw → fci_empty (cut_index cv) = false →
  (∃ r, rtc (up_step (labels ci)) v r ∧ rtc (up_step (labels ci)) w r) →
  ∃ bound a,
    lowest_common_ancestor (labels ci) v w a
    ∧ ∀ fuel, (bound ≤ fuel)%nat →
        get_distance cfg ci fuel v w
        = Ok (wrap32 ((offset_of (labels ci) v - offset_of (labels ci) a)
                      + (offset_of (labels ci) w - offset_of (labels ci) a))).
Proof.
  intros Hf Hv Hw Hcut Hne (r & Hvr & Hwr).
  apply rtc_nsteps_1 in Hvr as Hkv. destruct Hkv as [kv Hkv].
  apply rtc_nsteps_1 in Hwr as Hkw. destruct Hkw as [kw Hkw].
  assert (Hov : offset_of (labels ci) v = distance_offset cv) by (unfold offset_of; by rewrite Hv).
  assert (How : offset_of (labels ci) w = distance_offset cw) by (unfold offset_of; by rewrite Hw).
  destruct (Hf v cv Hv) as [Hrv _]. destruct (Hf w cw Hw) as [Hrw _].
  assert (Hhead : ∀ fuel, get_distance cfg ci fuel v w =
    (if decide (v = w) then Ok 0
     else if distance_offset cv =? 0 then Ok (distance_offset cw)
     else if distance_offset cw =? 0 then Ok (distance_offset cv)
     else if decide (parent cv = w) then Ok (sub32 (distance_offset cv) (distance_offset cw))
     else if decide (parent cw = v) then Ok (sub32 (distance_offset cw) (distance_offset cv))
     else
       anc ← lca_walk (labels ci) fuel v w cv cw;
       Ok (sub32 (add32 (distance_offset cv) (distance_offset cw))
                 (mul32 2 (distance_offset anc))))).
  { intros fuel. unfold get_distance, at_. rewrite Hv, Hw. cbn [mbind result_bind].
    rewrite <- Hcut, Hne. cbn [negb andb]. rewrite check_true by done. cbn [mbind result_bind].
    by rewrite decide_True. }
  exists (kv + kw)%nat.
  destruct (decide (v = w)) as [->|Hvw]; cbv beta iota in Hhead.
  { exists w. split; [by split; [|split]|]. intros fuel _. rewrite Hhead.
    f_equal. replace (_ + _) with 0 by lia. done. }
  destruct (distance_offset cv =? 0) eqn:E1; cbv beta iota in Hhead.
  { apply Z.eqb_eq in E1. exists v.
    assert (r = v) as ->.
    { destruct Hvr as [|v p r (l & Hl & Hn & _) _]; [done|]. congruence. }
    split; [by split; [|split]|]. intros fuel _. rewrite Hhead.
    f_equal. rewrite How, Hov, E1. unfold wrap32. rewrite Z.mod_small; lia. }
  apply Z.eqb_neq in E1.
  destruct (distance_offset cw =? 0) eqn:E2; cbv beta iota in Hhead.
  { apply Z.eqb_eq in E2. exists w.
    assert (r = w) as ->.
    { destruct Hwr as [|w p r (l & Hl & Hn & _) _]; [done|]. congruence. }
    split; [by split; [|split]|]. intros fuel _. rewrite Hhead.
    f_equal. rewrite How, Hov, E2. unfold wrap32. rewrite Z.mod_small; lia. }
  apply Z.eqb_neq in E2.
  destruct (decide (parent cv = w)) as [Hpv|Hpv]; cbv beta iota in Hhead.
  { exists w. split.
    - split; [apply rtc_once; by exists cv|]. by split.
    - intros fuel _. rewrite Hhead. f_equal. unfold sub32. f_equal. lia. }
  destruct (decide (parent cw = v)) as [Hpw|Hpw]; cbv beta iota in Hhead.
  { exists v. split.
    - split; [done|]. split; [apply rtc_once; by exists cw|]. done.
    - intros fuel _. rewrite Hhead. f_equal. unfold sub32. f_equal. lia. }
  destruct (lca_walk_spec (labels ci) Hf (kv + kw) v w cv cw kv kw r Hv Hw Hkv Hkw)
    as (a & la & _ & _ & Ha); [done|].
  exists a. split; [done|]. intros fuel Hfuel.
  destruct (lca_walk_spec (labels ci) Hf fuel v w cv cw kv kw r Hv Hw Hkv Hkw Hfuel)
    as (a' & la' & Hwalk & Hla' & Ha').
  assert (a' = a) as -> by (by eapply lowest_common_ancestor_unique).
  rewrite Hhead, Hwalk. cbn [mbind result_bind].
  f_equal. rewrite Hov, How. unfold offset_of. rewrite Hla'.
  unfold sub32, add32, mul32, wrap32.
  rewrite Zminus_mod_idemp_l, Zminus_mod_idemp_r. f_equal. lia.
Qed.

Lemma get_distance_tree_path_witness :
  ∃ bound a,
    lowest_common_ancestor (labels pendant_index) 6 7 a
    ∧ ∀ fuel, (bound ≤ fuel)%nat →
        get_distance spec_config pendant_index fuel 6 7
        = Ok (wrap32 ((offset_of (labels pendant_index) 6 - offset_of (labels pendant_index) a)
                      + (offset_of (labels pendant_index) 7
                         - offset_of (labels pendant_index) a))).
Proof.
  apply (get_distance_tree_path spec_config pendant_index 6 7
           (mkLabel (Some 0%nat) 5 5) (mkLabel (Some 0%nat) 4 5)).
  - intros v l Hl.
    do 8 (destruct v as [|v];
          [injection Hl as <-; cbn; split; [lia|]; intros Hn; first [done | eexists; split; [reflexivity|cbn; lia]]|]).
    done.
  - reflexivity.
  - reflexivity.
  - reflexivity.
  - reflexivity.
  - exists 5%nat. split; apply rtc_once; eexists; (split; [reflexivity|]); by split.
Defined.

(** ** The labels the constructor writes *)

Section built.

Variables (cfg : BuildConfig) (closest : list Neighbor).

Lemma chain_dist_mono fuel : ∀ fuel' r s,
  chain_dist closest fuel r = Some s → (fuel ≤ fuel')%nat → chain_dist closest fuel' r = Some s.
Proof.
  induction fuel as [|fuel IH]; intros fuel' r s; cbn [chain_dist].
  - destruct fuel'; cbn [chain_dist]; destruct (closest !! r) as [c|]; try done;
      case_decide; done.
  - destruct (closest !! r) as [c|] eqn:E; [|done]. case_decide as Hc.
    + intros [= <-] _. destruct fuel'; cbn [chain_dist]; rewrite E; by rewrite decide_True.
    + destruct (chain_dist closest fuel (node c)) as [s'|] eqn:Es; [|done].
      cbn. intros [= <-] Hle. destruct fuel' as [|fuel']; [lia|]. cbn [chain_dist].
      rewrite E, decide_False by done. by rewrite (IH fuel' _ _ Es) by lia.
Qed.

Hypothesis Hpos : ∀ v c, closest !! v = Some c → node c ≠ v → 0 < distance c.

Lemma find_root_dist fuel : ∀ r d root rd,
  find_root closest fuel r d = Ok (root, rd) →
  ∃ s c, chain_dist closest fuel r = Some s ∧ 0 <= s
    ∧ closest !! root = Some c ∧ node c = root
    ∧ (0 <= d → d + s < 4294967296 → rd = d + s)
    ∧ (r ≠ root → 0 < s).
Proof.
  induction fuel as [|fuel IH]; intros r d root rd; cbn [find_root chain_dist];
    destruct (at_cases closest r) as [(c & Hc & ->)| ->]; cbn [mbind result_bind]; try done;
    rewrite Hc; case_decide as Hn; try done.
  - intros [= <- <-]. exists 0, c. repeat split; try done; lia.
  - intros [= <- <-]. exists 0, c. repeat split; try done; lia.
  - intros Hf. destruct (IH _ _ _ _ Hf) as (s & c' & Hs & Hs0 & Hc' & Hfix & Hrd & _).
    pose proof (Hpos r c Hc Hn) as Hd.
    exists (distance c + s), c'. rewrite Hs. cbn. split; [done|]. split; [lia|].
    split; [done|]. split; [done|]. split; [|lia].
    intros Hd0 Hlt. assert (Ha : add32 d (distance c) = d + distance c).
    { unfold add32, wrap32. apply Z.mod_small. lia. }
    rewrite Ha in Hrd. rewrite Hrd; lia.
Qed.

Lemma index_core_labels ci todo : ∀ idx idx',
  index_core cfg ci closest todo idx = Ok idx' → Forall (λ v, v ≠ 0%nat) todo →
  core_labels closest idx → core_labels closest idx' ∧ length (labels idx') = length (labels idx).
Proof.
  induction todo as [|v todo IH]; intros idx idx'; cbn [index_core].
  - by intros [= <-].
  - intros H Htodo Hcore. inv_bind H. apply Forall_cons in Htodo as [Hv Htodo].
    assert (Hstep : core_labels closest a1 ∧ length (labels a1) = length (labels idx)).
    { clear IH H. case_decide as Hc; inv_res; [|done]. unfold core_labels. cbn [labels heap].
      rewrite length_insert. split; [|done]. destruct Hcore as [Hl Hinj]. split.
      - intros u l. rewrite list_lookup_insert_Some. rewrite length_app. cbn [length].
        intros [(<- & <- & Hlt)|[Hne Hu]]; cbn.
        + match goal with Hx : labels idx !! _ = Some _ |- _ =>
            destruct (Hl _ _ Hx) as (Ho & Hp & _) end.
          split; [done|]. split; [done|]. intros b [= <-]. split; [lia|]. split; [done|]. eauto.
        + destruct (Hl _ _ Hu) as (Ho & Hp & Hcut). split; [done|]. split; [done|].
          intros b Hb. destruct (Hcut b Hb) as (Hb1 & Hb2 & Hb3). split; [lia|]. done.
      - intros u w lu lw b. rewrite !list_lookup_insert_Some.
        intros [(<- & <- & _)|[Hneu Hu]] [(<- & <- & _)|[Hnew Hw]]; cbn; try done.
        + intros [= <-] Hb. destruct (Hl _ _ Hw) as (_ & _ & Hcut).
          destruct (Hcut _ Hb) as [Hlt _]. lia.
        + intros Hb [= <-]. destruct (Hl _ _ Hu) as (_ & _ & Hcut).
          destruct (Hcut _ Hb) as [Hlt _]. lia.
        + by apply Hinj. }
    destruct Hstep as [Hc1 Hl1]. destruct (IH _ _ H Htodo Hc1) as [Hc2 Hl2].
    split; [done|]. congruence.
Qed.

Lemma index_core_reads ci todo : ∀ idx idx',
  index_core cfg ci closest todo idx = Ok idx' → ∀ v, v ∈ todo → (v < length ci)%nat.
Proof.
  induction todo as [|x todo IH]; intros idx idx' H v Hv; [by apply elem_of_nil in Hv|].
  cbn [index_core] in H. inv_bind H. apply elem_of_cons in Hv as [->|Hv]; [|by eapply IH].
  apply at_Ok in H1. by eapply lookup_lt_Some.
Qed.

Lemma index_periphery_labels todo : ∀ idx idx',
  index_periphery cfg closest todo idx = Ok idx' → NoDup todo →
  length (labels idx') = length (labels idx)
  ∧ (∀ v, v ∈ todo → hangs closest v →
       ∃ c root rd lr, closest !! v = Some c
         ∧ find_root closest (length closest) (node c) (distance c) = Ok (root, rd)
         ∧ labels idx !! root = Some lr
         ∧ labels idx' !! v = Some (mkLabel (cut_index lr) rd (node c)))
  ∧ ∀ v, ¬ (v ∈ todo ∧ hangs closest v) → labels idx' !! v = labels idx !! v.
Proof.
  induction todo as [|x todo IH]; intros idx idx'; cbn [index_periphery].
  - intros [= <-] _. split; [done|]. split; [by intros v ?%elem_of_nil|done].
  - intros H Hnd. inv_bind H. apply NoDup_cons in Hnd as [Hx Hnd].
    destruct (IH _ _ H Hnd) as (Hlen & HA & HB). clear IH H.
    apply at_Ok in H0. rename a into n. rename H0 into Hn.
    case_decide as Hcond.
    + apply bind_Ok_inv in H1 as (_ & _ & H1).
      apply bind_Ok_inv in H1 as ([root rd] & Hf & H1). cbv beta iota in H1.
      apply bind_Ok_inv in H1 as (lr & Hlr & H1).
      apply bind_Ok_inv in H1 as (_ & _ & H1).
      apply bind_Ok_inv in H1 as (lv & Hlv & H1). injection H1 as <-.
      apply at_Ok in Hlr, Hlv. cbn [labels] in *. rewrite length_insert in Hlen.
      assert (Hlt : (x < length (labels idx))%nat) by (by eapply lookup_lt_Some).
      split; [done|]. split.
      * intros v [->|Hv]%elem_of_cons Hh.
        -- exists n, root, rd, lr. split; [done|]. split; [done|]. split; [done|].
           rewrite HB by tauto. by apply list_lookup_insert_eq.
        -- destruct (HA v Hv Hh) as (c & root' & rd' & lr' & Hc & Hf' & Hr & Hl).
           exists c, root', rd', lr'. split; [done|]. split; [done|]. split; [|done].
           destruct (find_root_dist _ _ _ _ _ Hf') as (_ & c' & _ & _ & Hc' & Hfix & _).
           rewrite list_lookup_insert_ne in Hr; [done|].
           intros ->. destruct Hcond as [Hne _]. congruence.
      * intros v Hv. rewrite HB by (intros [? ?]; apply Hv; split; [by right|done]).
        apply list_lookup_insert_ne.
        intros <-. apply Hv. split; [left|]. exists n. tauto.
    + injection H1 as <-. split; [done|]. split.
      * intros v [->|Hv]%elem_of_cons Hh; [|by apply HA].
        destruct Hh as (c & Hc & Hh). exfalso. apply Hcond. congruence.
      * intros v Hv. apply HB. intros [? ?]. apply Hv. split; [by right|done].
Qed.

Lemma hangs_dec v : hangs closest v ∨ ¬ hangs closest v.
Proof.
  unfold hangs. destruct (closest !! v) as [c|]; [|right; by intros (? & ? & _)].
  destruct (decide (node c ≠ v ∧ node c ≠ NO_NODE)) as [H|H]; [left; eauto|].
  right. intros (c' & [= <-] & H'). tauto.
Qed.

End built.

(** X28 (ContractionIndex::ContractionIndex(ci, closest)): when vertex 0 is
    its own closest vertex, every other closest vertex lies at a positive
    distance and the distances along a chain of [closest] add up below
    2^32, the labels the constructor returns have offsets that grow away
    from the roots, the offset of a vertex with a block is the sum of the
    distances along its chain, and two vertices with the same block have a
    common ancestor. *)
Theorem build_label_forest cfg ci closest idx :
  ContractionIndex_build cfg ci closest = Ok idx →
  (∀ c, closest !! 0%nat = Some c → node c = 0%nat) →
  (∀ v c, closest !! v = Some c → node c ≠ v → 0 < distance c) →
  (∀ v s, chain_dist closest (S (length closest)) v = Some s → s < 4294967296) →
  label_forest (labels idx)
  ∧ (∀ v l, labels idx !! v = Some l → fci_empty (cut_index l) = false →
       chain_dist closest (S (length closest)) v = Some (distance_offset l))
  ∧ ∀ v w lv lw, labels idx !! v = Some lv → labels idx !! w = Some lw →
      cut_index lv = cut_index lw → fci_empty (cut_index lv) = false →
      ∃ r, rtc (up_step (labels idx)) v r ∧ rtc (up_step (labels idx)) w r.
Proof.
  intros Hb H0 Hpos Hwrap. unfold ContractionIndex_build in Hb.
  apply bind_Ok_inv in Hb as (_ & _ & Hb). apply bind_Ok_inv in Hb as (idx1 & Hcore & Hper).
  set (todo := seq 1 (length closest - 1)) in *.
  assert (Htodo : ∀ v, v ∈ todo ↔ (1 ≤ v < length closest)%nat).
  { intros v. unfold todo. rewrite elem_of_seq. lia. }
  destruct (index_core_labels cfg closest ci todo _ _ Hcore) as [[Hl1 Hinj] Hlen1].
  { apply Forall_forall. intros v Hv%Htodo. lia. }
  { split.
    - intros v l Hl. cbn [labels] in Hl. apply lookup_replicate in Hl as [-> _]. by cbn.
    - intros v w lv lw a Hv. cbn [labels] in Hv. apply lookup_replicate in Hv as [-> _]. done. }
  cbn [labels] in Hlen1. rewrite length_replicate in Hlen1.
  pose proof (index_core_reads cfg closest ci todo _ _ Hcore) as Hreads.
  destruct (index_periphery_labels cfg closest Hpos todo _ _ Hper) as (Hlen & HA & HB).
  { apply NoDup_seq. }
  (* a vertex that hangs off another one *)
  assert (Hhang : ∀ v, v ≠ 0%nat → hangs closest v →
    ∃ c root rd lr s, closest !! v = Some c ∧ node c ≠ v ∧ node c ≠ 0%nat
      ∧ find_root closest (length closest) (node c) (distance c) = Ok (root, rd)
      ∧ labels idx1 !! root = Some lr ∧ labels idx !! root = Some lr
      ∧ labels idx !! v = Some (mkLabel (cut_index lr) rd (node c))
      ∧ chain_dist closest (length closest) (node c) = Some s ∧ 0 <= s
      ∧ rd = distance c + s
      ∧ chain_dist closest (S (length closest)) v = Some rd).
  { intros v Hv Hh. pose proof Hh as (c0 & Hc0 & Hn1 & Hn2).
    assert (Hin : v ∈ todo) by (apply Htodo; apply lookup_lt_Some in Hc0; lia).
    destruct (HA v Hin Hh) as (c & root & rd & lr & Hc & Hf & Hr & Hl).
    assert (c0 = c) as -> by congruence.
    destruct (find_root_dist closest Hpos _ _ _ _ _ Hf) as (s & c' & Hs & Hs0 & Hc' & Hfix & Hrd & _).
    assert (Hchain : chain_dist closest (S (length closest)) v = Some (distance c + s)).
    { cbn [chain_dist]. rewrite Hc, decide_False by done. by rewrite Hs. }
    pose proof (Hwrap _ _ Hchain) as Hlt. pose proof (Hpos v c Hc Hn1) as Hd.
    rewrite Hrd in * by lia.
    exists c, root, (distance c + s), lr, s. repeat (split; [done|]).
    split; [|done]. rewrite HB; [done|]. intros [_ (cr & Hcr & Hne & _)]. congruence. }
  (* any other vertex *)
  assert (Hrest : ∀ v l, ¬ (v ≠ 0%nat ∧ hangs closest v) → labels idx !! v = Some l →
    labels idx1 !! v = Some l ∧ distance_offset l = 0 ∧ parent l = 0%nat
    ∧ ∀ a, cut_index l = Some a → v ≠ 0%nat ∧ ∃ c, closest !! v = Some c ∧ node c = v).
  { intros v l Hn Hl. rewrite HB in Hl.
    2:{ intros [Hin Hh]. apply Hn. split; [|done]. apply Htodo in Hin. lia. }
    split; [done|]. destruct (Hl1 v l Hl) as (Ho & Hp & Hcut). split; [done|]. split; [done|].
    intros a Ha. destruct (Hcut a Ha) as (_ & Hv & Hc). done. }
  assert (Hcases : ∀ v, (v ≠ 0%nat ∧ hangs closest v) ∨ ¬ (v ≠ 0%nat ∧ hangs closest v)).
  { intros v. destruct (decide (v = 0%nat)) as [->|Hv]; [right; tauto|].
    destruct (hangs_dec closest v); [left|right]; tauto. }
  assert (Hforest : label_forest (labels idx)).
  { intros v l Hl. destruct (Hcases v) as [[Hv Hh]|Hn].
    - destruct (Hhang v Hv Hh)
        as (c & root & rd & lr & s & Hc & Hn1 & Hn2 & Hf & _ & _ & Hlv & Hs & Hs0 & -> & Hch).
      assert (l = mkLabel (cut_index lr) (distance c + s) (node c)) as -> by congruence.
      cbn [distance_offset parent].
      pose proof (Hwrap _ _ Hch). pose proof (Hpos v c Hc Hn1).
      split; [lia|]. intros _.
      assert (Hplt : (node c < length closest)%nat).
      { destruct (length closest) as [|f] eqn:Ef; cbn [chain_dist] in Hs;
          destruct (closest !! node c) eqn:E; try done; apply lookup_lt_Some in E; lia. }
      assert (Hpin : node c ∈ todo) by (apply Htodo; lia).
      destruct (lookup_lt_is_Some_2 (labels idx) (node c)) as [lp Hlp].
      { rewrite Hlen, Hlen1. by apply Hreads. }
      exists lp. split; [done|].
      destruct (Hcases (node c)) as [[Hp Hhp]|Hnp].
      + destruct (Hhang (node c) Hp Hhp)
          as (cp & rootp & rdp & lrp & sp & Hcp & Hp1 & Hp2 & _ & _ & _ & Hlp' & Hsp & _ & -> & _).
        assert (lp = mkLabel (cut_index lrp) (distance cp + sp) (node cp)) as -> by congruence.
        cbn [distance_offset].
        assert (s = distance cp + sp); [|lia].
        destruct (length closest) as [|f] eqn:Ef; [lia|]. cbn [chain_dist] in Hs.
        rewrite Hcp, decide_False in Hs by done.
        destruct (chain_dist closest f (node cp)) as [s0|] eqn:Es0; [|done].
        injection Hs as <-. rewrite (chain_dist_mono closest f (S f) _ _ Es0) in Hsp by lia.
        congruence.
      + destruct (Hrest _ _ Hnp Hlp) as (_ & -> & _). lia.
    - destruct (Hrest v l Hn Hl) as (_ & -> & _). split; [lia|done]. }
  split; [done|].
  (* the root of a vertex with a block *)
  assert (Hroot : ∀ v l, labels idx !! v = Some l → fci_empty (cut_index l) = false →
    ∃ r lr a, labels idx1 !! r = Some lr ∧ cut_index lr = Some a ∧ cut_index l = Some a
      ∧ rtc (up_step (labels idx)) v r
      ∧ chain_dist closest (S (length closest)) v = Some (distance_offset l)).
  { assert (Hreach : ∀ fuel x d root rd, find_root closest fuel x d = Ok (root, rd) →
              root ≠ 0%nat → rtc (up_step (labels idx)) x root).
    { induction fuel as [|fuel IH]; intros x d root rd; cbn [find_root];
        destruct (at_cases closest x) as [(c & Hc & ->)| ->]; cbn [mbind result_bind]; try done;
        case_decide as Hfix; try done; try (intros [= <- <-] _; done).
      intros Hf Hr. specialize (IH _ _ _ _ Hf Hr).
      assert (Hx0 : x ≠ 0%nat) by (intros ->; by apply Hfix, H0).
      assert (Hc0 : node c ≠ 0%nat).
      { intros E. rewrite E in Hf. destruct fuel; cbn [find_root] in Hf;
          destruct (at_cases closest 0%nat) as [(c0 & Hc0 & Hat)|Hat];
          rewrite Hat in Hf; cbn [mbind result_bind] in Hf; try done;
          rewrite decide_True in Hf by (by apply H0); congruence. }
      destruct (Hhang x Hx0)
        as (c' & root' & rd' & lr & s & Hc' & Hn1 & Hn2 & _ & _ & _ & Hlx & Hs & Hs0 & -> & _).
      { exists c. tauto. }
      assert (c' = c) as -> by congruence.
      eapply rtc_l; [|exact IH]. eexists. split; [exact Hlx|]. cbn [distance_offset parent].
      split; [|done]. pose proof (Hpos x c Hc Hfix). lia. }
    intros v l Hl Hne. destruct (cut_index l) as [a|] eqn:Ea; [|done].
    destruct (Hcases v) as [[Hv Hh]|Hn].
    - destruct (Hhang v Hv Hh)
        as (c & root & rd & lr & s & Hc & Hn1 & Hn2 & Hf & Hlr1 & Hlr & Hlv & Hs & Hs0 & -> & Hch).
      assert (l = mkLabel (cut_index lr) (distance c + s) (node c)) as -> by congruence.
      cbn [cut_index distance_offset] in *.
      exists root, lr, a. split; [done|]. split; [done|]. split; [done|]. split; [|done].
      destruct (Hl1 root lr Hlr1) as (_ & _ & Hcut). destruct (Hcut a Ea) as (_ & Hr0 & _).
      eapply rtc_l; [|by eapply Hreach].
      eexists. split; [exact Hlv|]. cbn [distance_offset parent]. split; [|done].
      pose proof (Hpos v c Hc Hn1). lia.
    - destruct (Hrest v l Hn Hl) as (Hl1v & Ho & _ & Hcut).
      destruct (Hcut a Ea) as (_ & c & Hc & Hfix).
      exists v, l, a. split; [done|]. split; [done|]. split; [done|]. split; [done|].
      cbn [chain_dist]. rewrite Hc, decide_True by done. by rewrite Ho. }
  split.
  - intros v l Hl Hne. by destruct (Hroot v l Hl Hne) as (r & lr & a & _ & _ & _ & _ & ?).
  - intros v w lv lw Hv Hw Heq Hne.
    destruct (Hroot v lv Hv Hne) as (r & lr & a & Hr & Ha & Hva & Hreach & _).
    destruct (Hroot w lw Hw) as (r' & lr' & a' & Hr' & Ha' & Hwa & Hreach' & _);
      [by rewrite <- Heq|].
    assert (a' = a) as -> by congruence.
    assert (r' = r) as -> by (by eapply Hinj).
    eauto.
Qed.

Lemma build_label_forest_witness :
  label_forest (labels pendant_index)
  ∧ (∀ v l, labels pendant_index !! v = Some l → fci_empty (cut_index l) = false →
       chain_dist pendant_closest (S (length pendant_closest)) v = Some (distance_offset l))
  ∧ ∀ v w lv lw, labels pendant_index !! v = Some lv → labels pendant_index !! w = Some lw →
      cut_index lv = cut_index lw → fci_empty (cut_index lv) = false →
      ∃ r, rtc (up_step (labels pendant_index)) v r ∧ rtc (up_step (labels pendant_index)) w r.
Proof.
  apply (build_label_forest spec_config (kite_sc.2 ++ replicate 3 CutIndex.empty_index)
           pendant_closest pendant_index).
  - vm_compute. reflexivity.
  - intros c [= <-]. reflexivity.
  - intros v c Hc Hn.
    do 8 (destruct v as [|v]; [injection Hc as <-; cbn in *; first [done | lia]|]).
    done.
  - intros v s Hs.
    do 8 (destruct v as [|v]; [vm_compute in Hs; injection Hs as <-; lia|]).
    done.
Defined.

(** ** Updates below a contracted vertex *)

Lemma cs_push_children ci next ns : ∀ stack,
  (∀ n, n ∈ ns → is_Some (labels ci !! node n)) →
  cs_push ci next ns stack = Ok (reverse (children (labels ci) next ns) ++ stack).
Proof.
  induction ns as [|n ns IH]; intros stack Hr; cbn [cs_push]; [done|].
  destruct (Hr n) as [l Hl]; [left|].
  unfold get_contraction_label, at_. rewrite Hl. cbn [mbind result_bind].
  unfold children. rewrite filter_cons. rewrite Hl. cbn [fmap option_fmap option_map].
  case_decide as Hp.
  - rewrite decide_True by (by rewrite Hp). rewrite IH by (intros; apply Hr; by right).
    rewrite fmap_cons, reverse_cons, <- app_assoc. done.
  - rewrite decide_False by (intros [= ?]; done). apply IH. intros; apply Hr; by right.
Qed.

Lemma children_ext ls ls' next ns :
  (∀ n, n ∈ ns → parent <$> ls !! node n = parent <$> ls' !! node n) →
  children ls next ns = children ls' next ns.
Proof.
  intros H. unfold children. f_equal. induction ns as [|n ns IH]; [done|].
  rewrite !filter_cons. rewrite (H n) by left. rewrite IH by (intros; apply H; by right). done.
Qed.

Lemma elem_of_children ls next ns e :
  e ∈ children ls next ns ↔
  ∃ n l, n ∈ ns ∧ ls !! node n = Some l ∧ parent l = sn_node next
       ∧ e = mkSearchNode (add32 (sn_distance next) (distance n)) (node n).
Proof.
  unfold children. rewrite list_elem_of_fmap. split.
  - intros (n & -> & Hn). apply list_elem_of_filter in Hn as [Hp Hn].
    destruct (ls !! node n) as [l|] eqn:E; [|done]. injection Hp as Hp. by exists n, l.
  - intros (n & l & Hn & Hl & Hp & ->). exists n. split; [done|].
    apply list_elem_of_filter. split; [|done]. by rewrite Hl, <- Hp.
Qed.

Lemma children_NoDup ls next ns :
  NoDup (node <$> ns) → NoDup (sn_node <$> children ls next ns).
Proof.
  unfold children. rewrite <- list_fmap_compose.
  induction ns as [|n ns IH]; [constructor|]. rewrite fmap_cons. intros [Hn Hnd]%NoDup_cons.
  rewrite filter_cons. case_decide; [|by apply IH]. rewrite fmap_cons. cbn.
  apply NoDup_cons. split; [|by apply IH]. intros Hin. apply Hn.
  apply list_elem_of_fmap in Hin as (m & Hm & Hin). apply list_elem_of_filter in Hin as [_ Hin].
  apply list_elem_of_fmap. exists m. done.
Qed.

Section below_x.

Variables (g : Graph) (ls0 : list ContractionLabel) (x : NodeID) (d_new : Z).
Hypothesis Hranked : offsets_ranked g ls0.

Lemma below_rank y w : below g ls0 x y w → y = x ∨ offset_of ls0 x < offset_of ls0 y.
Proof.
  induction 1 as [|u nd n l w Hb IH Hnd Hn Hl Hp]; [by left|]. right.
  destruct Hranked as (_ & _ & Hr). destruct (Hr u nd n Hnd Hn) as (l' & Hl' & Hlt).
  assert (l' = l) as -> by congruence. specialize (Hlt Hp). destruct IH as [->|IH]; lia.
Qed.

Lemma cs_search_spec fuel : ∀ ci stack done,
  cs_inv g ls0 x d_new ci stack done →
  (length ls0 - length done < fuel)%nat →
  ∃ ci' done', cs_search g fuel ci stack = Ok ci' ∧ cs_inv g ls0 x d_new ci' [] done'
    ∧ heap ci' = heap ci.
Proof.
  induction fuel as [|fuel IH]; intros ci stack done Hinv Hfuel; [lia|].
  destruct stack as [|e stack]; [by exists ci, done|]. cbn [cs_search].
  destruct Hinv as (Hnd & Hstart & Hbelow & Hpar & Hclosed & Hlen & Hlab).
  change ((e :: stack) ++ done) with (e :: stack ++ done) in *.
  pose proof Hranked as (Hlen0 & Hnodup & Hrank).
  destruct (Hbelow e) as ([l0 Hl0] & w & Hw & Hdist); [left|].
  assert (Hcount : (length (e :: stack ++ done) ≤ length ls0)%nat).
  { rewrite <- (length_fmap sn_node). apply NoDup_bounded_length; [done|].
    intros y Hy. apply list_elem_of_fmap in Hy as (e' & -> & He').
    destruct (Hbelow e' He') as [[l' Hl'] _]. by eapply lookup_lt_Some. }
  cbn [length] in Hcount. rewrite length_app in Hcount.
  destruct (Hlab _ _ Hl0) as (lu & Hlu & Hcut & Hpu & _ & _).
  unfold update_distance_offset, at_. rewrite Hlu. cbn [mbind result_bind].
  destruct (lookup_lt_is_Some_2 (node_data g) (sn_node e)) as [nd Hnode].
  { apply lookup_lt_Some in Hl0. lia. }
  rewrite Hnode. cbn [mbind result_bind].
  set (ci' := mkIndex (<[sn_node e := mkLabel (cut_index lu) (sn_distance e) (parent lu)]>
                         (labels ci)) (heap ci)).
  assert (Hpar' : ∀ y, parent <$> labels ci' !! y = parent <$> ls0 !! y).
  { intros y. unfold ci'; cbn [labels]. destruct (decide (y = sn_node e)) as [->|Hne].
    - rewrite list_lookup_insert_eq by (by eapply lookup_lt_Some). rewrite Hl0. cbn. by f_equal.
    - rewrite list_lookup_insert_ne by done. destruct (ls0 !! y) as [l|] eqn:E.
      + destruct (Hlab _ _ E) as (l' & -> & _ & Hp' & _). cbn. by f_equal.
      + assert (labels ci !! y = None) as ->; [|done].
        apply lookup_ge_None. apply lookup_ge_None in E. lia. }
  rewrite cs_push_children.
  2:{ intros n Hn. destruct (Hrank _ _ n Hnode Hn) as (l & Hl & _).
      apply lookup_lt_is_Some_2. unfold ci'; cbn [labels]. rewrite length_insert, Hlen.
      by eapply lookup_lt_Some. }
  cbn [mbind result_bind].
  rewrite (children_ext (labels ci') ls0) by (intros; apply Hpar').
  set (ch := children ls0 e (neighbors nd)).
  assert (Hch : ∀ c, c ∈ ch ↔ ∃ n l, n ∈ neighbors nd ∧ ls0 !! node n = Some l
                       ∧ parent l = sn_node e
                       ∧ c = mkSearchNode (add32 (sn_distance e) (distance n)) (node n))
    by (intros; apply elem_of_children).
  assert (Hunew : sn_node e ∉ sn_node <$> done).
  { rewrite fmap_cons, fmap_app in Hnd. apply NoDup_cons in Hnd as [Hnd _].
    intros Hin. apply Hnd, elem_of_app. by right. }
  assert (Hfresh : ∀ c, c ∈ ch → sn_node c ∉ sn_node <$> (e :: stack ++ done)).
  { intros c Hc Hin. apply Hch in Hc as (n & l & Hn & Hl & Hp & ->). cbn [sn_node] in Hin.
    apply list_elem_of_fmap in Hin as (e' & He'n & He').
    destruct (Hrank _ _ n Hnode Hn) as (l' & Hl' & Hlt).
    assert (l' = l) as -> by congruence. specialize (Hlt Hp).
    destruct (Hpar e' He') as [Hx|(l'' & Hl'' & Hin)].
    - rewrite <- He'n in Hx. rewrite Hx in Hlt.
      destruct (below_rank _ _ Hw) as [Hu|Hu]; [rewrite Hu in Hlt|]; lia.
    - rewrite <- He'n in Hl''. assert (l'' = l) as -> by congruence.
      rewrite Hp in Hin. done. }
  assert (Hel : ∀ c, c ∈ (reverse ch ++ stack) ++ e :: done ↔ c ∈ ch ∨ c ∈ e :: stack ++ done).
  { intros c. rewrite !elem_of_app, !elem_of_cons, elem_of_reverse, elem_of_app. tauto. }
  apply (IH ci' (reverse ch ++ stack) (e :: done)); [|cbn [length]; lia].
  split; [|split; [|split; [|split; [|split; [|split]]]]].
  - rewrite fmap_app, fmap_app, fmap_reverse, fmap_cons.
    rewrite fmap_cons, fmap_app in Hnd. apply NoDup_cons in Hnd as [He Hnd].
    apply NoDup_app in Hnd as (Hs & Hsd & Hd).
    assert (Hf : ∀ y, y ∈ sn_node <$> ch → y ∉ sn_node <$> (e :: stack ++ done)).
    { intros y Hy. apply list_elem_of_fmap in Hy as (c & -> & Hc). by apply Hfresh. }
    rewrite fmap_cons, fmap_app in Hf.
    apply NoDup_app. split; [|split].
    + apply NoDup_app. split; [rewrite reverse_Permutation; apply children_NoDup; by eapply Hnodup|].
      split; [|done]. intros y Hy Hy2. apply (proj1 (elem_of_reverse _ _)) in Hy.
      apply (Hf y Hy).
      right. apply elem_of_app. by left.
    + intros y [Hy|Hy]%elem_of_app [->|Hy2]%elem_of_cons;
        try apply (proj1 (elem_of_reverse _ _)) in Hy.
      * apply (Hf _ Hy). left.
      * apply (Hf _ Hy). right. apply elem_of_app. by right.
      * apply He, elem_of_app. by left.
      * by apply (Hsd y).
    + apply NoDup_cons. split; [|done]. intros Hin. apply He, elem_of_app. by right.
  - apply Hel. right. apply Hstart.
  - intros c Hc. apply Hel in Hc as [Hc|Hc]; [|by apply Hbelow].
    apply Hch in Hc as (n & l & Hn & Hl & Hp & ->). cbn [sn_node sn_distance].
    split; [by eexists|]. exists (w + distance n). split; [by eapply below_step|].
    rewrite Hdist. unfold add32, wrap32. rewrite Zplus_mod_idemp_l. f_equal. lia.
  - intros c Hc. apply Hel in Hc as [Hc|Hc].
    + right. apply Hch in Hc as (n & l & Hn & Hl & Hp & ->). cbn [sn_node].
      exists l. split; [done|]. rewrite Hp, fmap_cons. left.
    + destruct (Hpar c Hc) as [?|(l & Hl & Hin)]; [by left|]. right.
      exists l. split; [done|]. rewrite fmap_cons. by right.
  - intros c nd' n l [->|Hc]%elem_of_cons Hnd' Hn Hl Hp; apply Hel.
    + left. apply Hch. assert (nd' = nd) as -> by congruence. by exists n, l.
    + right. by eapply Hclosed.
  - unfold ci'; cbn [labels]. by rewrite length_insert.
  - intros y l Hl. destruct (decide (y = sn_node e)) as [->|Hne].
    + unfold ci'; cbn [labels]. rewrite list_lookup_insert_eq by (by eapply lookup_lt_Some).
      eexists. split; [done|]. cbn [cut_index parent distance_offset].
      assert (l = l0) as -> by congruence. split; [done|]. split; [done|]. split.
      * intros c [->|Hc]%elem_of_cons Hcn; [done|]. exfalso. apply Hunew.
        apply list_elem_of_fmap. by exists c.
      * intros Hn. exfalso. apply Hn. rewrite fmap_cons. left.
    + unfold ci'; cbn [labels]. rewrite list_lookup_insert_ne by done.
      destruct (Hlab _ _ Hl) as (l' & Hl' & Hc' & Hp' & Hd1 & Hd2).
      exists l'. split; [done|]. split; [done|]. split; [done|]. split.
      * intros c [->|Hc]%elem_of_cons Hcn; [done|]. by apply Hd1.
      * intros Hn. apply Hd2. intros Hin. apply Hn. rewrite fmap_cons. by right.
Qed.

End below_x.

Lemma cs_search_fuel g f1 : ∀ f2 ci stack r,
  (f1 ≤ f2)%nat → cs_search g f1 ci stack = Ok r → cs_search g f2 ci stack = Ok r.
Proof.
  induction f1 as [|f1 IH]; intros f2 ci stack r Hle H.
  - destruct stack; [by destruct f2|done].
  - destruct f2 as [|f2]; [lia|]. cbn [cs_search] in *. destruct stack as [|e stack]; [done|].
    destruct (update_distance_offset ci _ _) as [ci'|]; cbn [mbind result_bind] in *; [|done].
    destruct (at_ (node_data g) _) as [nd|]; cbn [mbind result_bind] in *; [|done].
    destruct (cs_push _ _ _ _) as [st|]; cbn [mbind result_bind] in *; [|done].
    apply (IH f2); [lia|done].
Qed.

(** X29 (Graph::contract_seq): for one update [(d_old, d_new, x)] on labels
    whose children have larger offsets than their parents, the labels are
    left alone when the offset of [x] is not [d_old]; otherwise the search
    ends within [labels.size()] rounds, keeps every block and parent, gives
    every vertex below [x] the offset [d_new] plus the weight of the edges
    leading down to it, in [distance_t] arithmetic, and leaves all other
    offsets as they were. *)
Theorem contract_seq_subtree g ci x lx d_old d_new :
  offsets_ranked g (labels ci) → labels ci !! x = Some lx → 0 <= d_new < 4294967296 →
  (d_old ≠ distance_offset lx → ∀ fuel, contract_seq g fuel ci [(d_old, d_new, x)] = Ok ci)
  ∧ (d_old = distance_offset lx →
     ∃ ci', (∀ fuel, (length (labels ci) < fuel)%nat →
               contract_seq g fuel ci [(d_old, d_new, x)] = Ok ci')
       ∧ heap ci' = heap ci ∧ length (labels ci') = length (labels ci)
       ∧ ∀ y l, labels ci !! y = Some l →
           ∃ l', labels ci' !! y = Some l' ∧ cut_index l' = cut_index l ∧ parent l' = parent l
             ∧ (∀ w, below g (labels ci) x y w → distance_offset l' = wrap32 (d_new + w))
             ∧ ((∀ w, ¬ below g (labels ci) x y w) → distance_offset l' = distance_offset l)).
Proof.
  intros Hranked Hx Hd.
  assert (Hhead : ∀ fuel, contract_seq g fuel ci [(d_old, d_new, x)] =
            (if negb (d_old =? distance_offset lx) then Ok ci
             else ci' ← cs_search g fuel ci [mkSearchNode d_new x]; Ok ci')).
  { intros fuel. unfold contract_seq. cbn [util.sort_by foldr util.insert_by cs_loop].
    unfold get_contraction_label, at_. rewrite Hx. cbn [mbind result_bind]. done. }
  split.
  - intros Hne fuel. rewrite Hhead. by rewrite (proj2 (Z.eqb_neq _ _) Hne).
  - intros ->.
    assert (Hinv : cs_inv g (labels ci) x d_new ci [mkSearchNode d_new x] []).
    { split; [apply NoDup_singleton|]. split; [left|]. cbn [app]. split; [|split; [|split; [|split]]].
      - intros e ->%list_elem_of_singleton. cbn [sn_node sn_distance]. split; [by eexists|].
        exists 0. split; [constructor|]. unfold wrap32. rewrite Z.add_0_r, Z.mod_small; lia.
      - intros e ->%list_elem_of_singleton. by left.
      - by intros e nd n l ?%elem_of_nil.
      - done.
      - intros y l Hl. exists l. split; [done|]. split; [done|]. split; [done|].
        split; [by intros e ?%elem_of_nil|done]. }
    destruct (cs_search_spec g (labels ci) x d_new Hranked (S (length (labels ci))) ci
                [mkSearchNode d_new x] [] Hinv) as (ci' & done' & Hs & Hfin & Hheap);
      [cbn [length]; lia|].
    destruct Hfin as (Hnd & Hstart & Hbelow & _ & Hclosed & Hlen & Hlab). cbn [app] in *.
    exists ci'. split; [|split; [done|split; [done|]]].
    + intros fuel Hfuel. rewrite Hhead, Z.eqb_refl. cbn [negb].
      rewrite (cs_search_fuel g (S (length (labels ci))) fuel _ _ _ ltac:(lia) Hs). done.
    + assert (Hreach : ∀ y w, below g (labels ci) x y w →
                ∃ e, e ∈ done' ∧ sn_node e = y ∧ sn_distance e = wrap32 (d_new + w)).
      { induction 1 as [|u nd n l w Hb (e & He & Hen & Hed) Hu Hn Hl Hp].
        - exists (mkSearchNode d_new x). split; [done|]. split; [done|]. cbn.
          unfold wrap32. rewrite Z.add_0_r, Z.mod_small; lia.
        - eexists. split; [eapply (Hclosed e nd n l); try done; congruence|].
          cbn [sn_node sn_distance]. split; [done|]. rewrite Hed.
          unfold add32, wrap32. rewrite Zplus_mod_idemp_l. f_equal. lia. }
      intros y l Hl. destruct (Hlab y l Hl) as (l' & Hl' & Hc & Hp & Hd1 & Hd2).
      exists l'. split; [done|]. split; [done|]. split; [done|]. split.
      * intros w Hw. destruct (Hreach y w Hw) as (e & He & Hen & Hed).
        by rewrite (Hd1 e He Hen).
      * intros Hn. apply Hd2. intros Hin. apply list_elem_of_fmap in Hin as (e & -> & He).
        destruct (Hbelow e He) as [_ (w & Hw & _)]. by apply (Hn w).
Qed.

Lemma contract_seq_subtree_witness :
  (3 ≠ distance_offset (mkLabel (Some 0%nat) 3 1) →
   ∀ fuel, contract_seq pendant_graph fuel pendant_index [(3, 10, 5%nat)] = Ok pendant_index)
  ∧ (3 = distance_offset (mkLabel (Some 0%nat) 3 1) →
     ∃ ci', (∀ fuel, (length (labels pendant_index) < fuel)%nat →
               contract_seq pendant_graph fuel pendant_index [(3, 10, 5%nat)] = Ok ci')
       ∧ heap ci' = heap pendant_index
       ∧ length (labels ci') = length (labels pendant_index)
       ∧ ∀ y l, labels pendant_index !! y = Some l →
           ∃ l', labels ci' !! y = Some l' ∧ cut_index l' = cut_index l ∧ parent l' = parent l
             ∧ (∀ w, below pendant_graph (labels pendant_index) 5 y w →
                  distance_offset l' = wrap32 (10 + w))
             ∧ ((∀ w, ¬ below pendant_graph (labels pendant_index) 5 y w) →
                  distance_offset l' = distance_offset l)).
Proof.
  apply (contract_seq_subtree pendant_graph pendant_index 5 (mkLabel (Some 0%nat) 3 1) 3 10).
  - split; [cbn; lia|]. split.
    + intros u nd Hu.
      do 10 (destruct u as [|u]; [injection Hu as <-; by apply (bool_decide_unpack _)|]).
      done.
    + intros u nd n Hu Hn.
      do 10 (destruct u as [|u];
        [injection Hu as <-; cbn in Hn;
         repeat (apply elem_of_cons in Hn as [->|Hn];
                 [eexists; split; [reflexivity|];
                  cbn; intros Hp; first [discriminate Hp | (unfold offset_of; cbn; lia)]|]);
         by apply elem_of_nil in Hn|]).
      done.
  - reflexivity.
  - lia.
Defined.

(** ** A negative weight in a graph file *)

(** X30: [read_graph] takes a line [a u v -x] with a minus sign before the
    weight without complaint: [operator>>] negates the number in 32 bits, so
    [add_edge] is called with the weight 2^32 - x and the loop goes on after
    the number. *)
Theorem read_graph_negative_weight cfg fuel (a b : nat) x rest v w d g :
  Z.of_nat a <= UINT32_MAX → Z.of_nat b <= UINT32_MAX → 0 < x <= UINT32_MAX →
  read_lines cfg (S fuel)
    (mkStream ("a"%char :: " "%char :: print_dec (Z.of_nat a) ++ " "%char :: print_dec (Z.of_nat b)
               ++ " "%char :: "-"%char :: print_dec x ++ newline :: rest) false false) v w d g
  = g' ← add_edge cfg g a b (4294967296 - x) true;
    read_lines cfg fuel (mkStream (newline :: rest) false false)
      (Some (Z.of_nat a)) (Some (Z.of_nat b)) (Some (4294967296 - x)) g'.
Proof.
  intros Ha Hb Hx. cbn [read_lines]. unfold get_char, good. cbn [failbit eofbit chars negb andb skipws].
  change (isspace "a") with false. cbv iota.
  rewrite bool_decide_eq_false_2 by done. rewrite bool_decide_eq_true_2 by done.
  unfold get_edge.
  rewrite (get_u32_printed (Z.of_nat a) " "%char _ v); [|lia|done].
  rewrite (get_u32_printed (Z.of_nat b) " "%char _ w); [|lia|done].
  rewrite (get_u32_printed_negative x newline _ d); [|lia|done].
  unfold add_parsed_edge. cbn [initialised mbind result_bind]. rewrite !Nat2Z.id.
  replace (wrap32 (- x)) with (4294967296 - x); [done|].
  unfold wrap32, UINT32_MAX in *. symmetry.
  rewrite <- (Z.mod_small (4294967296 - x) 4294967296) by lia.
  replace (4294967296 - x) with (- x + 1 * 4294967296) by lia. by rewrite Z.mod_add.
Qed.

Lemma read_graph_negative_weight_witness :
  read_lines spec_config 8
    (mkStream (list_ascii_of_string "a 1 2 -5
") false false) None None None (mkGraph (replicate 5 (mkNode 0 [])) [1; 2]%nat 0)
  = Ok (mkGraph [mkNode 0 []; mkNode 0 [mkNeighbor 2 4294967291 0];
                 mkNode 0 [mkNeighbor 1 4294967291 0]; mkNode 0 []; mkNode 0 []]
          [1; 2]%nat 0).
Proof.
  rewrite (read_graph_negative_weight spec_config 7 1 2 5 [] None None None); [|done..].
  by vm_compute.
Defined.
